(** * Chen ER diagram layout and SVG rendering (useChenLayout)

    A shallow embedding of the layout engine of the ER tool: style
    normalisation, text sizing, node envelopes, the backbone layout
    (connected components, breadth-first depths, levels), attribute
    placement, scene composition and the SVG serializer, followed by the
    properties established about them.

    Modelling conventions.
    - A JavaScript number is an exact rational extended with NaN,
      +Infinity and -Infinity ([num]).  Rounding to binary64, overflow
      and the sign of zero are not modelled; every finite result is kept
      in lowest terms so that Leibniz equality is equality of values.
    - Loop counters, array lengths and breadth-first depths are [nat].
    - A JavaScript string is a Rocq [string] holding its UTF-8 bytes;
      [codePoints] recovers the code points a for-of loop iterates.
    - Map is [gmap], the visited Set is [gset], a Set that is iterated
      (adjacency) is a duplicate-free list in insertion order.
    - Node objects are mutated in place and shared between the arrays
      and maps of the layout: they live in a store (a list), and arrays
      and maps hold references (indices into the store).
    - The two while loops of the breadth-first walks take fuel.
    - Math.cos, Math.sin, Math.atan2, String.prototype.localeCompare and
      the decimal rendering of a non-integral number belong to the
      JavaScript engine and are parameters of the development. *)

From Stdlib Require Import QArith Qround Qabs Lqa ZArith List Ascii String DecimalString Sorted.
From stdpp Require Import gmap strings list.

Open Scope string_scope.
Open Scope list_scope.

(** ** Numbers *)

Inductive num : Type :=
| NaN
| NegInf
| Fin (q : Q)
| PosInf.

Definition fin (q : Q) : num := Fin (Qred q).
Definition ofZ (z : Z) : num := Fin (inject_Z z).
Definition ofNat (n : nat) : num := ofZ (Z.of_nat n).

Definition num_eqb (a b : num) : bool :=
  match a, b with
  | NaN, NaN | NegInf, NegInf | PosInf, PosInf => true
  | Fin x, Fin y => Qeq_bool x y
  | _, _ => false
  end.

Definition Qsign (q : Q) : comparison := (q ?= 0)%Q.

Definition nneg (a : num) : num :=
  match a with
  | NaN => NaN
  | NegInf => PosInf
  | PosInf => NegInf
  | Fin x => fin (- x)
  end.

Definition nadd (a b : num) : num :=
  match a, b with
  | NaN, _ | _, NaN => NaN
  | PosInf, NegInf | NegInf, PosInf => NaN
  | PosInf, _ | _, PosInf => PosInf
  | NegInf, _ | _, NegInf => NegInf
  | Fin x, Fin y => fin (x + y)
  end.

Definition nsub (a b : num) : num := nadd a (nneg b).

Definition inf_of_sign (c : comparison) : num :=
  match c with
  | Gt => PosInf
  | Lt => NegInf
  | Eq => NaN
  end.

Definition nsign (a : num) : comparison :=
  match a with
  | NaN => Eq
  | NegInf => Lt
  | PosInf => Gt
  | Fin x => Qsign x
  end.

Definition nmul (a b : num) : num :=
  match a, b with
  | NaN, _ | _, NaN => NaN
  | Fin x, Fin y => fin (x * y)
  | _, _ =>
      match nsign a, nsign b with
      | Eq, _ | _, Eq => NaN
      | Gt, Gt | Lt, Lt => PosInf
      | _, _ => NegInf
      end
  end.

Definition ndiv (a b : num) : num :=
  match a, b with
  | NaN, _ | _, NaN => NaN
  | Fin x, Fin y =>
      if Qeq_bool y 0 then inf_of_sign (Qsign x) else fin (x / y)
  | Fin _, _ => Fin 0
  | _, Fin y =>
      match nsign a, Qsign y with
      | Gt, Lt | Lt, Gt => NegInf
      | _, _ => a
      end
  | _, _ => NaN
  end.

(** JavaScript comparison operators: false as soon as one side is NaN. *)
Definition nltb (a b : num) : bool :=
  match a, b with
  | NaN, _ | _, NaN => false
  | _, NegInf => false
  | NegInf, _ => true
  | PosInf, _ => false
  | _, PosInf => true
  | Fin x, Fin y => negb (Qle_bool y x)
  end.

Definition nleb (a b : num) : bool :=
  match a, b with
  | NaN, _ | _, NaN => false
  | NegInf, _ => true
  | _, PosInf => true
  | _, NegInf => false
  | PosInf, _ => false
  | Fin x, Fin y => Qle_bool x y
  end.

Definition ngtb (a b : num) : bool := nltb b a.
Definition ngeb (a b : num) : bool := nleb b a.

(** Math.max and Math.min on two arguments, and on a spread array. *)
Definition nmax (a b : num) : num :=
  match a, b with
  | NaN, _ | _, NaN => NaN
  | _, _ => if nltb a b then b else a
  end.

Definition nmin (a b : num) : num :=
  match a, b with
  | NaN, _ | _, NaN => NaN
  | _, _ => if nltb b a then b else a
  end.

Definition Math_max (l : list num) : num := fold_left nmax l NegInf.
Definition Math_min (l : list num) : num := fold_left nmin l PosInf.

Definition Math_ceil (a : num) : num :=
  match a with
  | Fin x => ofZ (Qceiling x)
  | _ => a
  end.

Definition Math_round (a : num) : num :=
  match a with
  | Fin x => ofZ (Qfloor (x + (1 # 2)))
  | _ => a
  end.

Definition Math_abs (a : num) : num :=
  match a with
  | NaN => NaN
  | Fin x => fin (Qabs x)
  | _ => PosInf
  end.

Definition Qtrunc (q : Q) : Z :=
  if Qle_bool 0 q then Qfloor q else Qceiling q.

(** The remainder operator [%]: the result takes the sign of the dividend. *)
Definition nrem (a b : num) : num :=
  match a, b with
  | Fin x, Fin y =>
      if Qeq_bool y 0 then NaN
      else fin (x - y * inject_Z (Qtrunc (x / y)))
  | Fin x, PosInf | Fin x, NegInf => Fin x
  | _, _ => NaN
  end.

Definition isFinite (a : num) : bool :=
  match a with
  | Fin _ => true
  | _ => false
  end.

(** ToBoolean on a number, and [a || b] on numbers. *)
Definition truthy (a : num) : bool :=
  match a with
  | NaN => false
  | Fin x => negb (Qeq_bool x 0)
  | _ => true
  end.

Definition nor (a b : num) : num := if truthy a then a else b.

(** [Number(x)] applied to a value that already is a number. *)
Definition Number (a : num) : num := a.

Declare Scope num_scope.
Delimit Scope num_scope with num.
Bind Scope num_scope with num.

(** Decimal literals denote the rational they spell, in lowest terms. *)
Definition num_of_number (n : Number.number) : option num :=
  match n with
  | Number.Decimal (Decimal.Decimal i f) =>
      let numer := Z.of_int (Decimal.app_int i f) in
      let den := Nat.iter (Decimal.nb_digits f) (Pos.mul 10) 1%positive in
      Some (fin (numer # den))
  | _ => None
  end.

Definition num_to_number (a : num) : option Number.number :=
  match a with
  | Fin (z # 1) => Some (Number.Decimal (Decimal.Decimal (Z.to_int z) Decimal.Nil))
  | _ => None
  end.

Number Notation num num_of_number num_to_number : num_scope.

Infix "+" := nadd : num_scope.
Infix "-" := nsub : num_scope.
Infix "*" := nmul : num_scope.
Infix "/" := ndiv : num_scope.
Infix "<?" := nltb : num_scope.
Infix "<=?" := nleb : num_scope.
Infix ">?" := ngtb : num_scope.
Infix ">=?" := ngeb : num_scope.

(** Math.PI, the binary64 number nearest to pi. *)
Definition Math_PI : num := fin (884279719003555 # 281474976710656).

(** ** Strings *)

Definition dq : string := String (ascii_of_nat 34) EmptyString.
Definition q (s : string) : string := dq +:+ s +:+ dq.

Definition byteZ (c : ascii) : Z := Z.of_N (N_of_ascii c).
Definition isCont (c : ascii) : bool :=
  ((128 <=? byteZ c) && (byteZ c <? 192))%Z.

Definition replacementChar : Z := 65533.

(** The code points of a string, decoded from its UTF-8 bytes; a byte
    that starts no well-formed sequence counts as one code point. *)
Fixpoint codePoints (s : string) : list Z :=
  match s with
  | EmptyString => []
  | String c0 rest =>
      let b0 := byteZ c0 in
      if (b0 <? 128)%Z then b0 :: codePoints rest
      else
        match rest with
        | String c1 rest1 =>
            if ((192 <=? b0) && (b0 <? 224) && isCont c1)%Z
            then ((b0 - 192) * 64 + (byteZ c1 - 128))%Z :: codePoints rest1
            else
              match rest1 with
              | String c2 rest2 =>
                  if ((224 <=? b0) && (b0 <? 240) && isCont c1 && isCont c2)%Z
                  then ((b0 - 224) * 4096 + (byteZ c1 - 128) * 64
                        + (byteZ c2 - 128))%Z :: codePoints rest2
                  else
                    match rest2 with
                    | String c3 rest3 =>
                        if ((240 <=? b0) && (b0 <? 248) && isCont c1
                            && isCont c2 && isCont c3)%Z
                        then ((b0 - 240) * 262144 + (byteZ c1 - 128) * 4096
                              + (byteZ c2 - 128) * 64
                              + (byteZ c3 - 128))%Z :: codePoints rest3
                        else replacementChar :: codePoints rest
                    | EmptyString => replacementChar :: codePoints rest
                    end
              | EmptyString => replacementChar :: codePoints rest
              end
        | EmptyString => [replacementChar]
        end
  end.

Definition inRange (lo hi cp : Z) : bool := ((lo <=? cp) && (cp <=? hi))%Z.

(** White space and line terminators removed by String.prototype.trim. *)
Definition isWhiteSpace (cp : Z) : bool :=
  inRange 9 13 cp || (cp =? 32)%Z || (cp =? 160)%Z || (cp =? 5760)%Z
  || inRange 8192 8202 cp || (cp =? 8232)%Z || (cp =? 8233)%Z
  || (cp =? 8239)%Z || (cp =? 8287)%Z || (cp =? 12288)%Z || (cp =? 65279)%Z.

Fixpoint dropWhile {A} (p : A -> bool) (l : list A) : list A :=
  match l with
  | [] => []
  | a :: l' => if p a then dropWhile p l' else l
  end.

Definition trimCodePoints (l : list Z) : list Z :=
  rev (dropWhile isWhiteSpace (rev (dropWhile isWhiteSpace l))).

Definition isHexDigit (cp : Z) : bool :=
  inRange 48 57 cp || inRange 65 70 cp || inRange 97 102 cp.

Fixpoint asciiString (l : list Z) : string :=
  match l with
  | [] => EmptyString
  | cp :: l' => String (ascii_of_N (Z.to_N cp)) (asciiString l')
  end.

(** The test [/^#([0-9a-fA-F]{3}|[0-9a-fA-F]{6})$/]. *)
Definition isHexColor (l : list Z) : bool :=
  match l with
  | 35%Z :: ds =>
      forallb isHexDigit ds && ((length ds =? 3)%nat || (length ds =? 6)%nat)
  | _ => false
  end.

Fixpoint replaceAll (c : ascii) (r : string) (s : string) : string :=
  match s with
  | EmptyString => EmptyString
  | String a s' =>
      if Ascii.eqb a c then r +:+ replaceAll c r s'
      else String a (replaceAll c r s')
  end.

Definition amp : ascii := "&"%char.
Definition lt_ : ascii := "<"%char.
Definition gt_ : ascii := ">"%char.
Definition quot : ascii := ascii_of_nat 34.
Definition apos : ascii := "'"%char.

Definition escapeXml (text : string) : string :=
  replaceAll apos "&apos;"
    (replaceAll quot "&quot;"
      (replaceAll gt_ "&gt;"
        (replaceAll lt_ "&lt;"
          (replaceAll amp "&amp;" text)))).

(** ** Number formatting *)

Definition Z_to_string (z : Z) : string := NilZero.string_of_int (Z.to_int z).

Definition isInteger (x : Q) : bool := Qeq_bool x (inject_Z (Qfloor x)).

Definition tenPow21 : Q := inject_Z (10 ^ 21).

Section Formatting.

(** Number::toString on a finite number that is not an integer below
10^21: the digits depend on the binary64 value. *)
Variable fracToString : Q -> string.

Definition numToString (a : num) : string :=
match a with
| NaN => "NaN"
| PosInf => "Infinity"
| NegInf => "-Infinity"
| Fin x =>
if isInteger x && negb (Qle_bool tenPow21 (Qabs x))
then Z_to_string (Qfloor x)
else fracToString x
end.

Definition pad3 (s : string) : string :=
match String.length s with
| 0%nat => "000" +:+ s
| 1%nat => "00" +:+ s
| 2%nat => "0" +:+ s
| _ => s
end.

(** [x.toFixed(2)]. *)
Definition toFixed2 (a : num) : string :=
match a with
| Fin x =>
if Qle_bool tenPow21 (Qabs x) then numToString a
else
let n := Qfloor (Qabs x * 100 + (1 # 2)) in
let digits := pad3 (Z_to_string n) in
let k := (String.length digits - 2)%nat in
(if negb (Qle_bool 0 x) then "-" else EmptyString)
+:+ substring 0 k digits +:+ "." +:+ substring k 2 digits
| _ => numToString a
end.

End Formatting.

(** ** The model and the styles *)

Record ChenStyle : Type := mkChenStyle {
  entityScale : num;
  relationScale : num;
  ellipseScale : num;
  hGap : num;
  vGap : num;
  lineWidth : num;
  fontScale : num
}.

(** [Partial<ChenStyle>]: every field may be undefined. *)
Record PartialChenStyle : Type := mkPartialChenStyle {
  p_entityScale : option num;
  p_relationScale : option num;
  p_ellipseScale : option num;
  p_hGap : option num;
  p_vGap : option num;
  p_lineWidth : option num;
  p_fontScale : option num
}.

Record ChenAttribute : Type := mkChenAttribute {
  attr_id : string;
  attr_name : string;
  attr_isPrimary : bool
}.

Record ChenEntity : Type := mkChenEntity {
  ent_id : string;
  ent_name : string;
  ent_attributes : list ChenAttribute
}.

Record ChenRelationshipEndpoint : Type := mkEndpoint {
  entityId : string;
  cardinality : string
}.

Record ChenRelationship : Type := mkChenRelationship {
  rel_id : string;
  rel_name : string;
  rel_endpoints : list ChenRelationshipEndpoint;
  rel_attributes : list ChenAttribute
}.

Record ChenModel : Type := mkChenModel {
  entities : list ChenEntity;
  relationships : list ChenRelationship
}.

Record ChenNodeStyle : Type := mkChenNodeStyle {
  scale : num;
  offsetX : num;
  offsetY : num;
  strokeWidth : num;
  fill : string;
  textColor : string
}.

Record PartialChenNodeStyle : Type := mkPartialChenNodeStyle {
  p_scale : option num;
  p_offsetX : option num;
  p_offsetY : option num;
  p_strokeWidth : option num;
  p_fill : option string;
  p_textColor : option string
}.

Abbreviation ChenNodeStyleOverrides := (gmap string PartialChenNodeStyle) (only parsing).

Record ChenRenderOptions : Type := mkChenRenderOptions {
  nodeOverrides : option ChenNodeStyleOverrides;
  selectedNodeId : option string
}.

Definition DEFAULT_CHEN_STYLE : ChenStyle :=
  {| entityScale := 1;
     relationScale := 1.25;
     ellipseScale := 1;
     hGap := 200;
     vGap := 125;
     lineWidth := 2.8;
     fontScale := 1 |}%num.

Definition DEFAULT_CHEN_NODE_STYLE : ChenNodeStyle :=
  {| scale := 1;
     offsetX := 0;
     offsetY := 0;
     strokeWidth := 0;
     fill := "#ffffff";
     textColor := "#111111" |}%num.

(** [a ?? b] *)
Definition nullish {A} (a : option A) (b : A) : A :=
  match a with
  | Some v => v
  | None => b
  end.
Infix "??" := nullish (at level 45, left associativity).

Definition normalizeStyle (style : PartialChenStyle) : ChenStyle :=
  {| entityScale := Number (p_entityScale style ?? entityScale DEFAULT_CHEN_STYLE);
     relationScale := Number (p_relationScale style ?? relationScale DEFAULT_CHEN_STYLE);
     ellipseScale := Number (p_ellipseScale style ?? ellipseScale DEFAULT_CHEN_STYLE);
     hGap := Number (p_hGap style ?? hGap DEFAULT_CHEN_STYLE);
     vGap := Number (p_vGap style ?? vGap DEFAULT_CHEN_STYLE);
     lineWidth := Number (p_lineWidth style ?? lineWidth DEFAULT_CHEN_STYLE);
     fontScale := Number (p_fontScale style ?? fontScale DEFAULT_CHEN_STYLE) |}.

Definition normalizeColor (rawColor fallback : string) : string :=
  let color := trimCodePoints (codePoints rawColor) in
  if isHexColor color then asciiString color else fallback.

Definition clamp (lo hi v : num) : num := nmax lo (nmin hi v).

Definition normalizeNodeStyle (style : option PartialChenNodeStyle) : ChenNodeStyle :=
  let get {A} (f : PartialChenNodeStyle -> option A) : option A :=
    match style with
    | Some s => f s
    | None => None
    end in
  {| scale := clamp 0.6 2.8
       (Number (get p_scale ?? scale DEFAULT_CHEN_NODE_STYLE));
     offsetX := clamp (-1400) 1400
       (Number (get p_offsetX ?? offsetX DEFAULT_CHEN_NODE_STYLE));
     offsetY := clamp (-1400) 1400
       (Number (get p_offsetY ?? offsetY DEFAULT_CHEN_NODE_STYLE));
     strokeWidth := clamp 0 12
       (Number (get p_strokeWidth ?? strokeWidth DEFAULT_CHEN_NODE_STYLE));
     fill := normalizeColor (get p_fill ?? fill DEFAULT_CHEN_NODE_STYLE)
       (fill DEFAULT_CHEN_NODE_STYLE);
     textColor := normalizeColor (get p_textColor ?? textColor DEFAULT_CHEN_NODE_STYLE)
       (textColor DEFAULT_CHEN_NODE_STYLE) |}%num.

(** ** Sizing *)

Definition charWidth (fontSize : num) (cp : Z) : num :=
  (if inRange 19968 40959 cp then fontSize
   else if inRange 65 90 cp then fontSize * 0.66
   else if inRange 97 122 cp || inRange 48 57 cp || (cp =? 95)%Z
        then fontSize * 0.58
   else fontSize * 0.5)%num.

Definition estimateTextWidth (text : string) (fontSize : num) : num :=
  let width :=
    fold_left (fun width ch => (width + charWidth fontSize ch)%num)
      (codePoints text) 0%num in
  nmax width (fontSize * 1.2)%num.

Definition nodeSizeForEntity (name : string) (style : ChenStyle) (nodeScale : num)
  : num * num :=
  let scale := (entityScale style * nodeScale)%num in
  let fontScale := fontScale style in
  (nmax (120 * scale)
     (Math_ceil ((estimateTextWidth name (18 * fontScale) + 40) * scale)),
   Math_ceil (58 * scale))%num.

Definition nodeSizeForRelationship (name : string) (style : ChenStyle) (nodeScale : num)
  : num * num :=
  let scale := (relationScale style * nodeScale)%num in
  let fontScale := fontScale style in
  let width :=
    (nmax (96 * scale)
       (Math_ceil ((estimateTextWidth name (16 * fontScale) + 44) * scale)))%num in
  (width, nmax (64 * scale) (Math_ceil (width * 0.58)))%num.

Record AttributeSize : Type := mkAttributeSize {
  as_rx : num;
  as_ry : num;
  as_label : string
}.

Definition nodeSizeForAttribute (name : string) (isPrimary : bool) (style : ChenStyle)
  : AttributeSize :=
  let label := if isPrimary then name +:+ " (PK)" else name in
  let ellipseScale := ellipseScale style in
  let fontScale := fontScale style in
  {| as_rx :=
       (nmax (44 * ellipseScale)
          (Math_ceil ((estimateTextWidth label (15 * fontScale) / 2 + 18)
                      * ellipseScale)))%num;
     as_ry := Math_ceil (28 * ellipseScale)%num;
     as_label := label |}.

(** ** Backbone nodes and their envelope *)

Inductive NodeType : Type := TEntity | TRelationship.

Definition NodeType_eqb (a b : NodeType) : bool :=
  match a, b with
  | TEntity, TEntity | TRelationship, TRelationship => true
  | _, _ => false
  end.

Record BackboneNode : Type := mkBackboneNode {
  bn_id : string;
  bn_type : NodeType;
  bn_name : string;
  bn_width : num;
  bn_height : num;
  bn_attributes : list ChenAttribute;
  bn_endpoints : option (list ChenRelationshipEndpoint);
  bn_nodeStyle : ChenNodeStyle;
  bn_x : num;
  bn_y : num;
  bn_orbitRadius : num;
  bn_envelopeX : num;
  bn_envelopeY : num
}.

Record Envelope : Type := mkEnvelope {
  orbitRadius : num;
  envelopeX : num;
  envelopeY : num
}.

Definition maxAttrRadii (attrs : list ChenAttribute) (style : ChenStyle) : num * num :=
  fold_left
    (fun '(maxAttrRx, maxAttrRy) attr =>
       let size := nodeSizeForAttribute (attr_name attr) (attr_isPrimary attr) style in
       (nmax maxAttrRx (as_rx size), nmax maxAttrRy (as_ry size)))
    attrs (0, 0)%num.

Definition computeNodeEnvelope (node : BackboneNode) (style : ChenStyle) : Envelope :=
  let attrs := bn_attributes node in
  let '(maxAttrRx, maxAttrRy) := maxAttrRadii attrs style in
  let orbitRadius :=
    (if (0 <? length attrs)%nat
     then nmax (bn_width node) (bn_height node) * 0.62
          + 88 * ellipseScale style
          + nmin 100 (ofNat (length attrs) * 8) * ellipseScale style
     else nmax (bn_width node) (bn_height node) * 0.5 + 26)%num in
  {| orbitRadius := orbitRadius;
     envelopeX := (nmax (bn_width node / 2 + 24) (orbitRadius + maxAttrRx + 16))%num;
     envelopeY := (nmax (bn_height node / 2 + 24) (orbitRadius + maxAttrRy + 16))%num |}.

Definition assignEnvelope (node : BackboneNode) (e : Envelope) : BackboneNode :=
  {| bn_id := bn_id node; bn_type := bn_type node; bn_name := bn_name node;
     bn_width := bn_width node; bn_height := bn_height node;
     bn_attributes := bn_attributes node; bn_endpoints := bn_endpoints node;
     bn_nodeStyle := bn_nodeStyle node; bn_x := bn_x node; bn_y := bn_y node;
     bn_orbitRadius := orbitRadius e; bn_envelopeX := envelopeX e;
     bn_envelopeY := envelopeY e |}.

Definition setX (v : num) (node : BackboneNode) : BackboneNode :=
  {| bn_id := bn_id node; bn_type := bn_type node; bn_name := bn_name node;
     bn_width := bn_width node; bn_height := bn_height node;
     bn_attributes := bn_attributes node; bn_endpoints := bn_endpoints node;
     bn_nodeStyle := bn_nodeStyle node; bn_x := v; bn_y := bn_y node;
     bn_orbitRadius := bn_orbitRadius node; bn_envelopeX := bn_envelopeX node;
     bn_envelopeY := bn_envelopeY node |}.

Definition setY (v : num) (node : BackboneNode) : BackboneNode :=
  {| bn_id := bn_id node; bn_type := bn_type node; bn_name := bn_name node;
     bn_width := bn_width node; bn_height := bn_height node;
     bn_attributes := bn_attributes node; bn_endpoints := bn_endpoints node;
     bn_nodeStyle := bn_nodeStyle node; bn_x := bn_x node; bn_y := v;
     bn_orbitRadius := bn_orbitRadius node; bn_envelopeX := bn_envelopeX node;
     bn_envelopeY := bn_envelopeY node |}.

(** ** The store of node objects

    [backboneNodes], [nodeById], the components and the levels all hold
    the same node objects; a reference is the position of the object in
    [backboneNodes]. *)

Abbreviation Ref := nat (only parsing).
Abbreviation Store := (list BackboneNode) (only parsing).

Definition dummyNode : BackboneNode :=
  {| bn_id := EmptyString; bn_type := TEntity; bn_name := EmptyString;
     bn_width := NaN; bn_height := NaN; bn_attributes := []; bn_endpoints := None;
     bn_nodeStyle := DEFAULT_CHEN_NODE_STYLE; bn_x := NaN; bn_y := NaN;
     bn_orbitRadius := NaN; bn_envelopeX := NaN; bn_envelopeY := NaN |}.

#[global] Instance BackboneNode_inhabited : Inhabited BackboneNode :=
  populate dummyNode.

Definition deref (store : Store) (r : Ref) : BackboneNode := store !!! r.

Definition update (r : Ref) (f : BackboneNode -> BackboneNode) (store : Store) : Store :=
  match store !! r with
  | Some node => <[r := f node]> store
  | None => store
  end.

(** ** Edges *)

Record EntityRelationshipEdge : Type := mkEntityRelationshipEdge {
  er_entityId : string;
  er_relationshipId : string;
  er_cardinality : string
}.

Record AttributeLinkEdge : Type := mkAttributeLinkEdge {
  al_fromId : string;
  al_toId : string
}.

(** [s || t] on strings: the empty string is falsy. *)
Definition sor (s t : string) : string :=
  match s with
  | EmptyString => t
  | _ => s
  end.

(** ** Array.prototype.sort

    The sort is stable; [x] is moved before the first element that the
    comparator places after it. *)

Fixpoint insertSorted {A} (cmp : A -> A -> num) (x : A) (l : list A) : list A :=
  match l with
  | [] => [x]
  | y :: l' =>
      if (0 <? cmp y x)%num then x :: l else y :: insertSorted cmp x l'
  end.

Definition jsSort {A} (cmp : A -> A -> num) (l : list A) : list A :=
  fold_left (fun acc x => insertSorted cmp x acc) l [].

(** ** Connected components *)

Abbreviation Adjacency := (gmap string (list string)) (only parsing).

(** [Set.prototype.add] on a set kept in insertion order. *)
Definition setAdd (x : string) (s : list string) : list string :=
  if bool_decide (x ∈ s) then s else s ++ [x].

(** [adjacency.get(k)?.add(v)] *)
Definition adjAdd (k v : string) (adjacency : Adjacency) : Adjacency :=
  match adjacency !! k with
  | Some s => <[k := setAdd v s]> adjacency
  | None => adjacency
  end.

Definition neighbors (adjacency : Adjacency) (id : string) : list string :=
  default [] (adjacency !! id).

Definition byIdOf (nodes : Store) : gmap string Ref :=
  fold_left (fun m '(r, node) => <[bn_id node := r]> m) (imap pair nodes) ∅.

(** One pass over the neighbours of a dequeued id. *)
Definition visitNeighbors (ns : list string) (visited : gset string) (queue : list string)
  : gset string * list string :=
  fold_left
    (fun '(visited, queue) neighbor =>
       if bool_decide (neighbor ∈ visited) then (visited, queue)
       else ({[neighbor]} ∪ visited, queue ++ [neighbor]))
    ns (visited, queue).

(** The while loop of [connectedComponents]; one unit of fuel per iteration. *)
Fixpoint componentWalk (fuel : nat) (byId : gmap string Ref) (adjacency : Adjacency)
    (queue : list string) (visited : gset string) (component : list Ref)
  : option (gset string * list Ref) :=
  match queue with
  | [] => Some (visited, component)
  | id :: queue =>
      match fuel with
      | O => None
      | S fuel =>
          if bool_decide (id = EmptyString)
          then componentWalk fuel byId adjacency queue visited component
          else
            let component :=
              match byId !! id with
              | Some current => component ++ [current]
              | None => component
              end in
            let '(visited, queue) :=
              visitNeighbors (neighbors adjacency id) visited queue in
            componentWalk fuel byId adjacency queue visited component
      end
  end.

(** The body of the loop over the nodes. *)
Definition visitComponent (fuel : nat) (byId : gmap string Ref) (adjacency : Adjacency)
    (acc : option (gset string * list (list Ref))) (node : BackboneNode)
  : option (gset string * list (list Ref)) :=
  '(visited, components) ← acc;
  if bool_decide (bn_id node ∈ visited) then Some (visited, components)
  else
    '(visited, component) ←
      componentWalk fuel byId adjacency [bn_id node] ({[bn_id node]} ∪ visited) [];
    Some (visited, components ++ [component]).

Definition connectedComponents (fuel : nat) (nodes : Store) (adjacency : Adjacency)
  : option (list (list Ref)) :=
  '(_, components) ←
    fold_left (visitComponent fuel (byIdOf nodes) adjacency) nodes (Some (∅, []));
  Some components.

(** ** Backbone layout *)

Record Layout : Type := mkLayout {
  l_nodes : Store;
  l_nodeById : gmap string Ref;
  l_edges : list EntityRelationshipEdge
}.

Definition entityNode (style : ChenStyle) (nodeOverrides : ChenNodeStyleOverrides)
    (e : ChenEntity) : BackboneNode :=
  let nodeStyle := normalizeNodeStyle (nodeOverrides !! ent_id e) in
  let size := nodeSizeForEntity (ent_name e) style (scale nodeStyle) in
  let node :=
    {| bn_id := ent_id e; bn_type := TEntity; bn_name := ent_name e;
       bn_width := fst size; bn_height := snd size;
       bn_attributes := ent_attributes e; bn_endpoints := None;
       bn_nodeStyle := nodeStyle; bn_x := 0; bn_y := 0;
       bn_orbitRadius := 0; bn_envelopeX := 0; bn_envelopeY := 0 |}%num in
  assignEnvelope node (computeNodeEnvelope node style).

Definition relationshipNode (style : ChenStyle) (nodeOverrides : ChenNodeStyleOverrides)
    (r : ChenRelationship) : BackboneNode :=
  let nodeStyle := normalizeNodeStyle (nodeOverrides !! rel_id r) in
  let size := nodeSizeForRelationship (rel_name r) style (scale nodeStyle) in
  let node :=
    {| bn_id := rel_id r; bn_type := TRelationship; bn_name := rel_name r;
       bn_width := fst size; bn_height := snd size;
       bn_attributes := rel_attributes r; bn_endpoints := Some (rel_endpoints r);
       bn_nodeStyle := nodeStyle; bn_x := 0; bn_y := 0;
       bn_orbitRadius := 0; bn_envelopeX := 0; bn_envelopeY := 0 |}%num in
  assignEnvelope node (computeNodeEnvelope node style).

(** The state built by the first two loops: the node array, [nodeById]
    and the adjacency map with an empty set per node. *)
Abbreviation Graph := (list BackboneNode * gmap string nat * gmap string (list string))%type (only parsing).

Definition pushNode (g : Graph) (node : BackboneNode) : Graph :=
  let '(backboneNodes, nodeById, adjacency) := g in
  (backboneNodes ++ [node],
   <[bn_id node := length backboneNodes]> nodeById,
   <[bn_id node := []]> adjacency).

Definition buildNodes (model : ChenModel) (style : ChenStyle)
    (nodeOverrides : ChenNodeStyleOverrides) : Graph :=
  let g := fold_left (fun g e => pushNode g (entityNode style nodeOverrides e))
             (entities model) ([], ∅, ∅) in
  fold_left (fun g r => pushNode g (relationshipNode style nodeOverrides r))
    (relationships model) g.

(** [nodeById.get(id)], as the reference and the object it denotes. *)
Definition getById (store : Store) (nodeById : gmap string Ref) (id : string)
  : option BackboneNode :=
  r ← nodeById !! id; store !! r.

(** The third loop: adjacency links and edges of the endpoints. *)
Definition linkEndpoint (store : Store) (nodeById : gmap string Ref) (relNode : BackboneNode)
    (acc : Adjacency * list EntityRelationshipEdge) (endpoint : ChenRelationshipEndpoint)
  : Adjacency * list EntityRelationshipEdge :=
  let '(adjacency, edges) := acc in
  match getById store nodeById (entityId endpoint) with
  | None => (adjacency, edges)
  | Some entityNode =>
      let adjacency := adjAdd (bn_id relNode) (bn_id entityNode) adjacency in
      let adjacency := adjAdd (bn_id entityNode) (bn_id relNode) adjacency in
      (adjacency,
       edges ++ [{| er_entityId := bn_id entityNode;
                    er_relationshipId := bn_id relNode;
                    er_cardinality := sor (cardinality endpoint) "N" |}])
  end.

Definition linkRelationship (store : Store) (nodeById : gmap string Ref)
    (acc : Adjacency * list EntityRelationshipEdge) (r : ChenRelationship)
  : Adjacency * list EntityRelationshipEdge :=
  match getById store nodeById (rel_id r) with
  | None => acc
  | Some relNode => fold_left (linkEndpoint store nodeById relNode) (rel_endpoints r) acc
  end.

Definition buildEdges (model : ChenModel) (g : Graph)
  : Adjacency * list EntityRelationshipEdge :=
  let '(backboneNodes, nodeById, adjacency) := g in
  fold_left (linkRelationship backboneNodes nodeById) (relationships model) (adjacency, []).

Definition H_MARGIN (style : ChenStyle) : num := nor (Number (hGap style)) 260%num.
Definition V_MARGIN (style : ChenStyle) : num := nor (Number (vGap style)) 170%num.
Definition COMPONENT_GAP (style : ChenStyle) : num :=
  Math_round (H_MARGIN style * 1.3)%num.

Definition findRoot (store : Store) (component : list Ref) : option Ref :=
  match find (fun r => NodeType_eqb (bn_type (deref store r)) TRelationship) component with
  | Some r => Some r
  | None => head component
  end.

Definition assignNeighborDepths (ns : list string) (currentDepth : nat)
    (depth : gmap string nat) (queue : list string) : gmap string nat * list string :=
  fold_left
    (fun '(depth, queue) neighbor =>
       match depth !! neighbor with
       | Some _ => (depth, queue)
       | None => (<[neighbor := S currentDepth]> depth, queue ++ [neighbor])
       end)
    ns (depth, queue).

(** The while loop that assigns depths; one unit of fuel per iteration. *)
Fixpoint depthWalk (fuel : nat) (adjacency : Adjacency) (queue : list string)
    (depth : gmap string nat) : option (gmap string nat) :=
  match queue with
  | [] => Some depth
  | currentId :: queue =>
      match fuel with
      | O => None
      | S fuel =>
          if bool_decide (currentId = EmptyString)
          then depthWalk fuel adjacency queue depth
          else
            let currentDepth := default 0%nat (depth !! currentId) in
            let '(depth, queue) :=
              assignNeighborDepths (neighbors adjacency currentId) currentDepth depth queue in
            depthWalk fuel adjacency queue depth
      end
  end.

Definition assignDepths (fuel : nat) (adjacency : Adjacency) (rootId : string)
  : option (gmap string nat) :=
  depthWalk fuel adjacency [rootId] {[rootId := 0%nat]}.

(** [levels]: a Map from depth to the nodes of the level, in insertion order. *)
Abbreviation Levels := (list (nat * list nat)) (only parsing).

Fixpoint levelsPush (d : nat) (r : Ref) (levels : Levels) : Levels :=
  match levels with
  | [] => [(d, [r])]
  | (d', rs) :: rest =>
      if (d =? d')%nat then (d', rs ++ [r]) :: rest
      else (d', rs) :: levelsPush d r rest
  end.

Fixpoint levelsGet (d : nat) (levels : Levels) : option (list Ref) :=
  match levels with
  | [] => None
  | (d', rs) :: rest => if (d =? d')%nat then Some rs else levelsGet d rest
  end.

Definition depthOf (store : Store) (depth : gmap string nat) (r : Ref) : nat :=
  default 0%nat (depth !! bn_id (deref store r)).

Definition buildLevels (store : Store) (depth : gmap string nat) (component : list Ref)
  : Levels :=
  fold_left (fun levels r => levelsPush (depthOf store depth r) r levels) component [].

Definition orderedDepthsOf (levels : Levels) : list nat :=
  jsSort (fun a b => (ofNat a - ofNat b)%num) (map fst levels).

(** [m.get(k) || 0] *)
Definition getOr0 (m : gmap nat num) (k : nat) : num :=
  match m !! k with
  | Some v => nor v 0%num
  | None => 0%num
  end.

Definition maxEnvelopeX (store : Store) (rs : list Ref) : num :=
  Math_max (map (fun r => bn_envelopeX (deref store r)) rs).

Definition assignLevelX (hMargin : num) (store : Store) (levels : Levels)
    (orderedDepths : list nat) : gmap nat num :=
  fst (fold_left
    (fun '(xByDepth, prevDepth) d =>
       match prevDepth with
       | None => (<[d := 0%num]> xByDepth, Some d)
       | Some prev =>
           let prevNodes := default [] (levelsGet prev levels) in
           let currentNodes := default [] (levelsGet d levels) in
           let prevMaxEnvelopeX := maxEnvelopeX store prevNodes in
           let currMaxEnvelopeX := maxEnvelopeX store currentNodes in
           let x := (getOr0 xByDepth prev + prevMaxEnvelopeX + currMaxEnvelopeX
                     + hMargin)%num in
           (<[d := x]> xByDepth, Some d)
       end)
    orderedDepths (∅, None)).

Section Layout.

(** [a.localeCompare(b, "zh-Hans-CN")] *)
Variable localeCompare : string -> string -> num.

Definition sortLevel (store : Store) (rs : list Ref) : list Ref :=
jsSort (fun a b => localeCompare (bn_id (deref store a)) (bn_id (deref store b))) rs.

(** The running [yCursor] of a level, from its second node on. *)
Definition stackY (vMargin : num) (first : Ref) (rest : list Ref) (store : Store) : Store :=
fst (fold_left
(fun '(store, (yCursor, prevRef)) currRef =>
 let prevNode := deref store prevRef in
 let currNode := deref store currRef in
 let yCursor :=
 (yCursor + (bn_envelopeY prevNode + bn_envelopeY currNode + vMargin))%num in
 (update currRef (setY yCursor) store, (yCursor, currRef)))
rest (store, (0%num, first))).

Definition placeLevel (vMargin offsetX : num) (xByDepth : gmap nat num)
(levels : Levels) (store : Store) (d : nat) : Store :=
let levelNodes := sortLevel store (default [] (levelsGet d levels)) in
match levelNodes with
| [] => store
| first :: rest =>
let store := update first (setY 0%num) store in
let store := stackY vMargin first rest store in
let minY :=
Math_min (map (fun r => let node := deref store r in
                    (bn_y node - bn_envelopeY node)%num) levelNodes) in
let maxY :=
Math_max (map (fun r => let node := deref store r in
                    (bn_y node + bn_envelopeY node)%num) levelNodes) in
let centerY := ((minY + maxY) / 2)%num in
fold_left
(fun store r =>
 update r (fun node =>
 let node := setX (offsetX + getOr0 xByDepth d)%num node in
 setY (bn_y node - centerY)%num node) store)
levelNodes store
end.

(** The body of the loop over the components. *)
Definition layoutComponent (fuel : nat) (adjacency : Adjacency) (style : ChenStyle)
(acc : option (Store * num)) (component : list Ref) : option (Store * num) :=
'(store, offsetX) ← acc;
match findRoot store component with
| None => Some (store, offsetX)
| Some root =>
depth ← assignDepths fuel adjacency (bn_id (deref store root));
let levels := buildLevels store depth component in
let orderedDepths := orderedDepthsOf levels in
let xByDepth := assignLevelX (H_MARGIN style) store levels orderedDepths in
let store :=
fold_left (placeLevel (V_MARGIN style) offsetX xByDepth levels)
orderedDepths store in
let compMinX :=
Math_min (map (fun r => let node := deref store r in
                    (bn_x node - bn_envelopeX node)%num) component) in
let compMaxX :=
Math_max (map (fun r => let node := deref store r in
                    (bn_x node + bn_envelopeX node)%num) component) in
Some (store, (offsetX + (compMaxX - compMinX + COMPONENT_GAP style))%num)
end.

Definition applyOffsets (store : Store) : Store :=
map (fun node =>
 let node := setX (bn_x node + offsetX (bn_nodeStyle node))%num node in
 setY (bn_y node + offsetY (bn_nodeStyle node))%num node)
store.

Definition buildBackboneLayout (fuel : nat) (model : ChenModel) (style : ChenStyle)
(nodeOverrides : ChenNodeStyleOverrides) : option Layout :=
let g := buildNodes model style nodeOverrides in
let '(backboneNodes, nodeById, _) := g in
let '(adjacency, edges) := buildEdges model g in
components ← connectedComponents fuel backboneNodes adjacency;
'(store, _) ←
fold_left (layoutComponent fuel adjacency style) components
(Some (backboneNodes, 0%num));
Some {| l_nodes := applyOffsets store; l_nodeById := nodeById; l_edges := edges |}.

End Layout.

(** A comparison by code points, equal to the zh-Hans-CN collation on
    words made of lower-case ASCII letters. *)
Fixpoint codePointCompare (a b : list Z) : num :=
  match a, b with
  | [], [] => 0%num
  | [], _ => (-1)%num
  | _, [] => 1%num
  | x :: a', y :: b' =>
      if (x <? y)%Z then (-1)%num
      else if (y <? x)%Z then 1%num
      else codePointCompare a' b'
  end.

Definition asciiCompare (a b : string) : num :=
  codePointCompare (codePoints a) (codePoints b).

(** ** Attribute placement *)

Record AttributeNode : Type := mkAttributeNode {
  an_id : string;
  an_parentId : string;
  an_x : num;
  an_y : num;
  an_rx : num;
  an_ry : num;
  an_label : string;
  an_isPrimary : bool
}.

Definition TWO_PI : num := (Math_PI * 2)%num.

Definition normalizeAngle (angle : num) : num :=
  let value := nrem angle TWO_PI in
  if (value <? 0)%num then (value + TWO_PI)%num else value.

Definition angularDistance (a b : num) : num :=
  let diff := Math_abs (normalizeAngle a - normalizeAngle b)%num in
  nmin diff (TWO_PI - diff)%num.

Definition candidateAngle (totalCandidates i : nat) : num :=
  (nneg Math_PI / 2 + (ofNat i * Math_PI * 2) / ofNat totalCandidates)%num.

Definition candidateScore (blockedAngles : list num) (angle : num) : num :=
  fold_left (fun score blocked => nmin score (angularDistance angle blocked))
    blockedAngles
    (if (0 <? length blockedAngles)%nat then Math_PI else (Math_PI * 0.7)%num).

Definition minGapFor (count : nat) : num :=
  nmin (Math_PI * 0.95)%num
       (nmax 0.52%num ((Math_PI * 2) / (ofNat count + 2) * 0.92)%num).

Definition chooseAttributeAngles (count : nat) (blockedAngles : list num) : list num :=
  if (count <=? 0)%nat then []
  else
    let totalCandidates := Nat.max 24 (count * 6) in
    let candidates :=
      map (fun i => let angle := candidateAngle totalCandidates i in
                    (angle, candidateScore blockedAngles angle))
          (seq 0 totalCandidates) in
    let candidates := jsSort (fun a b => (snd b - snd a)%num) candidates in
    let minGap := minGapFor count in
    let selected :=
      fold_left
        (fun selected candidate =>
           if (length selected =? count)%nat then selected
           else if forallb (fun picked =>
                              (angularDistance picked (fst candidate) >=? minGap)%num)
                     selected
                then selected ++ [fst candidate]
                else selected)
        candidates [] in
    if (length selected <? count)%nat
    then
      let fallbackStep := ((Math_PI * 2) / ofNat count)%num in
      selected ++ map (fun i => (nneg Math_PI / 2 + ofNat i * fallbackStep)%num)
                      (seq (length selected) (count - length selected))
    else selected.

Definition attributesOverlap (cx cy rx ry : num) (other : AttributeNode) : bool :=
  (Math_abs (cx - an_x other) <? rx + an_rx other + 16)%num
  && (Math_abs (cy - an_y other) <? ry + an_ry other + 16)%num.

Definition overlapsBackboneNode (cx cy rx ry : num) (node : BackboneNode) : bool :=
  let xPad := (bn_width node / 2 + rx + 24)%num in
  let yPad := (bn_height node / 2 + ry + 24)%num in
  (Math_abs (cx - bn_x node) <? xPad)%num && (Math_abs (cy - bn_y node) <? yPad)%num.

(** [m.get(k)?.push(v)] *)
Definition pushAngle (k : string) (v : num) (m : gmap string (list num))
  : gmap string (list num) :=
  match m !! k with
  | Some l => <[k := l ++ [v]]> m
  | None => m
  end.

Section Placement.

Variables Math_cos Math_sin : num -> num.
Variable Math_atan2 : num -> num -> num.

Definition neighborAngles (layout : Layout) : gmap string (list num) :=
let init :=
fold_left (fun m node => <[bn_id node := []]> m) (l_nodes layout) ∅ in
fold_left
(fun m edge =>
 match getById (l_nodes layout) (l_nodeById layout) (er_entityId edge),
 getById (l_nodes layout) (l_nodeById layout) (er_relationshipId edge) with
 | Some entityNode, Some relationNode =>
 let entityAngle :=
 Math_atan2 (bn_y relationNode - bn_y entityNode)%num
            (bn_x relationNode - bn_x entityNode)%num in
 let relationAngle :=
 Math_atan2 (bn_y entityNode - bn_y relationNode)%num
            (bn_x entityNode - bn_x relationNode)%num in
 pushAngle (bn_id relationNode) relationAngle
 (pushAngle (bn_id entityNode) entityAngle m)
 | _, _ => m
 end)
(l_edges layout) init.

(** A candidate position of an attribute ellipse. *)
Record Spot : Type := mkSpot {
sp_angle : num;
sp_dist : num;
sp_x : num;
sp_y : num
}.

Definition spotHit (nodes : Store) (placedNodes : list AttributeNode)
(node : BackboneNode) (size : AttributeSize) (s : Spot) : bool :=
existsb (fun otherNode =>
 negb (String.eqb (bn_id otherNode) (bn_id node))
 && overlapsBackboneNode (sp_x s) (sp_y s) (as_rx size) (as_ry size) otherNode)
nodes
|| existsb (attributesOverlap (sp_x s) (sp_y s) (as_rx size) (as_ry size)) placedNodes.

(** The refinement loop, over the remaining values of [step]. *)
Fixpoint refineSpot (steps : list nat) (style : ChenStyle) (nodes : Store)
(placedNodes : list AttributeNode) (node : BackboneNode) (size : AttributeSize)
(s : Spot) : Spot :=
match steps with
| [] => s
| step :: steps =>
if spotHit nodes placedNodes node size s
then
let dist := (sp_dist s + 28 * ellipseScale style)%num in
let angle :=
(sp_angle s + (if (step mod 2 =? 0)%nat then 0.08 else nneg 0.08))%num in
refineSpot steps style nodes placedNodes node size
{| sp_angle := angle; sp_dist := dist;
 sp_x := (bn_x node + Math_cos angle * dist)%num;
 sp_y := (bn_y node + Math_sin angle * dist)%num |}
else s
end.

Definition placeAttribute (style : ChenStyle) (nodes : Store) (node : BackboneNode)
(plannedAngles : list num) (count : nat)
(acc : list AttributeNode * list AttributeLinkEdge) (item : nat * ChenAttribute)
: list AttributeNode * list AttributeLinkEdge :=
let '(attributeNodes, attributeEdges) := acc in
let '(idx, attr) := item in
let size := nodeSizeForAttribute (attr_name attr) (attr_isPrimary attr) style in
let angle :=
(plannedAngles !! idx)
?? (nneg Math_PI / 2 + (ofNat idx * Math_PI * 2) / ofNat count)%num in
let dist := (bn_orbitRadius node + as_rx size * 0.16)%num in
let start :=
{| sp_angle := angle; sp_dist := dist;
 sp_x := (bn_x node + Math_cos angle * dist)%num;
 sp_y := (bn_y node + Math_sin angle * dist)%num |} in
let s := refineSpot (seq 0 18) style nodes attributeNodes node size start in
(attributeNodes ++
 [{| an_id := attr_id attr; an_parentId := bn_id node;
 an_x := sp_x s; an_y := sp_y s;
 an_rx := as_rx size; an_ry := as_ry size;
 an_label := as_label size; an_isPrimary := attr_isPrimary attr |}],
 attributeEdges ++ [{| al_fromId := bn_id node; al_toId := attr_id attr |}]).

Definition placeAttributeNodes (layout : Layout) (style : ChenStyle)
: list AttributeNode * list AttributeLinkEdge :=
let neighborAnglesByNode := neighborAngles layout in
fold_left
(fun acc node =>
 let attrs := bn_attributes node in
 if (length attrs =? 0)%nat then acc
 else
 let blockedAngles := default [] (neighborAnglesByNode !! bn_id node) in
 let plannedAngles := chooseAttributeAngles (length attrs) blockedAngles in
 fold_left (placeAttribute style (l_nodes layout) node plannedAngles (length attrs))
 (imap pair attrs) acc)
(l_nodes layout) ([], []).

End Placement.

(** ** Scene composition *)

Inductive SceneNode : Type :=
| Backbone (node : BackboneNode)
| Attribute (node : AttributeNode).

Inductive Edge : Type :=
| EntityRelationship (edge : EntityRelationshipEdge)
| AttributeLink (edge : AttributeLinkEdge).

Record CardinalityLabel : Type := mkCardinalityLabel {
  cl_text : string;
  cl_x : num;
  cl_y : num
}.

Record Scene : Type := mkScene {
  sc_nodes : list SceneNode;
  sc_nodeById : gmap string SceneNode;
  sc_edges : list Edge;
  sc_cardinalityLabels : list CardinalityLabel;
  sc_width : num;
  sc_height : num
}.

Definition sn_id (n : SceneNode) : string :=
  match n with
  | Backbone b => bn_id b
  | Attribute a => an_id a
  end.

Definition sn_x (n : SceneNode) : num :=
  match n with
  | Backbone b => bn_x b
  | Attribute a => an_x a
  end.

Definition sn_y (n : SceneNode) : num :=
  match n with
  | Backbone b => bn_y b
  | Attribute a => an_y a
  end.

Definition shiftNode (shiftX shiftY : num) (n : SceneNode) : SceneNode :=
  match n with
  | Backbone b => Backbone (setY (bn_y b + shiftY)%num (setX (bn_x b + shiftX)%num b))
  | Attribute a =>
      Attribute {| an_id := an_id a; an_parentId := an_parentId a;
                   an_x := (an_x a + shiftX)%num; an_y := (an_y a + shiftY)%num;
                   an_rx := an_rx a; an_ry := an_ry a;
                   an_label := an_label a; an_isPrimary := an_isPrimary a |}
  end.

Record Bounds : Type := mkBounds {
  minX : num;
  minY : num;
  maxX : num;
  maxY : num
}.

Definition growBounds (b : Bounds) (n : SceneNode) : Bounds :=
  let '(halfW, halfH) :=
    match n with
    | Backbone node => (bn_width node / 2, bn_height node / 2)%num
    | Attribute node => (an_rx node, an_ry node)
    end in
  {| minX := nmin (minX b) (sn_x n - halfW)%num;
     minY := nmin (minY b) (sn_y n - halfH)%num;
     maxX := nmax (maxX b) (sn_x n + halfW)%num;
     maxY := nmax (maxY b) (sn_y n + halfH)%num |}.

Definition sceneBounds (allNodes : list SceneNode) : Bounds :=
  let b := fold_left growBounds allNodes
             {| minX := PosInf; minY := PosInf; maxX := NegInf; maxY := NegInf |} in
  if negb (isFinite (minX b))
  then {| minX := 0; minY := 0; maxX := 900; maxY := 500 |}%num
  else b.

Definition padding : num := 90%num.

Definition sceneNodeById (allNodes : list SceneNode) : gmap string SceneNode :=
  fold_left (fun m n => <[sn_id n := n]> m) allNodes ∅.

Definition cardinalityLabelsOf (nodeById : gmap string SceneNode) (allEdges : list Edge)
  : list CardinalityLabel :=
  fold_left
    (fun labels e =>
       match e with
       | AttributeLink _ => labels
       | EntityRelationship edge =>
           match nodeById !! er_entityId edge, nodeById !! er_relationshipId edge with
           | Some entity, Some relation =>
               let t := 0.62%num in
               labels ++
                 [{| cl_text := er_cardinality edge;
                     cl_x := (sn_x entity * (1 - t) + sn_x relation * t)%num;
                     cl_y := (sn_y entity * (1 - t) + sn_y relation * t)%num |}]
           | _, _ => labels
           end
       end)
    allEdges [].

Section Scene.

Variables Math_cos Math_sin : num -> num.
Variable Math_atan2 : num -> num -> num.
Variable localeCompare : string -> string -> num.

Definition computeScene (fuel : nat) (model : ChenModel) (style : ChenStyle)
(nodeOverrides : ChenNodeStyleOverrides) : option Scene :=
backbone ← buildBackboneLayout localeCompare fuel model style nodeOverrides;
let attrs := placeAttributeNodes Math_cos Math_sin Math_atan2 backbone style in
let allNodes := map Backbone (l_nodes backbone) ++ map Attribute (fst attrs) in
let allEdges := map EntityRelationship (l_edges backbone)
      ++ map AttributeLink (snd attrs) in
let b := sceneBounds allNodes in
let shiftX := (padding - minX b)%num in
let shiftY := (padding - minY b)%num in
let allNodes := map (shiftNode shiftX shiftY) allNodes in
let nodeById := sceneNodeById allNodes in
Some {| sc_nodes := allNodes;
sc_nodeById := nodeById;
sc_edges := allEdges;
sc_cardinalityLabels := cardinalityLabelsOf nodeById allEdges;
sc_width := Math_ceil (maxX b - minX b + padding * 2)%num;
sc_height := Math_ceil (maxY b - minY b + padding * 2)%num |}.

End Scene.

(** ** The SVG serializer *)

Definition newline : string := String (ascii_of_nat 10) EmptyString.

Definition fontFamily : string := "font-family:'PingFang SC','Microsoft YaHei',sans-serif;".

Definition labelTail : string :=
  "px;text-anchor:middle;dominant-baseline:middle;pointer-events:none;text-rendering:geometricPrecision;}".

Section Render.

Variables Math_cos Math_sin : num -> num.
Variable Math_atan2 : num -> num -> num.
Variable localeCompare : string -> string -> num.
Variable fracToString : Q -> string.

(** A number interpolated into a template literal. *)
Definition str (a : num) : string := numToString fracToString a.
Definition fixed2 (a : num) : string := toFixed2 fracToString a.

Definition svgOpen (scene : Scene) : string :=
"<svg xmlns=" +:+ q "http://www.w3.org/2000/svg"
+:+ " width=" +:+ q (str (sc_width scene))
+:+ " height=" +:+ q (str (sc_height scene))
+:+ " viewBox=" +:+ q ("0 0 " +:+ str (sc_width scene) +:+ " " +:+ str (sc_height scene))
+:+ " role=" +:+ q "img" +:+ " aria-label=" +:+ q "Chen ER Diagram" +:+ ">".

Definition styleLines (lineWidth entityStroke relationStroke attrStroke
           labelFont attrFont cardFont : num) : list string :=
[ "<style>";
".line{stroke:#111;stroke-width:" +:+ fixed2 lineWidth
+:+ ";fill:none;stroke-linecap:round;stroke-linejoin:round;shape-rendering:geometricPrecision;}";
".entity{stroke:#111;stroke-width:" +:+ fixed2 entityStroke
+:+ ";shape-rendering:geometricPrecision;}";
".relation{stroke:#111;stroke-width:" +:+ fixed2 relationStroke
+:+ ";stroke-linejoin:round;shape-rendering:geometricPrecision;}";
".attr{fill:#fff;stroke:#111;stroke-width:" +:+ fixed2 attrStroke
+:+ ";shape-rendering:geometricPrecision;}";
".node-shape{cursor:grab;}";
".node-hit{fill:#000;fill-opacity:0;stroke:none;pointer-events:all;cursor:grab;}";
".selected-node .node-shape{stroke:#0f766e !important;filter:drop-shadow(0 0 1px #0f766e);}";
".label{" +:+ fontFamily +:+ "font-size:" +:+ str labelFont +:+ labelTail;
".attrLabel{fill:#111;" +:+ fontFamily +:+ "font-size:" +:+ str attrFont +:+ labelTail;
".pk{text-decoration:underline;}";
".card{fill:#111;" +:+ fontFamily +:+ "font-size:" +:+ str cardFont
+:+ "px;font-weight:600;text-anchor:middle;dominant-baseline:middle;pointer-events:none;text-rendering:geometricPrecision;}";
"</style>" ].

Definition lineCoords (a b : SceneNode) : string :=
" x1=" +:+ q (str (sn_x a)) +:+ " y1=" +:+ q (str (sn_y a))
+:+ " x2=" +:+ q (str (sn_x b)) +:+ " y2=" +:+ q (str (sn_y b)) +:+ " />".

Definition edgeLines (nodeById : gmap string SceneNode) (e : Edge) : list string :=
match e with
| EntityRelationship edge =>
match nodeById !! er_entityId edge, nodeById !! er_relationshipId edge with
| Some entity, Some relation =>
[ "<line class=" +:+ q "line edge-er"
+:+ " data-edge-type=" +:+ q "entityRelationship"
+:+ " data-entity-id=" +:+ q (escapeXml (er_entityId edge))
+:+ " data-relationship-id=" +:+ q (escapeXml (er_relationshipId edge))
+:+ lineCoords entity relation ]
| _, _ => []
end
| AttributeLink edge =>
match nodeById !! al_fromId edge, nodeById !! al_toId edge with
| Some from, Some to =>
[ "<line class=" +:+ q "line edge-attr"
+:+ " data-edge-type=" +:+ q "attributeLink"
+:+ " data-from-id=" +:+ q (escapeXml (al_fromId edge))
+:+ " data-to-id=" +:+ q (escapeXml (al_toId edge))
+:+ lineCoords from to ]
| _, _ => []
end
end.

Definition labelLines (cardFont : num) (label : CardinalityLabel) : list string :=
let boxW := Math_ceil (estimateTextWidth (cl_text label) cardFont + 16)%num in
[ "<rect x=" +:+ q (str (cl_x label - boxW / 2)%num)
+:+ " y=" +:+ q (str (cl_y label - 14)%num)
+:+ " width=" +:+ q (str boxW) +:+ " height=" +:+ q "28"
+:+ " fill=" +:+ q "#fff" +:+ " />";
"<text class=" +:+ q "card" +:+ " x=" +:+ q (str (cl_x label))
+:+ " y=" +:+ q (str (cl_y label)) +:+ ">"
+:+ escapeXml (cl_text label) +:+ "</text>" ].

Definition HIT_PAD : num := 12%num.

Definition isSelectedNode (selectedNodeId : option string) (id : string) : bool :=
match selectedNodeId with
| Some s => String.eqb s id
| None => false
end.

Definition point (x y : num) : string := str x +:+ "," +:+ str y.

Definition backboneLines (selectedNodeId : option string) (entityStroke relationStroke : num)
(node : BackboneNode) : list string :=
let isSelected := isSelectedNode selectedNodeId (bn_id node) in
let strokeColor := if isSelected then "#0f766e" else "#111111" in
let fillColor := escapeXml (fill (bn_nodeStyle node)) in
let textColor := escapeXml (textColor (bn_nodeStyle node)) in
let groupClass := if isSelected then "selected-node" else "normal-node" in
let nodeId := escapeXml (bn_id node) in
let nodeName := escapeXml (bn_name node) in
let x := bn_x node in
let y := bn_y node in
let w := bn_width node in
let h := bn_height node in
match bn_type node with
| TEntity =>
let strokeWidth :=
if (strokeWidth (bn_nodeStyle node) >? 0)%num
then strokeWidth (bn_nodeStyle node) else entityStroke in
let entityClass :=
if isSelected then "entity node-shape selected-shape" else "entity node-shape" in
[ "<g class=" +:+ q groupClass +:+ " data-node-id=" +:+ q nodeId
+:+ " data-node-type=" +:+ q "entity"
+:+ " data-node-name=" +:+ q nodeName +:+ ">";
"<rect class=" +:+ q "node-hit"
+:+ " x=" +:+ q (str (x - w / 2 - HIT_PAD)%num)
+:+ " y=" +:+ q (str (y - h / 2 - HIT_PAD)%num)
+:+ " width=" +:+ q (str (w + HIT_PAD * 2)%num)
+:+ " height=" +:+ q (str (h + HIT_PAD * 2)%num) +:+ " />";
"<rect class=" +:+ q entityClass
+:+ " x=" +:+ q (str (x - w / 2)%num)
+:+ " y=" +:+ q (str (y - h / 2)%num)
+:+ " width=" +:+ q (str w) +:+ " height=" +:+ q (str h)
+:+ " fill=" +:+ q fillColor +:+ " stroke=" +:+ q strokeColor
+:+ " stroke-width=" +:+ q (fixed2 strokeWidth) +:+ " />";
"<text class=" +:+ q "label" +:+ " x=" +:+ q (str x) +:+ " y=" +:+ q (str y)
+:+ " fill=" +:+ q textColor +:+ ">" +:+ nodeName +:+ "</text>";
"</g>" ]
| TRelationship =>
let strokeWidth :=
if (strokeWidth (bn_nodeStyle node) >? 0)%num
then strokeWidth (bn_nodeStyle node) else relationStroke in
let relationClass :=
if isSelected then "relation node-shape selected-shape" else "relation node-shape" in
let points :=
String.concat " "
[ point x (y - h / 2)%num; point (x + w / 2)%num y;
point x (y + h / 2)%num; point (x - w / 2)%num y ] in
let hitPoints :=
String.concat " "
[ point x (y - h / 2 - HIT_PAD)%num; point (x + w / 2 + HIT_PAD)%num y;
point x (y + h / 2 + HIT_PAD)%num; point (x - w / 2 - HIT_PAD)%num y ] in
[ "<g class=" +:+ q groupClass +:+ " data-node-id=" +:+ q nodeId
+:+ " data-node-type=" +:+ q "relationship"
+:+ " data-node-name=" +:+ q nodeName +:+ ">";
"<polygon class=" +:+ q "node-hit" +:+ " points=" +:+ q hitPoints +:+ " />";
"<polygon class=" +:+ q relationClass +:+ " points=" +:+ q points
+:+ " fill=" +:+ q fillColor +:+ " stroke=" +:+ q strokeColor
+:+ " stroke-width=" +:+ q (fixed2 strokeWidth) +:+ " />";
"<text class=" +:+ q "label" +:+ " x=" +:+ q (str x) +:+ " y=" +:+ q (str y)
+:+ " fill=" +:+ q textColor +:+ ">" +:+ nodeName +:+ "</text>";
"</g>" ]
end.

Definition attributeLines (node : AttributeNode) : list string :=
let attrId := escapeXml (an_id node) in
let parentId := escapeXml (an_parentId node) in
let pkClass := if an_isPrimary node then "attrLabel pk" else "attrLabel" in
[ "<g data-node-id=" +:+ q attrId +:+ " data-node-type=" +:+ q "attribute"
+:+ " data-parent-id=" +:+ q parentId +:+ ">";
"<ellipse class=" +:+ q "attr" +:+ " cx=" +:+ q (str (an_x node))
+:+ " cy=" +:+ q (str (an_y node)) +:+ " rx=" +:+ q (str (an_rx node))
+:+ " ry=" +:+ q (str (an_ry node)) +:+ " />";
"<text class=" +:+ q pkClass +:+ " x=" +:+ q (str (an_x node))
+:+ " y=" +:+ q (str (an_y node)) +:+ ">" +:+ escapeXml (an_label node) +:+ "</text>";
"</g>" ].

Definition nodeLines (selectedNodeId : option string) (entityStroke relationStroke : num)
(n : SceneNode) : list string :=
match n with
| Backbone node => backboneLines selectedNodeId entityStroke relationStroke node
| Attribute node => attributeLines node
end.

(** The array [lines] for a composed scene. *)
Definition sceneLines (style : ChenStyle) (selectedNodeId : option string) (scene : Scene)
: list string :=
let lineWidth := nor (Number (lineWidth style)) 2.8%num in
let entityStroke := nmax 1.8%num (lineWidth * 1.35)%num in
let relationStroke := nmax 1.8%num (lineWidth * 1.35)%num in
let attrStroke := nmax 1.2%num (lineWidth * 1.05)%num in
let labelFont := nmax 12%num (Math_round (22 * fontScale style)%num) in
let attrFont := nmax 11%num (Math_round (20 * fontScale style)%num) in
let cardFont := nmax 11%num (Math_round (22 * fontScale style)%num) in
[svgOpen scene]
++ styleLines lineWidth entityStroke relationStroke attrStroke labelFont attrFont cardFont
++ flat_map (edgeLines (sc_nodeById scene)) (sc_edges scene)
++ flat_map (labelLines cardFont) (sc_cardinalityLabels scene)
++ flat_map (nodeLines selectedNodeId entityStroke relationStroke) (sc_nodes scene)
++ ["</svg>"].

(** [options.selectedNodeId || null] *)
Definition selectedOf (options : ChenRenderOptions) : option string :=
match selectedNodeId options with
| Some EmptyString => None
| o => o
end.

Definition renderChenSvg (fuel : nat) (model : ChenModel) (styleInput : PartialChenStyle)
(options : ChenRenderOptions) : option string :=
let style := normalizeStyle styleInput in
let nodeOverrides := default ∅ (nodeOverrides options) in
let selectedNodeId := selectedOf options in
scene ← computeScene Math_cos Math_sin Math_atan2 localeCompare fuel model style
 nodeOverrides;
Some (String.concat newline (sceneLines style selectedNodeId scene)).

End Render.

(** ** Observations used to state layout properties *)

(** The depth map that [layoutComponent] computes for a component. *)
Definition componentDepths (fuel : nat) (adjacency : Adjacency) (store : Store)
    (component : list Ref) : option (gmap string nat) :=
  match findRoot store component with
  | None => Some ∅
  | Some root => assignDepths fuel adjacency (bn_id (deref store root))
  end.

(** The components of a model together with their depth maps. *)
Definition backboneDepths (fuel : nat) (model : ChenModel) (style : ChenStyle)
    (nodeOverrides : ChenNodeStyleOverrides)
  : option (list (list Ref * gmap string nat)) :=
  let g := buildNodes model style nodeOverrides in
  let '(backboneNodes, _, _) := g in
  let '(adjacency, _) := buildEdges model g in
  components ← connectedComponents fuel backboneNodes adjacency;
  mapM (fun component =>
          depth ← componentDepths fuel adjacency backboneNodes component;
          Some (component, depth))
       components.

(** Fuel that suffices for every walk over a model. *)
Definition modelFuel (model : ChenModel) : nat :=
  S (length (entities model) + length (relationships model)).

(** ** Example models *)

Definition emptyModel : ChenModel := {| entities := []; relationships := [] |}.

Definition usersOrders : ChenModel :=
  {| entities :=
       [ {| ent_id := "users"; ent_name := "users"; ent_attributes := [] |};
         {| ent_id := "orders"; ent_name := "orders"; ent_attributes := [] |} ];
     relationships :=
       [ {| rel_id := "places"; rel_name := "places";
            rel_endpoints := [ {| entityId := "users"; cardinality := "1" |};
                               {| entityId := "orders"; cardinality := "N" |} ];
            rel_attributes := [] |} ] |}.

Definition noStyle : PartialChenStyle :=
  {| p_entityScale := None; p_relationScale := None; p_ellipseScale := None;
     p_hGap := None; p_vGap := None; p_lineWidth := None; p_fontScale := None |}.


(** ** The workbench (ErWorkbench.vue)

    The refs of the component that its diagram handlers read or write,
    as one record; a handler is a function on the record.  The object
    [nodeOverrides] is a map from node ids to partial node styles. *)

Record NodeMeta : Type := mkNodeMeta {
  nm_id : string;
  nm_type : string;
  nm_name : string
}.

(** The object a select-node event carries; any of its fields may be missing. *)
Record RawNodeMeta : Type := mkRawNodeMeta {
  rm_id : option string;
  rm_type : option string;
  rm_name : option string
}.

(** The object a drag-node event carries. *)
Record DragPayload : Type := mkDragPayload {
  dp_id : option string;
  dp_type : option string;
  dp_name : option string;
  dp_offsetX : option num;
  dp_offsetY : option num
}.

Record Workbench : Type := mkWorkbench {
  wb_chen : string;
  wb_chenModel : option ChenModel;
  wb_currentSvgMarkup : string;
  wb_chenStyle : PartialChenStyle;
  wb_nodeOverrides : gmap string PartialChenNodeStyle;
  wb_selectedNode : option NodeMeta
}.

(** [a || b] where [a] is a string that may be missing. *)
Definition sorOpt (a : option string) (b : string) : string :=
  match a with
  | Some s => sor s b
  | None => b
  end.

(** [Number(a || 0)] where [a] is a number that may be missing. *)
Definition norOpt (a : option num) : num :=
  match a with
  | Some v => Number (nor v 0%num)
  | None => Number 0%num
  end.

(** [{ ...style }] for a complete style. *)
Definition spreadStyle (style : ChenStyle) : PartialChenStyle :=
  {| p_entityScale := Some (entityScale style);
     p_relationScale := Some (relationScale style);
     p_ellipseScale := Some (ellipseScale style);
     p_hGap := Some (hGap style);
     p_vGap := Some (vGap style);
     p_lineWidth := Some (lineWidth style);
     p_fontScale := Some (fontScale style) |}.

(** [{ ...a, ...b }] on partial node styles: a field of [b] wins. *)
Definition spreadNodeStyle (a b : PartialChenNodeStyle) : PartialChenNodeStyle :=
  let pick {A} (f : PartialChenNodeStyle -> option A) : option A :=
    match f b with
    | Some v => Some v
    | None => f a
    end in
  {| p_scale := pick p_scale;
     p_offsetX := pick p_offsetX;
     p_offsetY := pick p_offsetY;
     p_strokeWidth := pick p_strokeWidth;
     p_fill := pick p_fill;
     p_textColor := pick p_textColor |}.

Definition emptyNodeStyle : PartialChenNodeStyle :=
  {| p_scale := None; p_offsetX := None; p_offsetY := None;
     p_strokeWidth := None; p_fill := None; p_textColor := None |}.

(** [nodeOverrides.value[id] || {}] *)
Definition overrideOf (nodeOverrides : gmap string PartialChenNodeStyle) (id : string)
  : PartialChenNodeStyle :=
  default emptyNodeStyle (nodeOverrides !! id).

Definition hasDiagram (w : Workbench) : bool :=
  negb (String.eqb (wb_currentSvgMarkup w) EmptyString).

Definition chenStyleEditable (w : Workbench) : bool :=
  match wb_chenModel w with
  | Some _ => true
  | None => false
  end.

(** [{ ...DEFAULT_CHEN_NODE_STYLE, ...current }] *)
Definition overDefaults (current : PartialChenNodeStyle) : ChenNodeStyle :=
  {| scale := p_scale current ?? scale DEFAULT_CHEN_NODE_STYLE;
     offsetX := p_offsetX current ?? offsetX DEFAULT_CHEN_NODE_STYLE;
     offsetY := p_offsetY current ?? offsetY DEFAULT_CHEN_NODE_STYLE;
     strokeWidth := p_strokeWidth current ?? strokeWidth DEFAULT_CHEN_NODE_STYLE;
     fill := p_fill current ?? fill DEFAULT_CHEN_NODE_STYLE;
     textColor := p_textColor current ?? textColor DEFAULT_CHEN_NODE_STYLE |}.

(** The computed [selectedNodeStyle]. *)
Definition selectedNodeStyle (w : Workbench) : ChenNodeStyle :=
  match wb_selectedNode w with
  | None => overDefaults emptyNodeStyle
  | Some node => overDefaults (overrideOf (wb_nodeOverrides w) (nm_id node))
  end.

Definition setMarkup (markup : string) (w : Workbench) : Workbench :=
  {| wb_chen := wb_chen w; wb_chenModel := wb_chenModel w;
     wb_currentSvgMarkup := markup; wb_chenStyle := wb_chenStyle w;
     wb_nodeOverrides := wb_nodeOverrides w; wb_selectedNode := wb_selectedNode w |}.

Definition setChenStyle (style : PartialChenStyle) (w : Workbench) : Workbench :=
  {| wb_chen := wb_chen w; wb_chenModel := wb_chenModel w;
     wb_currentSvgMarkup := wb_currentSvgMarkup w; wb_chenStyle := style;
     wb_nodeOverrides := wb_nodeOverrides w; wb_selectedNode := wb_selectedNode w |}.

Definition setNodeOverrides (nodeOverrides : gmap string PartialChenNodeStyle)
    (w : Workbench) : Workbench :=
  {| wb_chen := wb_chen w; wb_chenModel := wb_chenModel w;
     wb_currentSvgMarkup := wb_currentSvgMarkup w; wb_chenStyle := wb_chenStyle w;
     wb_nodeOverrides := nodeOverrides; wb_selectedNode := wb_selectedNode w |}.

Definition setSelectedNode (node : option NodeMeta) (w : Workbench) : Workbench :=
  {| wb_chen := wb_chen w; wb_chenModel := wb_chenModel w;
     wb_currentSvgMarkup := wb_currentSvgMarkup w; wb_chenStyle := wb_chenStyle w;
     wb_nodeOverrides := wb_nodeOverrides w; wb_selectedNode := node |}.

Definition resetDiagramState (w : Workbench) : Workbench :=
  {| wb_chen := EmptyString; wb_chenModel := None;
     wb_currentSvgMarkup := EmptyString; wb_chenStyle := wb_chenStyle w;
     wb_nodeOverrides := ∅; wb_selectedNode := None |}.

(** [selectedNode.value?.id || null] *)
Definition selectedIdOf (w : Workbench) : option string :=
  match wb_selectedNode w with
  | Some node =>
      match nm_id node with
      | EmptyString => None
      | id => Some id
      end
  | None => None
  end.

(** The options [renderChenDiagram] passes to [renderChenSvg]. *)
Definition renderOptions (w : Workbench) : ChenRenderOptions :=
  {| nodeOverrides := Some (wb_nodeOverrides w); selectedNodeId := selectedIdOf w |}.

(** The events of the DiagramViewer element, as its listeners receive them. *)
Inductive ViewerEvent : Type :=
| UpdateChenStyle (nextStyle : PartialChenStyle)
| ResetStyle
| SelectNode (nodeMeta : option RawNodeMeta)
| ClearSelection
| UpdateNodeStyle (nextNodeStyle : PartialChenNodeStyle)
| ResetNodeStyle
| DragNode (payload : option DragPayload).

Section Workbench.

Variables Math_cos Math_sin : num -> num.
Variable Math_atan2 : num -> num -> num.
Variable localeCompare : string -> string -> num.
Variable fracToString : Q -> string.

(** The fuel given to the walks of every render. *)
Variable fuel : nat.

Definition renderChenDiagram (w : Workbench) : option Workbench :=
  match wb_chenModel w with
  | None => Some (setMarkup EmptyString w)
  | Some model =>
      markup ← renderChenSvg Math_cos Math_sin Math_atan2 localeCompare fracToString fuel
                 model (wb_chenStyle w) (renderOptions w);
      Some (setMarkup markup w)
  end.

(** [if (chenModel.value) { renderChenDiagram(); }] *)
Definition renderIfModel (w : Workbench) : option Workbench :=
  match wb_chenModel w with
  | Some _ => renderChenDiagram w
  | None => Some w
  end.

Definition onChenStyleChange (nextStyle : PartialChenStyle) (w : Workbench)
  : option Workbench :=
  renderIfModel (setChenStyle nextStyle w).

Definition onResetChenStyle (w : Workbench) : option Workbench :=
  renderIfModel (setChenStyle (spreadStyle DEFAULT_CHEN_STYLE) w).

Definition onSelectNode (nodeMeta : option RawNodeMeta) (w : Workbench) : option Workbench :=
  match nodeMeta with
  | None => Some w
  | Some meta =>
      match chenStyleEditable w, sorOpt (rm_id meta) EmptyString with
      | false, _ | _, EmptyString => Some w
      | true, id =>
          renderChenDiagram
            (setSelectedNode
               (Some {| nm_id := id;
                        nm_type := sorOpt (rm_type meta) EmptyString;
                        nm_name := sorOpt (rm_name meta) id |}) w)
      end
  end.

Definition onClearSelectedNode (w : Workbench) : option Workbench :=
  match wb_selectedNode w with
  | None => Some w
  | Some _ => renderIfModel (setSelectedNode None w)
  end.

Definition onNodeStyleChange (nextNodeStyle : PartialChenNodeStyle) (w : Workbench)
  : option Workbench :=
  match selectedIdOf w with
  | None => Some w
  | Some targetId =>
      let existing := overrideOf (wb_nodeOverrides w) targetId in
      renderIfModel
        (setNodeOverrides
           (<[targetId := spreadNodeStyle existing nextNodeStyle]> (wb_nodeOverrides w)) w)
  end.

Definition onResetNodeStyle (w : Workbench) : option Workbench :=
  match selectedIdOf w with
  | None => Some w
  | Some targetId =>
      renderIfModel (setNodeOverrides (delete targetId (wb_nodeOverrides w)) w)
  end.

Definition onDragNode (payload : option DragPayload) (w : Workbench) : option Workbench :=
  match payload with
  | None => Some w
  | Some payload =>
      match sorOpt (dp_id payload) EmptyString with
      | EmptyString => Some w
      | targetId =>
          let offsetX := norOpt (dp_offsetX payload) in
          let offsetY := norOpt (dp_offsetY payload) in
          let existing := overrideOf (wb_nodeOverrides w) targetId in
          let moved :=
            {| p_scale := p_scale existing;
               p_offsetX := Some offsetX;
               p_offsetY := Some offsetY;
               p_strokeWidth := p_strokeWidth existing;
               p_fill := p_fill existing;
               p_textColor := p_textColor existing |} in
          let selectedType :=
            match wb_selectedNode w with
            | Some node => nm_type node
            | None => EmptyString
            end in
          let selectedName :=
            match wb_selectedNode w with
            | Some node => sor (nm_name node) targetId
            | None => targetId
            end in
          renderIfModel
            (setSelectedNode
               (Some {| nm_id := targetId;
                        nm_type := sorOpt (dp_type payload) selectedType;
                        nm_name := sorOpt (dp_name payload) selectedName |})
               (setNodeOverrides (<[targetId := moved]> (wb_nodeOverrides w)) w))
      end
  end.

(** The listeners the template binds to the events of the viewer. *)
Definition handle (e : ViewerEvent) (w : Workbench) : option Workbench :=
  match e with
  | UpdateChenStyle nextStyle => onChenStyleChange nextStyle w
  | ResetStyle => onResetChenStyle w
  | SelectNode nodeMeta => onSelectNode nodeMeta w
  | ClearSelection => onClearSelectedNode w
  | UpdateNodeStyle nextNodeStyle => onNodeStyleChange nextNodeStyle w
  | ResetNodeStyle => onResetNodeStyle w
  | DragNode payload => onDragNode payload w
  end.

End Workbench.

(** ** The style panel (StylePanel.vue) *)

Record Control : Type := mkControl {
  c_key : string;
  c_min : num;
  c_max : num;
  c_step : num
}.

Definition controls : list Control :=
  [ {| c_key := "entityScale"; c_min := 0.7; c_max := 2.1; c_step := 0.05 |};
    {| c_key := "relationScale"; c_min := 0.7; c_max := 2.1; c_step := 0.05 |};
    {| c_key := "ellipseScale"; c_min := 0.7; c_max := 2.3; c_step := 0.05 |};
    {| c_key := "hGap"; c_min := 120; c_max := 520; c_step := 10 |};
    {| c_key := "vGap"; c_min := 80; c_max := 360; c_step := 10 |};
    {| c_key := "lineWidth"; c_min := 1.2; c_max := 8; c_step := 0.2 |};
    {| c_key := "fontScale"; c_min := 0.7; c_max := 1.8; c_step := 0.05 |} ]%num.

Definition nodeControls : list Control :=
  [ {| c_key := "scale"; c_min := 0.6; c_max := 2.8; c_step := 0.05 |};
    {| c_key := "strokeWidth"; c_min := 0; c_max := 10; c_step := 0.2 |};
    {| c_key := "offsetX"; c_min := -1000; c_max := 1000; c_step := 5 |};
    {| c_key := "offsetY"; c_min := -1000; c_max := 1000; c_step := 5 |} ]%num.

(** [{ ...props.modelValue, [key]: Number(rawValue) }], with the value of the
    slider read as a number; a key that names no field of the style adds a
    property that nothing reads. *)
Definition updateField (key : string) (rawValue : num) (modelValue : PartialChenStyle)
  : PartialChenStyle :=
  let v := Some (Number rawValue) in
  let field (name : string) (old : option num) : option num :=
    if String.eqb key name then v else old in
  {| p_entityScale := field "entityScale" (p_entityScale modelValue);
     p_relationScale := field "relationScale" (p_relationScale modelValue);
     p_ellipseScale := field "ellipseScale" (p_ellipseScale modelValue);
     p_hGap := field "hGap" (p_hGap modelValue);
     p_vGap := field "vGap" (p_vGap modelValue);
     p_lineWidth := field "lineWidth" (p_lineWidth modelValue);
     p_fontScale := field "fontScale" (p_fontScale modelValue) |}.

(** [{ [key]: Number(rawValue) }] as a partial node style. *)
Definition updateNodeField (key : string) (rawValue : num) : PartialChenNodeStyle :=
  let field (name : string) : option num :=
    if String.eqb key name then Some (Number rawValue) else None in
  {| p_scale := field "scale";
     p_offsetX := field "offsetX";
     p_offsetY := field "offsetY";
     p_strokeWidth := field "strokeWidth";
     p_fill := None;
     p_textColor := None |}.

(** The node style the panel falls back on. *)
Definition defaultNodeStyle : ChenNodeStyle :=
  {| scale := 1; offsetX := 0; offsetY := 0; strokeWidth := 0;
     fill := "#ffffff"; textColor := "#111111" |}%num.

(** The computed [activeNodeStyle]: [{ ...defaultNodeStyle, ...(props.selectedNodeStyle || {}) }]
    for a prop that is a complete node style or missing. *)
Definition activeNodeStyle (selectedNodeStyle : option ChenNodeStyle) : ChenNodeStyle :=
  match selectedNodeStyle with
  | Some style => style
  | None => defaultNodeStyle
  end.

(** [modelValue[key]] for a key of [controls]. *)
Definition styleField (key : string) (modelValue : PartialChenStyle) : option num :=
  if String.eqb key "entityScale" then p_entityScale modelValue
  else if String.eqb key "relationScale" then p_relationScale modelValue
  else if String.eqb key "ellipseScale" then p_ellipseScale modelValue
  else if String.eqb key "hGap" then p_hGap modelValue
  else if String.eqb key "vGap" then p_vGap modelValue
  else if String.eqb key "lineWidth" then p_lineWidth modelValue
  else if String.eqb key "fontScale" then p_fontScale modelValue
  else None.

(** [activeNodeStyle[key]] for a key of [nodeControls]. *)
Definition nodeStyleField (key : string) (nodeStyle : ChenNodeStyle) : option num :=
  if String.eqb key "scale" then Some (scale nodeStyle)
  else if String.eqb key "strokeWidth" then Some (strokeWidth nodeStyle)
  else if String.eqb key "offsetX" then Some (offsetX nodeStyle)
  else if String.eqb key "offsetY" then Some (offsetY nodeStyle)
  else None.

(** ** The application shell (App.vue)

    The state holds the path of window.location, the entries pushed on the
    history and the ref [currentView]; history.pushState moves the location
    to the path it is given. *)

Record App : Type := mkApp {
  app_pathname : string;
  app_pushed : list string;
  app_currentView : string
}.

Definition resolveView (pathname : string) : string :=
  if String.prefix "/er" pathname then "er" else "chat".

Definition navigateTo (view : string) (pushState : bool) (a : App) : App :=
  let targetPath := if String.eqb view "er" then "/er" else "/" in
  if pushState && negb (String.eqb (app_pathname a) targetPath)
  then {| app_pathname := targetPath;
          app_pushed := app_pushed a ++ [targetPath];
          app_currentView := view |}
  else {| app_pathname := app_pathname a;
          app_pushed := app_pushed a;
          app_currentView := view |}.

Definition openEr (a : App) : App := navigateTo "er" true a.

Definition backToChat (a : App) : App := navigateTo "chat" true a.

Definition onPopstate (a : App) : App :=
  {| app_pathname := app_pathname a;
     app_pushed := app_pushed a;
     app_currentView := resolveView (app_pathname a) |}.

(** The state when the component is set up, at a given path. *)
Definition mountApp (pathname : string) : App :=
  {| app_pathname := pathname;
     app_pushed := [];
     app_currentView := resolveView pathname |}.

(** What reaches the shell: a click on either button, or a move in the
    history, where the browser sets the location before it fires popstate. *)
Inductive ShellEvent : Type :=
| ClickOpenEr
| ClickBackToChat
| HistoryMove (pathname : string).

Definition shellStep (a : App) (e : ShellEvent) : App :=
  match e with
  | ClickOpenEr => openEr a
  | ClickBackToChat => backToChat a
  | HistoryMove pathname =>
      onPopstate {| app_pathname := pathname;
                    app_pushed := app_pushed a;
                    app_currentView := app_currentView a |}
  end.

(** ** A sample engine

    Low-order approximations of the Math functions and a three-decimal
    rendering of fractions.  The theorems below hold for every engine;
    this one only instantiates the engine parameters in closed examples. *)

Definition sampleCos (a : num) : num := (1 - a * a / 2)%num.

Definition sampleSin (a : num) : num := (a - a * a * a / 6)%num.

Definition sampleAtan2 (y x : num) : num :=
  (if Math_abs y <=? Math_abs x
   then (if x <? 0
         then (if y <? 0 then y / x - Math_PI else y / x + Math_PI)
         else y / x)
   else (if y <? 0 then nneg (Math_PI / 2) - x / y else Math_PI / 2 - x / y))%num.

Definition sampleFraction (x : Q) : string :=
  let n := Qfloor (Qabs x * 1000) in
  let digits := pad3 (Z_to_string (n mod 1000)) in
  (if negb (Qle_bool 0 x) then "-" else EmptyString)
  +:+ Z_to_string (n / 1000) +:+ "." +:+ digits.

(** ** Definitions used in the statements *)

(** The fields of a style input, each with the field it normalises to. *)
Definition styleFields : list ((PartialChenStyle -> option num) * (ChenStyle -> num)) :=
  [ (p_entityScale, entityScale); (p_relationScale, relationScale);
    (p_ellipseScale, ellipseScale); (p_hGap, hGap); (p_vGap, vGap);
    (p_lineWidth, lineWidth); (p_fontScale, fontScale) ].

Definition nanGap : PartialChenStyle :=
  {| p_entityScale := None; p_relationScale := None; p_ellipseScale := None;
     p_hGap := Some NaN; p_vGap := None; p_lineWidth := None; p_fontScale := None |}.

Definition fallbackHeader : string :=
  "<svg xmlns=" +:+ q "http://www.w3.org/2000/svg" +:+ " width=" +:+ q "1080"
  +:+ " height=" +:+ q "680" +:+ " viewBox=" +:+ q "0 0 1080 680"
  +:+ " role=" +:+ q "img" +:+ " aria-label=" +:+ q "Chen ER Diagram" +:+ ">".

(** A node with another attribute list. *)
Definition withAttributes (node : BackboneNode) (attrs : list ChenAttribute) : BackboneNode :=
  {| bn_id := bn_id node; bn_type := bn_type node; bn_name := bn_name node;
     bn_width := bn_width node; bn_height := bn_height node;
     bn_attributes := attrs; bn_endpoints := bn_endpoints node;
     bn_nodeStyle := bn_nodeStyle node; bn_x := bn_x node; bn_y := bn_y node;
     bn_orbitRadius := bn_orbitRadius node; bn_envelopeX := bn_envelopeX node;
     bn_envelopeY := bn_envelopeY node |}.

Definition envelopeOf (node : BackboneNode) (style : ChenStyle)
    (attrs : list ChenAttribute) : Envelope :=
  computeNodeEnvelope (withAttributes node attrs) style.

(** No component of [a] exceeds the one of [b]. *)
Definition envelopeLe (a b : Envelope) : Prop :=
  (orbitRadius a <=? orbitRadius b)%num = true
  /\ (envelopeX a <=? envelopeX b)%num = true
  /\ (envelopeY a <=? envelopeY b)%num = true.

Definition smallEllipses : ChenStyle :=
  {| entityScale := 1; relationScale := 1.25; ellipseScale := 0.05;
     hGap := 200; vGap := 125; lineWidth := 2.8; fontScale := 1 |}%num.

Definition usersEntity : ChenEntity :=
  {| ent_id := "users"; ent_name := "users"; ent_attributes := [] |}.

Definition idAttribute : ChenAttribute :=
  {| attr_id := "users.id"; attr_name := "id"; attr_isPrimary := false |}.

Definition finite (a : num) : Prop := isFinite a = true.

(** Both finite, and in order. *)
Definition fle (a b : num) : Prop :=
  match a, b with
  | Fin x, Fin y => (x <= y)%Q
  | _, _ => False
  end.

Definition flt (a b : num) : Prop :=
  match a, b with
  | Fin x, Fin y => (x < y)%Q
  | _, _ => False
  end.

Infix "⊑" := fle (at level 70).
Infix "⊏" := flt (at level 70).

(** [a] is not sorted after [b]. *)
Definition notAfter {A} (cmp : A -> A -> num) (a b : A) : Prop :=
  (0 <? cmp a b)%num = false.

(** A function that only moves a node. *)
Definition moves (f : BackboneNode -> BackboneNode) : Prop :=
  forall node, bn_id (f node) = bn_id node /\ bn_envelopeY (f node) = bn_envelopeY node.

(** Two stores that hold the same nodes up to their positions. *)
Definition sameShape (s s' : list BackboneNode) : Prop :=
  length s' = length s
  /\ forall r, bn_id (deref s' r) = bn_id (deref s r)
            /\ bn_envelopeY (deref s' r) = bn_envelopeY (deref s r).

Definition envY (store : list BackboneNode) (r : nat) : num := bn_envelopeY (deref store r).

(** The positions of a stack, as the cursor of a level computes them. *)
Fixpoint positionsFrom (vMargin y prevEnvelope : num) (envelopes : list num) : list num :=
  match envelopes with
  | [] => []
  | e :: envelopes =>
      let y' := (y + (prevEnvelope + e + vMargin))%num in
      y' :: positionsFrom vMargin y' e envelopes
  end.

(** Two entities whose names sort against their ids. *)
Definition swappedNames : ChenModel :=
  {| entities :=
       [ {| ent_id := "a"; ent_name := "y"; ent_attributes := [] |};
         {| ent_id := "b"; ent_name := "x"; ent_attributes := [] |} ];
     relationships :=
       [ {| rel_id := "r"; rel_name := "r";
            rel_endpoints := [ {| entityId := "a"; cardinality := "1" |};
                               {| entityId := "b"; cardinality := "N" |} ];
            rel_attributes := [] |} ] |}.

Definition swappedNamesLayout : option Layout :=
  buildBackboneLayout asciiCompare (modelFuel swappedNames) swappedNames DEFAULT_CHEN_STYLE ∅.

Definition swappedNamesDepths : option (list (list nat * gmap string nat)) :=
  backboneDepths (modelFuel swappedNames) swappedNames DEFAULT_CHEN_STYLE ∅.

Definition usersOrdersLayout : option Layout :=
  buildBackboneLayout asciiCompare (modelFuel usersOrders) usersOrders DEFAULT_CHEN_STYLE ∅.

Definition usersOrdersDepths : option (list (list nat * gmap string nat)) :=
  backboneDepths (modelFuel usersOrders) usersOrders DEFAULT_CHEN_STYLE ∅.

Definition usersOrdersStore : list BackboneNode :=
  (buildNodes usersOrders DEFAULT_CHEN_STYLE ∅).1.1.

Definition usersOrdersDepth : gmap string nat :=
  {[ "places" := 0%nat; "users" := 1%nat; "orders" := 1%nat ]}.

Definition zeroGap : ChenStyle :=
  {| entityScale := 1; relationScale := 1.25; ellipseScale := 1;
     hGap := 0; vGap := 0; lineWidth := 2.8; fontScale := 1 |}%num.

Definition zeroGapLayout : option Layout :=
  buildBackboneLayout asciiCompare (modelFuel usersOrders) usersOrders zeroGap ∅.

(** Every id stored in an adjacency set belongs to [U]. *)
Definition targetsIn (U : gset string) (adjacency : gmap string (list string)) : Prop :=
  forall k ns n, adjacency !! k = Some ns -> n ∈ ns -> n ∈ U.

Definition adjacencyIds (adjacency : gmap string (list string)) : gset string :=
  ⋃ ((list_to_set <$> (map_to_list adjacency).*2) : list (gset string)).

Definition nodeIds (store : list BackboneNode) : gset string :=
  list_to_set (bn_id <$> store).

Definition emptySets (adjacency : gmap string (list string)) : Prop :=
  forall k ns, adjacency !! k = Some ns -> ns = [].

(** A self-referencing relationship inside a cycle of two entities. *)
Definition cyclicModel : ChenModel :=
  {| entities :=
       [ {| ent_id := "a"; ent_name := "a"; ent_attributes := [] |};
         {| ent_id := "b"; ent_name := "b"; ent_attributes := [] |} ];
     relationships :=
       [ {| rel_id := "r1"; rel_name := "r1";
            rel_endpoints := [ {| entityId := "a"; cardinality := "1" |};
                               {| entityId := "b"; cardinality := "N" |} ];
            rel_attributes := [] |};
         {| rel_id := "r2"; rel_name := "r2";
            rel_endpoints := [ {| entityId := "b"; cardinality := "1" |};
                               {| entityId := "a"; cardinality := "N" |} ];
            rel_attributes := [] |};
         {| rel_id := "r3"; rel_name := "r3";
            rel_endpoints := [ {| entityId := "a"; cardinality := "1" |};
                               {| entityId := "a"; cardinality := "N" |} ];
            rel_attributes := [] |} ] |}.

(** [nodeById] points at a node of the store that carries the id. *)
Definition indexed (store : list BackboneNode) (nodeById : gmap string nat) : Prop :=
  forall id,
    match nodeById !! id with
    | Some r => exists node, store !! r = Some node /\ bn_id node = id
    | None => id ∉ bn_id <$> store
    end.

(** The ids of the backbone nodes of a model, entities first. *)
Definition knownIds (model : ChenModel) : list string :=
  (ent_id <$> entities model) ++ (rel_id <$> relationships model).

(** The edge of an endpoint, when its id names a backbone node. *)
Definition endpointEdges (model : ChenModel) (r : ChenRelationship)
    (endpoint : ChenRelationshipEndpoint) : list EntityRelationshipEdge :=
  if bool_decide (entityId endpoint ∈ knownIds model)
  then [{| er_entityId := entityId endpoint;
           er_relationshipId := rel_id r;
           er_cardinality := sor (cardinality endpoint) "N" |}]
  else [].

Definition modelEdges (model : ChenModel) : list EntityRelationshipEdge :=
  flat_map (fun r => flat_map (endpointEdges model r) (rel_endpoints r))
           (relationships model).

(** A relationship whose endpoint names the relationship itself. *)
Definition relationToItself : ChenModel :=
  {| entities := [];
     relationships :=
       [ {| rel_id := "r"; rel_name := "r";
            rel_endpoints := [ {| entityId := "r"; cardinality := "1" |} ];
            rel_attributes := [] |} ] |}.

(** The escaping the specification describes: each reserved character is
    replaced, once, by its entity reference. *)
Definition escapeChar (c : ascii) : string :=
  if Ascii.eqb c amp then "&amp;"
  else if Ascii.eqb c lt_ then "&lt;"
  else if Ascii.eqb c gt_ then "&gt;"
  else if Ascii.eqb c quot then "&quot;"
  else if Ascii.eqb c apos then "&apos;"
  else String c EmptyString.

Fixpoint escapeChars (s : string) : string :=
  match s with
  | EmptyString => EmptyString
  | String c s' => escapeChar c +:+ escapeChars s'
  end.

(** The characters that delimit markup. *)
Definition markup : list ascii := [lt_; gt_; quot; apos].







(** ** Definitions used in the further properties *)

(** A text that spells a colour: [#] and three or six hexadecimal digits. *)
Definition isHexChar (c : ascii) : bool := isHexDigit (byteZ c).

Fixpoint allHexChars (s : string) : bool :=
  match s with
  | EmptyString => true
  | String c s' => isHexChar c && allHexChars s'
  end.

Definition hexColorText (s : string) : bool :=
  match s with
  | String c ds =>
      Ascii.eqb c "#"%char && allHexChars ds
      && ((String.length ds =? 3)%nat || (String.length ds =? 6)%nat)
  | EmptyString => false
  end.

(** The field of an override, or the default where the override or the field
    is missing. *)
Definition given {A} (style : option PartialChenNodeStyle)
    (f : PartialChenNodeStyle -> option A) (d : A) : A :=
  match style with
  | Some s => f s ?? d
  | None => d
  end.

(** [r] is [v] brought into the range from [lo] to [hi]: NaN stays NaN, any
    other value lands in the range, and a value of the range is kept. *)
Definition clampedTo (lo hi v r : num) : Prop :=
  match v with
  | NaN => r = NaN
  | _ => lo ⊑ r /\ r ⊑ hi
         /\ ((lo <=? v)%num && (v <=? hi)%num = true -> num_eqb r v = true)
  end.

(** The angle the fallback loop of [chooseAttributeAngles] gives to index [i]. *)
Definition fallbackAngle (count i : nat) : num :=
  (nneg Math_PI / 2 + ofNat i * ((Math_PI * 2) / ofNat count))%num.

(** Each angle of the list is at least [gap] away from the ones after it. *)
Definition apart (gap : num) (l : list num) : Prop :=
  forall i j a b,
    i < j -> l !! i = Some a -> l !! j = Some b ->
    (angularDistance a b >=? gap)%num = true.

(** A backbone node taken back to the origin: everything but its position. *)
Definition unplaced (node : BackboneNode) : BackboneNode := setY 0%num (setX 0%num node).

(** The backbone nodes of a model before the layout: the entities, then the
    relationships, each with its style, size and envelope, at the origin. *)
Definition modelNodes (model : ChenModel) (style : ChenStyle)
    (nodeOverrides : ChenNodeStyleOverrides) : list BackboneNode :=
  (entityNode style nodeOverrides <$> entities model)
  ++ (relationshipNode style nodeOverrides <$> relationships model).

(** The attributes of the backbone nodes, each with its node, in the order the
    placement visits them. *)
Definition attributeSlots (nodes : list BackboneNode)
  : list (BackboneNode * ChenAttribute) :=
  flat_map (fun node => pair node <$> bn_attributes node) nodes.

(** The ellipse of an attribute of a node, at the origin. *)
Definition unplacedAttribute (style : ChenStyle) (slot : BackboneNode * ChenAttribute)
  : AttributeNode :=
  let size := nodeSizeForAttribute (attr_name slot.2) (attr_isPrimary slot.2) style in
  {| an_id := attr_id slot.2; an_parentId := bn_id slot.1;
     an_x := 0%num; an_y := 0%num;
     an_rx := as_rx size; an_ry := as_ry size;
     an_label := as_label size; an_isPrimary := attr_isPrimary slot.2 |}.

Definition atOrigin (node : AttributeNode) : AttributeNode :=
  {| an_id := an_id node; an_parentId := an_parentId node;
     an_x := 0%num; an_y := 0%num;
     an_rx := an_rx node; an_ry := an_ry node;
     an_label := an_label node; an_isPrimary := an_isPrimary node |}.

Definition linkOf (slot : BackboneNode * ChenAttribute) : AttributeLinkEdge :=
  {| al_fromId := bn_id slot.1; al_toId := attr_id slot.2 |}.

(** Half the extent of a scene node: half its box, or the radii of its ellipse. *)
Definition halfWidth (n : SceneNode) : num :=
  match n with
  | Backbone node => (bn_width node / 2)%num
  | Attribute node => an_rx node
  end.

Definition halfHeight (n : SceneNode) : num :=
  match n with
  | Backbone node => (bn_height node / 2)%num
  | Attribute node => an_ry node
  end.

Definition finiteNode (n : SceneNode) : Prop :=
  finite (sn_x n) /\ finite (sn_y n) /\ finite (halfWidth n) /\ finite (halfHeight n).

(** The node keeps the padding to each border of the canvas of the scene. *)
Definition insideCanvas (scene : Scene) (n : SceneNode) : Prop :=
  padding ⊑ (sn_x n - halfWidth n)%num
  /\ (sn_x n + halfWidth n)%num ⊑ (sc_width scene - padding)%num
  /\ padding ⊑ (sn_y n - halfHeight n)%num
  /\ (sn_y n + halfHeight n)%num ⊑ (sc_height scene - padding)%num.

(** The label of an edge: the cardinality of the edge, 0.62 of the way from the
    node found under the entity id to the one found under the relationship id. *)
Definition labelOf (nodeById : gmap string SceneNode) (label : CardinalityLabel)
    (edge : EntityRelationshipEdge) : Prop :=
  cl_text label = er_cardinality edge
  /\ exists entity relation,
       nodeById !! er_entityId edge = Some entity
       /\ nodeById !! er_relationshipId edge = Some relation
       /\ cl_x label = (sn_x entity * (1 - 0.62) + sn_x relation * 0.62)%num
       /\ cl_y label = (sn_y entity * (1 - 0.62) + sn_y relation * 0.62)%num.

(** Two entities with attributes and a relationship with one. *)
Definition shopModel : ChenModel :=
  {| entities :=
       [ {| ent_id := "users"; ent_name := "users";
            ent_attributes :=
              [ {| attr_id := "users.id"; attr_name := "id"; attr_isPrimary := true |};
                {| attr_id := "users.name"; attr_name := "name"; attr_isPrimary := false |} ] |};
         {| ent_id := "orders"; ent_name := "orders";
            ent_attributes :=
              [ {| attr_id := "orders.id"; attr_name := "id"; attr_isPrimary := true |} ] |} ];
     relationships :=
       [ {| rel_id := "places"; rel_name := "places";
            rel_endpoints := [ {| entityId := "users"; cardinality := "1" |};
                               {| entityId := "orders"; cardinality := EmptyString |} ];
            rel_attributes :=
              [ {| attr_id := "places.date"; attr_name := "date";
                   attr_isPrimary := false |} ] |} ] |}.

(** Every id of depth [d + 1] is a neighbour of an id of depth [d]. *)
Definition parented (adjacency : gmap string (list string)) (depth : gmap string nat) : Prop :=
  forall id d, depth !! id = Some (S d) ->
    exists parent, depth !! parent = Some d /\ id ∈ neighbors adjacency parent.

(** The neighbours of every id with a depth, the empty id apart, have a depth. *)
Definition closedUnder (adjacency : gmap string (list string)) (depth : gmap string nat)
  : Prop :=
  forall id, is_Some (depth !! id) -> id <> EmptyString ->
    forall n, n ∈ neighbors adjacency id -> is_Some (depth !! n).

(** A node style, and a node, without the two offsets. *)
Definition zeroOffsets (nodeStyle : ChenNodeStyle) : ChenNodeStyle :=
  {| scale := scale nodeStyle; offsetX := 0%num; offsetY := 0%num;
     strokeWidth := strokeWidth nodeStyle; fill := fill nodeStyle;
     textColor := textColor nodeStyle |}.

Definition stripOffsets (node : BackboneNode) : BackboneNode :=
  {| bn_id := bn_id node; bn_type := bn_type node; bn_name := bn_name node;
     bn_width := bn_width node; bn_height := bn_height node;
     bn_attributes := bn_attributes node; bn_endpoints := bn_endpoints node;
     bn_nodeStyle := zeroOffsets (bn_nodeStyle node); bn_x := bn_x node; bn_y := bn_y node;
     bn_orbitRadius := bn_orbitRadius node; bn_envelopeX := bn_envelopeX node;
     bn_envelopeY := bn_envelopeY node |}.

(** Two overrides that normalise to the same style but for the offsets. *)
Definition sameButOffsets (a b : option PartialChenNodeStyle) : Prop :=
  zeroOffsets (normalizeNodeStyle a) = zeroOffsets (normalizeNodeStyle b).

(** Two nodes that stand at the same place before their own offsets are
    added, and differ in nothing but the offsets and the place. *)
Definition sameBase (node node' : BackboneNode) : Prop :=
  stripOffsets (unplaced node) = stripOffsets (unplaced node')
  /\ exists x y,
       bn_x node = (x + offsetX (bn_nodeStyle node))%num
       /\ bn_y node = (y + offsetY (bn_nodeStyle node))%num
       /\ bn_x node' = (x + offsetX (bn_nodeStyle node'))%num
       /\ bn_y node' = (y + offsetY (bn_nodeStyle node'))%num.

(** What a change of offsets may do to a node: it stands at the same base
    place, and it is the same node when its own override is the same. *)
Definition movedByOffsets (o o' : ChenNodeStyleOverrides) (node node' : BackboneNode) : Prop :=
  sameBase node node' /\ (o' !! bn_id node = o !! bn_id node -> node' = node).

(** An override that moves the entity users and gives it a thick stroke. *)
Definition usersMoved : ChenNodeStyleOverrides :=
  {[ "users" := {| p_scale := None; p_offsetX := Some 30%num; p_offsetY := Some (-20)%num;
                   p_strokeWidth := Some 3%num; p_fill := None; p_textColor := None |} ]}.

Definition usersThick : ChenNodeStyleOverrides :=
  {[ "users" := {| p_scale := None; p_offsetX := None; p_offsetY := None;
                   p_strokeWidth := Some 3%num; p_fill := None; p_textColor := None |} ]}.

(** What a drag does to a node of the layout: it keeps the base place; a node
    other than the target is untouched, and the target takes the offsets of
    the payload, brought into the range of the node style. *)
Definition draggedBy (payload : DragPayload) (node node' : BackboneNode) : Prop :=
  sameBase node node'
  /\ (bn_id node <> sorOpt (dp_id payload) EmptyString -> node' = node)
  /\ (bn_id node = sorOpt (dp_id payload) EmptyString -> bn_id node <> EmptyString ->
      offsetX (bn_nodeStyle node') = clamp (-1400) 1400 (norOpt (dp_offsetX payload))
      /\ offsetY (bn_nodeStyle node') = clamp (-1400) 1400 (norOpt (dp_offsetY payload))).

Section View.

Variables Math_cos Math_sin : num -> num.
Variable Math_atan2 : num -> num -> num.
Variable localeCompare : string -> string -> num.
Variable fracToString : Q -> string.
Variable fuel : nat.

(** The markup on display is the one a render of the present state gives. *)
Definition upToDate (w : Workbench) : Prop :=
  renderChenDiagram Math_cos Math_sin Math_atan2 localeCompare fracToString fuel w = Some w.

End View.

(** A workbench that holds the users and orders model, and a drag of users. *)
Definition usersOrdersBench : Workbench :=
  {| wb_chen := "erDiagram"; wb_chenModel := Some usersOrders;
     wb_currentSvgMarkup := EmptyString; wb_chenStyle := noStyle;
     wb_nodeOverrides := usersThick; wb_selectedNode := None |}.

Definition dragUsers : DragPayload :=
  {| dp_id := Some "users"; dp_type := Some "entity"; dp_name := None;
     dp_offsetX := Some 30%num; dp_offsetY := Some (-20)%num |}.

(** The field of a complete style that a key of the global controls names. *)
Definition drawnField (key : string) (style : ChenStyle) : option num :=
  styleField key (spreadStyle style).

(** A workbench with the entity users selected. *)
Definition usersSelected : Workbench :=
  {| wb_chen := "erDiagram"; wb_chenModel := Some usersOrders;
     wb_currentSvgMarkup := EmptyString; wb_chenStyle := noStyle;
     wb_nodeOverrides := usersMoved;
     wb_selectedNode := Some {| nm_id := "users"; nm_type := "entity"; nm_name := "users" |} |}.

Definition strokeControl : Control :=
  {| c_key := "strokeWidth"; c_min := 0; c_max := 10; c_step := 0.2 |}%num.

Definition hGapControl : Control :=
  {| c_key := "hGap"; c_min := 120; c_max := 520; c_step := 10 |}%num.

(** The ellipse [a] of an attribute of [node] is clear of the other backbone
    nodes and of the ellipses placed before it. *)
Definition clearOf (nodes : list BackboneNode) (placedNodes : list AttributeNode)
    (node : BackboneNode) (a : AttributeNode) : Prop :=
  (forall other, other ∈ nodes -> bn_id other <> bn_id node ->
     overlapsBackboneNode (an_x a) (an_y a) (an_rx a) (an_ry a) other = false)
  /\ (forall earlier, earlier ∈ placedNodes ->
        attributesOverlap (an_x a) (an_y a) (an_rx a) (an_ry a) earlier = false).

(** The distance from the node after [n] steps outwards. *)
Definition pushedOut (style : ChenStyle) (n : nat) (dist : num) : num :=
  Nat.iter n (fun d => (d + 28 * ellipseScale style)%num) dist.

(** Two ids joined by an edge of the adjacency, neither of them empty, and two
    ids joined by a path of such edges. *)
Definition joined (adjacency : gmap string (list string)) (a b : string) : Prop :=
  a <> EmptyString /\ b <> EmptyString /\ b ∈ neighbors adjacency a.

Definition connected (adjacency : gmap string (list string)) : string -> string -> Prop :=
  rtc (joined adjacency).

(** Every edge of the adjacency runs both ways. *)
Definition symmetricAdjacency (adjacency : gmap string (list string)) : Prop :=
  forall a b, b ∈ neighbors adjacency a -> a ∈ neighbors adjacency b.

(** The id of the node a reference denotes. *)
Definition idOf (nodes : list BackboneNode) (r : nat) : string := bn_id (deref nodes r).

(** A component that is a connected class of the graph: its nodes are joined
    to each other by paths, and it holds every node that a path joins to one
    of its nodes. *)
Definition connectedClass (nodes : list BackboneNode) (adjacency : gmap string (list string))
    (component : list nat) : Prop :=
  (forall r r', r ∈ component -> r' ∈ component ->
     connected adjacency (idOf nodes r) (idOf nodes r'))
  /\ (forall r n r', r ∈ component -> connected adjacency (idOf nodes r) n ->
        byIdOf nodes !! n = Some r' -> r' ∈ component).

(** The graph of the cyclic model. *)
Definition cyclicNodes : list BackboneNode :=
  (buildNodes cyclicModel DEFAULT_CHEN_STYLE ∅).1.1.

Definition cyclicAdjacency : gmap string (list string) :=
  (buildEdges cyclicModel (buildNodes cyclicModel DEFAULT_CHEN_STYLE ∅)).1.

(** The cursor positions of a level whose nodes have the given envelope
    half-heights, in stacking order: 0 for the first node, and for each later
    one the position before it plus the two half-heights and the margin. *)
Definition stackPositions (vMargin : num) (envelopes : list num) : list num :=
  match envelopes with
  | [] => []
  | e :: rest => 0%num :: positionsFrom vMargin 0%num e rest
  end.

(** The middle between the top of the highest envelope and the bottom of the
    lowest one. *)
Definition levelCentre (positions envelopes : list num) : num :=
  ((Math_min (zip_with nsub positions envelopes)
    + Math_max (zip_with nadd positions envelopes)) / 2)%num.

(** The y of the nodes of a level before their own offsets: the cursor
    positions, moved so that the level is centred on 0. *)
Definition stackedY (vMargin : num) (envelopes : list num) : list num :=
  let positions := stackPositions vMargin envelopes in
  (fun y => (y - levelCentre positions envelopes)%num) <$> positions.

(** Where the layout puts the nodes of a component.  [nodes] are the nodes
    before the layout, [placed] the nodes of the finished layout and [depth]
    the depths of the component.  Every node has the x of its level, counted
    from an offset that the component's nodes share, and the nodes of a level,
    taken in the order of the sort by id, have the stacked y of that order;
    each node is then moved by its own offsets. *)
Definition componentPlaced (localeCompare : string -> string -> num) (style : ChenStyle)
    (nodes placed : list BackboneNode) (component : list nat)
    (depth : gmap string nat) : Prop :=
  let levels := buildLevels nodes depth component in
  let xByDepth := assignLevelX (H_MARGIN style) nodes levels (orderedDepthsOf levels) in
  (exists base : num, forall r, r ∈ component ->
     bn_x (deref placed r)
     = (base + getOr0 xByDepth (depthOf nodes depth r)
        + offsetX (bn_nodeStyle (deref placed r)))%num)
  /\ forall d,
       let sorted :=
         sortLevel localeCompare nodes
           (filter (fun r => depthOf nodes depth r = d) component) in
       Forall2 (fun r y =>
                  bn_y (deref placed r)
                  = (y + offsetY (bn_nodeStyle (deref placed r)))%num)
         sorted (stackedY (V_MARGIN style) (envY nodes <$> sorted)).


Definition isMarkup (c : ascii) : bool := existsb (Ascii.eqb c) markup.

(** The characters of a text that delimit markup, in the order of the text. *)
Definition delimiters (s : string) : list ascii :=
  List.filter isMarkup (list_ascii_of_string s).

(** An engine whose rendering of a number holds no character that delimits
    markup. *)
Definition plainNumbers (fracToString : Q -> string) : Prop :=
  forall x, delimiters (fracToString x) = [].




(** * Properties *)

(** ** Ordering of finite numbers *)

Lemma fle_refl a : finite a -> a ⊑ a.
Proof. destruct a; simpl; try discriminate. intros _. apply Qle_refl. Qed.

Lemma fle_finite_r a b : a ⊑ b -> finite b.
Proof. destruct a, b; simpl; try tauto. reflexivity. Qed.

Lemma fle_nleb a b : a ⊑ b -> (a <=? b)%num = true.
Proof. destruct a, b; simpl; try tauto. apply Qle_bool_iff. Qed.

Lemma nleb_fle a b : finite a -> finite b -> (a <=? b)%num = true -> a ⊑ b.
Proof. destruct a, b; simpl; try discriminate. intros _ _. apply Qle_bool_iff. Qed.

Lemma fle_add a a' b b' : a ⊑ a' -> b ⊑ b' -> (a + b)%num ⊑ (a' + b')%num.
Proof.
  destruct a, a', b, b'; simpl; try tauto. unfold fin.
  rewrite !Qred_correct. intros. lra.
Qed.

Lemma fle_mul_r a a' c : a ⊑ a' -> 0%num ⊑ c -> (a * c)%num ⊑ (a' * c)%num.
Proof.
  destruct a, a', c; simpl; try tauto. unfold fin.
  rewrite !Qred_correct. intros. nra.
Qed.

Lemma nmax_fin x y : nmax (Fin x) (Fin y) = Fin (if Qle_bool y x then x else y).
Proof. unfold nmax, nltb. destruct (Qle_bool y x); reflexivity. Qed.

Lemma nmin_fin x y : nmin (Fin x) (Fin y) = Fin (if Qle_bool x y then x else y).
Proof. unfold nmin, nltb. destruct (Qle_bool x y); reflexivity. Qed.

Lemma Qle_bool_false x y : Qle_bool x y = false -> (y < x)%Q.
Proof.
  intros H. apply Qnot_le_lt. intros Hle. apply Qle_bool_iff in Hle. congruence.
Qed.

Ltac order_cases :=
  repeat match goal with
         | |- context [Qle_bool ?x ?y] =>
             let E := fresh "E" in
             destruct (Qle_bool x y) eqn:E;
             [apply Qle_bool_iff in E | apply Qle_bool_false in E]
         end.

Lemma fle_max a a' b b' : a ⊑ a' -> b ⊑ b' -> nmax a b ⊑ nmax a' b'.
Proof.
  destruct a, a', b, b'; try (simpl; tauto).
  rewrite !nmax_fin. simpl. intros. order_cases; lra.
Qed.

Lemma fle_min a a' b b' : a ⊑ a' -> b ⊑ b' -> nmin a b ⊑ nmin a' b'.
Proof.
  destruct a, a', b, b'; try (simpl; tauto).
  rewrite !nmin_fin. simpl. intros. order_cases; lra.
Qed.

Lemma fle_max_l a b : finite a -> finite b -> a ⊑ nmax a b.
Proof.
  destruct a, b; try discriminate. intros _ _.
  rewrite nmax_fin. simpl. order_cases; lra.
Qed.

Lemma fle_ofNat n m : (n <= m)%nat -> ofNat n ⊑ ofNat m.
Proof. intros. simpl. rewrite <- Zle_Qle. lia. Qed.

Lemma flt_nltb a b : a ⊏ b -> (a <? b)%num = true.
Proof.
  destruct a, b; simpl; try tauto. intros H. unfold nltb.
  destruct (Qle_bool q1 q0) eqn:E; [|reflexivity].
  apply Qle_bool_iff in E. lra.
Qed.

Lemma nltb_flt a b : finite a -> finite b -> (a <? b)%num = true -> a ⊏ b.
Proof.
  destruct a, b; simpl; try discriminate. intros _ _. unfold nltb.
  destruct (Qle_bool q1 q0) eqn:E; [discriminate|]. intros _. now apply Qle_bool_false.
Qed.

Lemma flt_trans a b c : a ⊏ b -> b ⊏ c -> a ⊏ c.
Proof. destruct a, b, c; simpl; try tauto. apply Qlt_trans. Qed.

Lemma flt_finite_r a b : a ⊏ b -> finite b.
Proof. destruct a, b; simpl; try tauto. reflexivity. Qed.

Lemma flt_step y e1 e2 vm :
  finite y -> 0%num ⊑ e1 -> 0%num ⊑ e2 -> 0%num ⊏ vm -> y ⊏ (y + (e1 + e2 + vm))%num.
Proof.
  destruct y, e1, e2, vm; simpl; try tauto; try discriminate.
  intros _. unfold fin. rewrite !Qred_correct. intros. lra.
Qed.

Lemma flt_sub_r a b c : a ⊏ b -> finite c -> (a - c)%num ⊏ (b - c)%num.
Proof.
  destruct a, b, c; simpl; try tauto; try discriminate.
  intros H _. unfold fin. rewrite !Qred_correct. lra.
Qed.

Lemma finite_add a b : finite a -> finite b -> finite (a + b)%num.
Proof. destruct a, b; simpl; try discriminate; reflexivity. Qed.

Lemma finite_sub a b : finite a -> finite b -> finite (a - b)%num.
Proof. destruct a, b; try discriminate; reflexivity. Qed.

Lemma finite_mul a b : finite a -> finite b -> finite (a * b)%num.
Proof. destruct a, b; simpl; try discriminate; reflexivity. Qed.

Lemma finite_max a b : finite a -> finite b -> finite (nmax a b).
Proof. destruct a, b; try discriminate. intros _ _. rewrite nmax_fin. reflexivity. Qed.

Lemma finite_min a b : finite a -> finite b -> finite (nmin a b).
Proof. destruct a, b; try discriminate. intros _ _. rewrite nmin_fin. reflexivity. Qed.

Lemma finite_ceil a : finite a -> finite (Math_ceil a).
Proof. destruct a; try discriminate; reflexivity. Qed.

Lemma finite_div2 a : finite a -> finite (a / 2)%num.
Proof. destruct a; try discriminate; reflexivity. Qed.

Lemma finite_literal x : finite (Fin x).
Proof. reflexivity. Qed.

Create HintDb finite.
#[local] Hint Resolve finite_add finite_sub finite_mul finite_max finite_min finite_ceil
  finite_div2 finite_literal : finite.

#[global] Arguments nadd : simpl never.
#[global] Arguments nsub : simpl never.
#[global] Arguments nmul : simpl never.
#[global] Arguments ndiv : simpl never.
#[global] Arguments nmax : simpl never.
#[global] Arguments nmin : simpl never.
#[global] Arguments nltb : simpl never.
#[global] Arguments nleb : simpl never.
#[global] Arguments Math_ceil : simpl never.

Lemma Math_min_finite l : l <> [] -> Forall finite l -> finite (Math_min l).
Proof.
  unfold Math_min. destruct l as [|x l]; [congruence|]. intros _ Hall.
  apply Forall_cons in Hall as [Hx Hall]. simpl.
  assert (Hacc : finite (nmin PosInf x)) by (destruct x; try discriminate; reflexivity).
  revert Hacc. generalize (nmin PosInf x). induction Hall; intros acc Hacc; simpl;
    [assumption|]. apply IHHall. now apply finite_min.
Qed.

Lemma Math_max_finite l : l <> [] -> Forall finite l -> finite (Math_max l).
Proof.
  unfold Math_max. destruct l as [|x l]; [congruence|]. intros _ Hall.
  apply Forall_cons in Hall as [Hx Hall]. simpl.
  assert (Hacc : finite (nmax NegInf x)) by (destruct x; try discriminate; reflexivity).
  revert Hacc. generalize (nmax NegInf x). induction Hall; intros acc Hacc; simpl;
    [assumption|]. apply IHHall. now apply finite_max.
Qed.

(** ** Style normalisation *)

(** C4, as the code has it.  Style normalisation is total; a field that is absent
    takes its documented default, and a field that is given is passed through as
    it is, NaN included (only the nullish case is defaulted). *)
Theorem normalizeStyle_total_defaulting (style : PartialChenStyle) :
  Forall (fun '(given, field) =>
            match given style with
            | None => field (normalizeStyle style) = field DEFAULT_CHEN_STYLE
            | Some v => field (normalizeStyle style) = v
            end) styleFields.
Proof.
  unfold styleFields, normalizeStyle, Number.
  repeat constructor; cbn;
    match goal with |- context [?f style] => destruct (f style) end; reflexivity.
Qed.

(** C4 as stated fails: a horizontal gap given as NaN is not replaced by the
    default 200, it stays NaN. *)
Lemma normalizeStyle_NaN_kept :
  p_hGap nanGap = Some NaN
  /\ hGap (normalizeStyle nanGap) = NaN
  /\ hGap (normalizeStyle nanGap) <> hGap DEFAULT_CHEN_STYLE.
Proof. repeat split; discriminate. Qed.

(** ** The empty model *)

Section EmptyModel.

Variables Math_cos Math_sin : num -> num.
Variable Math_atan2 : num -> num -> num.
Variable localeCompare : string -> string -> num.
Variable fracToString : Q -> string.

Lemma computeScene_empty fuel style overrides :
  computeScene Math_cos Math_sin Math_atan2 localeCompare fuel emptyModel style overrides
  = Some {| sc_nodes := []; sc_nodeById := ∅; sc_edges := []; sc_cardinalityLabels := [];
            sc_width := 1080%num; sc_height := 680%num |}.
Proof. reflexivity. Qed.

(** C8.  For the model without entities and relationships the scene is composed
    without failure, has no node, and its canvas is the fallback bounds 900 by
    500 plus twice the padding, 1080 by 680, whatever the style; the document
    opens with the root element of that size. *)
Theorem empty_model_fallback fuel styleInput options :
  (forall style overrides, exists scene,
      computeScene Math_cos Math_sin Math_atan2 localeCompare fuel emptyModel style overrides
      = Some scene
      /\ sc_nodes scene = []
      /\ sc_width scene = 1080%num /\ sc_height scene = 680%num
      /\ sc_width scene = (900 - 0 + padding * 2)%num
      /\ sc_height scene = (500 - 0 + padding * 2)%num)
  /\ exists rest,
      renderChenSvg Math_cos Math_sin Math_atan2 localeCompare fracToString fuel
        emptyModel styleInput options
      = Some (fallbackHeader +:+ newline +:+ rest).
Proof.
  split.
  - intros. eexists. split; [apply computeScene_empty|]. repeat split.
  - unfold renderChenSvg. rewrite computeScene_empty. cbn [mbind option_bind].
    eexists. f_equal.
Qed.

End EmptyModel.

(** ** Envelopes *)

Lemma charWidth_finite fs cp : finite fs -> finite (charWidth fs cp).
Proof.
  intros H. unfold charWidth.
  repeat match goal with |- context [if ?b then _ else _] => destruct b end;
    auto with finite.
Qed.

Lemma estimateTextWidth_finite text fs : finite fs -> finite (estimateTextWidth text fs).
Proof.
  intros H. unfold estimateTextWidth.
  apply finite_max; [|auto with finite].
  generalize (codePoints text) (finite_literal 0).
  generalize 0%num at 1 2.
  intros acc l. revert acc.
  induction l; simpl; intros acc Hacc; [assumption|].
  apply IHl. apply finite_add; [assumption|apply charWidth_finite; assumption].
Qed.

Lemma attribute_size_finite name pk style :
  finite (ellipseScale style) -> finite (fontScale style) ->
  finite (as_rx (nodeSizeForAttribute name pk style))
  /\ finite (as_ry (nodeSizeForAttribute name pk style)).
Proof.
  intros He Hf. unfold nodeSizeForAttribute; simpl.
  assert (finite (estimateTextWidth (if pk then name +:+ " (PK)" else name)
                    (15 * fontScale style)%num))
    by (apply estimateTextWidth_finite; auto with finite).
  split; auto 10 with finite.
Qed.

Lemma maxAttrRadii_snoc attrs a style :
  maxAttrRadii (attrs ++ [a]) style =
  (nmax (fst (maxAttrRadii attrs style))
        (as_rx (nodeSizeForAttribute (attr_name a) (attr_isPrimary a) style)),
   nmax (snd (maxAttrRadii attrs style))
        (as_ry (nodeSizeForAttribute (attr_name a) (attr_isPrimary a) style))).
Proof.
  unfold maxAttrRadii. rewrite fold_left_app. simpl.
  destruct (fold_left _ attrs _). reflexivity.
Qed.

Lemma maxAttrRadii_finite attrs style :
  finite (ellipseScale style) -> finite (fontScale style) ->
  finite (fst (maxAttrRadii attrs style)) /\ finite (snd (maxAttrRadii attrs style)).
Proof.
  intros He Hf. induction attrs as [|a attrs IH] using rev_ind.
  - split; reflexivity.
  - rewrite maxAttrRadii_snoc. simpl.
    destruct (attribute_size_finite (attr_name a) (attr_isPrimary a) style He Hf).
    destruct IH. split; auto with finite.
Qed.

Lemma nltb_nleb a b : (a <? b)%num = true -> (a <=? b)%num = true.
Proof.
  destruct a as [| |x|], b as [| |y|]; try discriminate; try reflexivity.
  unfold nltb, nleb. intros H. apply Qle_bool_iff.
  destruct (Qlt_le_dec x y) as [Hlt|Hge]; [now apply Qlt_le_weak|].
  apply Qle_bool_iff in Hge. rewrite Hge in H. discriminate.
Qed.

Lemma nleb_below a b c :
  (a <=? b)%num = true -> (b <=? c)%num = true -> (a <=? c)%num = true.
Proof.
  destruct a as [| |x|], b as [| |y|], c as [| |z|]; try discriminate; try reflexivity.
  unfold nleb. rewrite !Qle_bool_iff. apply Qle_trans.
Qed.

(** With attributes present, one more of them widens the orbit. *)
Lemma orbit_step (m e : num) (n : nat) :
  finite m -> 0%num ⊑ e ->
  (m * 0.62 + 88 * e + nmin 100 (ofNat (S n) * 8) * e)%num
  ⊑ (m * 0.62 + 88 * e + nmin 100 (ofNat (S (S n)) * 8) * e)%num.
Proof.
  intros Hm He.
  assert (Hfe : finite e) by (eapply fle_finite_r; eassumption).
  apply fle_add.
  - apply fle_refl. auto with finite.
  - apply fle_mul_r; [|assumption].
    apply fle_min; [apply fle_refl; reflexivity|].
    apply fle_mul_r; [apply fle_ofNat; lia|simpl; lra].
Qed.

(** The first attribute replaces the tight orbit by the wide one. *)
Lemma orbit_first (m e : num) :
  finite m -> 0%num ⊑ e ->
  (26 <=? m * 0.12 + 96 * e)%num = true ->
  (m * 0.5 + 26)%num ⊑ (m * 0.62 + 88 * e + nmin 100 (ofNat 1 * 8) * e)%num.
Proof.
  destruct m as [| |m|], e as [| |e|]; try discriminate; try (simpl; tauto).
  intros _ He H.
  change (nmin 100 (ofNat 1 * 8)) with 8%num.
  unfold nleb, nadd, nmul, fin, fle in *. apply Qle_bool_iff in H.
  revert H. rewrite !Qred_correct. lra.
Qed.

(** C5, as the code has it.  For a node of finite size and a style whose ellipse
    scale is finite and positive and whose font scale is finite, appending an
    attribute to a non-empty list never decreases the orbit radius or either
    envelope extent.  Going from no attribute to one does not decrease them
    either when the larger side of the node is not negative and
    0.12 max(width, height) + 96 ellipseScale is at least 27.  The wide orbit of
    a node with attributes meets the tight orbit of a node without where that
    sum is 26; the bound stays one unit clear of that point, where the outcome
    in the code depends on the rounding of its floating-point sums, while the
    sums of this development are exact. *)
Theorem envelope_monotone (node : BackboneNode) (style : ChenStyle)
    (attrs : list ChenAttribute) (a : ChenAttribute) :
  finite (bn_width node) -> finite (bn_height node) ->
  finite (ellipseScale style) -> finite (fontScale style) ->
  (0 <? ellipseScale style)%num = true ->
  attrs <> [] \/
    ((0 <=? nmax (bn_width node) (bn_height node))%num = true
     /\ (27 <=? nmax (bn_width node) (bn_height node) * 0.12
                + 96 * ellipseScale style)%num = true) ->
  envelopeLe (envelopeOf node style attrs) (envelopeOf node style (attrs ++ [a])).
Proof.
  intros Hw Hh Hes Hfs He0 Hcase.
  assert (He : 0%num ⊑ ellipseScale style).
  { apply nleb_fle; auto; [reflexivity|]. apply nltb_nleb. assumption. }
  assert (Hm : finite (nmax (bn_width node) (bn_height node))) by auto with finite.
  destruct (maxAttrRadii_finite attrs style Hes Hfs) as [Hrx Hry].
  destruct (attribute_size_finite (attr_name a) (attr_isPrimary a) style Hes Hfs)
    as [Hax Hay].
  unfold envelopeLe, envelopeOf, computeNodeEnvelope.
  cbn [withAttributes bn_attributes bn_width bn_height].
  rewrite maxAttrRadii_snoc.
  destruct (maxAttrRadii attrs style) as [rx ry]. cbn [fst snd] in *.
  cbn [orbitRadius envelopeX envelopeY].
  set (ax := as_rx _) in *. set (ay := as_ry _) in *.
  assert (Horbit :
    (if (0 <? length attrs)%nat
     then nmax (bn_width node) (bn_height node) * 0.62 + 88 * ellipseScale style
          + nmin 100 (ofNat (length attrs) * 8) * ellipseScale style
     else nmax (bn_width node) (bn_height node) * 0.5 + 26)%num
    ⊑
    (if (0 <? length (attrs ++ [a]))%nat
     then nmax (bn_width node) (bn_height node) * 0.62 + 88 * ellipseScale style
          + nmin 100 (ofNat (length (attrs ++ [a])) * 8) * ellipseScale style
     else nmax (bn_width node) (bn_height node) * 0.5 + 26)%num).
  { rewrite length_app. cbn [length].
    destruct attrs as [|a0 attrs].
    - destruct Hcase as [Hne|[_ Hgap]]; [congruence|]. cbn [length Nat.add Nat.ltb Nat.leb].
      apply orbit_first; try assumption. apply (nleb_below 26 27); [reflexivity|assumption].
    - cbn [length]. replace (S (length attrs) + 1)%nat with (S (S (length attrs))) by lia.
      cbn [Nat.ltb Nat.leb]. apply orbit_step; assumption. }
  set (o1 := if (0 <? length attrs)%nat then _ else _) in *.
  set (o2 := if (0 <? length (attrs ++ [a]))%nat then _ else _) in *.
  assert (Hrx' : rx ⊑ nmax rx ax) by (apply fle_max_l; assumption).
  assert (Hry' : ry ⊑ nmax ry ay) by (apply fle_max_l; assumption).
  repeat split; apply fle_nleb.
  - assumption.
  - apply fle_max; [apply fle_refl; auto with finite|].
    repeat apply fle_add; try assumption. apply fle_refl; reflexivity.
  - apply fle_max; [apply fle_refl; auto with finite|].
    repeat apply fle_add; try assumption. apply fle_refl; reflexivity.
Qed.

(** C5 as stated fails: with ellipse scale 0.05 the entity users, 120 by 58, has
    orbit radius 86 and envelope 102 without attributes, and a smaller orbit
    radius and smaller envelope extents once it has one attribute. *)
Lemma envelope_shrinks_with_first_attribute :
  let node := entityNode smallEllipses ∅ usersEntity in
  let before := envelopeOf node smallEllipses [] in
  let after := envelopeOf node smallEllipses ([] ++ [idAttribute]) in
  orbitRadius before = 86%num
  /\ (orbitRadius after <? orbitRadius before)%num = true
  /\ (envelopeX after <? envelopeX before)%num = true
  /\ (envelopeY after <? envelopeY before)%num = true
  /\ (orbitRadius before <=? orbitRadius after)%num = false.
Proof. repeat split; vm_compute; reflexivity. Qed.

(** The default style meets the hypotheses of [envelope_monotone]. *)
Lemma envelope_monotone_witness :
  let node := entityNode DEFAULT_CHEN_STYLE ∅ usersEntity in
  (finite (bn_width node) /\ finite (bn_height node)
   /\ finite (ellipseScale DEFAULT_CHEN_STYLE) /\ finite (fontScale DEFAULT_CHEN_STYLE)
   /\ (0 <? ellipseScale DEFAULT_CHEN_STYLE)%num = true
   /\ (0 <=? nmax (bn_width node) (bn_height node))%num = true
   /\ (27 <=? nmax (bn_width node) (bn_height node) * 0.12
              + 96 * ellipseScale DEFAULT_CHEN_STYLE)%num = true)
  /\ envelopeLe (envelopeOf node DEFAULT_CHEN_STYLE [])
                (envelopeOf node DEFAULT_CHEN_STYLE ([] ++ [idAttribute])).
Proof.
  split; [repeat split; vm_compute; reflexivity|].
  apply envelope_monotone; try reflexivity. right. split; vm_compute; reflexivity.
Defined.

(** ** Sorting *)

Section Sort.

Context {A : Type} (cmp : A -> A -> num).

Hypothesis cmp_asym : forall a b, (0 <? cmp a b)%num = true -> notAfter cmp b a.
Hypothesis cmp_trans :
  forall a b c, notAfter cmp a b -> notAfter cmp b c -> notAfter cmp a c.

Lemma insertSorted_perm x l : insertSorted cmp x l ≡ₚ x :: l.
Proof.
  induction l as [|y l IH]; simpl; [reflexivity|].
  destruct (0 <? cmp y x)%num; [reflexivity|].
  rewrite IH. apply Permutation_swap.
Qed.

Lemma jsSort_perm l : jsSort cmp l ≡ₚ l.
Proof.
  unfold jsSort.
  assert (H : forall acc, fold_left (fun acc x => insertSorted cmp x acc) l acc ≡ₚ acc ++ l).
  { induction l as [|x l IH]; intros acc; simpl; [now rewrite app_nil_r|].
    rewrite IH, insertSorted_perm. simpl. apply Permutation_middle. }
  apply H.
Qed.

Lemma insertSorted_sorted x l :
  StronglySorted (notAfter cmp) l -> StronglySorted (notAfter cmp) (insertSorted cmp x l).
Proof.
  induction l as [|y l IH]; intros Hs; simpl.
  - repeat constructor.
  - inversion Hs as [|? ? Hl Hy]; subst.
    destruct (0 <? cmp y x)%num eqn:E.
    + constructor; [assumption|]. constructor; [now apply cmp_asym|].
      eapply Forall_impl; [exact Hy|]. intros z Hz. simpl in Hz.
      eapply cmp_trans; [apply cmp_asym; eassumption|assumption].
    + constructor; [now apply IH|].
      rewrite insertSorted_perm. constructor; assumption.
Qed.

Lemma jsSort_sorted l : StronglySorted (notAfter cmp) (jsSort cmp l).
Proof.
  unfold jsSort.
  assert (H : forall acc, StronglySorted (notAfter cmp) acc ->
            StronglySorted (notAfter cmp)
              (fold_left (fun acc x => insertSorted cmp x acc) l acc)).
  { induction l as [|x l IH]; intros acc Hacc; simpl; [assumption|].
    apply IH. now apply insertSorted_sorted. }
  apply H. constructor.
Qed.

End Sort.

Lemma StronglySorted_lookup {A} (R : A -> A -> Prop) (l : list A) i j a b :
  StronglySorted R l -> i < j -> l !! i = Some a -> l !! j = Some b -> R a b.
Proof.
  intros Hs. revert i j. induction Hs as [|x l Hs IH Hx]; intros i j Hij Hi Hj.
  - now rewrite lookup_nil in Hi.
  - destruct j as [|j]; [lia|]. simpl in Hj. destruct i as [|i]; simpl in Hi.
    + injection Hi as ->. rewrite Forall_forall in Hx. apply Hx.
      eapply list_elem_of_lookup_2. eassumption.
    + eapply IH; [|eassumption|eassumption]. lia.
Qed.

(** [asciiCompare] is a consistent comparator. *)
Lemma codePointCompare_cases a b :
  codePointCompare a b = (-1)%num \/ codePointCompare a b = 0%num
  \/ codePointCompare a b = 1%num.
Proof.
  revert b. induction a as [|x a IH]; intros [|y b]; simpl; auto.
  destruct (x <? y)%Z; auto. destruct (y <? x)%Z; auto.
Qed.

Lemma codePointCompare_asym a b :
  codePointCompare a b = 1%num -> codePointCompare b a = (-1)%num.
Proof.
  revert b. induction a as [|x a IH]; intros [|y b]; simpl; try discriminate; auto.
  destruct (x <? y)%Z eqn:E1; [discriminate|].
  destruct (y <? x)%Z eqn:E2; [reflexivity|]. apply IH.
Qed.

Lemma codePointCompare_flip a b :
  codePointCompare a b = (-1)%num -> codePointCompare b a = 1%num.
Proof.
  revert b. induction a as [|x a IH]; intros [|y b]; simpl; try discriminate; auto.
  destruct (x <? y)%Z eqn:E1, (y <? x)%Z eqn:E2; try discriminate; try reflexivity;
    try lia. apply IH.
Qed.

Lemma codePointCompare_trans a b c :
  codePointCompare a b <> 1%num -> codePointCompare b c <> 1%num ->
  codePointCompare a c <> 1%num.
Proof.
  revert b c. induction a as [|x a IH]; intros [|y b] [|z c]; simpl;
    try discriminate; try congruence.
  destruct (x <? y)%Z eqn:E1, (y <? x)%Z eqn:E2, (y <? z)%Z eqn:E3, (z <? y)%Z eqn:E4,
           (x <? z)%Z eqn:E5, (z <? x)%Z eqn:E6; try discriminate; try congruence; try lia.
  apply IH.
Qed.

Lemma positive_is_one a b :
  (0 <? codePointCompare a b)%num = true <-> codePointCompare a b = 1%num.
Proof.
  destruct (codePointCompare_cases a b) as [-> | [-> | ->]]; split;
    try reflexivity; try discriminate.
Qed.

Lemma negative_is_minus_one a b :
  (codePointCompare a b <? 0)%num = true <-> codePointCompare a b = (-1)%num.
Proof.
  destruct (codePointCompare_cases a b) as [-> | [-> | ->]]; split;
    try reflexivity; try discriminate.
Qed.

Lemma asciiCompare_before_after a b :
  (asciiCompare a b <? 0)%num = true -> (0 <? asciiCompare b a)%num = true.
Proof.
  unfold asciiCompare. rewrite negative_is_minus_one, positive_is_one.
  apply codePointCompare_flip.
Qed.

Lemma asciiCompare_asym a b :
  (0 <? asciiCompare a b)%num = true -> (0 <? asciiCompare b a)%num = false.
Proof.
  unfold asciiCompare. rewrite positive_is_one. intros H.
  now rewrite (codePointCompare_asym _ _ H).
Qed.

Lemma asciiCompare_trans a b c :
  (0 <? asciiCompare a b)%num = false -> (0 <? asciiCompare b c)%num = false ->
  (0 <? asciiCompare a c)%num = false.
Proof.
  unfold asciiCompare. intros H1 H2.
  apply not_true_is_false. rewrite positive_is_one.
  apply (codePointCompare_trans _ (codePoints b)); rewrite <- positive_is_one; congruence.
Qed.

(** ** The store *)

Lemma update_length r f (store : list BackboneNode) :
  length (update r f store) = length store.
Proof. unfold update. destruct (store !! r); [apply length_insert|reflexivity]. Qed.

Lemma deref_update_eq r f (store : list BackboneNode) :
  r < length store -> deref (update r f store) r = f (deref store r).
Proof.
  intros Hr. unfold update, deref.
  destruct (lookup_lt_is_Some_2 store r Hr) as [node Hnode]. rewrite Hnode.
  rewrite list_lookup_total_insert_eq by assumption.
  now rewrite (list_lookup_total_correct _ _ _ Hnode).
Qed.

Lemma deref_update_ne r r' f (store : list BackboneNode) :
  r <> r' -> deref (update r f store) r' = deref store r'.
Proof.
  intros Hr. unfold update, deref. destruct (store !! r); [|reflexivity].
  now rewrite list_lookup_total_insert_ne.
Qed.

Lemma setY_moves v : moves (setY v).
Proof. split; reflexivity. Qed.

Lemma sameShape_refl s : sameShape s s.
Proof. split; [reflexivity|]. intros; split; reflexivity. Qed.

Lemma sameShape_trans s1 s2 s3 : sameShape s1 s2 -> sameShape s2 s3 -> sameShape s1 s3.
Proof.
  intros [L1 H1] [L2 H2]. split; [congruence|].
  intros r. destruct (H1 r), (H2 r). split; congruence.
Qed.

Lemma sameShape_update r f s : moves f -> sameShape s (update r f s).
Proof.
  intros Hf. split; [apply update_length|]. intros r'.
  destruct (decide (r = r')) as [<-|Hne].
  - destruct (decide (r < length s)) as [Hlt|Hge].
    + rewrite deref_update_eq by assumption. apply Hf.
    + unfold update. rewrite (lookup_ge_None_2 s r) by lia. split; reflexivity.
  - rewrite deref_update_ne by assumption. split; reflexivity.
Qed.

(** ** Stacking a level *)

Lemma positionsFrom_increasing vMargin y pe envelopes :
  finite y -> 0%num ⊑ pe -> Forall (fun e => 0%num ⊑ e) envelopes -> 0%num ⊏ vMargin ->
  StronglySorted flt (y :: positionsFrom vMargin y pe envelopes).
Proof.
  intros Hy Hpe Hes Hvm. revert y pe Hy Hpe.
  induction Hes as [|e envelopes He Hes IH]; intros y pe Hy Hpe; simpl.
  - repeat constructor.
  - assert (Hstep : y ⊏ (y + (pe + e + vMargin))%num) by now apply flt_step.
    specialize (IH _ e (flt_finite_r _ _ Hstep) He).
    constructor; [assumption|].
    constructor; [assumption|].
    inversion IH as [|? ? _ Hall]; subst.
    eapply Forall_impl; [exact Hall|]. intros z Hz. simpl in Hz.
    eapply flt_trans; eassumption.
Qed.

Lemma increasing_finite (y : num) (l : list num) :
  finite y -> StronglySorted flt (y :: l) -> Forall finite (y :: l).
Proof.
  intros Hy Hs. inversion Hs as [|? ? _ Hall]; subst.
  constructor; [assumption|].
  eapply Forall_impl; [exact Hall|]. intros z Hz. eapply flt_finite_r; eassumption.
Qed.

(** The cursor loop writes the running positions and nothing else. *)
Lemma stackY_fold vMargin rest :
  forall (store : list BackboneNode) yCursor prevRef,
  NoDup rest -> Forall (fun r => r < length store) rest ->
  let store' :=
    fst (fold_left
      (fun '(store, (yCursor, prevRef)) currRef =>
         let prevNode := deref store prevRef in
         let currNode := deref store currRef in
         let yCursor :=
           (yCursor + (bn_envelopeY prevNode + bn_envelopeY currNode + vMargin))%num in
         (update currRef (setY yCursor) store, (yCursor, currRef)))
      rest (store, (yCursor, prevRef))) in
  sameShape store store'
  /\ Forall2 (fun r y => bn_y (deref store' r) = y) rest
       (positionsFrom vMargin yCursor (envY store prevRef) (envY store <$> rest))
  /\ forall r, r ∉ rest -> deref store' r = deref store r.
Proof.
  induction rest as [|c rest IH]; intros store yCursor prevRef Hnd Hvalid; simpl.
  - split; [apply sameShape_refl|]. split; [constructor|reflexivity].
  - apply NoDup_cons in Hnd as [Hc Hnd]. apply Forall_cons in Hvalid as [Hcv Hvalid].
    set (y' := (yCursor + (bn_envelopeY (deref store prevRef)
                           + bn_envelopeY (deref store c) + vMargin))%num).
    pose proof (sameShape_update c (setY y') store (setY_moves y')) as Hshape.
    destruct (IH (update c (setY y') store) y' c Hnd) as (Hs & Hys & Hframe).
    { rewrite update_length. assumption. }
    split; [eapply sameShape_trans; eassumption|].
    split.
    + constructor.
      * rewrite Hframe by assumption. rewrite deref_update_eq by assumption. reflexivity.
      * assert (Henv : forall r, envY (update c (setY y') store) r = envY store r)
          by (intros r; apply Hshape).
        rewrite Henv in Hys.
        erewrite list_fmap_ext in Hys; [exact Hys|]. intros ? ? _. apply Henv.
    + intros r Hr. apply not_elem_of_cons in Hr as [Hrc Hr].
      rewrite Hframe by assumption. now apply deref_update_ne.
Qed.

Lemma stackY_spec vMargin first rest (store : list BackboneNode) :
  NoDup rest -> Forall (fun r => r < length store) rest ->
  sameShape store (stackY vMargin first rest store)
  /\ Forall2 (fun r y => bn_y (deref (stackY vMargin first rest store) r) = y) rest
       (positionsFrom vMargin 0%num (envY store first) (envY store <$> rest))
  /\ forall r, r ∉ rest -> deref (stackY vMargin first rest store) r = deref store r.
Proof. intros Hnd Hvalid. exact (stackY_fold vMargin rest store 0%num first Hnd Hvalid). Qed.

(** A loop that updates each node of a duplicate-free list once. *)
Lemma update_all_fold (f : BackboneNode -> BackboneNode) (l : list nat) :
  forall (store : list BackboneNode),
  NoDup l -> Forall (fun r => r < length store) l ->
  let store' := fold_left (fun store r => update r f store) l store in
  length store' = length store
  /\ (forall r, r ∈ l -> deref store' r = f (deref store r))
  /\ (forall r, r ∉ l -> deref store' r = deref store r).
Proof.
  induction l as [|c l IH]; intros store Hnd Hvalid; simpl.
  - split; [reflexivity|]. split; [intros r Hr; now apply elem_of_nil in Hr|reflexivity].
  - apply NoDup_cons in Hnd as [Hc Hnd]. apply Forall_cons in Hvalid as [Hcv Hvalid].
    destruct (IH (update c f store) Hnd) as (Hlen & Hin & Hout).
    { now rewrite update_length. }
    split; [now rewrite Hlen, update_length|]. split.
    + intros r Hr. apply elem_of_cons in Hr as [->|Hr].
      * rewrite Hout by assumption. now apply deref_update_eq.
      * rewrite Hin by assumption. f_equal. apply deref_update_ne. intros ->. contradiction.
    + intros r Hr. apply not_elem_of_cons in Hr as [Hrc Hr].
      rewrite Hout by assumption. now apply deref_update_ne.
Qed.

Lemma stackY_length vMargin first rest (store : list BackboneNode) :
  length (stackY vMargin first rest store) = length store.
Proof.
  unfold stackY. generalize 0%num first. revert store.
  induction rest as [|c rest IH]; intros store yCursor prevRef; simpl; [reflexivity|].
  rewrite IH. apply update_length.
Qed.

(** A loop that updates the nodes of a list reaches each of them. *)
Lemma update_all_reaches (f : BackboneNode -> BackboneNode) (P : BackboneNode -> Prop)
    (l : list nat) :
  (forall node, P (f node)) ->
  forall (store : list BackboneNode) r,
    r ∈ l -> r < length store ->
    P (deref (fold_left (fun store r => update r f store) l store) r).
Proof.
  intros Hf. induction l as [|c l IH]; intros store r Hr Hlt; simpl.
  - now apply elem_of_nil in Hr.
  - destruct (decide (r ∈ l)) as [Hin|Hout].
    + apply IH; [assumption|now rewrite update_length].
    + apply elem_of_cons in Hr as [->|Hr]; [|contradiction].
      assert (Hframe : forall (k : list nat) (s : list BackboneNode), c ∉ k ->
                deref (fold_left (fun store r => update r f store) k s) c = deref s c).
      { clear. induction k as [|x k IHk]; intros s Hc; simpl; [reflexivity|].
        apply not_elem_of_cons in Hc as [Hx Hc].
        rewrite IHk by assumption. apply deref_update_ne. congruence. }
      rewrite Hframe by assumption. rewrite deref_update_eq by assumption. apply Hf.
Qed.

Section LevelOrder.

Variable localeCompare : string -> string -> num.

(** Every node of a level is given the x of the level. *)
Lemma placeLevel_x vMargin offsetX xByDepth levels (store : list BackboneNode) d r :
  r ∈ default [] (levelsGet d levels) -> r < length store ->
  bn_x (deref (placeLevel localeCompare vMargin offsetX xByDepth levels store d) r)
  = (offsetX + getOr0 xByDepth d)%num.
Proof.
  intros Hr Hlt. unfold placeLevel.
  assert (Hperm : sortLevel localeCompare store (default [] (levelsGet d levels))
                  ≡ₚ default [] (levelsGet d levels)) by apply jsSort_perm.
  rewrite <- Hperm in Hr.
  destruct (sortLevel localeCompare store _) as [|first rest].
  { now apply elem_of_nil in Hr. }
  cbv zeta.
  apply (update_all_reaches _ (fun node => bn_x node = (offsetX + getOr0 xByDepth d)%num));
    [reflexivity|assumption|].
  now rewrite stackY_length, update_length.
Qed.

End LevelOrder.

(** C2 as stated fails: the entities a and b share a level, the display name of b
    compares before the display name of a, and yet a, whose id compares first,
    is the one with the smaller y. *)
Lemma level_order_ignores_names :
  match swappedNamesLayout, swappedNamesDepths with
  | Some layout, Some [(_, depth)] =>
      match l_nodes layout with
      | [a; b; r] =>
          bn_id a = "a" /\ bn_id b = "b"
          /\ depth !! bn_id a = depth !! bn_id b
          /\ (asciiCompare (bn_name b) (bn_name a) <? 0)%num = true
          /\ (bn_y b <? bn_y a)%num = false
          /\ (bn_y a <? bn_y b)%num = true
      | _ => False
      end
  | _, _ => False
  end.
Proof. vm_compute. repeat split. Qed.

(** ** Levels and their x-coordinates *)

Lemma levelsPush_keys d r levels :
  forall k, k ∈ (levelsPush d r levels).*1 <-> k = d \/ k ∈ levels.*1.
Proof.
  induction levels as [|[d' rs] levels IH]; intros k; simpl.
  - rewrite list_elem_of_singleton, elem_of_nil. tauto.
  - destruct (d =? d')%nat eqn:E; simpl.
    + apply Nat.eqb_eq in E. subst. rewrite !elem_of_cons. tauto.
    + rewrite !elem_of_cons, IH. tauto.
Qed.

Lemma levelsPush_NoDup d r levels :
  NoDup levels.*1 -> NoDup (levelsPush d r levels).*1.
Proof.
  induction levels as [|[d' rs] levels IH]; simpl; intros Hnd.
  - apply NoDup_singleton.
  - destruct (d =? d')%nat eqn:E; simpl; [assumption|].
    apply NoDup_cons in Hnd as [Hd' Hnd]. apply NoDup_cons. split; [|now apply IH].
    rewrite levelsPush_keys. apply Nat.eqb_neq in E. intros [->|H]; [congruence|contradiction].
Qed.

Lemma buildLevels_NoDup store depth component :
  NoDup (buildLevels store depth component).*1.
Proof.
  unfold buildLevels.
  assert (H : forall levels, NoDup levels.*1 ->
    NoDup (fold_left (fun levels r => levelsPush (depthOf store depth r) r levels)
             component levels).*1).
  { induction component as [|r component IH]; intros levels Hnd; simpl; [assumption|].
    apply IH. now apply levelsPush_NoDup. }
  apply H. constructor.
Qed.

Lemma orderedDepths_NoDup store depth component :
  NoDup (orderedDepthsOf (buildLevels store depth component)).
Proof.
  unfold orderedDepthsOf. rewrite jsSort_perm. apply buildLevels_NoDup.
Qed.

Lemma getOr0_insert_ne (m : gmap nat num) k k' v :
  k <> k' -> getOr0 (<[k := v]> m) k' = getOr0 m k'.
Proof. intros. unfold getOr0. now rewrite lookup_insert_ne. Qed.

(** Each level after the first lies beyond the previous one by the two widest
    envelopes and the margin. *)
Lemma assignLevelX_spec hMargin (store : list BackboneNode) levels orderedDepths :
  NoDup orderedDepths ->
  forall i prev d,
    orderedDepths !! i = Some prev -> orderedDepths !! S i = Some d ->
    assignLevelX hMargin store levels orderedDepths !! d
    = Some (getOr0 (assignLevelX hMargin store levels orderedDepths) prev
            + maxEnvelopeX store (default [] (levelsGet prev levels))
            + maxEnvelopeX store (default [] (levelsGet d levels))
            + hMargin)%num.
Proof.
  unfold assignLevelX.
  set (F := fun '(xByDepth, prevDepth) d => _).
  induction orderedDepths as [|d0 l IH] using rev_ind; intros Hnd i prev d Hi Hj.
  - now rewrite lookup_nil in Hi.
  - rewrite fold_left_app. simpl.
    apply NoDup_app in Hnd as (Hndl & Hd0 & _).
    assert (Hlast : (fold_left F l (∅, None)).2 = last l).
    { clear. induction l as [|x l IH] using rev_ind; [reflexivity|].
      rewrite fold_left_app, last_snoc. simpl.
      destruct (fold_left F l (∅, None)) as [m [p|]]; reflexivity. }
    destruct (fold_left F l (∅, None)) as [m p] eqn:Efold. simpl in Hlast, IH.
    assert (Hd0' : d0 ∉ l) by (intros H; eapply Hd0; [exact H|left]).
    destruct (decide (S i < length l)) as [Hin|Hout].
    + rewrite lookup_app_l in Hi by lia. rewrite lookup_app_l in Hj by assumption.
      assert (prev <> d0) by (intros ->; apply Hd0'; eapply list_elem_of_lookup_2; eassumption).
      assert (d <> d0) by (intros ->; apply Hd0'; eapply list_elem_of_lookup_2; eassumption).
      specialize (IH Hndl i prev d Hi Hj).
      destruct p as [p|]; simpl; rewrite lookup_insert_ne, getOr0_insert_ne by congruence;
        exact IH.
    + assert (Hlen : S i = length l).
      { apply lookup_lt_Some in Hj. rewrite length_app in Hj. simpl in Hj. lia. }
      rewrite Hlen, list_lookup_middle in Hj by reflexivity. injection Hj as <-.
      rewrite lookup_app_l in Hi by lia.
      assert (Hp : p = Some prev).
      { rewrite Hlast, last_lookup. rewrite <- Hlen. exact Hi. }
      assert (prev <> d0) by (intros ->; apply Hd0'; eapply list_elem_of_lookup_2; eassumption).
      rewrite ?Hp. simpl.
      rewrite lookup_insert_eq, getOr0_insert_ne by congruence. reflexivity.
Qed.

(** With both gaps 0 the two levels of the example are 260 apart beyond their
    envelopes, in the finished layout. *)
Lemma zero_gap_example :
  match zeroGapLayout with
  | Some layout =>
      match l_nodes layout with
      | [users; orders; places] =>
          bn_x users = (bn_x places + bn_envelopeX places + bn_envelopeX users + 260)%num
          /\ bn_x users <> (bn_x places + bn_envelopeX places + bn_envelopeX users + 0)%num
      | _ => False
      end
  | None => False
  end.
Proof. vm_compute. split; [reflexivity|discriminate]. Qed.

(** ** Termination of the breadth-first walks *)

Lemma targetsIn_adjacencyIds adjacency : targetsIn (adjacencyIds adjacency) adjacency.
Proof.
  intros k ns n Hk Hn. unfold adjacencyIds.
  apply elem_of_union_list. exists (list_to_set ns). split.
  - apply list_elem_of_fmap. exists ns. split; [reflexivity|].
    apply list_elem_of_fmap. exists (k, ns). split; [reflexivity|].
    now apply elem_of_map_to_list.
  - now apply elem_of_list_to_set.
Qed.

Lemma neighbors_targets U adjacency id n :
  targetsIn U adjacency -> n ∈ neighbors adjacency id -> n ∈ U.
Proof.
  unfold neighbors. intros HU Hn.
  destruct (adjacency !! id) as [ns|] eqn:E; simpl in Hn.
  - eapply HU; eassumption.
  - now apply elem_of_nil in Hn.
Qed.

(** Marking an id leaves one id less to visit. *)
Lemma size_unvisited_insert (U visited : gset string) (n : string) :
  n ∈ U -> n ∉ visited ->
  S (size (U ∖ ({[n]} ∪ visited))) = size (U ∖ visited).
Proof.
  intros HU Hv.
  assert (E : U ∖ visited = {[n]} ∪ U ∖ ({[n]} ∪ visited)).
  { apply set_eq. intros x. set_unfold. destruct (decide (x = n)); naive_solver. }
  symmetry. etransitivity; [exact (f_equal size E)|].
  rewrite size_union by set_solver. now rewrite size_singleton.
Qed.

(** An id is put on the queue at most once: what one pass appends to the queue
    is duplicate-free, was unmarked before the pass and is marked after it. *)
Lemma visitNeighbors_enqueues_once ns :
  forall (visited : gset string) (queue : list string),
  exists added,
    (visitNeighbors ns visited queue).2 = queue ++ added
    /\ NoDup added
    /\ (forall n, n ∈ added -> n ∉ visited)
    /\ (visitNeighbors ns visited queue).1 = list_to_set added ∪ visited.
Proof.
  unfold visitNeighbors.
  induction ns as [|n ns IH]; intros visited queue; simpl.
  - exists []. rewrite app_nil_r. repeat split; [constructor|set_solver|set_solver].
  - case_bool_decide as Hv; [apply IH|].
    destruct (IH ({[n]} ∪ visited) (queue ++ [n])) as (added & Hq & Hnd & Hnew & Hvis).
    exists (n :: added). rewrite Hq, Hvis, <- app_assoc. simpl.
    repeat split.
    + apply NoDup_cons. split; [|assumption].
      intros Hn. apply Hnew in Hn. set_solver.
    + intros m Hm. apply elem_of_cons in Hm as [->|Hm]; [assumption|].
      apply Hnew in Hm. set_solver.
    + set_solver.
Qed.

Section Walks.

Variable U : gset string.
Variable adjacency : gmap string (list string).
Hypothesis targets : targetsIn U adjacency.

(** An id is enqueued only when it is marked, so the queue and the ids left to
    visit never grow together. *)
Lemma visitNeighbors_measure ns visited queue :
  (forall n, n ∈ ns -> n ∈ U) ->
  length (visitNeighbors ns visited queue).2
    + size (U ∖ (visitNeighbors ns visited queue).1)
  <= length queue + size (U ∖ visited).
Proof.
  unfold visitNeighbors. revert visited queue.
  induction ns as [|n ns IH]; intros visited queue Hns; simpl; [lia|].
  assert (Hn : n ∈ U) by (apply Hns; left).
  assert (Hns' : forall m, m ∈ ns -> m ∈ U) by (intros; apply Hns; now right).
  case_bool_decide as Hv.
  - now apply IH.
  - etransitivity; [apply IH; assumption|].
    rewrite length_app. simpl. rewrite <- (size_unvisited_insert U visited n) by assumption.
    lia.
Qed.

Lemma componentWalk_terminates byId fuel queue visited component :
  length queue + size (U ∖ visited) <= fuel ->
  is_Some (componentWalk fuel byId adjacency queue visited component).
Proof.
  revert queue visited component.
  induction fuel as [|fuel IH]; intros queue visited component Hfuel.
  - destruct queue; [eexists; reflexivity|simpl in Hfuel; lia].
  - destruct queue as [|id queue]; [eexists; reflexivity|]. simpl in *.
    case_bool_decide.
    + apply IH. lia.
    + pose proof (visitNeighbors_measure (neighbors adjacency id) visited queue
                    (fun n => neighbors_targets U adjacency id n targets)) as Hm.
      destruct (visitNeighbors _ visited queue) as [visited' queue']. simpl in Hm.
      apply IH. lia.
Qed.

Lemma assignNeighborDepths_measure ns d depth queue :
  (forall n, n ∈ ns -> n ∈ U) ->
  length (assignNeighborDepths ns d depth queue).2
    + size (U ∖ dom (assignNeighborDepths ns d depth queue).1)
  <= length queue + size (U ∖ dom depth).
Proof.
  unfold assignNeighborDepths. revert depth queue.
  induction ns as [|n ns IH]; intros depth queue Hns; simpl; [lia|].
  assert (Hn : n ∈ U) by (apply Hns; left).
  assert (Hns' : forall m, m ∈ ns -> m ∈ U) by (intros; apply Hns; now right).
  destruct (depth !! n) eqn:E.
  - now apply IH.
  - etransitivity; [apply IH; assumption|].
    rewrite length_app, dom_insert_L. simpl.
    rewrite <- (size_unvisited_insert U (dom depth) n);
      [lia|assumption|now apply not_elem_of_dom].
Qed.

Lemma depthWalk_terminates fuel queue depth :
  length queue + size (U ∖ dom depth) <= fuel ->
  is_Some (depthWalk fuel adjacency queue depth).
Proof.
  revert queue depth.
  induction fuel as [|fuel IH]; intros queue depth Hfuel.
  - destruct queue; [eexists; reflexivity|simpl in Hfuel; lia].
  - destruct queue as [|id queue]; [eexists; reflexivity|]. simpl in *.
    case_bool_decide.
    + apply IH. lia.
    + pose proof (assignNeighborDepths_measure (neighbors adjacency id)
                    (default 0%nat (depth !! id)) depth queue
                    (fun n => neighbors_targets U adjacency id n targets)) as Hm.
      destruct (assignNeighborDepths _ _ depth queue) as [depth' queue']. simpl in Hm.
      apply IH. lia.
Qed.

Lemma assignDepths_terminates fuel rootId :
  size U < fuel -> is_Some (assignDepths fuel adjacency rootId).
Proof.
  intros Hfuel. apply depthWalk_terminates. simpl.
  assert (size (U ∖ dom ({[rootId := 0%nat]} : gmap string nat)) <= size U)
    by (apply subseteq_size; set_solver).
  lia.
Qed.

Lemma visitComponent_terminates fuel byId visited components node :
  size U < fuel ->
  is_Some (visitComponent fuel byId adjacency (Some (visited, components)) node).
Proof.
  intros Hfuel. unfold visitComponent. simpl.
  case_bool_decide; [eexists; reflexivity|].
  destruct (componentWalk_terminates byId fuel [bn_id node]
              ({[bn_id node]} ∪ visited) []) as [[visited' component] Hwalk].
  { simpl.
    assert (size (U ∖ ({[bn_id node]} ∪ visited)) <= size U)
      by (apply subseteq_size; set_solver).
    lia. }
  rewrite Hwalk. eexists; reflexivity.
Qed.

Lemma connectedComponents_terminates fuel nodes :
  size U < fuel -> is_Some (connectedComponents fuel nodes adjacency).
Proof.
  intros Hfuel. unfold connectedComponents.
  generalize (byIdOf nodes). intros byId.
  assert (Hfold : forall l acc, is_Some acc ->
            is_Some (fold_left (visitComponent fuel byId adjacency) l acc)).
  { induction l as [|node l IH]; intros acc Hacc; simpl; [assumption|].
    apply IH. destruct Hacc as [[visited components] ->].
    now apply visitComponent_terminates. }
  destruct (Hfold nodes (Some (∅, []))) as [[visited components] ->];
    eexists; reflexivity.
Qed.

Lemma componentDepths_terminates fuel store component :
  size U < fuel -> is_Some (componentDepths fuel adjacency store component).
Proof.
  intros. unfold componentDepths. destruct (findRoot store component).
  - now apply assignDepths_terminates.
  - eexists; reflexivity.
Qed.

End Walks.

(** The walks terminate on every adjacency map, cyclic or not. *)
Lemma walks_terminate_on_any_adjacency nodes adjacency fuel :
  size (adjacencyIds adjacency) < fuel ->
  is_Some (connectedComponents fuel nodes adjacency)
  /\ forall rootId, is_Some (assignDepths fuel adjacency rootId).
Proof.
  intros Hfuel. pose proof (targetsIn_adjacencyIds adjacency) as Ht. split.
  - now apply (connectedComponents_terminates _ _ Ht).
  - intros. now apply (assignDepths_terminates _ _ Ht).
Qed.

(** More fuel never changes a result. *)
Lemma componentWalk_fuel byId adjacency fuel fuel' queue visited component r :
  componentWalk fuel byId adjacency queue visited component = Some r ->
  fuel <= fuel' ->
  componentWalk fuel' byId adjacency queue visited component = Some r.
Proof.
  revert fuel' queue visited component.
  induction fuel as [|fuel IH]; intros fuel' queue visited component Hr Hle;
    destruct queue as [|id queue]; simpl in Hr; try discriminate;
    destruct fuel' as [|fuel']; try lia; simpl; try assumption.
  case_bool_decide.
  - apply IH; [assumption|lia].
  - destruct (visitNeighbors _ visited queue). apply IH; [assumption|lia].
Qed.

Lemma depthWalk_fuel adjacency fuel fuel' queue depth r :
  depthWalk fuel adjacency queue depth = Some r ->
  fuel <= fuel' ->
  depthWalk fuel' adjacency queue depth = Some r.
Proof.
  revert fuel' queue depth.
  induction fuel as [|fuel IH]; intros fuel' queue depth Hr Hle;
    destruct queue as [|id queue]; simpl in Hr; try discriminate;
    destruct fuel' as [|fuel']; try lia; simpl; try assumption.
  case_bool_decide.
  - apply IH; [assumption|lia].
  - destruct (assignNeighborDepths _ _ depth queue). apply IH; [assumption|lia].
Qed.

Lemma fold_left_None {A B} (f : option A -> B -> option A) (l : list B) :
  (forall b, f None b = None) -> fold_left f l None = None.
Proof. intros Hf. induction l; simpl; [reflexivity|]. now rewrite Hf. Qed.

Lemma fold_left_fuel {A B} (f f' : option A -> B -> option A) (l : list B) acc r :
  (forall b, f None b = None) ->
  (forall a b r, f (Some a) b = Some r -> f' (Some a) b = Some r) ->
  fold_left f l acc = Some r -> fold_left f' l acc = Some r.
Proof.
  intros Hnone Hstep. revert acc.
  induction l as [|b l IH]; intros acc; simpl; [tauto|].
  destruct acc as [a|].
  - destruct (f (Some a) b) as [a'|] eqn:E.
    + rewrite (Hstep _ _ _ E). apply IH.
    + rewrite fold_left_None by assumption. discriminate.
  - rewrite Hnone, fold_left_None by assumption. discriminate.
Qed.

Lemma visitComponent_fuel fuel fuel' byId adjacency a node r :
  fuel <= fuel' ->
  visitComponent fuel byId adjacency (Some a) node = Some r ->
  visitComponent fuel' byId adjacency (Some a) node = Some r.
Proof.
  intros Hle. unfold visitComponent. destruct a as [visited components]. simpl.
  case_bool_decide; [tauto|].
  destruct (componentWalk fuel _ _ _ _ _) as [w|] eqn:E; [|discriminate].
  now rewrite (componentWalk_fuel _ _ _ _ _ _ _ _ E Hle).
Qed.

Lemma connectedComponents_fuel fuel fuel' nodes adjacency r :
  connectedComponents fuel nodes adjacency = Some r ->
  fuel <= fuel' ->
  connectedComponents fuel' nodes adjacency = Some r.
Proof.
  unfold connectedComponents. intros Hr Hle.
  destruct (fold_left (visitComponent fuel _ _) _ _) as [a|] eqn:E; [|discriminate].
  erewrite fold_left_fuel;
    [exact Hr| |intros; eapply visitComponent_fuel; eassumption|exact E].
  reflexivity.
Qed.

(** ** The graph of a model *)

Lemma size_list_to_set_le (l : list string) : size (list_to_set l : gset string) <= length l.
Proof.
  induction l as [|x l IH]; simpl.
  - change (size (∅ : gset string) <= 0). now rewrite size_empty.
  - change (size ({[x]} ∪ (list_to_set l : gset string)) <= S (length l)).
    rewrite size_union_alt, size_singleton.
    assert (size ((list_to_set l : gset string) ∖ {[x]}) <= size (list_to_set l : gset string))
      by (apply subseteq_size; set_solver).
    lia.
Qed.

Lemma size_nodeIds store : size (nodeIds store) <= length store.
Proof.
  unfold nodeIds. etransitivity; [apply size_list_to_set_le|]. now rewrite length_fmap.
Qed.

Lemma buildNodes_spec model style nodeOverrides :
  length (buildNodes model style nodeOverrides).1.1
    = length (entities model) + length (relationships model)
  /\ emptySets (buildNodes model style nodeOverrides).2.
Proof.
  unfold buildNodes.
  assert (Hpush : forall {A} (mk : A -> BackboneNode) (l : list A)
                         (g : list BackboneNode * gmap string nat * gmap string (list string)),
            emptySets g.2 ->
            length (fold_left (fun g a => pushNode g (mk a)) l g).1.1
              = length g.1.1 + length l
            /\ emptySets (fold_left (fun g a => pushNode g (mk a)) l g).2).
  { intros A mk l. induction l as [|a l IH]; intros g Hg; simpl.
    - split; [lia|assumption].
    - destruct (IH (pushNode g (mk a))) as [Hlen Hempty].
      + destruct g as [[store byId] adj]. unfold emptySets in *. simpl in *.
        intros k ns. rewrite lookup_insert. case_decide; [congruence|apply Hg].
      + split; [|assumption]. rewrite Hlen.
        destruct g as [[store byId] adj]. simpl. rewrite length_app. simpl. lia. }
  destruct (Hpush _ (entityNode style nodeOverrides) (entities model) ([], ∅, ∅))
    as [Hlen1 Hempty1].
  { intros k ns. simpl. now rewrite lookup_empty. }
  destruct (Hpush _ (relationshipNode style nodeOverrides) (relationships model)
              (fold_left (fun g e => pushNode g (entityNode style nodeOverrides e))
                 (entities model) ([], ∅, ∅)) Hempty1) as [Hlen2 Hempty2].
  split; [|assumption]. rewrite Hlen2, Hlen1. simpl. lia.
Qed.

Lemma getById_nodeIds store nodeById id node :
  getById store nodeById id = Some node -> bn_id node ∈ nodeIds store.
Proof.
  unfold getById, nodeIds. intros H.
  destruct (nodeById !! id) as [r|]; simpl in H; [|discriminate].
  apply elem_of_list_to_set, list_elem_of_fmap. exists node. split; [reflexivity|].
  eapply list_elem_of_lookup_2; eassumption.
Qed.

Lemma adjAdd_targets U k v adjacency :
  v ∈ U -> targetsIn U adjacency -> targetsIn U (adjAdd k v adjacency).
Proof.
  intros Hv HU. unfold adjAdd. destruct (adjacency !! k) as [s|] eqn:E; [|assumption].
  intros k' ns n. rewrite lookup_insert. case_decide as Hk.
  - intros [= <-]. unfold setAdd. case_bool_decide.
    + intros Hn. eapply HU; eassumption.
    + rewrite elem_of_app, list_elem_of_singleton. intros [Hn| ->]; [|assumption].
      eapply HU; eassumption.
  - apply HU.
Qed.

Lemma buildEdges_targets model
    (g : list BackboneNode * gmap string nat * gmap string (list string)) :
  emptySets g.2 -> targetsIn (nodeIds g.1.1) (buildEdges model g).1.
Proof.
  destruct g as [[store nodeById] adjacency]. simpl. intros Hempty.
  unfold buildEdges.
  assert (H0 : targetsIn (nodeIds store) (adjacency, @nil EntityRelationshipEdge).1).
  { intros k ns n Hk Hn. simpl in Hk. rewrite (Hempty _ _ Hk) in Hn.
    now apply elem_of_nil in Hn. }
  revert H0. generalize (adjacency, @nil EntityRelationshipEdge).
  induction (relationships model) as [|r rs IH]; intros acc Hacc; simpl; [assumption|].
  apply IH. unfold linkRelationship.
  destruct (getById store nodeById (rel_id r)) as [relNode|] eqn:Hrel; [|assumption].
  revert acc Hacc.
  induction (rel_endpoints r) as [|endpoint es IHe]; intros acc Hacc; simpl; [assumption|].
  apply IHe. unfold linkEndpoint. destruct acc as [adj edges].
  destruct (getById store nodeById (entityId endpoint)) as [entityNode|] eqn:Hent;
    [|assumption].
  simpl. apply adjAdd_targets; [eapply getById_nodeIds; eassumption|].
  apply adjAdd_targets; [eapply getById_nodeIds; eassumption|assumption].
Qed.

(** The adjacency sets of a model hold node ids only, fewer than its fuel. *)
Lemma model_targets model style nodeOverrides :
  let g := buildNodes model style nodeOverrides in
  targetsIn (nodeIds g.1.1) (buildEdges model g).1
  /\ size (nodeIds g.1.1) < modelFuel model.
Proof.
  intros g. destruct (buildNodes_spec model style nodeOverrides) as [Hlen Hempty].
  split; [now apply buildEdges_targets|].
  unfold modelFuel. pose proof (size_nodeIds g.1.1). fold g in Hlen. lia.
Qed.

Lemma backboneDepths_terminates fuel model style nodeOverrides :
  modelFuel model <= fuel -> is_Some (backboneDepths fuel model style nodeOverrides).
Proof.
  intros Hfuel. unfold backboneDepths.
  destruct (model_targets model style nodeOverrides) as [Htargets Hsize].
  destruct (buildNodes model style nodeOverrides) as [[backboneNodes nodeById] adj0].
  destruct (buildEdges model _) as [adjacency edges]. simpl in *.
  assert (Hlt : size (nodeIds backboneNodes) < fuel) by lia.
  destruct (connectedComponents_terminates _ _ Htargets fuel backboneNodes Hlt)
    as [components ->]. simpl.
  apply mapM_is_Some_2, Forall_forall. intros component _. simpl.
  destruct (componentDepths_terminates _ _ Htargets fuel backboneNodes component Hlt)
    as [depth ->].
  eexists; reflexivity.
Qed.

Section LayoutFuel.

Variable localeCompare : string -> string -> num.

Lemma layoutComponent_fuel fuel fuel' adjacency style a component r :
  fuel <= fuel' ->
  layoutComponent localeCompare fuel adjacency style (Some a) component = Some r ->
  layoutComponent localeCompare fuel' adjacency style (Some a) component = Some r.
Proof.
  intros Hle. unfold layoutComponent. destruct a as [store offsetX]. simpl.
  destruct (findRoot store component); [|tauto].
  unfold assignDepths.
  destruct (depthWalk fuel _ _ _) as [depth|] eqn:E; [|discriminate].
  now rewrite (depthWalk_fuel _ _ _ _ _ _ E Hle).
Qed.

Lemma buildBackboneLayout_fuel fuel fuel' model style nodeOverrides r :
  buildBackboneLayout localeCompare fuel model style nodeOverrides = Some r ->
  fuel <= fuel' ->
  buildBackboneLayout localeCompare fuel' model style nodeOverrides = Some r.
Proof.
  unfold buildBackboneLayout. intros Hr Hle.
  destruct (buildNodes model style nodeOverrides) as [[backboneNodes nodeById] adj0].
  destruct (buildEdges model _) as [adjacency edges].
  destruct (connectedComponents fuel _ _) as [components|] eqn:Ec; [|discriminate].
  rewrite (connectedComponents_fuel _ _ _ _ _ Ec Hle).
  simpl in *.
  destruct (fold_left (layoutComponent _ fuel _ _) _ _) as [a|] eqn:El; [|discriminate].
  erewrite fold_left_fuel;
    [exact Hr| |intros; eapply layoutComponent_fuel; eassumption|exact El].
  reflexivity.
Qed.

Lemma buildBackboneLayout_terminates fuel model style nodeOverrides :
  modelFuel model <= fuel ->
  is_Some (buildBackboneLayout localeCompare fuel model style nodeOverrides).
Proof.
  intros Hfuel. unfold buildBackboneLayout.
  destruct (model_targets model style nodeOverrides) as [Htargets Hsize].
  destruct (buildNodes model style nodeOverrides) as [[backboneNodes nodeById] adj0].
  destruct (buildEdges model _) as [adjacency edges]. simpl in *.
  assert (Hlt : size (nodeIds backboneNodes) < fuel) by lia.
  destruct (connectedComponents_terminates _ _ Htargets fuel backboneNodes Hlt)
    as [components ->]. simpl.
  assert (Hfold : forall l acc, is_Some acc ->
            is_Some (fold_left (layoutComponent localeCompare fuel adjacency style) l acc)).
  { induction l as [|c l IH]; intros acc Hacc; simpl; [assumption|].
    apply IH. destruct Hacc as [[store offsetX] ->]. unfold layoutComponent. simpl.
    destruct (findRoot store c) as [root|]; [|eexists; reflexivity].
    destruct (assignDepths_terminates _ _ Htargets fuel (bn_id (deref store root)) Hlt)
      as [depth ->]. eexists; reflexivity. }
  destruct (Hfold components (Some (backboneNodes, 0%num))) as [[store offsetX] ->];
    eexists; reflexivity.
Qed.

(** C9.  For every model, self-referencing relationships and cycles included,
    fuel beyond the number of backbone nodes suffices: the decomposition into
    connected components and the depth walk of every component return, and so
    does the backbone layout built on them.  An id enters a queue only when it
    is marked visited or given a depth, which happens once per id. *)
Theorem walks_terminate fuel model style nodeOverrides :
  modelFuel model <= fuel ->
  (exists components, backboneDepths fuel model style nodeOverrides = Some components)
  /\ (exists layout,
        buildBackboneLayout localeCompare fuel model style nodeOverrides = Some layout).
Proof.
  intros Hfuel. split.
  - now apply backboneDepths_terminates.
  - now apply buildBackboneLayout_terminates.
Qed.

End LayoutFuel.

(** The cyclic model, with its self-referencing relationship, and its own fuel. *)
Lemma walks_terminate_witness :
  modelFuel cyclicModel <= 6
  /\ (exists components,
        backboneDepths 6 cyclicModel DEFAULT_CHEN_STYLE ∅ = Some components)
  /\ (exists layout,
        buildBackboneLayout asciiCompare 6 cyclicModel DEFAULT_CHEN_STYLE ∅ = Some layout).
Proof.
  split; [vm_compute; lia|].
  apply (walks_terminate asciiCompare 6 cyclicModel DEFAULT_CHEN_STYLE ∅).
  vm_compute. lia.
Defined.

(** ** Determinism of the render *)

Section RenderFuel.

Variables Math_cos Math_sin : num -> num.
Variable Math_atan2 : num -> num -> num.
Variable localeCompare : string -> string -> num.
Variable fracToString : Q -> string.

Lemma renderChenSvg_fuel fuel fuel' model styleInput options out :
  renderChenSvg Math_cos Math_sin Math_atan2 localeCompare fracToString
    fuel model styleInput options = Some out ->
  fuel <= fuel' ->
  renderChenSvg Math_cos Math_sin Math_atan2 localeCompare fracToString
    fuel' model styleInput options = Some out.
Proof.
  unfold renderChenSvg, computeScene. intros Hr Hle.
  destruct (buildBackboneLayout _ fuel _ _ _) as [layout|] eqn:E; [|discriminate].
  now rewrite (buildBackboneLayout_fuel _ _ _ _ _ _ _ E Hle).
Qed.

Lemma renderChenSvg_terminates fuel model styleInput options :
  modelFuel model <= fuel ->
  is_Some (renderChenSvg Math_cos Math_sin Math_atan2 localeCompare fracToString
             fuel model styleInput options).
Proof.
  intros Hfuel. unfold renderChenSvg, computeScene.
  destruct (buildBackboneLayout_terminates localeCompare fuel model
              (normalizeStyle styleInput) (default ∅ (nodeOverrides options)) Hfuel)
    as [layout ->].
  eexists; reflexivity.
Qed.

(** The fuel of the embedding does not show in the document: every run that
    is given enough fuel for its walks returns, and any two such runs return the
    same string. *)
Lemma renderChenSvg_any_fuel model styleInput options fuel1 fuel2 :
  modelFuel model <= fuel1 -> modelFuel model <= fuel2 ->
  exists out,
    renderChenSvg Math_cos Math_sin Math_atan2 localeCompare fracToString
      fuel1 model styleInput options = Some out
    /\ renderChenSvg Math_cos Math_sin Math_atan2 localeCompare fracToString
      fuel2 model styleInput options = Some out.
Proof.
  intros H1 H2.
  destruct (renderChenSvg_terminates (modelFuel model) model styleInput options
              ltac:(reflexivity)) as [out Hout].
  exists out. split; eapply renderChenSvg_fuel; eassumption.
Qed.

End RenderFuel.

(** ** Endpoints and edges *)

Lemma pushNode_indexed store nodeById (adjacency : gmap string (list string)) node :
  indexed store nodeById ->
  indexed (pushNode (store, nodeById, adjacency) node).1.1
          (pushNode (store, nodeById, adjacency) node).1.2.
Proof.
  intros H id. simpl. rewrite lookup_insert. case_decide as E.
  - subst id. exists node. split; [|reflexivity].
    now rewrite list_lookup_middle.
  - specialize (H id). destruct (nodeById !! id) as [r|].
    + destruct H as (n & Hn & Hid). exists n. split; [|assumption].
      now apply lookup_app_l_Some.
    + rewrite fmap_app, elem_of_app. simpl. rewrite list_elem_of_singleton.
      intros [?|?]; congruence.
Qed.

Lemma buildNodes_indexed model style nodeOverrides :
  indexed (buildNodes model style nodeOverrides).1.1 (buildNodes model style nodeOverrides).1.2
  /\ bn_id <$> (buildNodes model style nodeOverrides).1.1 = knownIds model.
Proof.
  unfold buildNodes, knownIds.
  assert (Hpush : forall {A} (mk : A -> BackboneNode) (key : A -> string) (l : list A)
                         (g : list BackboneNode * gmap string nat * gmap string (list string)),
            (forall a, bn_id (mk a) = key a) ->
            indexed g.1.1 g.1.2 ->
            indexed (fold_left (fun g a => pushNode g (mk a)) l g).1.1
                    (fold_left (fun g a => pushNode g (mk a)) l g).1.2
            /\ bn_id <$> (fold_left (fun g a => pushNode g (mk a)) l g).1.1
               = (bn_id <$> g.1.1) ++ (key <$> l)).
  { intros A mk key l. induction l as [|a l IH]; intros g Hkey Hg; simpl.
    - split; [assumption|now rewrite app_nil_r].
    - destruct g as [[store byId] adj].
      destruct (IH (pushNode (store, byId, adj) (mk a)) Hkey) as [Hi Hids].
      + now apply pushNode_indexed.
      + split; [assumption|]. rewrite Hids. simpl. rewrite fmap_app, <- app_assoc. simpl.
        now rewrite Hkey. }
  destruct (Hpush _ (entityNode style nodeOverrides) ent_id (entities model) ([], ∅, ∅))
    as [Hi1 Hids1]; [reflexivity| |].
  { intros id. simpl. rewrite lookup_empty. apply not_elem_of_nil. }
  destruct (Hpush _ (relationshipNode style nodeOverrides) rel_id (relationships model)
              (fold_left (fun g e => pushNode g (entityNode style nodeOverrides e))
                 (entities model) ([], ∅, ∅))) as [Hi2 Hids2]; [reflexivity|assumption|].
  split; [assumption|]. rewrite Hids2, Hids1. reflexivity.
Qed.

Lemma getById_Some store nodeById id node :
  indexed store nodeById -> getById store nodeById id = Some node -> bn_id node = id.
Proof.
  intros H. unfold getById. specialize (H id).
  destruct (nodeById !! id) as [r|]; simpl; [|discriminate].
  destruct H as (n & Hn & Hid). rewrite Hn. congruence.
Qed.

Lemma getById_is_Some store nodeById id :
  indexed store nodeById ->
  is_Some (getById store nodeById id) <-> id ∈ bn_id <$> store.
Proof.
  intros H. unfold getById. specialize (H id).
  destruct (nodeById !! id) as [r|]; simpl.
  - destruct H as (n & Hn & Hid). rewrite Hn. split; [intros _|eauto].
    apply list_elem_of_fmap. exists n. split; [congruence|].
    eapply list_elem_of_lookup_2; eassumption.
  - split; [intros [? [=]]|contradiction].
Qed.

Lemma linkEndpoint_edges model store nodeById relNode r endpoints :
  indexed store nodeById -> bn_id <$> store = knownIds model -> bn_id relNode = rel_id r ->
  forall acc,
    (fold_left (linkEndpoint store nodeById relNode) endpoints acc).2
    = acc.2 ++ flat_map (endpointEdges model r) endpoints.
Proof.
  intros Hidx Hids Hrel.
  induction endpoints as [|e es IH]; intros [adj edges]; simpl; [now rewrite app_nil_r|].
  rewrite IH. unfold endpointEdges at 2.
  pose proof (getById_is_Some store nodeById (entityId e) Hidx) as Hsome.
  destruct (getById store nodeById (entityId e)) as [entityNode|] eqn:E.
  - rewrite (getById_Some _ _ _ _ Hidx E), Hrel. simpl.
    rewrite bool_decide_eq_true_2 by (rewrite <- Hids; apply Hsome; eauto).
    now rewrite <- app_assoc.
  - rewrite bool_decide_eq_false_2; [reflexivity|].
    rewrite <- Hids. intros Hin. apply Hsome in Hin. destruct Hin as [? [=]].
Qed.

Lemma linkRelationship_edges model store nodeById rs :
  indexed store nodeById -> bn_id <$> store = knownIds model ->
  (forall r, r ∈ rs -> rel_id r ∈ bn_id <$> store) ->
  forall acc,
    (fold_left (linkRelationship store nodeById) rs acc).2
    = acc.2 ++ flat_map (fun r => flat_map (endpointEdges model r) (rel_endpoints r)) rs.
Proof.
  intros Hidx Hids.
  induction rs as [|r rs IH]; intros Hall acc; simpl; [now rewrite app_nil_r|].
  rewrite IH by (intros; apply Hall; now right).
  unfold linkRelationship.
  destruct (proj2 (getById_is_Some store nodeById (rel_id r) Hidx)
              (Hall r ltac:(left))) as [relNode Hrel].
  rewrite Hrel.
  rewrite (linkEndpoint_edges model store nodeById relNode r _ Hidx Hids
             (getById_Some _ _ _ _ Hidx Hrel)).
  now rewrite <- app_assoc.
Qed.

Lemma buildEdges_edges model style nodeOverrides :
  (buildEdges model (buildNodes model style nodeOverrides)).2 = modelEdges model.
Proof.
  destruct (buildNodes_indexed model style nodeOverrides) as [Hidx Hids].
  unfold buildEdges, modelEdges.
  destruct (buildNodes model style nodeOverrides) as [[store nodeById] adjacency].
  simpl in Hidx, Hids.
  rewrite (linkRelationship_edges model store nodeById _ Hidx Hids); [reflexivity|].
  intros r Hr. rewrite Hids. unfold knownIds. rewrite elem_of_app. right.
  apply list_elem_of_fmap. eauto.
Qed.

(** The edges of a layout: one per endpoint whose id is the id of an entity or
    of a relationship, in the order of the model; any other endpoint is passed
    over without an edge, and without failure. *)
Lemma edges_of_layout localeCompare fuel model style nodeOverrides layout :
  buildBackboneLayout localeCompare fuel model style nodeOverrides = Some layout ->
  l_edges layout = modelEdges model.
Proof.
  unfold buildBackboneLayout. intros H.
  pose proof (buildEdges_edges model style nodeOverrides) as He.
  destruct (buildNodes model style nodeOverrides) as [[store nodeById] adjacency].
  destruct (buildEdges model _) as [adj edges]. simpl in He.
  destruct (connectedComponents _ _ _); [|discriminate]. simpl in H.
  destruct (fold_left _ _ _) as [[s o]|]; [|discriminate]. simpl in H.
  injection H as <-. exact He.
Qed.

Section Dangling.

Variables Math_cos Math_sin : num -> num.
Variable Math_atan2 : num -> num -> num.

(** C6, the code at the failing input.  The endpoint of the relationship r names r
    itself and no entity: the endpoint is looked up among all backbone nodes,
    the relationship is found, and an edge from r to r, an adjacency link and
    a cardinality label are produced. *)
Theorem relationship_endpoint_not_dropped :
  entities relationToItself = []
  /\ match computeScene Math_cos Math_sin Math_atan2 asciiCompare
             (modelFuel relationToItself) relationToItself DEFAULT_CHEN_STYLE ∅ with
     | Some scene =>
         sc_edges scene
         = [EntityRelationship {| er_entityId := "r"; er_relationshipId := "r";
                                  er_cardinality := "1" |}]
         /\ cl_text <$> sc_cardinalityLabels scene = ["1"]
     | None => False
     end
  /\ neighbors (buildEdges relationToItself
                  (buildNodes relationToItself DEFAULT_CHEN_STYLE ∅)).1 "r" = ["r"].
Proof. split; [reflexivity|]. split; vm_compute; [split|]; reflexivity. Qed.

End Dangling.

(** ** Escaping *)

Lemma append_cons (a : ascii) (s t : string) : String a s +:+ t = String a (s +:+ t).
Proof. reflexivity. Qed.

Lemma append_assoc (s t u : string) : (s +:+ t) +:+ u = s +:+ (t +:+ u).
Proof.
  induction s as [|a s IH]; [reflexivity|]. rewrite !append_cons. now f_equal.
Qed.

Lemma chars_app (s t : string) :
  list_ascii_of_string (s +:+ t) = list_ascii_of_string s ++ list_ascii_of_string t.
Proof.
  induction s as [|a s IH]; [reflexivity|]. rewrite append_cons. simpl. now f_equal.
Qed.

Lemma replaceAll_app c r s t :
  replaceAll c r (s +:+ t) = replaceAll c r s +:+ replaceAll c r t.
Proof.
  induction s as [|a s IH]; [reflexivity|].
  rewrite append_cons. simpl. rewrite IH.
  destruct (Ascii.eqb a c); [now rewrite append_assoc|reflexivity].
Qed.

Lemma escapeXml_app s t : escapeXml (s +:+ t) = escapeXml s +:+ escapeXml t.
Proof. unfold escapeXml. now rewrite !replaceAll_app. Qed.

(** The five replacements in the order of the code: the ampersand goes first, so
    the ampersand of an entity reference is never replaced again. *)
Lemma escapeXml_single c : escapeXml (String c EmptyString) = escapeChar c.
Proof.
  unfold escapeXml, escapeChar. simpl.
  destruct (Ascii.eqb c amp) eqn:E1; [reflexivity|]. simpl.
  destruct (Ascii.eqb c lt_) eqn:E2; [reflexivity|]. simpl.
  destruct (Ascii.eqb c gt_) eqn:E3; [reflexivity|]. simpl.
  destruct (Ascii.eqb c quot) eqn:E4; [reflexivity|]. simpl.
  destruct (Ascii.eqb c apos) eqn:E5; reflexivity.
Qed.

Lemma escapeXml_escapeChars s : escapeXml s = escapeChars s.
Proof.
  induction s as [|c s IH]; [reflexivity|].
  change (String c s) with (String c EmptyString +:+ s).
  now rewrite escapeXml_app, escapeXml_single, IH.
Qed.




Section Escaping.

Variables Math_cos Math_sin : num -> num.
Variable Math_atan2 : num -> num -> num.
Variable localeCompare : string -> string -> num.
Variable fracToString : Q -> string.



End Escaping.

(** ** The users and orders scenario *)

(** C3 as stated fails: the root of the component is the relationship places, so
    users and orders get the same depth and the same x; they are not separated
    horizontally by their envelope half-widths plus the horizontal gap. *)
Lemma users_orders_same_level :
  match usersOrdersLayout, usersOrdersDepths with
  | Some layout, Some [(_, depth)] =>
      match l_nodes layout with
      | [users; orders; places] =>
          bn_id users = "users" /\ bn_id orders = "orders"
          /\ depth !! "users" = depth !! "orders"
          /\ bn_x users = bn_x orders
          /\ (Math_abs (bn_x users - bn_x orders)
              >=? bn_envelopeX users + bn_envelopeX orders + hGap DEFAULT_CHEN_STYLE)%num
             = false
      | _ => False
      end
  | _, _ => False
  end.
Proof. vm_compute. repeat split. Qed.

Section Scenario.

Variables Math_cos Math_sin : num -> num.
Variable Math_atan2 : num -> num -> num.

(** C3, as the code has it.  With the default style and no overrides, places is the
    root at depth 0 and users and orders are both at depth 1, at the same x;
    each of them is separated horizontally from places by the sum of the two
    envelope half-widths plus the horizontal gap, and users and orders are
    separated vertically by their envelope half-heights plus the vertical gap;
    the cardinality label of the connector of users reads 1, the one of the
    connector of orders reads N, and each lies 62 percent of the way from the
    entity to the relationship. *)
Theorem users_orders_layout :
  match usersOrdersLayout, usersOrdersDepths,
        computeScene Math_cos Math_sin Math_atan2 asciiCompare (modelFuel usersOrders)
          usersOrders DEFAULT_CHEN_STYLE ∅ with
  | Some layout, Some [(_, depth)], Some scene =>
      match l_nodes layout, l_edges layout, sc_nodes scene, sc_cardinalityLabels scene with
      | [users; orders; places], [e1; eN], [Backbone su; Backbone so; Backbone sp], [l1; lN] =>
          bn_id users = "users" /\ bn_id orders = "orders" /\ bn_id places = "places"
          /\ depth !! "places" = Some 0%nat
          /\ depth !! "users" = Some 1%nat /\ depth !! "orders" = Some 1%nat
          /\ bn_x users = bn_x orders
          /\ bn_x users = (bn_x places + bn_envelopeX places + bn_envelopeX users
                           + hGap DEFAULT_CHEN_STYLE)%num
          /\ bn_x orders = (bn_x places + bn_envelopeX places + bn_envelopeX orders
                            + hGap DEFAULT_CHEN_STYLE)%num
          /\ Math_abs (bn_y users - bn_y orders)
             = (bn_envelopeY users + bn_envelopeY orders + vGap DEFAULT_CHEN_STYLE)%num
          /\ er_entityId e1 = "users" /\ er_relationshipId e1 = "places"
          /\ cl_text l1 = "1"
          /\ cl_x l1 = (bn_x su * (1 - 0.62) + bn_x sp * 0.62)%num
          /\ cl_y l1 = (bn_y su * (1 - 0.62) + bn_y sp * 0.62)%num
          /\ er_entityId eN = "orders" /\ er_relationshipId eN = "places"
          /\ cl_text lN = "N"
          /\ cl_x lN = (bn_x so * (1 - 0.62) + bn_x sp * 0.62)%num
          /\ cl_y lN = (bn_y so * (1 - 0.62) + bn_y sp * 0.62)%num
      | _, _, _, _ => False
      end
  | _, _, _ => False
  end.
Proof. vm_compute. repeat split. Qed.

End Scenario.

(** * Further properties *)

(** ** Colours and node styles *)

Lemma byteZ_ascii_of cp : (0 <= cp < 256)%Z -> byteZ (ascii_of_N (Z.to_N cp)) = cp.
Proof.
  intros H. unfold byteZ. rewrite N_ascii_embedding by lia. lia.
Qed.

Lemma isHexDigit_range cp : isHexDigit cp = true -> (48 <= cp <= 102)%Z.
Proof. unfold isHexDigit, inRange. lia. Qed.

Lemma isHexDigit_not_space cp : isHexDigit cp = true -> isWhiteSpace cp = false.
Proof.
  intros H. apply isHexDigit_range in H. unfold isWhiteSpace, inRange. lia.
Qed.

Lemma codePoints_asciiString l :
  Forall (fun cp => (0 <= cp < 128)%Z) l -> codePoints (asciiString l) = l.
Proof.
  induction 1 as [|cp l Hcp _ IH]; [reflexivity|].
  cbn [asciiString codePoints]. rewrite byteZ_ascii_of by lia.
  destruct (Z.ltb_spec cp 128); [|lia]. now rewrite IH.
Qed.

Lemma dropWhile_head {A} (p : A -> bool) (l : list A) :
  match l with [] => True | a :: _ => p a = false end -> dropWhile p l = l.
Proof. destruct l as [|a l]; [reflexivity|]. simpl. now intros ->. Qed.

Lemma trimCodePoints_id l :
  Forall (fun cp => isWhiteSpace cp = false) l -> trimCodePoints l = l.
Proof.
  intros H. unfold trimCodePoints.
  rewrite (dropWhile_head _ l) by (destruct H; auto).
  rewrite dropWhile_head; [apply rev_involutive|].
  apply Forall_rev in H. destruct H; auto.
Qed.

Lemma allHexChars_asciiString ds :
  Forall (fun d => isHexDigit d = true) ds -> allHexChars (asciiString ds) = true.
Proof.
  induction 1 as [|d ds Hd _ IH]; [reflexivity|].
  cbn [asciiString allHexChars]. unfold isHexChar.
  pose proof (isHexDigit_range _ Hd).
  rewrite byteZ_ascii_of by lia. now rewrite Hd, IH.
Qed.

Lemma length_asciiString l : String.length (asciiString l) = length l.
Proof. induction l; simpl; congruence. Qed.

Lemma forallb_Forall {A} (p : A -> bool) (l : list A) :
  forallb p l = true -> Forall (fun x => p x = true) l.
Proof.
  induction l as [|a l IH]; simpl; [constructor|].
  intros H. apply andb_prop in H as [Ha Hl]. constructor; auto.
Qed.

Lemma isHexColor_text l : isHexColor l = true -> hexColorText (asciiString l) = true.
Proof.
  destruct l as [|c ds]; [discriminate|]. simpl.
  destruct (Z.eq_dec c 35%Z) as [->|Hc].
  - intros H. apply andb_prop in H as [Hds Hlen].
    change (ascii_of_N (Z.to_N 35)) with "#"%char. cbn [hexColorText Ascii.eqb].
    rewrite allHexChars_asciiString by (now apply forallb_Forall).
    now rewrite length_asciiString.
  - destruct c as [|p|p]; try discriminate.
    do 6 (destruct p as [p|p|]; try discriminate); congruence.
Qed.

(** The code points of a colour text, which are the bytes of the text. *)
Lemma hexColorText_codePoints s :
  hexColorText s = true ->
  isHexColor (codePoints s) = true
  /\ asciiString (codePoints s) = s
  /\ Forall (fun cp => isWhiteSpace cp = false) (codePoints s).
Proof.
  destruct s as [|c ds]; [discriminate|]. cbn [hexColorText].
  intros H. apply andb_prop in H as [H Hlen]. apply andb_prop in H as [Hc Hds].
  apply Ascii.eqb_eq in Hc. subst c.
  assert (Hrest : forallb isHexDigit (codePoints ds) = true
                  /\ length (codePoints ds) = String.length ds
                  /\ asciiString (codePoints ds) = ds
                  /\ Forall (fun cp => isWhiteSpace cp = false) (codePoints ds)).
  { clear Hlen. induction ds as [|d ds IH]; [repeat split; constructor|].
    cbn [allHexChars] in Hds. apply andb_prop in Hds as [Hd Hds].
    destruct (IH Hds) as (H1 & H2 & H3 & H4).
    unfold isHexChar in Hd. pose proof (isHexDigit_range _ Hd) as Hr.
    cbn [codePoints]. destruct (Z.ltb_spec (byteZ d) 128); [|lia].
    cbn [forallb length asciiString String.length]. rewrite Hd, H1, H2, H3.
    repeat split.
    - unfold byteZ. now rewrite N2Z.id, ascii_N_embedding.
    - constructor; [now apply isHexDigit_not_space|assumption]. }
  destruct Hrest as (H1 & H2 & H3 & H4).
  change (codePoints (String "#" ds)) with (35%Z :: codePoints ds).
  repeat split.
  - cbn [isHexColor]. now rewrite H1, H2.
  - cbn [asciiString]. now rewrite H3.
  - constructor; [reflexivity|assumption].
Qed.

Lemma normalizeColor_cases rawColor fallback :
  normalizeColor rawColor fallback = fallback
  \/ hexColorText (normalizeColor rawColor fallback) = true.
Proof.
  unfold normalizeColor.
  destruct (isHexColor (trimCodePoints (codePoints rawColor))) eqn:E; [right|now left].
  now apply isHexColor_text.
Qed.

Lemma normalizeColor_fixed color fallback :
  hexColorText color = true -> normalizeColor color fallback = color.
Proof.
  intros H. destruct (hexColorText_codePoints _ H) as (H1 & H2 & H3).
  unfold normalizeColor. rewrite trimCodePoints_id by assumption. now rewrite H1.
Qed.

Lemma escapeChars_hex s : allHexChars s = true -> escapeChars s = s.
Proof.
  induction s as [|c s IH]; [reflexivity|]. cbn [allHexChars escapeChars].
  intros H. apply andb_prop in H as [Hc Hs]. rewrite IH by assumption.
  unfold isHexChar in Hc. unfold escapeChar.
  assert (Hne : forall r, isHexDigit (byteZ r) = false -> Ascii.eqb c r = false).
  { intros r Hr. apply Ascii.eqb_neq. intros ->. congruence. }
  rewrite !Hne by reflexivity. reflexivity.
Qed.

Lemma escapeXml_hexColorText s : hexColorText s = true -> escapeXml s = s.
Proof.
  destruct s as [|c ds]; [discriminate|]. cbn [hexColorText].
  intros H. apply andb_prop in H as [H _]. apply andb_prop in H as [Hc Hds].
  apply Ascii.eqb_eq in Hc. subst c.
  rewrite escapeXml_escapeChars. cbn [escapeChars].
  now rewrite escapeChars_hex.
Qed.

(** X1.  normalizeColor returns the fallback or a colour text, a # followed by
    three or six hexadecimal digits; a colour text is returned as it is, and
    so is a colour text between white space, without the white space. *)
Theorem normalizeColor_hex_or_fallback (rawColor fallback : string) :
  (normalizeColor rawColor fallback = fallback
   \/ hexColorText (normalizeColor rawColor fallback) = true)
  /\ (hexColorText rawColor = true ->
      normalizeColor rawColor fallback = rawColor
      /\ normalizeColor (" " +:+ rawColor +:+ " ") fallback = rawColor).
Proof.
  split; [apply normalizeColor_cases|].
  intros H. split; [now apply normalizeColor_fixed|].
  destruct (hexColorText_codePoints _ H) as (H1 & H2 & H3).
  unfold normalizeColor.
  assert (Hcp : codePoints (" " +:+ rawColor +:+ " ") = 32%Z :: codePoints rawColor ++ [32%Z]).
  { change (" " +:+ rawColor +:+ " ") with (String " " (rawColor +:+ " ")).
    change (codePoints (String " " (rawColor +:+ " ")))
      with (32%Z :: codePoints (rawColor +:+ " ")).
    f_equal. clear -H. destruct rawColor as [|c ds]; [discriminate|].
    cbn [hexColorText] in H. apply andb_prop in H as [H _]. apply andb_prop in H as [Hc Hds].
    apply Ascii.eqb_eq in Hc. subst c. rewrite append_cons.
    change (codePoints (String "#" (ds +:+ " "))) with (35%Z :: codePoints (ds +:+ " ")).
    change (codePoints (String "#" ds)) with (35%Z :: codePoints ds).
    cbn [app]. f_equal. clear -Hds.
    induction ds as [|d ds IH]; [reflexivity|].
    cbn [allHexChars] in Hds. apply andb_prop in Hds as [Hd Hds].
    unfold isHexChar in Hd. pose proof (isHexDigit_range _ Hd).
    rewrite append_cons. cbn [codePoints].
    destruct (Z.ltb_spec (byteZ d) 128); [|lia]. cbn [app]. now rewrite IH. }
  rewrite Hcp.
  assert (Htrim : trimCodePoints (32%Z :: codePoints rawColor ++ [32%Z]) = codePoints rawColor).
  { unfold trimCodePoints. cbn [dropWhile]. change (isWhiteSpace 32) with true. cbv iota.
    rewrite (dropWhile_head _ (codePoints rawColor ++ [32%Z])).
    - rewrite rev_app_distr. cbn [rev app dropWhile]. change (isWhiteSpace 32) with true.
      cbv iota. rewrite dropWhile_head; [apply rev_involutive|].
      apply Forall_rev in H3. destruct H3; auto.
    - destruct H3; simpl; auto. }
  rewrite Htrim, H1. assumption.
Qed.

(** A colour between blanks, with the colour of the default fill as fallback. *)
Lemma normalizeColor_hex_or_fallback_witness :
  hexColorText "#0f766e" = true
  /\ normalizeColor "#0f766e" "#ffffff" = "#0f766e"
  /\ normalizeColor (" " +:+ "#0f766e" +:+ " ") "#ffffff" = "#0f766e".
Proof.
  split; [reflexivity|].
  apply (proj2 (normalizeColor_hex_or_fallback "#0f766e" "#ffffff")). reflexivity.
Defined.

(** X2.  Whatever the override, the fill and the text colour of a normalised
    node style are colour texts, and escapeXml leaves them as they are: no
    override text reaches the fill attributes of the document. *)
Theorem normalizeNodeStyle_colors (style : option PartialChenNodeStyle) :
  let nodeStyle := normalizeNodeStyle style in
  hexColorText (fill nodeStyle) = true
  /\ hexColorText (textColor nodeStyle) = true
  /\ escapeXml (fill nodeStyle) = fill nodeStyle
  /\ escapeXml (textColor nodeStyle) = textColor nodeStyle.
Proof.
  cbv zeta.
  assert (Hfill : hexColorText (fill (normalizeNodeStyle style)) = true).
  { cbn [normalizeNodeStyle fill].
    destruct (normalizeColor_cases
                (match style with Some s => p_fill s | None => None end
                 ?? fill DEFAULT_CHEN_NODE_STYLE) (fill DEFAULT_CHEN_NODE_STYLE))
      as [-> | H]; [reflexivity|exact H]. }
  assert (Htext : hexColorText (textColor (normalizeNodeStyle style)) = true).
  { cbn [normalizeNodeStyle textColor].
    destruct (normalizeColor_cases
                (match style with Some s => p_textColor s | None => None end
                 ?? textColor DEFAULT_CHEN_NODE_STYLE) (textColor DEFAULT_CHEN_NODE_STYLE))
      as [-> | H]; [reflexivity|exact H]. }
  repeat split; try assumption; now apply escapeXml_hexColorText.
Qed.

(** ** Clamping of the numeric fields *)

Lemma clamp_clampedTo lo hi v :
  lo ⊑ hi -> clampedTo lo hi v (clamp lo hi v).
Proof.
  unfold clamp, clampedTo.
  destruct lo as [| |lo|], hi as [| |hi|]; simpl; try tauto. intros Hle.
  destruct v as [| |v|]; [reflexivity| | |].
  - change (nmin (Fin hi) NegInf) with NegInf. change (nmax (Fin lo) NegInf) with (Fin lo).
    repeat split; [apply Qle_refl|assumption|discriminate].
  - rewrite nmin_fin, nmax_fin. unfold nleb, num_eqb, fle.
    split; [order_cases; lra|]. split; [order_cases; lra|].
    intros H. apply andb_prop in H as [H1 H2]. apply Qle_bool_iff in H1, H2.
    apply Qeq_bool_iff.
    destruct (Qle_bool hi v) eqn:E1;
      [apply Qle_bool_iff in E1|apply Qle_bool_false in E1]; order_cases; lra.
  - change (nmin (Fin hi) PosInf) with (Fin hi). rewrite nmax_fin. unfold fle.
    split; [order_cases; lra|]. split; [order_cases; lra|]. discriminate.
Qed.

(** X3.  The numeric fields of a normalised node style are the fields of the
    override, or the defaults where the override or a field is missing,
    brought into the ranges 0.6 to 2.8 for the scale, -1400 to 1400 for the two
    offsets and 0 to 12 for the stroke width: a value of the range is kept,
    any other number, infinite ones included, lands on the nearer bound, and
    NaN stays NaN. *)
Theorem normalizeNodeStyle_clamps (style : option PartialChenNodeStyle) :
  let nodeStyle := normalizeNodeStyle style in
  clampedTo 0.6 2.8 (given style p_scale 1%num) (scale nodeStyle)
  /\ clampedTo (-1400) 1400 (given style p_offsetX 0%num) (offsetX nodeStyle)
  /\ clampedTo (-1400) 1400 (given style p_offsetY 0%num) (offsetY nodeStyle)
  /\ clampedTo 0 12 (given style p_strokeWidth 0%num) (strokeWidth nodeStyle).
Proof.
  cbv zeta. unfold given.
  repeat split;
    (destruct style as [s|]; cbn [normalizeNodeStyle scale offsetX offsetY strokeWidth];
     unfold Number; apply clamp_clampedTo; vm_compute; discriminate).
Qed.

(** ** Angles *)

Lemma circle_constants :
  exists p t, Math_PI = Fin p /\ TWO_PI = Fin t /\ (t == 2 * p)%Q /\ (0 < p)%Q.
Proof. do 2 eexists. repeat split; vm_compute; reflexivity. Qed.

Lemma Qdiv_mul x t : ~ (t == 0)%Q -> (x == (x / t) * t)%Q.
Proof. intros. field. assumption. Qed.

(** The remainder has the sign of the dividend and is smaller than the divisor. *)
Lemma Qtrunc_rem x t :
  (0 < t)%Q ->
  let r := (x - t * inject_Z (Qtrunc (x / t)))%Q in
  ((0 <= x)%Q -> (0 <= r)%Q /\ (r < t)%Q)
  /\ ((x < 0)%Q -> (- t < r)%Q /\ (r <= 0)%Q).
Proof.
  intros Ht. cbv zeta.
  assert (Hx : (x == (x / t) * t)%Q) by (apply Qdiv_mul; lra).
  set (q := (x / t)%Q) in *.
  unfold Qtrunc. destruct (Qle_bool 0 q) eqn:E.
  - apply Qle_bool_iff in E.
    pose proof (Qfloor_le q) as H1. pose proof (Qlt_floor q) as H2.
    rewrite inject_Z_plus in H2. change (inject_Z 1) with 1%Q in H2.
    set (k := inject_Z (Qfloor q)) in *.
    split; intros Hs; [split; nra|exfalso; nra].
  - apply Qle_bool_false in E.
    pose proof (Qle_ceiling q) as H1. pose proof (Qceiling_lt q) as H2.
    unfold Z.sub in H2. rewrite inject_Z_plus in H2. change (inject_Z (- (1))) with (- (1 # 1))%Q in H2.
    set (k := inject_Z (Qceiling q)) in *.
    split; intros Hs; [exfalso; nra|split; nra].
Qed.

Lemma normalizeAngle_fin x t :
  TWO_PI = Fin t -> (0 < t)%Q ->
  exists v, normalizeAngle (Fin x) = Fin v /\ (0 <= v)%Q /\ (v < t)%Q
            /\ ((0 <= x)%Q -> (x < t)%Q -> (v == x)%Q).
Proof.
  intros HT Ht. unfold normalizeAngle. rewrite HT. unfold nrem.
  destruct (Qeq_bool t 0) eqn:E0; [apply Qeq_bool_iff in E0; lra|].
  destruct (Qtrunc_rem x t Ht) as [Hpos Hneg].
  set (r := (x - t * inject_Z (Qtrunc (x / t)))%Q) in *.
  unfold fin, nltb.
  destruct (Qle_bool 0 (Qred r)) eqn:E; cbn [negb].
  - apply Qle_bool_iff in E. rewrite Qred_correct in E.
    exists (Qred r). split; [reflexivity|]. rewrite Qred_correct.
    destruct (Qlt_le_dec x 0) as [Hx|Hx].
    + destruct (Hneg Hx). repeat split; try lra.
    + destruct (Hpos Hx) as [H1 H2]. repeat split; try lra.
      intros _ Hxt. subst r.
      assert (Hk : (Qtrunc (x / t) = 0)%Z).
      { assert (H3 : (-1 < inject_Z (Qtrunc (x / t)))%Q) by nra.
        assert (H4 : (inject_Z (Qtrunc (x / t)) < 1)%Q) by nra.
        change (-1)%Q with (inject_Z (-1)) in H3. change 1%Q with (inject_Z 1) in H4.
        rewrite <- Zlt_Qlt in H3, H4. lia. }
      rewrite Hk. change (inject_Z 0) with 0%Q. lra.
  - apply Qle_bool_false in E. rewrite Qred_correct in E.
    change (Fin (Qred r) + Fin t)%num with (Fin (Qred (Qred r + t))).
    exists (Qred (Qred r + t)). split; [reflexivity|]. rewrite !Qred_correct.
    destruct (Qlt_le_dec x 0) as [Hx|Hx].
    + destruct (Hneg Hx). repeat split; try lra.
    + destruct (Hpos Hx). lra.
Qed.

(** X5.  The normalised angle of a finite angle lies between 0 and twice
    Math.PI; an angle that already lies from 0 up to, but not at, twice Math.PI
    is kept; an infinite angle or NaN gives NaN. *)
Theorem normalizeAngle_range (angle : num) :
  (finite angle ->
   0%num ⊑ normalizeAngle angle /\ normalizeAngle angle ⊑ TWO_PI)
  /\ ((0 <=? angle)%num && (angle <? TWO_PI)%num = true ->
      num_eqb (normalizeAngle angle) angle = true)
  /\ (isFinite angle = false -> normalizeAngle angle = NaN).
Proof.
  destruct circle_constants as (p & t & HP & HT & Htp & Hp).
  assert (Ht : (0 < t)%Q) by lra.
  repeat split.
  - destruct angle as [| |x|]; try discriminate.
    destruct (normalizeAngle_fin x t HT Ht) as (v & -> & H1 & H2 & _). exact H1.
  - destruct angle as [| |x|]; try discriminate.
    destruct (normalizeAngle_fin x t HT Ht) as (v & -> & H1 & H2 & _).
    rewrite HT. simpl. lra.
  - intros H. apply andb_prop in H as [H1 H2].
    destruct angle as [| |x|]; try discriminate.
    rewrite HT in H2. unfold nleb in H1. apply Qle_bool_iff in H1.
    apply nltb_flt in H2; [|reflexivity|reflexivity]. simpl in H2.
    destruct (normalizeAngle_fin x t HT Ht) as (v & -> & _ & _ & Hv).
    apply Qeq_bool_iff. auto.
  - destruct angle; try discriminate; reflexivity.
Qed.

(** The angle of the first candidate, a quarter turn before 0. *)
Lemma normalizeAngle_range_witness :
  let angle := (nneg Math_PI / 2)%num in
  finite angle
  /\ 0%num ⊑ normalizeAngle angle /\ normalizeAngle angle ⊑ TWO_PI.
Proof.
  split; [reflexivity|].
  apply (proj1 (normalizeAngle_range (nneg Math_PI / 2)%num)). reflexivity.
Defined.

Lemma Math_abs_sub_comm u v : Math_abs (Fin u - Fin v)%num = Math_abs (Fin v - Fin u)%num.
Proof.
  change (Fin u - Fin v)%num with (Fin (Qred (u + Qred (- v)))).
  change (Fin v - Fin u)%num with (Fin (Qred (v + Qred (- u)))).
  unfold Math_abs, fin. f_equal. apply Qred_complete.
  rewrite !Qred_correct.
  apply Qabs_case; intros H1; apply Qabs_case; intros H2; lra.
Qed.

(** X6.  The angular distance of two finite angles is symmetric and lies
    between 0 and Math.PI; the distance of an angle to itself is 0. *)
Theorem angularDistance_range (a b : num) :
  finite a -> finite b ->
  angularDistance a b = angularDistance b a
  /\ 0%num ⊑ angularDistance a b
  /\ angularDistance a b ⊑ Math_PI
  /\ angularDistance a a = 0%num.
Proof.
  intros Ha Hb. destruct a as [| |x|], b as [| |y|]; try discriminate.
  destruct circle_constants as (p & t & HP & HT & Htp & Hp).
  assert (Ht : (0 < t)%Q) by lra.
  unfold angularDistance.
  destruct (normalizeAngle_fin x t HT Ht) as (u & -> & Hu1 & Hu2 & _).
  destruct (normalizeAngle_fin y t HT Ht) as (v & -> & Hv1 & Hv2 & _).
  rewrite HT, HP. split; [now rewrite Math_abs_sub_comm|].
  change (Fin u - Fin v)%num with (Fin (Qred (u + Qred (- v)))).
  change (Fin u - Fin u)%num with (Fin (Qred (u + Qred (- u)))).
  unfold Math_abs, fin.
  assert (Hd : (0 <= Qabs (Qred (u + Qred (- v))))%Q /\ (Qabs (Qred (u + Qred (- v))) < t)%Q).
  { rewrite !Qred_correct. apply Qabs_case; intros; lra. }
  set (d := Qabs (Qred (u + Qred (- v)))) in *.
  change (Fin t - Fin (Qred d))%num with (Fin (Qred (t + Qred (- Qred d)))).
  rewrite nmin_fin. unfold fle.
  split; [order_cases; rewrite ?Qred_correct in *; lra|].
  split; [order_cases; rewrite ?Qred_correct in *; lra|].
  assert (H0 : Qred (Qabs (Qred (u + Qred (- u)))) = 0%Q).
  { change 0%Q with (Qred 0). apply Qred_complete. rewrite !Qred_correct.
    apply Qabs_case; intros; lra. }
  rewrite H0.
  change (Fin t - Fin 0)%num with (Fin (Qred (t + Qred (- 0)))).
  rewrite nmin_fin.
  destruct (Qle_bool 0 (Qred (t + Qred (- 0)))) eqn:E; [reflexivity|].
  apply Qle_bool_false in E. rewrite !Qred_correct in E. lra.
Qed.

(** Two candidate angles, a quarter turn before 0 and a quarter turn after. *)
Lemma angularDistance_range_witness :
  let a := (nneg Math_PI / 2)%num in
  let b := (Math_PI / 2)%num in
  (finite a /\ finite b)
  /\ angularDistance a b = angularDistance b a
  /\ 0%num ⊑ angularDistance a b
  /\ angularDistance a b ⊑ Math_PI
  /\ angularDistance a a = 0%num.
Proof.
  split; [split; reflexivity|].
  apply (angularDistance_range (nneg Math_PI / 2)%num (Math_PI / 2)%num); reflexivity.
Defined.

(** ** The angles of the attributes *)

Lemma apart_snoc gap l c :
  apart gap l ->
  forallb (fun picked => (angularDistance picked c >=? gap)%num) l = true ->
  apart gap (l ++ [c]).
Proof.
  intros Hl Hc i j a b Hij Hi Hj.
  assert (Hjl : j < length (l ++ [c])) by (eapply lookup_lt_Some; eassumption).
  rewrite length_app in Hjl. simpl in Hjl.
  rewrite lookup_app_l in Hi by lia.
  destruct (decide (j < length l)) as [Hlt|Hge].
  - rewrite lookup_app_l in Hj by assumption. exact (Hl i j a b Hij Hi Hj).
  - rewrite lookup_app_r in Hj by lia.
    replace (j - length l) with 0 in Hj by lia. simpl in Hj. injection Hj as <-.
    apply forallb_Forall in Hc. rewrite Forall_forall in Hc. apply Hc.
    eapply list_elem_of_lookup_2; eassumption.
Qed.

(** The scan of the candidates keeps at most [count] angles, pairwise apart. *)
Lemma select_invariant count gap (candidates : list (num * num)) :
  forall selected,
    length selected <= count -> apart gap selected ->
    let selected' :=
      fold_left
        (fun selected candidate =>
           if (length selected =? count)%nat then selected
           else if forallb (fun picked =>
                              (angularDistance picked (fst candidate) >=? gap)%num)
                     selected
                then selected ++ [fst candidate]
                else selected)
        candidates selected in
    length selected' <= count /\ apart gap selected'
    /\ (forall a, a ∈ selected' -> a ∈ selected \/ a ∈ fst <$> candidates)
    /\ exists rest, selected' = selected ++ rest.
Proof.
  induction candidates as [|c candidates IH]; intros selected Hlen Hap; cbn [fold_left].
  - repeat split; auto. exists []. now rewrite app_nil_r.
  - destruct (Nat.eqb_spec (length selected) count) as [Heq|Hne].
    + destruct (IH selected Hlen Hap) as (H1 & H2 & H3 & H4).
      repeat split; auto. intros a Ha. destruct (H3 a Ha); auto.
      right. rewrite fmap_cons. now right.
    + destruct (forallb _ selected) eqn:E.
      * destruct (IH (selected ++ [fst c])) as (H1 & H2 & H3 & rest & H4).
        { rewrite length_app. simpl. lia. }
        { now apply apart_snoc. }
        repeat split; auto.
        -- intros a Ha. destruct (H3 a Ha) as [Hin|Hin].
           ++ apply elem_of_app in Hin as [Hin|Hin]; [now left|].
              apply list_elem_of_singleton in Hin as ->. right. rewrite fmap_cons. now left.
           ++ right. rewrite fmap_cons. now right.
        -- exists (fst c :: rest). rewrite H4, <- app_assoc. reflexivity.
      * destruct (IH selected Hlen Hap) as (H1 & H2 & H3 & H4).
        repeat split; auto. intros a Ha. destruct (H3 a Ha); auto.
        right. rewrite fmap_cons. now right.
Qed.

(** X7.  chooseAttributeAngles returns exactly [count] angles.  They are the
    angles kept by the scan of the candidates, each a candidate angle and at
    least the minimum gap away from the ones kept after it, followed, where
    the scan kept fewer than [count], by the evenly spaced fallback angles of
    the remaining indices. *)
Theorem chooseAttributeAngles_shape (count : nat) (blockedAngles : list num) :
  let angles := chooseAttributeAngles count blockedAngles in
  let totalCandidates := Nat.max 24 (count * 6) in
  length angles = count
  /\ exists selected,
       angles = selected ++ map (fallbackAngle count)
                                (seq (length selected) (count - length selected))
       /\ apart (minGapFor count) selected
       /\ forall a, a ∈ selected ->
            exists i, i < totalCandidates /\ a = candidateAngle totalCandidates i.
Proof.
  cbv zeta. unfold chooseAttributeAngles.
  destruct count as [|n]; [split; [reflexivity|]; exists []; repeat split;
    [intros i j a b _ Hi; now rewrite lookup_nil in Hi
    |intros a Ha; now apply elem_of_nil in Ha]|].
  cbn [Nat.leb]. set (count := S n). set (total := Nat.max 24 (count * 6)).
  set (candidates := jsSort _ _).
  destruct (select_invariant count (minGapFor count) candidates [])
    as (Hlen & Hap & Hin & _).
  { simpl. lia. }
  { intros i j a b _ Hi. now rewrite lookup_nil in Hi. }
  set (selected := fold_left _ candidates []) in *.
  assert (Hcand : forall a, a ∈ selected ->
            exists i, i < total /\ a = candidateAngle total i).
  { intros a Ha. destruct (Hin a Ha) as [Hnil|Hc]; [now apply elem_of_nil in Hnil|].
    apply list_elem_of_fmap in Hc as ([angle score] & -> & Hc).
    unfold candidates in Hc. rewrite jsSort_perm in Hc.
    apply list_elem_of_In, in_map_iff in Hc as (i & Hi & Hseq).
    apply in_seq in Hseq. injection Hi as <- _. exists i. split; [lia|reflexivity]. }
  destruct (Nat.ltb_spec (length selected) count) as [Hlt|Hge].
  - split.
    + rewrite length_app, length_map, length_seq. lia.
    + exists selected. repeat split; auto.
  - assert (Heq : length selected = count) by lia. split; [assumption|].
    exists selected. rewrite Heq, Nat.sub_diag. cbn [seq map].
    rewrite app_nil_r. repeat split; auto.
Qed.

Lemma insertSorted_last {A} (cmp : A -> A -> num) (x : A) (l : list A) :
  Forall (fun y => (0 <? cmp y x)%num = false) l -> insertSorted cmp x l = l ++ [x].
Proof.
  induction 1 as [|y l Hy _ IH]; [reflexivity|].
  cbn [insertSorted]. now rewrite Hy, IH.
Qed.

(** A list in which the comparator puts nothing after anything is left as it is. *)
Lemma jsSort_no_swap {A} (cmp : A -> A -> num) (l : list A) :
  (forall a b, a ∈ l -> b ∈ l -> (0 <? cmp a b)%num = false) -> jsSort cmp l = l.
Proof.
  intros H. unfold jsSort.
  assert (Hfold : forall l' acc, (forall a b, a ∈ acc ++ l' -> b ∈ acc ++ l' ->
                                    (0 <? cmp a b)%num = false) ->
            fold_left (fun acc x => insertSorted cmp x acc) l' acc = acc ++ l').
  { induction l' as [|x l' IH]; intros acc Hacc; cbn [fold_left].
    - now rewrite app_nil_r.
    - rewrite insertSorted_last.
      + rewrite IH; [now rewrite <- app_assoc|].
        intros a b Ha Hb. rewrite <- app_assoc in Ha, Hb. now apply Hacc.
      + apply Forall_forall. intros y Hy. apply Hacc; set_solver. }
  now apply (Hfold l []).
Qed.

Lemma ndiv_zero y : ~ (y == 0)%Q -> (Fin 0 / Fin y)%num = Fin 0.
Proof.
  intros Hy. unfold ndiv.
  destruct (Qeq_bool y 0) eqn:E; [apply Qeq_bool_iff in E; contradiction|].
  reflexivity.
Qed.

Lemma first_candidate total : 0 < total -> candidateAngle total 0 = (nneg Math_PI / 2)%num.
Proof.
  intros Hpos. unfold candidateAngle.
  change (ofNat 0 * Math_PI * 2)%num with (Fin 0).
  unfold ofNat, ofZ. rewrite ndiv_zero.
  - vm_compute. reflexivity.
  - intros E. unfold Qeq in E. simpl in E. lia.
Qed.

(** X8.  For a node without connectors, so with no blocked angle, the first of
    the angles chosen for its attributes is the quarter turn before 0, which
    is straight above the node on the canvas. *)
Theorem chooseAttributeAngles_starts_on_top (n : nat) :
  head (chooseAttributeAngles (S n) []) = Some (nneg Math_PI / 2)%num.
Proof.
  unfold chooseAttributeAngles. cbn [Nat.leb].
  set (total := Nat.max 24 (S n * 6)).
  assert (Htotal : exists m, total = S m) by (exists (pred total); unfold total; lia).
  destruct Htotal as [m Hm].
  rewrite jsSort_no_swap.
  2:{ intros a b Ha Hb.
      apply list_elem_of_In, in_map_iff in Ha as (i & <- & _).
      apply list_elem_of_In, in_map_iff in Hb as (j & <- & _).
      vm_compute. reflexivity. }
  rewrite Hm. cbn [seq map fold_left length Nat.eqb forallb app fst].
  rewrite first_candidate by lia.
  destruct (select_invariant (S n) (minGapFor (S n))
              (map (fun i => (candidateAngle (S m) i,
                              candidateScore [] (candidateAngle (S m) i))) (seq 1 m))
              [(nneg Math_PI / 2)%num])
    as (_ & _ & _ & rest & Hrest).
  { simpl. lia. }
  { intros i j a b Hij Hi Hj.
    assert (j < 1) by (apply lookup_lt_Some in Hj; simpl in Hj; lia). lia. }
  cbv zeta in Hrest. rewrite Hrest.
  destruct (length _ <? S n)%nat; reflexivity.
Qed.

(** ** The layout only moves the nodes *)

Lemma buildNodes_nodes model style nodeOverrides :
  (buildNodes model style nodeOverrides).1.1 = modelNodes model style nodeOverrides.
Proof.
  unfold buildNodes, modelNodes.
  assert (Hpush : forall {A} (mk : A -> BackboneNode) (l : list A)
                         (g : list BackboneNode * gmap string nat * gmap string (list string)),
            (fold_left (fun g a => pushNode g (mk a)) l g).1.1 = g.1.1 ++ (mk <$> l)).
  { intros A mk l. induction l as [|a l IH]; intros g; simpl; [now rewrite app_nil_r|].
    rewrite IH. destruct g as [[store byId] adj]. simpl. now rewrite <- app_assoc. }
  now rewrite !Hpush.
Qed.

Lemma unplaced_setX v node : unplaced (setX v node) = unplaced node.
Proof. reflexivity. Qed.

Lemma unplaced_setY v node : unplaced (setY v node) = unplaced node.
Proof. reflexivity. Qed.

Lemma unplaced_modelNode model style nodeOverrides node :
  node ∈ modelNodes model style nodeOverrides -> unplaced node = node.
Proof.
  unfold modelNodes. rewrite elem_of_app, !list_elem_of_fmap.
  intros [(e & -> & _)|(r & -> & _)]; reflexivity.
Qed.

Lemma update_unplaced r f (store : list BackboneNode) :
  (forall node, unplaced (f node) = unplaced node) ->
  unplaced <$> update r f store = unplaced <$> store.
Proof.
  intros Hf. unfold update. destruct (store !! r) as [node|] eqn:E; [|reflexivity].
  rewrite list_fmap_insert, Hf. apply list_insert_id.
  now rewrite list_lookup_fmap, E.
Qed.

Lemma update_all_unplaced f (l : list nat) :
  (forall node, unplaced (f node) = unplaced node) ->
  forall store : list BackboneNode,
    unplaced <$> fold_left (fun store r => update r f store) l store = unplaced <$> store.
Proof.
  intros Hf. induction l as [|r l IH]; intros store; simpl; [reflexivity|].
  rewrite IH. now apply update_unplaced.
Qed.

Lemma stackY_unplaced vMargin first rest (store : list BackboneNode) :
  unplaced <$> stackY vMargin first rest store = unplaced <$> store.
Proof.
  unfold stackY. generalize 0%num first. revert store.
  induction rest as [|c rest IH]; intros store yCursor prevRef; simpl; [reflexivity|].
  rewrite IH. now apply update_unplaced.
Qed.

Lemma placeLevel_unplaced localeCompare vMargin offsetX xByDepth levels
    (store : list BackboneNode) d :
  unplaced <$> placeLevel localeCompare vMargin offsetX xByDepth levels store d
  = unplaced <$> store.
Proof.
  unfold placeLevel. destruct (sortLevel _ _ _) as [|first rest]; [reflexivity|].
  cbv zeta. rewrite update_all_unplaced by reflexivity.
  rewrite stackY_unplaced. now apply update_unplaced.
Qed.

Lemma placeLevels_unplaced localeCompare vMargin offsetX xByDepth levels depths :
  forall store : list BackboneNode,
    unplaced <$> fold_left (placeLevel localeCompare vMargin offsetX xByDepth levels)
                   depths store
    = unplaced <$> store.
Proof.
  induction depths as [|d depths IH]; intros store; simpl; [reflexivity|].
  rewrite IH. apply placeLevel_unplaced.
Qed.

Lemma layoutComponent_unplaced localeCompare fuel adjacency style
    (store store' : list BackboneNode) offsetX offsetX' component :
  layoutComponent localeCompare fuel adjacency style (Some (store, offsetX)) component
    = Some (store', offsetX') ->
  unplaced <$> store' = unplaced <$> store.
Proof.
  unfold layoutComponent. simpl.
  destruct (findRoot store component) as [root|]; [|now intros [= <- <-]].
  destruct (assignDepths _ _ _) as [depth|]; [|discriminate]. simpl.
  intros [= <- _]. apply placeLevels_unplaced.
Qed.

Lemma layoutComponents_unplaced localeCompare fuel adjacency style components :
  forall (store store' : list BackboneNode) offsetX offsetX',
    fold_left (layoutComponent localeCompare fuel adjacency style) components
      (Some (store, offsetX)) = Some (store', offsetX') ->
    unplaced <$> store' = unplaced <$> store.
Proof.
  induction components as [|c components IH]; intros store store' offsetX offsetX';
    cbn [fold_left].
  - now intros [= <- <-].
  - destruct (layoutComponent localeCompare fuel adjacency style (Some (store, offsetX)) c)
      as [[store1 offsetX1]|] eqn:E.
    + intros H. rewrite (IH _ _ _ _ H). eapply layoutComponent_unplaced; eassumption.
    + rewrite fold_left_None; [discriminate|]. reflexivity.
Qed.

Lemma applyOffsets_unplaced (store : list BackboneNode) :
  unplaced <$> applyOffsets store = unplaced <$> store.
Proof.
  unfold applyOffsets. rewrite <- list_fmap_compose. apply list_fmap_ext.
  intros i node _. reflexivity.
Qed.

Lemma modelNodes_unplaced model style nodeOverrides :
  unplaced <$> modelNodes model style nodeOverrides = modelNodes model style nodeOverrides.
Proof.
  rewrite <- (list_fmap_id (modelNodes model style nodeOverrides)) at 2.
  apply list_fmap_ext. intros i node Hi. simpl.
  eapply unplaced_modelNode, list_elem_of_lookup_2. eassumption.
Qed.

Lemma layout_nodes localeCompare fuel model style nodeOverrides layout :
  buildBackboneLayout localeCompare fuel model style nodeOverrides = Some layout ->
  unplaced <$> l_nodes layout = modelNodes model style nodeOverrides
  /\ l_nodeById layout = (buildNodes model style nodeOverrides).1.2.
Proof.
  unfold buildBackboneLayout. intros H.
  pose proof (buildNodes_nodes model style nodeOverrides) as Hn.
  destruct (buildNodes model style nodeOverrides) as [[store nodeById] adjacency].
  destruct (buildEdges model _) as [adj edges]. simpl in Hn.
  destruct (connectedComponents _ _ _) as [components|]; [|discriminate]. simpl in H.
  destruct (fold_left _ _ _) as [[s o]|] eqn:E; [|discriminate]. simpl in H.
  injection H as <-. simpl. split; [|reflexivity].
  rewrite applyOffsets_unplaced, (layoutComponents_unplaced _ _ _ _ _ _ _ _ _ E), Hn.
  apply modelNodes_unplaced.
Qed.

Lemma layout_ids localeCompare fuel model style nodeOverrides layout :
  buildBackboneLayout localeCompare fuel model style nodeOverrides = Some layout ->
  bn_id <$> l_nodes layout = knownIds model.
Proof.
  intros H. destruct (layout_nodes _ _ _ _ _ _ H) as [Hnodes _].
  destruct (buildNodes_indexed model style nodeOverrides) as [_ Hids].
  rewrite buildNodes_nodes in Hids.
  rewrite <- Hids, <- Hnodes, <- list_fmap_compose. apply list_fmap_ext.
  intros i node _. reflexivity.
Qed.

Section KeepsNodes.

Variable localeCompare : string -> string -> num.

(** X9.  The backbone layout only moves the nodes: the node array of the
    result holds, in the order of the model, one node per entity and then one
    per relationship, each with the id, type, name, attributes, endpoints,
    normalised style, size and envelope computed for it before the layout;
    nothing but the coordinates differs.  The id map of the result points, for
    each id, at a node that carries the id. *)
Theorem layout_keeps_nodes fuel model style nodeOverrides layout :
  buildBackboneLayout localeCompare fuel model style nodeOverrides = Some layout ->
  unplaced <$> l_nodes layout = modelNodes model style nodeOverrides
  /\ bn_id <$> l_nodes layout = knownIds model
  /\ indexed (l_nodes layout) (l_nodeById layout).
Proof.
  intros H. destruct (layout_nodes _ _ _ _ _ _ H) as [Hnodes Hmap].
  destruct (buildNodes_indexed model style nodeOverrides) as [Hidx Hids].
  rewrite buildNodes_nodes in Hids, Hidx.
  pose proof (layout_ids _ _ _ _ _ _ H) as Hid.
  repeat split; [assumption|assumption|].
  rewrite Hmap. intros id. specialize (Hidx id).
  destruct ((buildNodes model style nodeOverrides).1.2 !! id) as [r|].
  - destruct Hidx as (n & Hn & Hnid).
    assert (Hr : (unplaced <$> l_nodes layout) !! r = Some n) by now rewrite Hnodes.
    rewrite list_lookup_fmap in Hr.
    destruct (l_nodes layout !! r) as [node|]; [|discriminate].
    injection Hr as <-. eauto.
  - now rewrite Hid, <- Hids.
Qed.

End KeepsNodes.

(** The users and orders model, with the fuel of the model. *)
Lemma layout_keeps_nodes_witness :
  exists layout,
    buildBackboneLayout asciiCompare (modelFuel usersOrders) usersOrders DEFAULT_CHEN_STYLE ∅
      = Some layout
    /\ unplaced <$> l_nodes layout = modelNodes usersOrders DEFAULT_CHEN_STYLE ∅
    /\ bn_id <$> l_nodes layout = knownIds usersOrders
    /\ indexed (l_nodes layout) (l_nodeById layout).
Proof.
  destruct (buildBackboneLayout asciiCompare (modelFuel usersOrders) usersOrders
              DEFAULT_CHEN_STYLE ∅) as [layout|] eqn:E; [|vm_compute in E; discriminate].
  exists layout. split; [reflexivity|].
  exact (layout_keeps_nodes asciiCompare _ _ _ _ _ E).
Defined.

(** ** Every attribute gets its ellipse *)

Section AttributesPlaced.

Variables Math_cos Math_sin : num -> num.
Variable Math_atan2 : num -> num -> num.

Lemma placeAttribute_fold style nodes node plannedAngles count
    (items : list (nat * ChenAttribute)) :
  forall acc,
    let result :=
      fold_left (placeAttribute Math_cos Math_sin style nodes node plannedAngles count)
        items acc in
    atOrigin <$> result.1
      = (atOrigin <$> acc.1) ++ ((fun item => unplacedAttribute style (node, item.2)) <$> items)
    /\ result.2 = acc.2 ++ ((fun item => linkOf (node, item.2)) <$> items).
Proof.
  induction items as [|[idx attr] items IH]; intros [attributeNodes attributeEdges];
    cbn [fold_left].
  - cbn [fmap list_fmap fst snd]. now rewrite !app_nil_r.
  - destruct (IH (placeAttribute Math_cos Math_sin style nodes node plannedAngles count
                    (attributeNodes, attributeEdges) (idx, attr))) as [H1 H2].
    cbv zeta. rewrite H1, H2. cbn [placeAttribute fst snd].
    rewrite fmap_app, !fmap_cons, <- !app_assoc. split; reflexivity.
Qed.

Lemma imap_pair_snd {A} (l : list A) : (fun item : nat * A => item.2) <$> imap pair l = l.
Proof.
  assert (H : forall (f : nat -> nat), (fun item : nat * A => item.2) <$> imap (fun i => pair (f i)) l = l).
  { induction l as [|a l IH]; intros f; [reflexivity|].
    cbn [imap fmap list_fmap snd]. f_equal. apply (IH (f ∘ S)). }
  apply (H id).
Qed.

Lemma placeNodes_fold style (angles : gmap string (list num)) (allNodes : list BackboneNode)
    (nodes : list BackboneNode) :
  forall acc,
    let result :=
      fold_left
        (fun acc node =>
           let attrs := bn_attributes node in
           if (length attrs =? 0)%nat then acc
           else
             let blockedAngles := default [] (angles !! bn_id node) in
             let plannedAngles := chooseAttributeAngles (length attrs) blockedAngles in
             fold_left (placeAttribute Math_cos Math_sin style allNodes node
                          plannedAngles (length attrs))
               (imap pair attrs) acc)
        nodes acc in
    atOrigin <$> result.1
      = (atOrigin <$> acc.1) ++ (unplacedAttribute style <$> attributeSlots nodes)
    /\ result.2 = acc.2 ++ (linkOf <$> attributeSlots nodes).
Proof.
  induction nodes as [|node nodes IH]; intros acc; cbn [fold_left].
  - cbn [attributeSlots flat_map fmap list_fmap]. now rewrite !app_nil_r.
  - cbv zeta. unfold attributeSlots. cbn [flat_map]. rewrite !fmap_app.
    fold (attributeSlots nodes).
    destruct (Nat.eqb_spec (length (bn_attributes node)) 0) as [Hnil|Hne].
    + apply length_zero_iff_nil in Hnil. rewrite Hnil. cbn [fmap list_fmap app].
      apply IH.
    + set (acc1 := fold_left _ (imap pair (bn_attributes node)) acc).
      destruct (IH acc1) as [H1 H2]. cbv zeta in H1, H2.
      split; [etransitivity; [exact H1|]|etransitivity; [exact H2|]];
        subst acc1;
        edestruct placeAttribute_fold as [H3 H4]; [rewrite H3|rewrite H4];
        rewrite <- !app_assoc; do 2 f_equal;
        rewrite <- (imap_pair_snd (bn_attributes node)) at 2;
        rewrite <- !list_fmap_compose; reflexivity.
Qed.

(** X10.  The placement gives every attribute of every backbone node exactly
    one ellipse and one link, in the order of the nodes and of their
    attributes: the ellipse carries the id of the attribute, the id of its
    node, the radii and the label of nodeSizeForAttribute and the primary-key
    flag, and the link goes from the node to the attribute.  No attribute is
    left out, whether or not the refinement found a free spot. *)
Theorem attributes_all_placed (layout : Layout) (style : ChenStyle) :
  let placed := placeAttributeNodes Math_cos Math_sin Math_atan2 layout style in
  atOrigin <$> placed.1 = unplacedAttribute style <$> attributeSlots (l_nodes layout)
  /\ placed.2 = linkOf <$> attributeSlots (l_nodes layout).
Proof.
  exact (placeNodes_fold style (neighborAngles Math_atan2 layout) (l_nodes layout)
           (l_nodes layout) ([], [])).
Qed.

End AttributesPlaced.

Lemma fle_trans a b c : a ⊑ b -> b ⊑ c -> a ⊑ c.
Proof. destruct a, b, c; simpl; try tauto. apply Qle_trans. Qed.

(** ** Cardinality labels *)

Lemma sceneNodeById_is_Some nodes id :
  id ∈ sn_id <$> nodes -> is_Some (sceneNodeById nodes !! id).
Proof.
  unfold sceneNodeById.
  assert (H : forall (m : gmap string SceneNode),
            id ∈ sn_id <$> nodes \/ is_Some (m !! id) ->
            is_Some (fold_left (fun m n => <[sn_id n := n]> m) nodes m !! id)).
  { induction nodes as [|n nodes IH]; intros m; cbn [fold_left].
    - rewrite fmap_nil, elem_of_nil. tauto.
    - rewrite fmap_cons, elem_of_cons. intros Hin. apply IH.
      destruct (decide (id = sn_id n)) as [->|Hne].
      + right. rewrite lookup_insert_eq. eauto.
      + destruct Hin as [[?|?]|?]; [congruence|now left|].
        right. now rewrite lookup_insert_ne by congruence. }
  intros Hin. apply H. now left.
Qed.

Lemma cardinalityLabelsOf_links (nodeById : gmap string SceneNode)
    (links : list AttributeLinkEdge) :
  forall labels,
    fold_left
      (fun labels e =>
         match e with
         | AttributeLink _ => labels
         | EntityRelationship edge =>
             match nodeById !! er_entityId edge, nodeById !! er_relationshipId edge with
             | Some entity, Some relation =>
                 let t := 0.62%num in
                 labels ++
                   [{| cl_text := er_cardinality edge;
                       cl_x := (sn_x entity * (1 - t) + sn_x relation * t)%num;
                       cl_y := (sn_y entity * (1 - t) + sn_y relation * t)%num |}]
             | _, _ => labels
             end
         end)
      (AttributeLink <$> links) labels = labels.
Proof. induction links as [|l links IH]; intros labels; [reflexivity|]. apply IH. Qed.

(** One label per edge whose two ids are found, in the order of the edges. *)
Lemma cardinalityLabelsOf_edges (nodeById : gmap string SceneNode)
    (edges : list EntityRelationshipEdge)
    (links : list AttributeLinkEdge) :
  Forall (fun edge => is_Some (nodeById !! er_entityId edge)
                      /\ is_Some (nodeById !! er_relationshipId edge)) edges ->
  Forall2 (labelOf nodeById)
    (cardinalityLabelsOf nodeById ((EntityRelationship <$> edges) ++ (AttributeLink <$> links)))
    edges.
Proof.
  intros Hall. unfold cardinalityLabelsOf. rewrite fold_left_app, cardinalityLabelsOf_links.
  assert (H : forall labels done,
            Forall2 (labelOf nodeById) labels done ->
            Forall2 (labelOf nodeById)
              (fold_left
                 (fun labels e =>
                    match e with
                    | AttributeLink _ => labels
                    | EntityRelationship edge =>
                        match nodeById !! er_entityId edge,
                              nodeById !! er_relationshipId edge with
                        | Some entity, Some relation =>
                            let t := 0.62%num in
                            labels ++
                              [{| cl_text := er_cardinality edge;
                                  cl_x := (sn_x entity * (1 - t) + sn_x relation * t)%num;
                                  cl_y := (sn_y entity * (1 - t) + sn_y relation * t)%num |}]
                        | _, _ => labels
                        end
                    end)
                 (EntityRelationship <$> edges) labels)
              (done ++ edges)).
  { induction Hall as [|edge edges [[entity He] [relation Hr]] _ IH]; intros labels done Hd;
      cbn [fmap list_fmap fold_left].
    - now rewrite app_nil_r.
    - rewrite He, Hr. cbv zeta.
      replace (done ++ edge :: edges) with ((done ++ [edge]) ++ edges)
        by (now rewrite <- app_assoc).
      apply IH. apply Forall2_app; [assumption|].
      constructor; [|constructor]. split; [reflexivity|].
      exists entity, relation. repeat split; assumption. }
  apply (H [] []). constructor.
Qed.

Lemma modelEdges_ids model edge :
  edge ∈ modelEdges model ->
  er_entityId edge ∈ knownIds model /\ er_relationshipId edge ∈ knownIds model
  /\ er_cardinality edge <> EmptyString.
Proof.
  unfold modelEdges. rewrite list_elem_of_In, in_flat_map.
  intros (r & Hr & Hedge). apply in_flat_map in Hedge as (endpoint & _ & Hedge).
  unfold endpointEdges in Hedge. case_bool_decide as Hin; [|contradiction].
  destruct Hedge as [<-|[]]. cbn. repeat split.
  - assumption.
  - unfold knownIds. rewrite elem_of_app. right.
    apply list_elem_of_fmap. exists r. split; [reflexivity|now apply list_elem_of_In].
  - destruct (cardinality endpoint); discriminate.
Qed.

Section Labels.

Variables Math_cos Math_sin : num -> num.
Variable Math_atan2 : num -> num -> num.
Variable localeCompare : string -> string -> num.

(** X12.  A scene has exactly one cardinality label per entity-relationship
    edge of its layout, in the order of the edges.  The text of a label is the
    cardinality of the edge, which is never empty since an empty cardinality
    of an endpoint is replaced by N; the label sits 0.62 of the way from the
    node found under the entity id of the edge to the node found under its
    relationship id, on the canvas of the scene. *)
Theorem cardinality_labels fuel model style nodeOverrides scene :
  computeScene Math_cos Math_sin Math_atan2 localeCompare fuel model style nodeOverrides
    = Some scene ->
  Forall2 (labelOf (sc_nodeById scene)) (sc_cardinalityLabels scene) (modelEdges model)
  /\ Forall (fun label => cl_text label <> EmptyString) (sc_cardinalityLabels scene).
Proof.
  unfold computeScene.
  destruct (buildBackboneLayout _ _ _ _ _) as [backbone|] eqn:Elayout; [|discriminate].
  cbn [mbind option_bind]. cbv zeta. intros [= <-].
  cbn [sc_nodeById sc_cardinalityLabels].
  rewrite (edges_of_layout _ _ _ _ _ _ Elayout).
  pose proof (layout_ids _ _ _ _ _ _ Elayout) as Hids.
  set (nodeById := sceneNodeById _).
  assert (Hlabels : Forall2 (labelOf nodeById)
            (cardinalityLabelsOf nodeById
               ((EntityRelationship <$> modelEdges model)
                ++ (AttributeLink <$>
                      (placeAttributeNodes Math_cos Math_sin Math_atan2 backbone style).2)))
            (modelEdges model)).
  { apply cardinalityLabelsOf_edges. apply Forall_forall. intros edge Hedge.
    destruct (modelEdges_ids model edge Hedge) as (He & Hr & _).
    assert (Hknown : forall id, id ∈ knownIds model -> is_Some (nodeById !! id)).
    { intros id Hid. apply sceneNodeById_is_Some.
      rewrite <- list_fmap_compose, fmap_app, elem_of_app. left.
      rewrite <- list_fmap_compose.
      replace ((sn_id ∘ shiftNode _ _) ∘ Backbone) with bn_id; [now rewrite Hids|].
      reflexivity. }
    split; apply Hknown; assumption. }
  split; [exact Hlabels|].
  apply Forall_forall. intros label Hlabel.
  apply list_elem_of_lookup in Hlabel as [i Hi].
  destruct (Forall2_lookup_l _ _ _ _ _ Hlabels Hi) as (edge & Hedge & Htext & _).
  rewrite Htext. apply list_elem_of_lookup_2 in Hedge.
  now destruct (modelEdges_ids model edge Hedge) as (_ & _ & Hne).
Qed.

End Labels.

(** The shop model, whose second endpoint has an empty cardinality. *)
Lemma cardinality_labels_witness :
  exists scene,
    computeScene sampleCos sampleSin sampleAtan2 asciiCompare (modelFuel shopModel)
      shopModel DEFAULT_CHEN_STYLE ∅ = Some scene
    /\ cl_text <$> sc_cardinalityLabels scene = ["1"; "N"]
    /\ Forall2 (labelOf (sc_nodeById scene)) (sc_cardinalityLabels scene)
         (modelEdges shopModel)
    /\ Forall (fun label => cl_text label <> EmptyString) (sc_cardinalityLabels scene).
Proof.
  eexists. split; [vm_compute; reflexivity|]. split; [reflexivity|].
  apply (cardinality_labels sampleCos sampleSin sampleAtan2 asciiCompare
           (modelFuel shopModel) shopModel DEFAULT_CHEN_STYLE ∅).
  vm_compute. reflexivity.
Defined.

(** ** Depths *)

Lemma assignNeighborDepths_spec ns currentDepth :
  forall (depth : gmap string nat) (queue : list string),
    let depth' := (assignNeighborDepths ns currentDepth depth queue).1 in
    let queue' := (assignNeighborDepths ns currentDepth depth queue).2 in
    (forall k v, depth !! k = Some v -> depth' !! k = Some v)
    /\ (forall k v, depth' !! k = Some v ->
          depth !! k = Some v \/ (v = S currentDepth /\ k ∈ ns /\ k ∈ queue'))
    /\ (forall n, n ∈ ns -> is_Some (depth' !! n))
    /\ (forall q, q ∈ queue' -> q ∈ queue \/ (is_Some (depth' !! q) /\ q ∈ ns))
    /\ (forall q, q ∈ queue -> q ∈ queue').
Proof.
  unfold assignNeighborDepths.
  induction ns as [|n ns IH]; intros depth queue; cbn [fold_left fst snd].
  - repeat split; auto.
    + intros n Hn. now apply elem_of_nil in Hn.
  - destruct (depth !! n) as [dn|] eqn:E.
    + destruct (IH depth queue) as (H1 & H2 & H3 & H4 & H5). cbv zeta in *.
      repeat split; auto.
      * intros k v Hk. destruct (H2 k v Hk) as [?|(? & ? & ?)]; [now left|right].
        repeat split; auto. now right.
      * intros m Hm. apply elem_of_cons in Hm as [->|Hm]; [|auto]. eauto.
      * intros q0 Hq. destruct (H4 q0 Hq) as [?|[? ?]]; [now left|right].
        split; [assumption|now right].
    + destruct (IH (<[n := S currentDepth]> depth) (queue ++ [n]))
        as (H1 & H2 & H3 & H4 & H5). cbv zeta in *.
      assert (Hn : forall k v, depth !! k = Some v ->
                     <[n := S currentDepth]> depth !! k = Some v).
      { intros k v Hk. rewrite lookup_insert_ne; [assumption|congruence]. }
      repeat split.
      * intros k v Hk. auto.
      * intros k v Hk. destruct (H2 k v Hk) as [Hold|(? & ? & ?)].
        -- destruct (decide (k = n)) as [->|Hne].
           ++ rewrite lookup_insert_eq in Hold. injection Hold as <-. right.
              repeat split; [now left|]. apply H5. set_solver.
           ++ rewrite lookup_insert_ne in Hold by congruence. now left.
        -- right. repeat split; auto. now right.
      * intros m Hm. apply elem_of_cons in Hm as [->|Hm]; [|auto].
        exists (S currentDepth). apply H1. apply lookup_insert_eq.
      * intros q0 Hq. destruct (H4 q0 Hq) as [Hin|[? ?]].
        -- apply elem_of_app in Hin as [?|Hin]; [now left|].
           apply list_elem_of_singleton in Hin as ->. right.
           split; [|now left]. exists (S currentDepth). apply H1, lookup_insert_eq.
        -- right. split; [assumption|now right].
      * intros q0 Hq. apply H5. set_solver.
Qed.

(** What the loop over the queue keeps true of the depths assigned so far. *)
Definition depthInvariant (adjacency : gmap string (list string)) (rootId : string)
    (queue : list string) (depth : gmap string nat) : Prop :=
  depth !! rootId = Some 0
  /\ (forall id, depth !! id = Some 0 -> id = rootId)
  /\ parented adjacency depth
  /\ (forall q, q ∈ queue -> is_Some (depth !! q))
  /\ (forall id, is_Some (depth !! id) ->
        id ∈ queue \/ id = EmptyString
        \/ forall n, n ∈ neighbors adjacency id -> is_Some (depth !! n)).

Lemma depthWalk_invariant adjacency rootId fuel :
  forall queue depth depth',
    depthInvariant adjacency rootId queue depth ->
    depthWalk fuel adjacency queue depth = Some depth' ->
    depthInvariant adjacency rootId [] depth'.
Proof.
  induction fuel as [|fuel IH]; intros queue depth depth' Hinv Hwalk.
  - destruct queue; [|discriminate]. injection Hwalk as <-. assumption.
  - destruct queue as [|currentId queue]; [injection Hwalk as <-; assumption|].
    cbn [depthWalk] in Hwalk.
    destruct Hinv as (I1 & I2 & I3 & I4 & I5).
    case_bool_decide as Hempty.
    + apply (IH queue depth depth'); [|assumption].
      repeat split; auto.
      * intros q0 Hq. apply I4. now right.
      * intros id Hid. destruct (I5 id Hid) as [Hin|[?|?]]; auto.
        apply elem_of_cons in Hin as [->|?]; auto.
    + destruct (I4 currentId ltac:(left)) as [cd Hcd].
      rewrite Hcd in Hwalk. change (default 0 (Some cd)) with cd in Hwalk.
      destruct (assignNeighborDepths_spec (neighbors adjacency currentId) cd depth queue)
        as (H1 & H2 & H3 & H4 & H5).
      destruct (assignNeighborDepths _ cd depth queue) as [depth1 queue1].
      cbn [fst snd] in *.
      apply (IH queue1 depth1 depth'); [|assumption].
      repeat split.
      * auto.
      * intros id Hid. destruct (H2 id 0 Hid) as [?|(? & _)]; [auto|discriminate].
      * intros id d Hid. destruct (H2 id (S d) Hid) as [Hold|(Hd & Hin & _)].
        -- destruct (I3 id d Hold) as (parent & Hp & Hn). exists parent. auto.
        -- injection Hd as ->. exists currentId. auto.
      * intros q0 Hq. destruct (H4 q0 Hq) as [Hin|[? _]]; [|assumption].
        destruct (I4 q0 ltac:(now right)) as [v Hv]. exists v. auto.
      * intros id [v Hid]. destruct (H2 id v Hid) as [Hold|(_ & _ & Hin)]; [|now left].
        destruct (I5 id ltac:(eauto)) as [Hin|[?|Hclosed]].
        -- apply elem_of_cons in Hin as [->|Hin]; [|left; auto].
           right. right. assumption.
        -- right. now left.
        -- right. right. intros n Hn. destruct (Hclosed n Hn) as [w Hw]. exists w. auto.
Qed.

(** X13.  The depths assigned from a root: the root, and no other id, has
    depth 0; every id of depth d + 1 is a neighbour of an id of depth d, so
    that a node of depth d is joined to the root by d edges; and every
    neighbour of an id that has a depth, the empty id apart, has a depth. *)
Theorem depths_follow_edges fuel adjacency rootId depth :
  assignDepths fuel adjacency rootId = Some depth ->
  depth !! rootId = Some 0
  /\ (forall id, depth !! id = Some 0 -> id = rootId)
  /\ parented adjacency depth
  /\ closedUnder adjacency depth.
Proof.
  unfold assignDepths. intros H.
  destruct (depthWalk_invariant adjacency rootId fuel [rootId] {[rootId := 0]} depth)
    as (I1 & I2 & I3 & _ & I5); [|assumption|].
  - repeat split.
    + apply lookup_singleton_eq.
    + intros id Hid. apply lookup_singleton_Some in Hid as [<- _]. reflexivity.
    + intros id d Hid. apply lookup_singleton_Some in Hid as [_ [=]].
    + intros q0 Hq. apply list_elem_of_singleton in Hq as ->.
      rewrite lookup_singleton_eq. eauto.
    + intros id [v Hid]. apply lookup_singleton_Some in Hid as [<- _]. left. now left.
  - repeat split; auto.
    intros id Hid Hne n Hn. destruct (I5 id Hid) as [Hin|[?|Hclosed]]; [|contradiction|auto].
    now apply elem_of_nil in Hin.
Qed.

(** The graph of the users and orders model, walked from the relationship. *)
Lemma depths_follow_edges_witness :
  let adjacency := (buildEdges usersOrders (buildNodes usersOrders DEFAULT_CHEN_STYLE ∅)).1 in
  exists depth,
    assignDepths (modelFuel usersOrders) adjacency "places" = Some depth
    /\ depth !! "places" = Some 0
    /\ (forall id, depth !! id = Some 0 -> id = "places")
    /\ parented adjacency depth
    /\ closedUnder adjacency depth.
Proof.
  cbv zeta. eexists. split; [vm_compute; reflexivity|].
  apply (depths_follow_edges (modelFuel usersOrders)
           (buildEdges usersOrders (buildNodes usersOrders DEFAULT_CHEN_STYLE ∅)).1 "places").
  vm_compute. reflexivity.
Defined.

(** ** Connected components *)

Lemma byIdOf_snoc (nodes : list BackboneNode) node :
  byIdOf (nodes ++ [node]) = <[bn_id node := length nodes]> (byIdOf nodes).
Proof.
  unfold byIdOf. rewrite imap_app, fold_left_app. cbn [imap fold_left].
  unfold compose. now rewrite Nat.add_0_r.
Qed.

(** [byId] maps an id to the last node that carries it. *)
Lemma byIdOf_spec (nodes : list BackboneNode) :
  (forall id r, byIdOf nodes !! id = Some r ->
     exists node, nodes !! r = Some node /\ bn_id node = id)
  /\ (forall r node, nodes !! r = Some node -> is_Some (byIdOf nodes !! bn_id node))
  /\ (NoDup (bn_id <$> nodes) ->
      forall r node, nodes !! r = Some node -> byIdOf nodes !! bn_id node = Some r).
Proof.
  induction nodes as [|last nodes (IH1 & IH2 & IH3)] using rev_ind.
  - repeat split.
    + intros id r H. unfold byIdOf in H. simpl in H. now rewrite lookup_empty in H.
    + intros r node H. now rewrite lookup_nil in H.
    + intros _ r node H. now rewrite lookup_nil in H.
  - rewrite byIdOf_snoc. repeat split.
    + intros id r. rewrite lookup_insert. case_decide as E.
      * intros [= <-]. exists last. split; [|assumption]. now rewrite list_lookup_middle.
      * intros H. destruct (IH1 id r H) as (node & Hn & Hid). exists node.
        split; [now apply lookup_app_l_Some|assumption].
    + intros r node H. rewrite lookup_insert. case_decide as E; [eauto|].
      apply lookup_app_Some in H as [H|[_ H]]; [eauto|].
      apply list_lookup_singleton_Some in H as [_ ->]. congruence.
    + rewrite fmap_app. intros Hnd r node H.
      apply NoDup_app in Hnd as (Hnd & Hdisj & _).
      rewrite lookup_insert. case_decide as E.
      * apply lookup_app_Some in H as [H|[Hlen H]].
        -- exfalso. apply (Hdisj (bn_id node)).
           ++ apply list_elem_of_fmap. exists node. split; [reflexivity|].
              eapply list_elem_of_lookup_2; eassumption.
           ++ rewrite <- E. simpl. now left.
        -- apply list_lookup_singleton_Some in H as [Hk _]. f_equal. lia.
      * apply lookup_app_Some in H as [H|[_ H]]; [auto|].
        apply list_lookup_singleton_Some in H as [_ ->]. congruence.
Qed.

Section Components.

Variable nodes : list BackboneNode.
Variable adjacency : gmap string (list string).

(** The state of the walks: the nodes pushed so far, the queue and the ids
    marked. *)
Definition walkInvariant (done : list nat) (queue : list string) (visited : gset string)
  : Prop :=
  NoDup queue
  /\ (forall q, q ∈ queue -> q ∈ visited)
  /\ NoDup done
  /\ (forall r, r ∈ done ->
        exists id, byIdOf nodes !! id = Some r /\ id <> EmptyString
                   /\ id ∈ visited /\ id ∉ queue)
  /\ (forall id, id ∈ visited ->
        id ∈ queue \/ id = EmptyString \/ byIdOf nodes !! id = None
        \/ exists r, byIdOf nodes !! id = Some r /\ r ∈ done).

Lemma byIdOf_injective id id' r :
  byIdOf nodes !! id = Some r -> byIdOf nodes !! id' = Some r -> id = id'.
Proof.
  intros H H'. destruct (byIdOf_spec nodes) as (Hspec & _).
  destruct (Hspec _ _ H) as (n & Hn & <-). destruct (Hspec _ _ H') as (n' & Hn' & <-).
  congruence.
Qed.

Lemma componentWalk_invariant fuel :
  forall queue visited component done visited' component',
    walkInvariant (done ++ component) queue visited ->
    componentWalk fuel (byIdOf nodes) adjacency queue visited component
      = Some (visited', component') ->
    walkInvariant (done ++ component') [] visited' /\ visited ⊆ visited'.
Proof.
  induction fuel as [|fuel IH]; intros queue visited component done visited' component'
    Hinv Hwalk.
  - destruct queue; [|discriminate]. injection Hwalk as <- <-. split; [assumption|set_solver].
  - destruct queue as [|id queue]; [injection Hwalk as <- <-; split; [assumption|set_solver]|].
    cbn [componentWalk] in Hwalk.
    destruct Hinv as (Q1 & Q2 & D1 & D2 & V).
    apply NoDup_cons in Q1 as [Hid Q1].
    case_bool_decide as Hempty.
    + apply (IH queue visited component done); [|assumption].
      repeat split; auto.
      * intros q0 Hq. apply Q2. now right.
      * intros r Hr. destruct (D2 r Hr) as (i & H1 & H2 & H3 & H4).
        exists i. repeat split; auto. intros Hin. apply H4. now right.
      * intros i Hi. destruct (V i Hi) as [Hin|H]; [|now right].
        apply elem_of_cons in Hin as [->|Hin]; [right; now left|now left].
    + destruct (visitNeighbors_enqueues_once (neighbors adjacency id) visited queue)
        as (added & Hq & Hnd & Hnew & Hvis).
      destruct (visitNeighbors (neighbors adjacency id) visited queue) as [visited1 queue1].
      cbn [fst snd] in Hq, Hvis. subst queue1 visited1.
      set (component1 := match byIdOf nodes !! id with
                         | Some current => component ++ [current]
                         | None => component
                         end) in *.
      assert (Hidv : id ∈ visited) by (apply Q2; now left).
      destruct (IH (queue ++ added) (list_to_set added ∪ visited) component1 done
                  visited' component') as [Hres Hsub]; [|assumption|].
      2:{ split; [assumption|]. set_solver. }
      assert (Hold : forall r, r ∈ done ++ component ->
                exists i, byIdOf nodes !! i = Some r /\ i <> EmptyString
                          /\ i ∈ list_to_set added ∪ visited /\ i ∉ queue ++ added).
      { intros r Hr. destruct (D2 r Hr) as (i & H1 & H2 & H3 & H4).
        exists i. repeat split; auto; [set_solver|].
        rewrite elem_of_app. intros [Hin|Hin]; [apply H4; now right|].
        now apply Hnew in Hin. }
      repeat split.
      * apply NoDup_app. repeat split; auto.
        intros x Hx Hx'. apply Hnew in Hx'. apply Hx', Q2. now right.
      * intros q0 Hq0. apply elem_of_app in Hq0 as [Hq0|Hq0]; [|set_solver].
        apply elem_of_union_r, Q2. now right.
      * unfold component1. destruct (byIdOf nodes !! id) as [current|] eqn:Ecur; [|assumption].
        rewrite app_assoc. apply NoDup_app. repeat split; [assumption| |apply NoDup_singleton].
        intros r Hr Hr'. apply list_elem_of_singleton in Hr' as ->.
        destruct (D2 current Hr) as (i & H1 & _ & _ & H4).
        apply H4. rewrite (byIdOf_injective i id current H1 Ecur). now left.
      * intros r Hr. unfold component1 in Hr.
        destruct (byIdOf nodes !! id) as [current|] eqn:Ecur; [|now apply Hold].
        rewrite app_assoc in Hr. apply elem_of_app in Hr as [Hr|Hr]; [now apply Hold|].
        apply list_elem_of_singleton in Hr as ->.
        exists id. repeat split; auto; [set_solver|].
        rewrite elem_of_app. intros [Hin|Hin]; [contradiction|]. now apply Hnew in Hin.
      * intros i Hi. apply elem_of_union in Hi as [Hi|Hi].
        { left. apply elem_of_app. right. now apply elem_of_list_to_set in Hi. }
        destruct (V i Hi) as [Hin|[?|[?|(r & H1 & H2)]]]; auto.
        -- apply elem_of_cons in Hin as [->|Hin]; [|left; apply elem_of_app; now left].
           right. right. unfold component1.
           destruct (byIdOf nodes !! id) as [current|] eqn:Ecur; [right|now left].
           exists current. split; [reflexivity|]. rewrite app_assoc. apply elem_of_app.
           right. now left.
        -- right. right. right. exists r. split; [assumption|].
           unfold component1. destruct (byIdOf nodes !! id); [|assumption].
           rewrite app_assoc. apply elem_of_app. now left.
Qed.

Lemma visitComponent_invariant fuel visited components node visited' components' :
  walkInvariant (concat components) [] visited ->
  visitComponent fuel (byIdOf nodes) adjacency (Some (visited, components)) node
    = Some (visited', components') ->
  walkInvariant (concat components') [] visited'
  /\ visited ⊆ visited' /\ bn_id node ∈ visited'.
Proof.
  intros Hinv. unfold visitComponent. cbn [mbind option_bind].
  case_bool_decide as Hseen.
  - intros [= <- <-]. repeat split; [apply Hinv..| |assumption]. set_solver.
  - destruct (componentWalk _ _ _ _ _ _) as [[visited1 component]|] eqn:Ewalk;
      [|discriminate].
    cbn [mbind option_bind]. intros [= <- <-].
    destruct (componentWalk_invariant fuel [bn_id node] ({[bn_id node]} ∪ visited) []
                (concat components) visited1 component) as [Hres Hsub]; [|assumption|].
    + destruct Hinv as (_ & _ & D1 & D2 & V). rewrite app_nil_r.
      repeat split.
      * apply NoDup_singleton.
      * intros q0 Hq. apply list_elem_of_singleton in Hq as ->. set_solver.
      * assumption.
      * intros r Hr. destruct (D2 r Hr) as (i & H1 & H2 & H3 & _).
        exists i. repeat split; auto; [set_solver|].
        intros Hin. apply list_elem_of_singleton in Hin as ->. contradiction.
      * intros i Hi. apply elem_of_union in Hi as [Hi|Hi].
        -- left. apply elem_of_singleton in Hi as ->. now left.
        -- destruct (V i Hi) as [Hin|?]; [now apply elem_of_nil in Hin|now right].
    + rewrite concat_app. cbn [concat]. rewrite app_nil_r.
      repeat split; [apply Hres..| |]; set_solver.
Qed.

Lemma visitComponents_invariant fuel (l : list BackboneNode) :
  forall visited components visited' components',
    walkInvariant (concat components) [] visited ->
    fold_left (visitComponent fuel (byIdOf nodes) adjacency) l (Some (visited, components))
      = Some (visited', components') ->
    walkInvariant (concat components') [] visited'
    /\ visited ⊆ visited' /\ (forall node, node ∈ l -> bn_id node ∈ visited').
Proof.
  induction l as [|node l IH]; intros visited components visited' components' Hinv;
    cbn [fold_left].
  - intros [= <- <-]. repeat split; [apply Hinv..| |]; [set_solver|].
    intros node Hn. now apply elem_of_nil in Hn.
  - destruct (visitComponent fuel (byIdOf nodes) adjacency (Some (visited, components)) node)
      as [[visited1 components1]|] eqn:E.
    + intros H.
      destruct (visitComponent_invariant _ _ _ _ _ _ Hinv E) as (Hinv1 & Hsub1 & Hnode).
      destruct (IH _ _ _ _ Hinv1 H) as (Hinv2 & Hsub2 & Hl).
      repeat split; [apply Hinv2..| |]; [set_solver|].
      intros n Hn. apply elem_of_cons in Hn as [->|Hn]; [set_solver|auto].
    + rewrite fold_left_None; [discriminate|]. reflexivity.
Qed.

End Components.

(** X14.  The components are a partition: no node is in two components or
    twice in one, and the nodes of the components are exactly the nodes whose
    id is not empty and which are the last to carry their id (the node the id
    map returns).  So when the ids are distinct and none is empty, the
    components hold every node exactly once; a node with an empty id is in no
    component. *)
Theorem components_partition fuel (nodes : list BackboneNode) adjacency components :
  connectedComponents fuel nodes adjacency = Some components ->
  NoDup (concat components)
  /\ (forall r, r ∈ concat components <->
        exists node, nodes !! r = Some node /\ bn_id node <> EmptyString
                     /\ byIdOf nodes !! bn_id node = Some r)
  /\ (NoDup (bn_id <$> nodes) -> EmptyString ∉ bn_id <$> nodes ->
      concat components ≡ₚ seq 0 (length nodes)).
Proof.
  unfold connectedComponents. intros H.
  destruct (fold_left _ nodes _) as [[visited components']|] eqn:E; [|discriminate].
  cbn [mbind option_bind] in H. injection H as ->.
  destruct (visitComponents_invariant nodes adjacency fuel nodes ∅ [] visited components)
    as ((_ & _ & D1 & D2 & V) & _ & Hall); [|assumption|].
  { split; [constructor|]. split; [intros q0 Hq; now apply elem_of_nil in Hq|].
    split; [constructor|]. split; [intros r Hr; now apply elem_of_nil in Hr|].
    intros i Hi. now apply elem_of_empty in Hi. }
  destruct (byIdOf_spec nodes) as (S1 & S2 & S3).
  assert (Hiff : forall r, r ∈ concat components <->
            exists node, nodes !! r = Some node /\ bn_id node <> EmptyString
                         /\ byIdOf nodes !! bn_id node = Some r).
  { intros r. split.
    - intros Hr. destruct (D2 r Hr) as (i & H1 & H2 & _).
      destruct (S1 i r H1) as (node & Hn & <-). eauto.
    - intros (node & Hn & Hne & Hby).
      assert (Hv : bn_id node ∈ visited).
      { apply Hall. eapply list_elem_of_lookup_2; eassumption. }
      destruct (V _ Hv) as [Hin|[?|[Hnone|(r' & H1 & H2)]]].
      + now apply elem_of_nil in Hin.
      + contradiction.
      + congruence.
      + congruence. }
  repeat split; [assumption|apply Hiff..|].
  intros Hnd Hne. apply NoDup_Permutation; [assumption|apply NoDup_seq|].
  intros r. rewrite Hiff, elem_of_seq. split.
  - intros (node & Hn & _). apply lookup_lt_Some in Hn. lia.
  - intros [_ Hr]. destruct (lookup_lt_is_Some_2 nodes r Hr) as [node Hn].
    exists node. repeat split; [assumption| |auto].
    intros Heq. apply Hne. rewrite <- Heq. apply list_elem_of_fmap. exists node.
    split; [reflexivity|]. eapply list_elem_of_lookup_2; eassumption.
Qed.

(** The nodes and the adjacency of the cyclic model: one component of five nodes. *)
Lemma components_partition_witness :
  let g := buildNodes cyclicModel DEFAULT_CHEN_STYLE ∅ in
  let adjacency := (buildEdges cyclicModel g).1 in
  exists components,
    connectedComponents (modelFuel cyclicModel) g.1.1 adjacency = Some components
    /\ NoDup (concat components)
    /\ (forall r, r ∈ concat components <->
          exists node, g.1.1 !! r = Some node /\ bn_id node <> EmptyString
                       /\ byIdOf g.1.1 !! bn_id node = Some r)
    /\ (NoDup (bn_id <$> g.1.1) -> EmptyString ∉ bn_id <$> g.1.1 ->
        concat components ≡ₚ seq 0 (length g.1.1)).
Proof.
  cbv zeta. eexists. split; [vm_compute; reflexivity|].
  apply (components_partition (modelFuel cyclicModel)
           (buildNodes cyclicModel DEFAULT_CHEN_STYLE ∅).1.1
           (buildEdges cyclicModel (buildNodes cyclicModel DEFAULT_CHEN_STYLE ∅)).1).
  vm_compute. reflexivity.
Defined.

(** ** Offsets move a node after the layout *)

(** Two stores whose nodes agree but for their offsets. *)
Definition sim (s s' : list BackboneNode) : Prop :=
  length s = length s'
  /\ forall r, stripOffsets (deref s r) = stripOffsets (deref s' r).

Lemma sim_refl s : sim s s.
Proof. split; reflexivity. Qed.

Lemma sim_fields s s' r :
  sim s s' ->
  bn_id (deref s r) = bn_id (deref s' r)
  /\ bn_type (deref s r) = bn_type (deref s' r)
  /\ bn_x (deref s r) = bn_x (deref s' r)
  /\ bn_y (deref s r) = bn_y (deref s' r)
  /\ bn_envelopeX (deref s r) = bn_envelopeX (deref s' r)
  /\ bn_envelopeY (deref s r) = bn_envelopeY (deref s' r).
Proof.
  intros [_ H]. specialize (H r).
  repeat split;
    [exact (f_equal bn_id H)|exact (f_equal bn_type H)|exact (f_equal bn_x H)
    |exact (f_equal bn_y H)|exact (f_equal bn_envelopeX H)|exact (f_equal bn_envelopeY H)].
Qed.

Lemma deref_update r r' f (store : list BackboneNode) :
  deref (update r f store) r'
  = if decide (r = r' /\ r < length store) then f (deref store r) else deref store r'.
Proof.
  case_decide as H.
  - destruct H as [<- Hlt]. now apply deref_update_eq.
  - destruct (decide (r = r')) as [<-|Hne]; [|now apply deref_update_ne].
    unfold update. rewrite lookup_ge_None_2; [reflexivity|]. lia.
Qed.

Lemma sim_update r f s s' :
  sim s s' ->
  (forall n n', stripOffsets n = stripOffsets n' -> stripOffsets (f n) = stripOffsets (f n')) ->
  sim (update r f s) (update r f s').
Proof.
  intros [Hlen H] Hf. split; [now rewrite !update_length|].
  intros r'. rewrite !deref_update, <- Hlen.
  case_decide; [apply Hf|]; apply H.
Qed.

Lemma strip_setX v n n' :
  stripOffsets n = stripOffsets n' -> stripOffsets (setX v n) = stripOffsets (setX v n').
Proof.
  intros H. change (setX v (stripOffsets n) = setX v (stripOffsets n')). now rewrite H.
Qed.

Lemma strip_setY v n n' :
  stripOffsets n = stripOffsets n' -> stripOffsets (setY v n) = stripOffsets (setY v n').
Proof.
  intros H. change (setY v (stripOffsets n) = setY v (stripOffsets n')). now rewrite H.
Qed.

Lemma insertSorted_ext {A} (cmp cmp' : A -> A -> num) x l :
  (forall a b, cmp a b = cmp' a b) -> insertSorted cmp x l = insertSorted cmp' x l.
Proof.
  intros H. induction l as [|y l IH]; [reflexivity|]. cbn [insertSorted].
  now rewrite H, IH.
Qed.

Lemma jsSort_ext {A} (cmp cmp' : A -> A -> num) l :
  (forall a b, cmp a b = cmp' a b) -> jsSort cmp l = jsSort cmp' l.
Proof.
  intros H. unfold jsSort. generalize (@nil A).
  induction l as [|x l IH]; intros acc; [reflexivity|]. cbn [fold_left].
  now rewrite (insertSorted_ext cmp cmp' x acc H), IH.
Qed.

Lemma map_deref_sim {B} (f : BackboneNode -> B) (s s' : list BackboneNode) (rs : list nat) :
  (forall r, f (deref s r) = f (deref s' r)) ->
  map (fun r => f (deref s r)) rs = map (fun r => f (deref s' r)) rs.
Proof. intros H. apply map_ext. intros r. apply H. Qed.

Section OffsetsLayout.

Variable localeCompare : string -> string -> num.

Lemma sortLevel_sim s s' rs :
  sim s s' -> sortLevel localeCompare s rs = sortLevel localeCompare s' rs.
Proof.
  intros H. unfold sortLevel. apply jsSort_ext. intros a b.
  destruct (sim_fields s s' a H) as (-> & _). destruct (sim_fields s s' b H) as (-> & _).
  reflexivity.
Qed.

Lemma stackY_sim vMargin (rest : list Ref) :
  forall s s' yCursor prevRef,
    sim s s' ->
    sim (fold_left
           (fun '(store, (yCursor, prevRef)) currRef =>
              let prevNode := deref store prevRef in
              let currNode := deref store currRef in
              let yCursor :=
                (yCursor + (bn_envelopeY prevNode + bn_envelopeY currNode + vMargin))%num in
              (update currRef (setY yCursor) store, (yCursor, currRef)))
           rest (s, (yCursor, prevRef))).1
        (fold_left
           (fun '(store, (yCursor, prevRef)) currRef =>
              let prevNode := deref store prevRef in
              let currNode := deref store currRef in
              let yCursor :=
                (yCursor + (bn_envelopeY prevNode + bn_envelopeY currNode + vMargin))%num in
              (update currRef (setY yCursor) store, (yCursor, currRef)))
           rest (s', (yCursor, prevRef))).1.
Proof.
  induction rest as [|c rest IH]; intros s s' yCursor prevRef H; cbn [fold_left].
  - exact H.
  - destruct (sim_fields s s' prevRef H) as (_ & _ & _ & _ & _ & ->).
    destruct (sim_fields s s' c H) as (_ & _ & _ & _ & _ & ->).
    apply IH. apply sim_update; [assumption|]. intros n n'. apply strip_setY.
Qed.

Lemma placed_node offsetX xByDepth (d : nat) centerY n n' :
  stripOffsets n = stripOffsets n' ->
  stripOffsets
    (let node := setX (offsetX + getOr0 xByDepth d)%num n in
     setY (bn_y node - centerY)%num node)
  = stripOffsets
      (let node := setX (offsetX + getOr0 xByDepth d)%num n' in
       setY (bn_y node - centerY)%num node).
Proof.
  intros H. cbv zeta. cbn [setX bn_y].
  rewrite (f_equal bn_y H : bn_y n = bn_y n').
  apply strip_setY, strip_setX, H.
Qed.

Lemma update_all_sim f (l : list nat) :
  (forall n n', stripOffsets n = stripOffsets n' -> stripOffsets (f n) = stripOffsets (f n')) ->
  forall s s', sim s s' ->
    sim (fold_left (fun store r => update r f store) l s)
        (fold_left (fun store r => update r f store) l s').
Proof.
  intros Hf. induction l as [|r l IH]; intros s s' H; cbn [fold_left]; [exact H|].
  apply IH. now apply sim_update.
Qed.

Lemma placeLevel_sim vMargin offsetX xByDepth levels s s' d :
  sim s s' ->
  sim (placeLevel localeCompare vMargin offsetX xByDepth levels s d)
      (placeLevel localeCompare vMargin offsetX xByDepth levels s' d).
Proof.
  intros H. unfold placeLevel. rewrite <- (sortLevel_sim s s' _ H).
  destruct (sortLevel localeCompare s _) as [|first rest]; [exact H|].
  cbv zeta.
  assert (H1 : sim (stackY vMargin first rest (update first (setY 0%num) s))
                   (stackY vMargin first rest (update first (setY 0%num) s'))).
  { unfold stackY. apply stackY_sim. apply sim_update; [assumption|]. intros n n'. apply strip_setY. }
  set (t := stackY vMargin first rest (update first (setY 0%num) s)) in *.
  set (t' := stackY vMargin first rest (update first (setY 0%num) s')) in *.
  assert (Hmin : map (fun r => (bn_y (deref t r) - bn_envelopeY (deref t r))%num)
                     (first :: rest)
                 = map (fun r => (bn_y (deref t' r) - bn_envelopeY (deref t' r))%num)
                     (first :: rest)).
  { apply map_ext. intros r.
    destruct (sim_fields t t' r H1) as (_ & _ & _ & -> & _ & ->). reflexivity. }
  assert (Hmax : map (fun r => (bn_y (deref t r) + bn_envelopeY (deref t r))%num)
                     (first :: rest)
                 = map (fun r => (bn_y (deref t' r) + bn_envelopeY (deref t' r))%num)
                     (first :: rest)).
  { apply map_ext. intros r.
    destruct (sim_fields t t' r H1) as (_ & _ & _ & -> & _ & ->). reflexivity. }
  rewrite Hmin, Hmax.
  apply update_all_sim; [|assumption]. intros n n'. apply placed_node.
Qed.

Lemma placeLevels_sim vMargin offsetX xByDepth levels depths :
  forall s s', sim s s' ->
    sim (fold_left (placeLevel localeCompare vMargin offsetX xByDepth levels) depths s)
        (fold_left (placeLevel localeCompare vMargin offsetX xByDepth levels) depths s').
Proof.
  induction depths as [|d depths IH]; intros s s' H; cbn [fold_left]; [exact H|].
  apply IH. now apply placeLevel_sim.
Qed.

Lemma findRoot_sim s s' component : sim s s' -> findRoot s component = findRoot s' component.
Proof.
  intros H. unfold findRoot.
  replace (find (fun r => NodeType_eqb (bn_type (deref s r)) TRelationship) component)
    with (find (fun r => NodeType_eqb (bn_type (deref s' r)) TRelationship) component);
    [reflexivity|].
  induction component as [|r component IH]; [reflexivity|]. cbn [find].
  destruct (sim_fields s s' r H) as (_ & -> & _). now rewrite IH.
Qed.

Lemma buildLevels_sim s s' depth component :
  sim s s' -> buildLevels s depth component = buildLevels s' depth component.
Proof.
  intros H.
  assert (Hd : forall r, depthOf s depth r = depthOf s' depth r).
  { intros r. unfold depthOf. now destruct (sim_fields s s' r H) as (-> & _). }
  unfold buildLevels. generalize (@nil (nat * list nat)).
  induction component as [|r component IH]; intros levels; [reflexivity|]. cbn [fold_left].
  rewrite (Hd r). apply IH.
Qed.

Lemma assignLevelX_sim hMargin s s' levels depths :
  sim s s' -> assignLevelX hMargin s levels depths = assignLevelX hMargin s' levels depths.
Proof.
  intros H. unfold assignLevelX. f_equal.
  generalize (∅ : gmap nat num, @None nat).
  induction depths as [|d depths IH]; intros acc; [reflexivity|]. cbn [fold_left].
  rewrite <- IH. f_equal. destruct acc as [xByDepth [prev|]]; [|reflexivity].
  unfold maxEnvelopeX.
  rewrite (map_deref_sim bn_envelopeX s s' (default [] (levelsGet prev levels))),
          (map_deref_sim bn_envelopeX s s' (default [] (levelsGet d levels)));
    [reflexivity| |]; intros r; now destruct (sim_fields s s' r H) as (_ & _ & _ & _ & -> & _).
Qed.

(** The layout of a component reads nothing of the offsets. *)
Lemma layoutComponent_sim fuel adjacency style s s' offsetX component :
  sim s s' ->
  match layoutComponent localeCompare fuel adjacency style (Some (s, offsetX)) component,
        layoutComponent localeCompare fuel adjacency style (Some (s', offsetX)) component with
  | Some (t, o), Some (t', o') => sim t t' /\ o = o'
  | None, None => True
  | _, _ => False
  end.
Proof.
  intros H. unfold layoutComponent. cbn [mbind option_bind].
  rewrite <- (findRoot_sim s s' component H).
  destruct (findRoot s component) as [root|]; [|split; [assumption|reflexivity]].
  destruct (sim_fields s s' root H) as (<- & _).
  destruct (assignDepths fuel adjacency (bn_id (deref s root))) as [depth|]; [|exact I].
  cbn [mbind option_bind].
  rewrite <- (buildLevels_sim s s' depth component H).
  set (levels := buildLevels s depth component).
  rewrite <- (assignLevelX_sim (H_MARGIN style) s s' levels (orderedDepthsOf levels) H).
  set (xByDepth := assignLevelX _ _ _ _).
  pose proof (placeLevels_sim (V_MARGIN style) offsetX xByDepth levels
                (orderedDepthsOf levels) s s' H) as H1.
  set (t := fold_left _ (orderedDepthsOf levels) s) in *.
  set (t' := fold_left _ (orderedDepthsOf levels) s') in *.
  split; [assumption|].
  rewrite (map_ext (fun r => let node := deref t r in (bn_x node - bn_envelopeX node)%num)
                   (fun r => let node := deref t' r in (bn_x node - bn_envelopeX node)%num)),
          (map_ext (fun r => let node := deref t r in (bn_x node + bn_envelopeX node)%num)
                   (fun r => let node := deref t' r in (bn_x node + bn_envelopeX node)%num));
    [reflexivity| |]; intros r; cbv zeta;
    destruct (sim_fields t t' r H1) as (_ & _ & -> & _ & -> & _); reflexivity.
Qed.

Lemma layoutComponents_sim fuel adjacency style components :
  forall s s' offsetX,
    sim s s' ->
    match fold_left (layoutComponent localeCompare fuel adjacency style) components
            (Some (s, offsetX)),
          fold_left (layoutComponent localeCompare fuel adjacency style) components
            (Some (s', offsetX)) with
    | Some (t, o), Some (t', o') => sim t t' /\ o = o'
    | None, None => True
    | _, _ => False
    end.
Proof.
  induction components as [|c components IH]; intros s s' offsetX H; cbn [fold_left].
  - split; [assumption|reflexivity].
  - pose proof (layoutComponent_sim fuel adjacency style s s' offsetX c H) as Hc.
    destruct (layoutComponent localeCompare fuel adjacency style (Some (s, offsetX)) c)
      as [[t o]|],
      (layoutComponent localeCompare fuel adjacency style (Some (s', offsetX)) c)
      as [[t' o']|]; try contradiction.
    + destruct Hc as [Ht <-]. now apply IH.
    + rewrite fold_left_None by reflexivity. exact I.
Qed.

End OffsetsLayout.

Lemma sim_of_fmap (s s' : list BackboneNode) :
  stripOffsets <$> s = stripOffsets <$> s' -> sim s s'.
Proof.
  intros H. split.
  - rewrite <- (length_fmap stripOffsets s), H. apply length_fmap.
  - intros r. unfold deref.
    pose proof (f_equal (fun l => l !! r) H) as Hr. cbn beta in Hr.
    rewrite !list_lookup_fmap in Hr. rewrite !list_lookup_total_alt.
    destruct (s !! r), (s' !! r); simpl in Hr |- *; congruence.
Qed.

Lemma fmap_of_sim (s s' : list BackboneNode) :
  sim s s' -> stripOffsets <$> s = stripOffsets <$> s'.
Proof.
  intros [Hlen H]. apply list_eq. intros r. rewrite !list_lookup_fmap.
  specialize (H r). unfold deref in H. rewrite !list_lookup_total_alt in H.
  destruct (s !! r) eqn:E, (s' !! r) eqn:E'; simpl in *; try congruence.
  - apply lookup_lt_Some in E. apply lookup_ge_None in E'. lia.
  - apply lookup_lt_Some in E'. apply lookup_ge_None in E. lia.
Qed.

Lemma cons_eq_inv {A} (x y : A) (l l' : list A) : x :: l = y :: l' -> x = y /\ l = l'.
Proof. intros H. now injection H. Qed.

Lemma strip_id n n' : stripOffsets n = stripOffsets n' -> bn_id n = bn_id n'.
Proof. intros H. exact (f_equal bn_id H). Qed.

Lemma computeNodeEnvelope_reads node node' style :
  bn_width node = bn_width node' -> bn_height node = bn_height node' ->
  bn_attributes node = bn_attributes node' ->
  computeNodeEnvelope node style = computeNodeEnvelope node' style.
Proof. intros Hw Hh Ha. unfold computeNodeEnvelope. now rewrite Hw, Hh, Ha. Qed.

Lemma entityNode_strip style o o' e :
  sameButOffsets (o !! ent_id e) (o' !! ent_id e) ->
  stripOffsets (entityNode style o e) = stripOffsets (entityNode style o' e).
Proof.
  unfold sameButOffsets. intros H. unfold entityNode.
  set (s := normalizeNodeStyle (o !! ent_id e)) in *.
  set (s' := normalizeNodeStyle (o' !! ent_id e)) in *.
  pose proof (f_equal scale H) as Hs. cbn [zeroOffsets scale] in Hs.
  cbv zeta. rewrite Hs. unfold stripOffsets, assignEnvelope. cbn -[computeNodeEnvelope zeroOffsets].
  rewrite H. f_equal; apply f_equal; now apply computeNodeEnvelope_reads.
Qed.

Lemma relationshipNode_strip style o o' r :
  sameButOffsets (o !! rel_id r) (o' !! rel_id r) ->
  stripOffsets (relationshipNode style o r) = stripOffsets (relationshipNode style o' r).
Proof.
  unfold sameButOffsets. intros H. unfold relationshipNode.
  set (s := normalizeNodeStyle (o !! rel_id r)) in *.
  set (s' := normalizeNodeStyle (o' !! rel_id r)) in *.
  pose proof (f_equal scale H) as Hs. cbn [zeroOffsets scale] in Hs.
  cbv zeta. rewrite Hs. unfold stripOffsets, assignEnvelope. cbn -[computeNodeEnvelope zeroOffsets].
  rewrite H. f_equal; apply f_equal; now apply computeNodeEnvelope_reads.
Qed.

Lemma modelNodes_strip model style o o' :
  (forall id, sameButOffsets (o !! id) (o' !! id)) ->
  stripOffsets <$> modelNodes model style o = stripOffsets <$> modelNodes model style o'.
Proof.
  intros H. unfold modelNodes. rewrite !fmap_app, <- 4!list_fmap_compose. f_equal.
  - apply list_fmap_ext. intros i e _. apply entityNode_strip, H.
  - apply list_fmap_ext. intros i r _. apply relationshipNode_strip, H.
Qed.

(** The first two loops of the layout, as one pass over the nodes. *)
Lemma buildNodes_pushes model style o :
  buildNodes model style o = fold_left pushNode (modelNodes model style o) ([], ∅, ∅).
Proof.
  unfold buildNodes, modelNodes. rewrite fold_left_app.
  assert (Hf : forall {A} (mk : A -> BackboneNode) (l : list A)
                 (g : list BackboneNode * gmap string nat * gmap string (list string)),
             fold_left (fun g a => pushNode g (mk a)) l g = fold_left pushNode (mk <$> l) g).
  { intros A mk l. induction l as [|a l IH]; intros g; [reflexivity|]. apply IH. }
  now rewrite (Hf _ (entityNode style o)), (Hf _ (relationshipNode style o)).
Qed.

Lemma pushNodes_strip (l l' : list BackboneNode) :
  stripOffsets <$> l = stripOffsets <$> l' ->
  forall g g' : list BackboneNode * gmap string nat * gmap string (list string),
    length g.1.1 = length g'.1.1 -> g.1.2 = g'.1.2 -> g.2 = g'.2 ->
    (fold_left pushNode l g).1.2 = (fold_left pushNode l' g').1.2
    /\ (fold_left pushNode l g).2 = (fold_left pushNode l' g').2.
Proof.
  revert l'. induction l as [|n l IH]; intros [|n' l'] H g g' Hlen Hm Ha;
    try discriminate; cbn [fold_left].
  - now split.
  - rewrite !fmap_cons in H. apply cons_eq_inv in H as [Hn Hl]. apply (IH l' Hl).
    + destruct g as [[s m] a], g' as [[s' m'] a']. simpl in *.
      rewrite !length_app. simpl. lia.
    + destruct g as [[s m] a], g' as [[s' m'] a']. simpl in *.
      now rewrite (strip_id n n' Hn), Hlen, Hm.
    + destruct g as [[s m] a], g' as [[s' m'] a']. simpl in *.
      now rewrite (strip_id n n' Hn), Ha.
Qed.

Lemma getById_sim s s' (nodeById : gmap string nat) id :
  sim s s' -> bn_id <$> getById s nodeById id = bn_id <$> getById s' nodeById id.
Proof.
  intros H. pose proof (fmap_of_sim s s' H) as Hf. unfold getById.
  destruct (nodeById !! id) as [r|]; [|reflexivity]. cbn [mbind option_bind].
  pose proof (f_equal (fun l => bn_id <$> l !! r) Hf) as Hr. cbn beta in Hr.
  rewrite !list_lookup_fmap in Hr.
  destruct (s !! r), (s' !! r); simpl in Hr |- *; congruence.
Qed.

Lemma linkEndpoint_sim s s' (nodeById : gmap string nat) relNode relNode' acc endpoint :
  sim s s' -> bn_id relNode = bn_id relNode' ->
  linkEndpoint s nodeById relNode acc endpoint
  = linkEndpoint s' nodeById relNode' acc endpoint.
Proof.
  intros H Hid. unfold linkEndpoint. destruct acc as [adjacency edges].
  pose proof (getById_sim s s' nodeById (entityId endpoint) H) as He.
  destruct (getById s nodeById (entityId endpoint)) as [n|],
           (getById s' nodeById (entityId endpoint)) as [n'|];
    simpl in He; try discriminate; [|reflexivity].
  apply (inj Some) in He. now rewrite He, Hid.
Qed.

Lemma linkRelationship_sim s s' (nodeById : gmap string nat) acc r :
  sim s s' -> linkRelationship s nodeById acc r = linkRelationship s' nodeById acc r.
Proof.
  intros H. unfold linkRelationship.
  pose proof (getById_sim s s' nodeById (rel_id r) H) as He.
  destruct (getById s nodeById (rel_id r)) as [n|],
           (getById s' nodeById (rel_id r)) as [n'|];
    simpl in He; try discriminate; [|reflexivity].
  apply (inj Some) in He. generalize (rel_endpoints r) acc.
  intros l. induction l as [|ep l IH]; intros a; [reflexivity|]. cbn [fold_left].
  rewrite (linkEndpoint_sim s s' nodeById n n' a ep H He). apply IH.
Qed.

Lemma buildEdges_sim model s s' (nodeById : gmap string nat)
    (adjacency : gmap string (list string)) :
  sim s s' ->
  buildEdges model (s, nodeById, adjacency) = buildEdges model (s', nodeById, adjacency).
Proof.
  intros H. unfold buildEdges. generalize (adjacency, @nil EntityRelationshipEdge).
  generalize (relationships model). intros l.
  induction l as [|r l IH]; intros a; [reflexivity|]. cbn [fold_left].
  rewrite (linkRelationship_sim s s' nodeById a r H). apply IH.
Qed.

Lemma byIdOf_ids (nodes : list BackboneNode) :
  byIdOf nodes
  = fold_left (fun (m : gmap string nat) '(r, id) => <[id := r]> m)
      (imap pair (bn_id <$> nodes)) ∅.
Proof.
  induction nodes as [|last nodes IH] using rev_ind; [reflexivity|].
  rewrite byIdOf_snoc, IH, fmap_app, imap_app, fold_left_app. cbn [fmap list_fmap imap fold_left].
  now rewrite length_fmap, Nat.add_0_r.
Qed.

Lemma visitComponents_ids fuel (byId : gmap string nat) adjacency (s s' : list BackboneNode) :
  stripOffsets <$> s = stripOffsets <$> s' ->
  forall acc,
    fold_left (visitComponent fuel byId adjacency) s acc
    = fold_left (visitComponent fuel byId adjacency) s' acc.
Proof.
  revert s'. induction s as [|n s IH]; intros [|n' s'] Hf acc; try discriminate; [reflexivity|].
  rewrite !fmap_cons in Hf. apply cons_eq_inv in Hf as [Hn Hs]. cbn [fold_left].
  replace (visitComponent fuel byId adjacency acc n')
    with (visitComponent fuel byId adjacency acc n).
  - now apply IH.
  - unfold visitComponent. now rewrite (strip_id n n' Hn).
Qed.

Lemma connectedComponents_sim fuel s s' adjacency :
  sim s s' -> connectedComponents fuel s adjacency = connectedComponents fuel s' adjacency.
Proof.
  intros H. pose proof (fmap_of_sim s s' H) as Hf. unfold connectedComponents.
  assert (Hb : byIdOf s = byIdOf s').
  { rewrite !byIdOf_ids. f_equal. f_equal.
    pose proof (f_equal (fmap bn_id) Hf) as Hi. rewrite <- 2!list_fmap_compose in Hi.
    exact Hi. }
  rewrite <- Hb. f_equal. now apply visitComponents_ids.
Qed.

Lemma applyOffsets_sameBase (t t' : list BackboneNode) :
  sim t t' -> Forall2 sameBase (applyOffsets t) (applyOffsets t').
Proof.
  intros H. apply fmap_of_sim in H. unfold applyOffsets. revert t' H.
  induction t as [|n t IH]; intros [|n' t'] H; try discriminate; [constructor|].
  rewrite !fmap_cons in H. apply cons_eq_inv in H as [Hn Ht].
  change (map ?f (?x :: ?l)) with (f x :: map f l).
  constructor; [|now apply IH].
  split.
  - change (stripOffsets (unplaced n) = stripOffsets (unplaced n')).
    change (unplaced (stripOffsets n) = unplaced (stripOffsets n')). now rewrite Hn.
  - exists (bn_x n), (bn_y n). cbn [setX setY bn_x bn_y bn_nodeStyle].
    rewrite (f_equal bn_x Hn : bn_x n = bn_x n'), (f_equal bn_y Hn : bn_y n = bn_y n').
    repeat split; reflexivity.
Qed.

Section OffsetsTheorem.

Variable localeCompare : string -> string -> num.

(** Overrides that differ in the offsets only give layouts that differ in the
    offsets only. *)
Lemma layout_offsets fuel model style o o' layout :
  (forall id, sameButOffsets (o !! id) (o' !! id)) ->
  buildBackboneLayout localeCompare fuel model style o = Some layout ->
  exists layout',
    buildBackboneLayout localeCompare fuel model style o' = Some layout'
    /\ Forall2 sameBase (l_nodes layout) (l_nodes layout')
    /\ l_nodeById layout' = l_nodeById layout
    /\ l_edges layout' = l_edges layout.
Proof.
  intros Ho. unfold buildBackboneLayout.
  pose proof (modelNodes_strip model style o o' Ho) as Hm.
  pose proof (buildNodes_nodes model style o) as Hn.
  pose proof (buildNodes_nodes model style o') as Hn'.
  pose proof (pushNodes_strip _ _ Hm ([], ∅, ∅) ([], ∅, ∅) eq_refl eq_refl eq_refl) as [Hi Ha].
  rewrite <- !buildNodes_pushes in Hi, Ha.
  destruct (buildNodes model style o) as [[s nodeById] adjacency0].
  destruct (buildNodes model style o') as [[s' nodeById'] adjacency0'].
  cbn [fst snd] in Hn, Hn', Hi, Ha. subst nodeById' adjacency0'.
  assert (Hs : sim s s') by (apply sim_of_fmap; now rewrite Hn, Hn').
  rewrite <- (buildEdges_sim model s s' nodeById adjacency0 Hs).
  destruct (buildEdges model (s, nodeById, adjacency0)) as [adjacency edges].
  rewrite <- (connectedComponents_sim fuel s s' adjacency Hs).
  destruct (connectedComponents fuel s adjacency) as [components|]; [|discriminate].
  cbn [mbind option_bind].
  pose proof (layoutComponents_sim localeCompare fuel adjacency style components s s' 0%num Hs)
    as Hl.
  destruct (fold_left _ components (Some (s, 0%num))) as [[t x]|]; [|discriminate].
  destruct (fold_left _ components (Some (s', 0%num))) as [[t' x']|]; [|contradiction].
  destruct Hl as [Ht _]. cbn [mbind option_bind]. intros [= <-].
  eexists. split; [reflexivity|]. cbn [l_nodes l_nodeById l_edges].
  split; [|split; reflexivity]. now apply applyOffsets_sameBase.
Qed.

End OffsetsTheorem.

Lemma modelNode_style model style o node :
  node ∈ modelNodes model style o -> bn_nodeStyle node = normalizeNodeStyle (o !! bn_id node).
Proof.
  unfold modelNodes. rewrite elem_of_app, !list_elem_of_fmap.
  intros [(e & -> & _)|(r & -> & _)]; reflexivity.
Qed.

Lemma layout_node_style localeCompare fuel model style o layout node :
  buildBackboneLayout localeCompare fuel model style o = Some layout ->
  node ∈ l_nodes layout -> bn_nodeStyle node = normalizeNodeStyle (o !! bn_id node).
Proof.
  intros H Hn. destruct (layout_nodes _ _ _ _ _ _ H) as [Hm _].
  change (bn_nodeStyle (unplaced node)
          = normalizeNodeStyle (o !! bn_id (unplaced node))).
  apply (modelNode_style model style). rewrite <- Hm. apply list_elem_of_fmap.
  now exists node.
Qed.

Lemma sameBase_same_style node node' :
  sameBase node node' -> bn_nodeStyle node' = bn_nodeStyle node -> node' = node.
Proof.
  intros (Hs & x & y & Hx & Hy & Hx' & Hy') Hstyle.
  rewrite Hstyle, <- Hx in Hx'. rewrite Hstyle, <- Hy in Hy'.
  destruct node, node'. cbn in *. subst.
  unfold stripOffsets, unplaced in Hs. cbn in Hs.
  injection Hs; intros; subst; reflexivity.
Qed.

Section Offsets.

Variable localeCompare : string -> string -> num.

Lemma layout_offsets_nodes fuel model style o o' layout :
  (forall id, sameButOffsets (o !! id) (o' !! id)) ->
  buildBackboneLayout localeCompare fuel model style o = Some layout ->
  exists layout',
    buildBackboneLayout localeCompare fuel model style o' = Some layout'
    /\ Forall2 (movedByOffsets o o') (l_nodes layout) (l_nodes layout')
    /\ l_nodeById layout' = l_nodeById layout
    /\ l_edges layout' = l_edges layout.
Proof.
  intros Ho H.
  destruct (layout_offsets localeCompare fuel model style o o' layout Ho H)
    as (layout' & H' & Hn & Hi & He).
  exists layout'. split; [assumption|]. split; [|split; assumption].
  apply Forall2_same_length_lookup. split; [eapply Forall2_length; eassumption|].
  intros i node node' Hl Hl'.
  pose proof (Forall2_lookup_lr _ _ _ _ _ _ Hn Hl Hl') as Hb.
  split; [assumption|]. intros Hsame. apply sameBase_same_style; [assumption|].
  rewrite (layout_node_style _ _ _ _ _ _ _ H' (list_elem_of_lookup_2 _ _ _ Hl')),
          (layout_node_style _ _ _ _ _ _ _ H (list_elem_of_lookup_2 _ _ _ Hl)).
  destruct Hb as [Hs _]. pose proof (f_equal bn_id Hs) as Hid. cbn in Hid.
  now rewrite <- Hid, Hsame.
Qed.

(** X15. When two maps of node overrides give every node the same style but
    for its offsets, a layout under the one comes with a layout under the
    other that has the same nodes in the same order, the same index and the
    same edges; each node stands at one base place plus its own offsets in
    both layouts, and a node whose override is the same in both maps is the
    same node.  Offsets move their own node and nothing else. *)
Theorem offsets_only_move_their_node fuel model style o o' layout :
  (forall id, sameButOffsets (o !! id) (o' !! id)) ->
  buildBackboneLayout localeCompare fuel model style o = Some layout ->
  exists layout',
    buildBackboneLayout localeCompare fuel model style o' = Some layout'
    /\ Forall2 (movedByOffsets o o') (l_nodes layout) (l_nodes layout')
    /\ l_nodeById layout' = l_nodeById layout
    /\ l_edges layout' = l_edges layout.
Proof. exact (layout_offsets_nodes fuel model style o o' layout). Qed.

End Offsets.

Lemma usersMoved_sameButOffsets id : sameButOffsets (usersThick !! id) (usersMoved !! id).
Proof.
  unfold usersThick, usersMoved. destruct (decide (id = "users")) as [->|Hne].
  - rewrite !lookup_singleton_eq. reflexivity.
  - rewrite !lookup_singleton_ne by congruence. reflexivity.
Qed.

(** The users and orders model, with users moved by 30 and -20. *)
Lemma offsets_only_move_their_node_witness :
  exists layout layout',
    buildBackboneLayout asciiCompare (modelFuel usersOrders) usersOrders DEFAULT_CHEN_STYLE
      usersThick = Some layout
    /\ buildBackboneLayout asciiCompare (modelFuel usersOrders) usersOrders DEFAULT_CHEN_STYLE
         usersMoved = Some layout'
    /\ Forall2 (movedByOffsets usersThick usersMoved) (l_nodes layout) (l_nodes layout')
    /\ l_nodeById layout' = l_nodeById layout
    /\ l_edges layout' = l_edges layout.
Proof.
  destruct (buildBackboneLayout asciiCompare (modelFuel usersOrders) usersOrders
              DEFAULT_CHEN_STYLE usersThick) as [layout|] eqn:E;
    [|vm_compute in E; discriminate].
  destruct (offsets_only_move_their_node asciiCompare _ _ _ _ _ _
              usersMoved_sameButOffsets E) as (layout' & E' & H).
  exists layout, layout'. split; [reflexivity|]. split; assumption.
Defined.

(** ** The handlers of the workbench *)

Lemma setMarkup_same w : setMarkup (wb_currentSvgMarkup w) w = w.
Proof. now destruct w. Qed.

Lemma drag_sameButOffsets (o : ChenNodeStyleOverrides) targetId x y id :
  let existing := overrideOf o targetId in
  sameButOffsets (o !! id)
    (<[targetId := {| p_scale := p_scale existing; p_offsetX := Some x; p_offsetY := Some y;
                      p_strokeWidth := p_strokeWidth existing; p_fill := p_fill existing;
                      p_textColor := p_textColor existing |}]> o !! id).
Proof.
  cbv zeta. destruct (decide (targetId = id)) as [->|Hne].
  - rewrite lookup_insert_eq. unfold overrideOf. destruct (o !! id); reflexivity.
  - rewrite lookup_insert_ne by assumption. reflexivity.
Qed.

Section WorkbenchProperties.

Variables Math_cos Math_sin : num -> num.
Variable Math_atan2 : num -> num -> num.
Variable localeCompare : string -> string -> num.
Variable fracToString : Q -> string.
Variable fuel : nat.

Local Abbreviation render :=
  (renderChenDiagram Math_cos Math_sin Math_atan2 localeCompare fracToString fuel).
Local Abbreviation renderIf :=
  (renderIfModel Math_cos Math_sin Math_atan2 localeCompare fracToString fuel).
Local Abbreviation drag :=
  (onDragNode Math_cos Math_sin Math_atan2 localeCompare fracToString fuel).
Local Abbreviation handleEvent :=
  (handle Math_cos Math_sin Math_atan2 localeCompare fracToString fuel).
Local Abbreviation shown :=
  (upToDate Math_cos Math_sin Math_atan2 localeCompare fracToString fuel).

(** A render writes the markup and nothing else. *)
Lemma renderChenDiagram_markup w w' :
  render w = Some w' -> exists markup, w' = setMarkup markup w.
Proof.
  unfold renderChenDiagram. destruct (wb_chenModel w) as [model|].
  - destruct (renderChenSvg _ _ _ _ _ _ _ _ _) as [markup|]; [|discriminate].
    intros [= <-]. now exists markup.
  - intros [= <-]. now exists EmptyString.
Qed.

Lemma renderIfModel_markup w w' :
  renderIf w = Some w' -> exists markup, w' = setMarkup markup w.
Proof.
  unfold renderIfModel. destruct (wb_chenModel w) as [model|].
  - apply renderChenDiagram_markup.
  - intros [= <-]. exists (wb_currentSvgMarkup w). symmetry. apply setMarkup_same.
Qed.

(** A render reads nothing of the markup. *)
Lemma renderChenDiagram_setMarkup markup w : render (setMarkup markup w) = render w.
Proof. destruct w. reflexivity. Qed.

(** The markup that a render has written is up to date. *)
Lemma renderChenDiagram_shown w w' : render w = Some w' -> shown w'.
Proof.
  intros H. destruct (renderChenDiagram_markup _ _ H) as [markup ->].
  unfold upToDate. rewrite renderChenDiagram_setMarkup. exact H.
Qed.

Lemma renderIfModel_shown w w' :
  (wb_chenModel w = None -> shown w) -> renderIf w = Some w' -> shown w'.
Proof.
  unfold renderIfModel. destruct (wb_chenModel w) as [model|] eqn:E.
  - intros _ H. eapply renderChenDiagram_shown, H.
  - intros H [= <-]. now apply H.
Qed.

(** Without a model, the state is up to date when nothing is on display. *)
Lemma shown_without_model w :
  wb_chenModel w = None -> (shown w <-> wb_currentSvgMarkup w = EmptyString).
Proof.
  intros E. unfold upToDate, renderChenDiagram. rewrite E. destruct w. cbn in *.
  split; [intros [= ->]|intros ->]; reflexivity.
Qed.

Lemma renderIfModel_keeps w0 w w' :
  wb_chenModel w = wb_chenModel w0 -> wb_currentSvgMarkup w = wb_currentSvgMarkup w0 ->
  shown w0 -> renderIf w = Some w' ->
  shown w' /\ wb_chenModel w' = wb_chenModel w0.
Proof.
  intros Hmodel Hmarkup H0 H. split.
  - apply (renderIfModel_shown w w'); [|exact H]. intros E.
    apply shown_without_model; [exact E|]. rewrite Hmarkup.
    apply shown_without_model; [congruence|exact H0].
  - destruct (renderIfModel_markup _ _ H) as [markup ->]. exact Hmodel.
Qed.

Lemma renderChenDiagram_keeps w0 w w' :
  wb_chenModel w = wb_chenModel w0 -> render w = Some w' ->
  shown w' /\ wb_chenModel w' = wb_chenModel w0.
Proof.
  intros Hmodel H. split.
  - exact (renderChenDiagram_shown w w' H).
  - destruct (renderChenDiagram_markup _ _ H) as [markup ->]. exact Hmodel.
Qed.

(** X17. Whatever the viewer emits, the handler leaves the markup on display
    equal to a render of the model, style, overrides and selection it leaves,
    and it leaves the model as it was. *)
Theorem view_stays_up_to_date e w w' :
  upToDate Math_cos Math_sin Math_atan2 localeCompare fracToString fuel w ->
  handle Math_cos Math_sin Math_atan2 localeCompare fracToString fuel e w = Some w' ->
  upToDate Math_cos Math_sin Math_atan2 localeCompare fracToString fuel w'
  /\ wb_chenModel w' = wb_chenModel w.
Proof.
  intros H0. destruct e as [nextStyle| |nodeMeta| |nextNodeStyle| |payload]; cbn [handle].
  - unfold onChenStyleChange. now apply renderIfModel_keeps.
  - unfold onResetChenStyle. now apply renderIfModel_keeps.
  - unfold onSelectNode. destruct nodeMeta as [meta|]; [|now intros [= <-]].
    destruct (chenStyleEditable w); [|now intros [= <-]].
    destruct (sorOpt (rm_id meta) EmptyString) as [|c id]; [now intros [= <-]|].
    now apply renderChenDiagram_keeps.
  - unfold onClearSelectedNode. destruct (wb_selectedNode w); [|now intros [= <-]].
    now apply renderIfModel_keeps.
  - unfold onNodeStyleChange. destruct (selectedIdOf w); [|now intros [= <-]].
    now apply renderIfModel_keeps.
  - unfold onResetNodeStyle. destruct (selectedIdOf w); [|now intros [= <-]].
    now apply renderIfModel_keeps.
  - unfold onDragNode. destruct payload as [payload|]; [|now intros [= <-]].
    destruct (sorOpt (dp_id payload) EmptyString) as [|c id]; [now intros [= <-]|].
    now apply renderIfModel_keeps.
Qed.

(** What a drag writes into the overrides. *)
Lemma onDragNode_overrides payload w w' :
  drag (Some payload) w = Some w' ->
  let target := sorOpt (dp_id payload) EmptyString in
  (forall id, sameButOffsets (wb_nodeOverrides w !! id) (wb_nodeOverrides w' !! id))
  /\ (forall id, id <> target -> wb_nodeOverrides w' !! id = wb_nodeOverrides w !! id)
  /\ (target <> EmptyString ->
      exists moved,
        wb_nodeOverrides w' !! target = Some moved
        /\ p_offsetX moved = Some (norOpt (dp_offsetX payload))
        /\ p_offsetY moved = Some (norOpt (dp_offsetY payload))).
Proof.
  unfold onDragNode. cbv zeta.
  destruct (sorOpt (dp_id payload) EmptyString) as [|c id] eqn:E.
  - intros [= <-]. split; [|split]; [reflexivity|reflexivity|congruence].
  - intros H. destruct (renderIfModel_markup _ _ H) as [markup ->].
    cbn [setMarkup setSelectedNode setNodeOverrides wb_nodeOverrides]. split; [|split].
    + intros id'. apply drag_sameButOffsets.
    + intros id' Hne. apply lookup_insert_ne. congruence.
    + intros _. eexists. split; [apply lookup_insert_eq|]. split; reflexivity.
Qed.

(** X16. A drag moves the node it names and no other: in the layout of any
    model under the overrides the handler leaves, every node keeps its base
    place, the nodes other than the target are untouched, and the target
    takes the offsets of the payload, each brought between -1400 and 1400. *)
Theorem drag_moves_one_node payload w w' layoutFuel model style layout :
  onDragNode Math_cos Math_sin Math_atan2 localeCompare fracToString fuel (Some payload) w
    = Some w' ->
  buildBackboneLayout localeCompare layoutFuel model style (wb_nodeOverrides w) = Some layout ->
  exists layout',
    buildBackboneLayout localeCompare layoutFuel model style (wb_nodeOverrides w')
      = Some layout'
    /\ Forall2 (draggedBy payload) (l_nodes layout) (l_nodes layout')
    /\ l_edges layout' = l_edges layout.
Proof.
  intros Hd H. destruct (onDragNode_overrides payload w w' Hd) as (Hsame & Hother & Htarget).
  destruct (layout_offsets_nodes localeCompare layoutFuel model style _ _ layout Hsame H)
    as (layout' & H' & Hn & _ & He).
  exists layout'. split; [assumption|]. split; [|assumption].
  apply Forall2_same_length_lookup. split; [eapply Forall2_length; eassumption|].
  intros i node node' Hl Hl'.
  destruct (Forall2_lookup_lr _ _ _ _ _ _ Hn Hl Hl') as [Hb Heq].
  split; [assumption|]. split.
  - intros Hne. apply Heq, Hother, Hne.
  - intros Hid Hnonempty. rewrite <- Hid in Htarget.
    destruct (Htarget Hnonempty) as (moved & Hm & Hx & Hy).
    rewrite (layout_node_style _ _ _ _ _ _ _ H' (list_elem_of_lookup_2 _ _ _ Hl')).
    destruct Hb as [Hs _]. pose proof (f_equal bn_id Hs) as Hid'. cbn in Hid'.
    rewrite <- Hid', Hm. unfold normalizeNodeStyle. cbn [offsetX offsetY].
    rewrite Hx, Hy. split; reflexivity.
Qed.

End WorkbenchProperties.

(** The workbench of the users and orders model, once rendered, and a click
    on users. *)
Lemma view_stays_up_to_date_witness :
  exists w w',
    renderChenDiagram sampleCos sampleSin sampleAtan2 asciiCompare sampleFraction
      (modelFuel usersOrders) usersOrdersBench = Some w
    /\ handle sampleCos sampleSin sampleAtan2 asciiCompare sampleFraction
         (modelFuel usersOrders)
         (SelectNode (Some {| rm_id := Some "users"; rm_type := Some "entity";
                              rm_name := None |})) w = Some w'
    /\ upToDate sampleCos sampleSin sampleAtan2 asciiCompare sampleFraction
         (modelFuel usersOrders) w'
    /\ wb_chenModel w' = wb_chenModel w.
Proof.
  eexists. eexists. split; [vm_compute; reflexivity|]. split; [vm_compute; reflexivity|].
  apply (view_stays_up_to_date sampleCos sampleSin sampleAtan2 asciiCompare sampleFraction
           (modelFuel usersOrders)
           (SelectNode (Some {| rm_id := Some "users"; rm_type := Some "entity";
                                rm_name := None |}))).
  - eapply renderChenDiagram_shown with (w := usersOrdersBench). vm_compute. reflexivity.
  - vm_compute. reflexivity.
Defined.

(** The drag of users by 30 and -20 on the workbench of the users and orders
    model. *)
Lemma drag_moves_one_node_witness :
  exists w' layout,
    onDragNode sampleCos sampleSin sampleAtan2 asciiCompare sampleFraction
      (modelFuel usersOrders) (Some dragUsers) usersOrdersBench = Some w'
    /\ buildBackboneLayout asciiCompare (modelFuel usersOrders) usersOrders DEFAULT_CHEN_STYLE
         usersThick = Some layout
    /\ exists layout',
         buildBackboneLayout asciiCompare (modelFuel usersOrders) usersOrders
           DEFAULT_CHEN_STYLE (wb_nodeOverrides w') = Some layout'
         /\ Forall2 (draggedBy dragUsers) (l_nodes layout) (l_nodes layout')
         /\ l_edges layout' = l_edges layout.
Proof.
  eexists. eexists. split; [vm_compute; reflexivity|].
  split; [vm_compute; reflexivity|].
  apply (drag_moves_one_node sampleCos sampleSin sampleAtan2 asciiCompare sampleFraction
           (modelFuel usersOrders) dragUsers usersOrdersBench);
    vm_compute; reflexivity.
Defined.

(** ** The sliders of the style panel *)

Lemma in_range_eqb lo hi v :
  lo ⊑ v -> v ⊑ hi -> (lo <=? v)%num && (v <=? hi)%num = true.
Proof.
  destruct lo as [| |lo|], v as [| |v|], hi as [| |hi|]; cbn; try tauto.
  intros H1 H2. unfold nleb. apply andb_true_intro. split; now apply Qle_bool_iff.
Qed.

Lemma clamp_in_range lo hi lo' hi' v :
  lo ⊑ lo' -> hi' ⊑ hi -> lo' ⊑ v -> v ⊑ hi' -> num_eqb (clamp lo hi v) v = true.
Proof.
  intros Hlo Hhi H1 H2.
  assert (Hv : lo ⊑ v /\ v ⊑ hi) by (split; eapply fle_trans; eassumption).
  assert (Hle : lo ⊑ hi) by (eapply fle_trans; apply Hv).
  pose proof (clamp_clampedTo lo hi v Hle) as Hc. unfold clampedTo in Hc.
  destruct v as [| |v|]; try (destruct lo; contradiction).
  destruct Hc as (_ & _ & Hc). apply Hc. now apply in_range_eqb.
Qed.

Lemma selectedIdOf_Some w id :
  selectedIdOf w = Some id ->
  exists node, wb_selectedNode w = Some node /\ nm_id node = id /\ id <> EmptyString.
Proof.
  unfold selectedIdOf. destruct (wb_selectedNode w) as [node|]; [|discriminate].
  destruct (nm_id node) as [|a s] eqn:E; [discriminate|]. intros [= <-].
  exists node. split; [reflexivity|]. split; [assumption|discriminate].
Qed.

Lemma overrideOf_insert (o : gmap string PartialChenNodeStyle) id x :
  overrideOf (<[id := x]> o) id = x.
Proof. unfold overrideOf. now rewrite lookup_insert_eq. Qed.

Lemma selectedNodeStyle_setMarkup markup w :
  selectedNodeStyle (setMarkup markup w) = selectedNodeStyle w.
Proof. reflexivity. Qed.

Lemma nodeControls_cases c :
  c ∈ nodeControls ->
  (c_key c = "scale" /\ c_min c = 0.6%num /\ c_max c = 2.8%num)
  \/ (c_key c = "strokeWidth" /\ c_min c = 0%num /\ c_max c = 10%num)
  \/ (c_key c = "offsetX" /\ c_min c = (-1000)%num /\ c_max c = 1000%num)
  \/ (c_key c = "offsetY" /\ c_min c = (-1000)%num /\ c_max c = 1000%num).
Proof.
  unfold nodeControls. rewrite !elem_of_cons, elem_of_nil.
  intros [->|[->|[->|[->|[]]]]]; cbn; tauto.
Qed.

Section Panel.

Variables Math_cos Math_sin : num -> num.
Variable Math_atan2 : num -> num -> num.
Variable localeCompare : string -> string -> num.
Variable fracToString : Q -> string.
Variable fuel : nat.

Local Abbreviation handleEvent :=
  (handle Math_cos Math_sin Math_atan2 localeCompare fracToString fuel).

Lemma onNodeStyleChange_state nextNodeStyle w w' id :
  selectedIdOf w = Some id ->
  handleEvent (UpdateNodeStyle nextNodeStyle) w = Some w' ->
  exists markup,
    w' = setMarkup markup
           (setNodeOverrides
              (<[id := spreadNodeStyle (overrideOf (wb_nodeOverrides w) id) nextNodeStyle]>
                 (wb_nodeOverrides w)) w).
Proof.
  intros Hsel. cbn [handle]. unfold onNodeStyleChange. rewrite Hsel. cbv zeta.
  apply renderIfModel_markup.
Qed.

Lemma onResetNodeStyle_state w w' id :
  selectedIdOf w = Some id ->
  handleEvent ResetNodeStyle w = Some w' ->
  exists markup,
    w' = setMarkup markup (setNodeOverrides (delete id (wb_nodeOverrides w)) w).
Proof.
  intros Hsel. cbn [handle]. unfold onResetNodeStyle. rewrite Hsel.
  apply renderIfModel_markup.
Qed.

(** X18. A slider of the node panel, moved to a value of its range while a
    node is selected, sets that field of the node: the panel shows the value,
    the node is drawn with it unclamped, the other fields and the colours of
    the node stay as they were, and so do the overrides of the other nodes. *)
Theorem slider_sets_one_field c v w w' id :
  c ∈ nodeControls -> c_min c ⊑ v -> v ⊑ c_max c ->
  selectedIdOf w = Some id ->
  handle Math_cos Math_sin Math_atan2 localeCompare fracToString fuel
    (UpdateNodeStyle (updateNodeField (c_key c) v)) w = Some w' ->
  nodeStyleField (c_key c) (activeNodeStyle (Some (selectedNodeStyle w'))) = Some v
  /\ (exists drawn,
        nodeStyleField (c_key c) (normalizeNodeStyle (wb_nodeOverrides w' !! id)) = Some drawn
        /\ num_eqb drawn v = true)
  /\ (forall key, key <> c_key c ->
        nodeStyleField key (selectedNodeStyle w') = nodeStyleField key (selectedNodeStyle w))
  /\ fill (selectedNodeStyle w') = fill (selectedNodeStyle w)
  /\ textColor (selectedNodeStyle w') = textColor (selectedNodeStyle w)
  /\ (forall id', id' <> id -> wb_nodeOverrides w' !! id' = wb_nodeOverrides w !! id').
Proof.
  intros Hc Hlo Hhi Hsel H.
  destruct (onNodeStyleChange_state _ w w' id Hsel H) as [markup ->].
  destruct (selectedIdOf_Some w id Hsel) as (node & Hnode & Hid & _).
  rewrite selectedNodeStyle_setMarkup. unfold selectedNodeStyle.
  cbn [setMarkup setNodeOverrides wb_selectedNode wb_nodeOverrides activeNodeStyle].
  rewrite Hnode, Hid. rewrite !overrideOf_insert, lookup_insert_eq.
  set (existing := overrideOf (wb_nodeOverrides w) id).
  destruct (nodeControls_cases c Hc) as [(-> & Emin & Emax)|[(-> & Emin & Emax)|
                                         [(-> & Emin & Emax)|(-> & Emin & Emax)]]];
    rewrite Emin in Hlo; rewrite Emax in Hhi;
    (split; [reflexivity|]);
    (split; [eexists; split; [reflexivity|];
             cbn [normalizeNodeStyle scale offsetX offsetY strokeWidth
                  spreadNodeStyle updateNodeField String.eqb Ascii.eqb Bool.eqb
                  p_scale p_offsetX p_offsetY p_strokeWidth nullish]; unfold Number;
             eapply clamp_in_range; [| |exact Hlo|exact Hhi]; vm_compute; discriminate|]);
    (split; [intros key Hne; unfold nodeStyleField;
             destruct (String.eqb_spec key "scale") as [->|_];
               [try congruence; reflexivity|];
             destruct (String.eqb_spec key "strokeWidth") as [->|_];
               [try congruence; reflexivity|];
             destruct (String.eqb_spec key "offsetX") as [->|_];
               [try congruence; reflexivity|];
             destruct (String.eqb_spec key "offsetY") as [->|_];
               [try congruence; reflexivity|]; reflexivity|]);
    (split; [reflexivity|]); (split; [reflexivity|]);
    intros id' Hne'; apply lookup_insert_ne; congruence.
Qed.

End Panel.

Lemma normalizeNodeStyle_None : normalizeNodeStyle None = DEFAULT_CHEN_NODE_STYLE.
Proof. reflexivity. Qed.

Section Reset.

Variables Math_cos Math_sin : num -> num.
Variable Math_atan2 : num -> num -> num.
Variable localeCompare : string -> string -> num.
Variable fracToString : Q -> string.
Variable fuel : nat.

(** X19. The reset of the node panel drops the override of the selected node
    and no other: the panel shows the default node style again, every layout
    made from then on gives that node the default style, offsets of zero
    included, and the overrides of the other nodes stay as they were. *)
Theorem reset_restores_defaults w w' id :
  selectedIdOf w = Some id ->
  handle Math_cos Math_sin Math_atan2 localeCompare fracToString fuel ResetNodeStyle w
    = Some w' ->
  wb_nodeOverrides w' !! id = None
  /\ (forall id', id' <> id -> wb_nodeOverrides w' !! id' = wb_nodeOverrides w !! id')
  /\ activeNodeStyle (Some (selectedNodeStyle w')) = DEFAULT_CHEN_NODE_STYLE
  /\ (forall layoutFuel model style layout node,
        buildBackboneLayout localeCompare layoutFuel model style (wb_nodeOverrides w')
          = Some layout ->
        node ∈ l_nodes layout -> bn_id node = id ->
        bn_nodeStyle node = DEFAULT_CHEN_NODE_STYLE).
Proof.
  intros Hsel H.
  destruct (onResetNodeStyle_state _ _ _ _ _ _ w w' id Hsel H) as [markup ->].
  destruct (selectedIdOf_Some w id Hsel) as (node & Hnode & Hid & _).
  cbn [setMarkup setNodeOverrides wb_nodeOverrides].
  assert (Hdel : delete id (wb_nodeOverrides w) !! id = None) by apply lookup_delete_eq.
  split; [exact Hdel|]. split; [intros id' Hne; now apply lookup_delete_ne|]. split.
  - rewrite selectedNodeStyle_setMarkup. unfold selectedNodeStyle.
    cbn [setNodeOverrides wb_selectedNode wb_nodeOverrides activeNodeStyle].
    rewrite Hnode, Hid. unfold overrideOf. rewrite Hdel. reflexivity.
  - intros layoutFuel model style layout n Hl Hn Hn'.
    rewrite (layout_node_style _ _ _ _ _ _ _ Hl Hn), Hn', Hdel. reflexivity.
Qed.

End Reset.

(** The stroke slider moved to 2.4 with users selected. *)
Lemma slider_sets_one_field_witness :
  exists w',
    handle sampleCos sampleSin sampleAtan2 asciiCompare sampleFraction
      (modelFuel usersOrders)
      (UpdateNodeStyle (updateNodeField (c_key strokeControl) 2.4%num)) usersSelected = Some w'
    /\ nodeStyleField (c_key strokeControl) (activeNodeStyle (Some (selectedNodeStyle w')))
       = Some 2.4%num
    /\ (exists drawn,
          nodeStyleField (c_key strokeControl)
            (normalizeNodeStyle (wb_nodeOverrides w' !! "users")) = Some drawn
          /\ num_eqb drawn 2.4%num = true)
    /\ (forall key, key <> c_key strokeControl ->
          nodeStyleField key (selectedNodeStyle w')
          = nodeStyleField key (selectedNodeStyle usersSelected))
    /\ fill (selectedNodeStyle w') = fill (selectedNodeStyle usersSelected)
    /\ textColor (selectedNodeStyle w') = textColor (selectedNodeStyle usersSelected)
    /\ (forall id', id' <> "users" ->
          wb_nodeOverrides w' !! id' = wb_nodeOverrides usersSelected !! id').
Proof.
  eexists. split; [vm_compute; reflexivity|].
  apply (slider_sets_one_field sampleCos sampleSin sampleAtan2 asciiCompare sampleFraction
           (modelFuel usersOrders) strokeControl 2.4%num usersSelected).
  - unfold nodeControls. apply list_elem_of_further, list_elem_of_here.
  - vm_compute. discriminate.
  - vm_compute. discriminate.
  - reflexivity.
  - vm_compute. reflexivity.
Defined.

(** The reset of the node panel with users selected. *)
Lemma reset_restores_defaults_witness :
  exists w',
    handle sampleCos sampleSin sampleAtan2 asciiCompare sampleFraction
      (modelFuel usersOrders) ResetNodeStyle usersSelected = Some w'
    /\ wb_nodeOverrides w' !! "users" = None
    /\ (forall id', id' <> "users" ->
          wb_nodeOverrides w' !! id' = wb_nodeOverrides usersSelected !! id')
    /\ activeNodeStyle (Some (selectedNodeStyle w')) = DEFAULT_CHEN_NODE_STYLE
    /\ (forall layoutFuel model style layout node,
          buildBackboneLayout asciiCompare layoutFuel model style (wb_nodeOverrides w')
            = Some layout ->
          node ∈ l_nodes layout -> bn_id node = "users" ->
          bn_nodeStyle node = DEFAULT_CHEN_NODE_STYLE).
Proof.
  eexists. split; [vm_compute; reflexivity|].
  apply (reset_restores_defaults sampleCos sampleSin sampleAtan2 asciiCompare sampleFraction
           (modelFuel usersOrders) usersSelected).
  - reflexivity.
  - vm_compute. reflexivity.
Defined.

Lemma controls_cases c :
  c ∈ controls ->
  (c_key c = "entityScale" /\ c_min c = 0.7%num)
  \/ (c_key c = "relationScale" /\ c_min c = 0.7%num)
  \/ (c_key c = "ellipseScale" /\ c_min c = 0.7%num)
  \/ (c_key c = "hGap" /\ c_min c = 120%num)
  \/ (c_key c = "vGap" /\ c_min c = 80%num)
  \/ (c_key c = "lineWidth" /\ c_min c = 1.2%num)
  \/ (c_key c = "fontScale" /\ c_min c = 0.7%num).
Proof.
  unfold controls. rewrite !elem_of_cons, elem_of_nil.
  intros [->|[->|[->|[->|[->|[->|[->|[]]]]]]]]; cbn; tauto.
Qed.

Lemma nor_positive lo v fallback : (0 < lo)%Q -> Fin lo ⊑ v -> nor v fallback = v.
Proof.
  destruct v as [| |v|]; cbn; try tauto. intros Hlo Hv. unfold nor, truthy.
  destruct (Qeq_bool v 0) eqn:E; [|reflexivity].
  apply Qeq_bool_iff in E. rewrite E in Hv. lra.
Qed.

Section GlobalPanel.

Variables Math_cos Math_sin : num -> num.
Variable Math_atan2 : num -> num -> num.
Variable localeCompare : string -> string -> num.
Variable fracToString : Q -> string.
Variable fuel : nat.

(** X21. A slider of the global panel, moved to a value at or above its
    minimum, sets that field of the style the diagram is drawn with and no
    other; the two gap sliders set the margins of the layout themselves, so
    the fallback margins of 260 and 170 are out of reach of the panel. *)
Theorem global_slider_sets_one_field c v w w' :
  c ∈ controls -> c_min c ⊑ v ->
  handle Math_cos Math_sin Math_atan2 localeCompare fracToString fuel
    (UpdateChenStyle (updateField (c_key c) v (wb_chenStyle w))) w = Some w' ->
  let drawn := normalizeStyle (wb_chenStyle w') in
  drawnField (c_key c) drawn = Some v
  /\ (forall key, key <> c_key c ->
        drawnField key drawn = drawnField key (normalizeStyle (wb_chenStyle w)))
  /\ (c_key c = "hGap" -> H_MARGIN drawn = v)
  /\ (c_key c = "vGap" -> V_MARGIN drawn = v).
Proof.
  intros Hc Hlo H. cbn [handle] in H. unfold onChenStyleChange in H.
  destruct (renderIfModel_markup _ _ _ _ _ _ _ _ H) as [markup ->].
  cbn [setMarkup setChenStyle wb_chenStyle]. cbv zeta.
  destruct (controls_cases c Hc) as [(-> & Emin)|[(-> & Emin)|[(-> & Emin)|[(-> & Emin)|
                                     [(-> & Emin)|[(-> & Emin)|(-> & Emin)]]]]]];
    rewrite Emin in Hlo;
    (split; [reflexivity|]);
    (split; [intros key Hne; unfold drawnField, styleField;
             destruct (String.eqb_spec key "entityScale") as [->|_];
               [try congruence; reflexivity|];
             destruct (String.eqb_spec key "relationScale") as [->|_];
               [try congruence; reflexivity|];
             destruct (String.eqb_spec key "ellipseScale") as [->|_];
               [try congruence; reflexivity|];
             destruct (String.eqb_spec key "hGap") as [->|_];
               [try congruence; reflexivity|];
             destruct (String.eqb_spec key "vGap") as [->|_];
               [try congruence; reflexivity|];
             destruct (String.eqb_spec key "lineWidth") as [->|_];
               [try congruence; reflexivity|];
             destruct (String.eqb_spec key "fontScale") as [->|_];
               [try congruence; reflexivity|]; reflexivity|]);
    (split; intros Hk; try discriminate Hk);
    unfold H_MARGIN, V_MARGIN;
    cbn [normalizeStyle updateField hGap vGap p_hGap p_vGap String.eqb Ascii.eqb Bool.eqb
         nullish]; unfold Number;
    (eapply nor_positive; [|exact Hlo]); reflexivity.
Qed.

End GlobalPanel.

(** The horizontal gap slider moved to 300 on the workbench of the users and
    orders model. *)
Lemma global_slider_sets_one_field_witness :
  exists w',
    handle sampleCos sampleSin sampleAtan2 asciiCompare sampleFraction
      (modelFuel usersOrders)
      (UpdateChenStyle (updateField (c_key hGapControl) 300%num (wb_chenStyle usersSelected)))
      usersSelected = Some w'
    /\ let drawn := normalizeStyle (wb_chenStyle w') in
       drawnField (c_key hGapControl) drawn = Some 300%num
       /\ (forall key, key <> c_key hGapControl ->
             drawnField key drawn
             = drawnField key (normalizeStyle (wb_chenStyle usersSelected)))
       /\ (c_key hGapControl = "hGap" -> H_MARGIN drawn = 300%num)
       /\ (c_key hGapControl = "vGap" -> V_MARGIN drawn = 300%num).
Proof.
  eexists. split; [vm_compute; reflexivity|].
  apply (global_slider_sets_one_field sampleCos sampleSin sampleAtan2 asciiCompare
           sampleFraction (modelFuel usersOrders) hGapControl 300%num usersSelected).
  - unfold controls. do 3 apply list_elem_of_further. apply list_elem_of_here.
  - vm_compute. discriminate.
  - vm_compute. reflexivity.
Defined.

(** ** The application shell *)

Lemma shellStep_view a e :
  let a' := shellStep a e in resolveView (app_pathname a') = app_currentView a'.
Proof.
  destruct e as [| |pathname]; cbn [shellStep]; [| |reflexivity].
  - unfold openEr, navigateTo. cbn [String.eqb Ascii.eqb Bool.eqb andb].
    destruct (String.eqb_spec (app_pathname a) "/er") as [E|_]; cbn [negb app_pathname app_currentView];
      [now rewrite E|reflexivity].
  - unfold backToChat, navigateTo. cbn [String.eqb Ascii.eqb Bool.eqb andb].
    destruct (String.eqb_spec (app_pathname a) "/") as [E|_]; cbn [negb app_pathname app_currentView];
      [now rewrite E|reflexivity].
Qed.

(** X20. From the set-up of the shell on, through any clicks on its two
    buttons and any moves in the history, the view on display is the one the
    path of the location resolves to; and a click pushes an entry on the
    history only when it changes the path, so a second click on the same
    button pushes nothing. *)
Theorem view_follows_path pathname (events : list ShellEvent) :
  let a := fold_left shellStep events (mountApp pathname) in
  resolveView (app_pathname a) = app_currentView a
  /\ openEr (openEr a) = openEr a
  /\ backToChat (backToChat a) = backToChat a
  /\ (app_pathname (openEr a) = app_pathname a -> app_pushed (openEr a) = app_pushed a)
  /\ (app_pathname (backToChat a) = app_pathname a ->
      app_pushed (backToChat a) = app_pushed a).
Proof.
  cbv zeta. split.
  - induction events as [|e events IH] using rev_ind; [reflexivity|].
    rewrite fold_left_app. cbn [fold_left]. apply shellStep_view.
  - generalize (fold_left shellStep events (mountApp pathname)). intros a.
    unfold openEr, backToChat, navigateTo. cbn [String.eqb Ascii.eqb Bool.eqb andb].
    destruct (String.eqb_spec (app_pathname a) "/er") as [E1|N1],
             (String.eqb_spec (app_pathname a) "/") as [E2|N2];
      cbn [negb app_pathname app_pushed app_currentView String.eqb Ascii.eqb Bool.eqb andb];
      try rewrite E1; try rewrite E2; cbn; repeat split; congruence.
Qed.

(** ** Attribute ellipses avoid what is placed *)

Lemma existsb_false {A} (f : A -> bool) (l : list A) :
  existsb f l = false <-> forall x, x ∈ l -> f x = false.
Proof.
  induction l as [|a l IH]; cbn [existsb].
  - split; [intros _ x Hx; now apply elem_of_nil in Hx|reflexivity].
  - rewrite orb_false_iff, IH. split.
    + intros [Ha Hl] x Hx. apply elem_of_cons in Hx as [->|Hx]; auto.
    + intros H. split; [apply H; left|intros x Hx; apply H; now right].
Qed.

Section Refine.

Variables Math_cos Math_sin : num -> num.
Variable Math_atan2 : num -> num -> num.

(** A spot on the circle of its angle and distance around the node. *)
Let onCircle (node : BackboneNode) (s : Spot) : Prop :=
  sp_x s = (bn_x node + Math_cos (sp_angle s) * sp_dist s)%num
  /\ sp_y s = (bn_y node + Math_sin (sp_angle s) * sp_dist s)%num.

Lemma refineSpot_spec style nodes placedNodes node size :
  forall steps s,
    onCircle node s ->
    let r := refineSpot Math_cos Math_sin steps style nodes placedNodes node size s in
    onCircle node r
    /\ (spotHit nodes placedNodes node size r = false
        \/ sp_dist r = pushedOut style (length steps) (sp_dist s))
    /\ (spotHit nodes placedNodes node size s = false -> r = s).
Proof.
  induction steps as [|step steps IH]; intros s Hs; cbn [refineSpot length].
  - split; [assumption|]. split; [now right|reflexivity].
  - destruct (spotHit nodes placedNodes node size s) eqn:E.
    + cbv zeta.
      match goal with |- context [refineSpot _ _ _ _ _ _ _ _ ?s'] =>
        destruct (IH s') as (H1 & H2 & _); [split; reflexivity|] end.
      split; [assumption|]. split; [|discriminate].
      destruct H2 as [H2|H2]; [now left|right].
      rewrite H2. cbn [sp_dist]. unfold pushedOut. now rewrite Nat.iter_succ_r.
    + split; [assumption|]. split; [now left|reflexivity].
Qed.

(** X22. The ellipse of an attribute lies on a circle around its node.  It
    is clear of every other backbone node and of every ellipse placed before
    it, unless it has been pushed outwards 18 times; and when its planned spot
    is clear, it is left there. *)
Theorem attribute_avoids_overlap style nodes node plannedAngles count
    attributeNodes attributeEdges idx attr :
  let size := nodeSizeForAttribute (attr_name attr) (attr_isPrimary attr) style in
  let angle :=
    (plannedAngles !! idx) ?? (nneg Math_PI / 2 + (ofNat idx * Math_PI * 2) / ofNat count)%num in
  let dist := (bn_orbitRadius node + as_rx size * 0.16)%num in
  let result :=
    placeAttribute Math_cos Math_sin style nodes node plannedAngles count
      (attributeNodes, attributeEdges) (idx, attr) in
  exists placed finalAngle finalDist,
    result.1 = attributeNodes ++ [placed]
    /\ an_id placed = attr_id attr /\ an_parentId placed = bn_id node
    /\ an_rx placed = as_rx size /\ an_ry placed = as_ry size
    /\ an_x placed = (bn_x node + Math_cos finalAngle * finalDist)%num
    /\ an_y placed = (bn_y node + Math_sin finalAngle * finalDist)%num
    /\ (clearOf nodes attributeNodes node placed \/ finalDist = pushedOut style 18 dist)
    /\ (clearOf nodes attributeNodes node
          {| an_id := attr_id attr; an_parentId := bn_id node;
             an_x := (bn_x node + Math_cos angle * dist)%num;
             an_y := (bn_y node + Math_sin angle * dist)%num;
             an_rx := as_rx size; an_ry := as_ry size;
             an_label := as_label size; an_isPrimary := attr_isPrimary attr |} ->
        finalAngle = angle /\ finalDist = dist).
Proof.
  cbv zeta. cbn [placeAttribute fst].
  set (size := nodeSizeForAttribute (attr_name attr) (attr_isPrimary attr) style).
  set (angle := (plannedAngles !! idx) ?? _).
  set (dist := (bn_orbitRadius node + as_rx size * 0.16)%num).
  set (start := {| sp_angle := angle; sp_dist := dist;
                   sp_x := (bn_x node + Math_cos angle * dist)%num;
                   sp_y := (bn_y node + Math_sin angle * dist)%num |}).
  assert (Hclear : forall s,
             spotHit nodes attributeNodes node size s = false <->
             clearOf nodes attributeNodes node
               {| an_id := attr_id attr; an_parentId := bn_id node;
                  an_x := sp_x s; an_y := sp_y s;
                  an_rx := as_rx size; an_ry := as_ry size;
                  an_label := as_label size; an_isPrimary := attr_isPrimary attr |}).
  { intros s. unfold spotHit, clearOf. cbn [an_x an_y an_rx an_ry].
    rewrite orb_false_iff, !existsb_false. split; intros [H1 H2]; (split; [|exact H2]).
    - intros other Ho Hne. specialize (H1 other Ho).
      apply andb_false_iff in H1 as [H1|H1]; [|exact H1].
      apply negb_false_iff, String.eqb_eq in H1. contradiction.
    - intros other Ho. destruct (String.eqb_spec (bn_id other) (bn_id node)) as [E|Hne];
        [reflexivity|]. cbn [negb andb]. now apply H1. }
  destruct (refineSpot_spec style nodes attributeNodes node size (seq 0 18) start)
    as ((Hx & Hy) & Hfree & Hstay); [split; reflexivity|].
  set (r := refineSpot Math_cos Math_sin (seq 0 18) style nodes attributeNodes node size start)
    in *.
  eexists. exists (sp_angle r), (sp_dist r).
  split; [reflexivity|]. cbn [an_id an_parentId an_rx an_ry an_x an_y].
  repeat (split; [first [reflexivity|assumption]|]). split.
  - destruct Hfree as [Hfree|Hfree]; [left; now apply Hclear|right; exact Hfree].
  - intros Hc. apply (Hclear start) in Hc. rewrite (Hstay Hc). split; reflexivity.
Qed.

End Refine.

(** ** Components are the connected classes *)

Lemma visitNeighbors_spec ns :
  forall (visited : gset string) (queue : list string),
  exists added,
    (visitNeighbors ns visited queue).2 = queue ++ added
    /\ (visitNeighbors ns visited queue).1 = list_to_set added ∪ visited
    /\ (forall n, n ∈ added -> n ∈ ns /\ n ∉ visited)
    /\ (forall n, n ∈ ns -> n ∈ (visitNeighbors ns visited queue).1).
Proof.
  unfold visitNeighbors.
  induction ns as [|n ns IH]; intros visited queue; cbn [fold_left].
  - exists []. rewrite app_nil_r. cbn [fst snd]. repeat split; set_solver.
  - case_bool_decide as Hv.
    + destruct (IH visited queue) as (added & Hq & Hvis & Hnew & Hall).
      exists added. repeat split; auto.
      * right. now apply Hnew.
      * now apply Hnew.
      * intros m Hm. apply elem_of_cons in Hm as [->|Hm]; [|auto].
        rewrite Hvis. set_solver.
    + destruct (IH ({[n]} ∪ visited) (queue ++ [n])) as (added & Hq & Hvis & Hnew & Hall).
      exists (n :: added). rewrite Hq, Hvis, <- app_assoc. repeat split.
      * set_solver.
      * apply elem_of_cons in H as [->|H]; [now left|right; now apply Hnew].
      * apply elem_of_cons in H as [->|H]; [assumption|].
        apply Hnew in H as [_ H]. set_solver.
      * intros m Hm. apply elem_of_cons in Hm as [->|Hm]; [set_solver|].
        rewrite <- Hvis. auto.
Qed.

Lemma joined_sym adjacency a b :
  symmetricAdjacency adjacency -> joined adjacency a b -> joined adjacency b a.
Proof. intros Hsym (Ha & Hb & Hn). repeat split; auto. Qed.

Lemma connected_sym adjacency a b :
  symmetricAdjacency adjacency -> connected adjacency a b -> connected adjacency b a.
Proof.
  intros Hsym H. induction H as [a|a b c Hab _ IH]; [constructor|].
  eapply rtc_r; [exact IH|]. now apply joined_sym.
Qed.

Lemma connected_trans adjacency a b c :
  connected adjacency a b -> connected adjacency b c -> connected adjacency a c.
Proof.
  intros H1 H2. induction H1 as [a|a b' b Hab _ IH]; [assumption|].
  econstructor; [exact Hab|]. now apply IH.
Qed.

Section Connectivity.

Variable nodes : list BackboneNode.
Variable adjacency : gmap string (list string).

(** The ids marked before a walk, and the id it starts from. *)
Variable before : gset string.
Variable start : string.

(** What the loop of a walk keeps true of the ids it has marked. *)
Definition classInvariant (queue : list string) (visited : gset string)
    (component : list nat) : Prop :=
  before ⊆ visited
  /\ (forall q, q ∈ queue -> q ∈ visited /\ q ∉ before)
  /\ (forall id, id ∈ visited -> id ∉ before -> id <> EmptyString ->
        connected adjacency start id)
  /\ (forall id, id ∈ visited -> id ∉ before ->
        id ∈ queue \/ id = EmptyString
        \/ forall n, n ∈ neighbors adjacency id -> n ∈ visited)
  /\ (forall r, r ∈ component ->
        exists id, byIdOf nodes !! id = Some r /\ id <> EmptyString
                   /\ id ∈ visited /\ id ∉ before)
  /\ (forall id, id ∈ visited -> id ∉ before ->
        id ∈ queue \/ id = EmptyString \/ byIdOf nodes !! id = None
        \/ exists r, byIdOf nodes !! id = Some r /\ r ∈ component).

Lemma componentWalk_class fuel :
  forall queue visited component visited' component',
    classInvariant queue visited component ->
    componentWalk fuel (byIdOf nodes) adjacency queue visited component
      = Some (visited', component') ->
    classInvariant [] visited' component'.
Proof.
  induction fuel as [|fuel IH]; intros queue visited component visited' component'
    Hinv Hwalk.
  - destruct queue; [|discriminate]. injection Hwalk as <- <-. assumption.
  - destruct queue as [|id queue]; [injection Hwalk as <- <-; assumption|].
    cbn [componentWalk] in Hwalk.
    destruct Hinv as (C1 & C2 & C3 & C4 & C5 & C6).
    case_bool_decide as Hempty.
    + apply (IH queue visited component); [|assumption].
      repeat split; auto.
      * apply C2. now right.
      * apply C2. now right.
      * intros i Hi Hb. destruct (C4 i Hi Hb) as [Hin|H]; [|now right].
        apply elem_of_cons in Hin as [->|Hin]; [right; now left|now left].
      * intros i Hi Hb. destruct (C6 i Hi Hb) as [Hin|H]; [|now right].
        apply elem_of_cons in Hin as [->|Hin]; [right; now left|now left].
    + destruct (visitNeighbors_spec (neighbors adjacency id) visited queue)
        as (added & Hq & Hvis & Hnew & Hall).
      destruct (visitNeighbors (neighbors adjacency id) visited queue) as [visited1 queue1].
      cbn [fst snd] in Hq, Hvis, Hall. subst queue1.
      destruct (C2 id ltac:(left)) as [Hidv Hidb].
      assert (Hsub : visited ⊆ visited1) by (rewrite Hvis; set_solver).
      apply (IH (queue ++ added) visited1
               (match byIdOf nodes !! id with
                | Some current => component ++ [current]
                | None => component
                end)); [|assumption].
      repeat split.
      * set_solver.
      * apply elem_of_app in H as [H|H]; [apply Hsub, C2; now right|].
        rewrite Hvis. apply elem_of_union_l, elem_of_list_to_set, H.
      * apply elem_of_app in H as [H|H]; [apply C2; now right|].
        apply Hnew in H as [_ H]. intros Hb. apply H, C1, Hb.
      * intros i Hi Hb Hne. rewrite Hvis in Hi. apply elem_of_union in Hi as [Hi|Hi]; [|auto].
        apply elem_of_list_to_set, Hnew in Hi as [Hi _].
        eapply rtc_r; [apply (C3 id Hidv Hidb Hempty)|]. repeat split; assumption.
      * intros i Hi Hb. rewrite Hvis in Hi. apply elem_of_union in Hi as [Hi|Hi].
        { left. apply elem_of_app. right. now apply elem_of_list_to_set in Hi. }
        destruct (C4 i Hi Hb) as [Hin|[?|Hclosed]]; [|now right; left|].
        -- apply elem_of_cons in Hin as [->|Hin]; [|left; apply elem_of_app; now left].
           right. right. exact Hall.
        -- right. right. intros n Hn. apply Hsub, Hclosed, Hn.
      * intros r Hr.
        assert (Hold : r ∈ component ->
                  exists i, byIdOf nodes !! i = Some r /\ i <> EmptyString
                            /\ i ∈ visited1 /\ i ∉ before).
        { intros Hc. destruct (C5 r Hc) as (i & H1 & H2 & H3 & H4). exists i. auto. }
        destruct (byIdOf nodes !! id) as [current|] eqn:Ecur; [|auto].
        apply elem_of_app in Hr as [Hr|Hr]; [auto|].
        apply list_elem_of_singleton in Hr as ->. exists id. auto.
      * intros i Hi Hb. rewrite Hvis in Hi. apply elem_of_union in Hi as [Hi|Hi].
        { left. apply elem_of_app. right. now apply elem_of_list_to_set in Hi. }
        destruct (C6 i Hi Hb) as [Hin|[?|[?|(r & H1 & H2)]]]; auto.
        -- apply elem_of_cons in Hin as [->|Hin]; [|left; apply elem_of_app; now left].
           right. right.
           destruct (byIdOf nodes !! id) as [current|] eqn:Ecur; [right|now left].
           exists current. split; [reflexivity|]. apply elem_of_app. right. now left.
        -- right. right. right. exists r. split; [assumption|].
           destruct (byIdOf nodes !! id); [|assumption]. apply elem_of_app. now left.
Qed.

End Connectivity.

Section Classes.

Variable nodes : list BackboneNode.
Variable adjacency : gmap string (list string).
Hypothesis symmetric : symmetricAdjacency adjacency.

(** A set of ids that holds the neighbours of its ids. *)
Definition closedSet (ids : gset string) : Prop :=
  forall id, id ∈ ids -> id <> EmptyString ->
    forall n, n ∈ neighbors adjacency id -> n ∈ ids.

(** A component that is a connected class: its nodes carry ids of one set,
    joined to one id, closed under the edges, all of whose nodes it holds. *)
Definition classOf (component : list nat) : Prop :=
  exists (ids : gset string) (start : string),
    (forall r, r ∈ component ->
       exists id, byIdOf nodes !! id = Some r /\ id <> EmptyString /\ id ∈ ids)
    /\ (forall id, id ∈ ids -> id <> EmptyString -> connected adjacency start id)
    /\ (forall id n, id ∈ ids -> joined adjacency id n -> n ∈ ids)
    /\ (forall id r, id ∈ ids -> id <> EmptyString -> byIdOf nodes !! id = Some r ->
          r ∈ component).

Lemma visitComponent_class fuel visited components node visited' components' :
  closedSet visited -> Forall classOf components ->
  visitComponent fuel (byIdOf nodes) adjacency (Some (visited, components)) node
    = Some (visited', components') ->
  closedSet visited' /\ Forall classOf components'.
Proof.
  intros Hclosed Hall. unfold visitComponent. cbn [mbind option_bind].
  case_bool_decide as Hseen; [intros [= <- <-]; now split|].
  destruct (componentWalk _ _ _ _ _ _) as [[visited1 component]|] eqn:Ewalk; [|discriminate].
  cbn [mbind option_bind]. intros [= <- <-].
  destruct (componentWalk_class nodes adjacency visited (bn_id node) fuel
              [bn_id node] ({[bn_id node]} ∪ visited) [] visited1 component)
    as (C1 & _ & C3 & C4 & C5 & C6); [|assumption|].
  { repeat split.
    - set_solver.
    - apply list_elem_of_singleton in H as ->. set_solver.
    - apply list_elem_of_singleton in H as ->. assumption.
    - intros id Hid Hb _. apply elem_of_union in Hid as [Hid|Hid]; [|contradiction].
      apply elem_of_singleton in Hid as ->. constructor.
    - intros id Hid Hb. apply elem_of_union in Hid as [Hid|Hid]; [|contradiction].
      apply elem_of_singleton in Hid as ->. left. now left.
    - intros r Hr. now apply elem_of_nil in Hr.
    - intros id Hid Hb. apply elem_of_union in Hid as [Hid|Hid]; [|contradiction].
      apply elem_of_singleton in Hid as ->. left. now left. }
  assert (Hnew : forall id, id ∈ visited1 -> id ∉ visited -> id <> EmptyString ->
                   forall n, n ∈ neighbors adjacency id -> n ∈ visited1).
  { intros id Hid Hb Hne. destruct (C4 id Hid Hb) as [Hin|[?|?]]; auto; [|contradiction].
    now apply elem_of_nil in Hin. }
  split.
  - intros id Hid Hne n Hn. destruct (decide (id ∈ visited)) as [Hb|Hb].
    + apply C1. eapply Hclosed; eassumption.
    + eapply Hnew; eassumption.
  - apply Forall_app. split; [assumption|]. apply Forall_singleton.
    exists (visited1 ∖ visited), (bn_id node). repeat split.
    + intros r Hr. destruct (C5 r Hr) as (id & H1 & H2 & H3 & H4).
      exists id. repeat split; auto. set_solver.
    + intros id Hid Hne. apply elem_of_difference in Hid as [Hid Hb]. auto.
    + intros id n Hid (Hne & Hn & Hnb). apply elem_of_difference in Hid as [Hid Hb].
      apply elem_of_difference. split; [eapply Hnew; eassumption|].
      intros Hnv. apply Hb. apply (Hclosed n Hnv Hn). now apply symmetric.
    + intros id r Hid Hne Hr. apply elem_of_difference in Hid as [Hid Hb].
      destruct (C6 id Hid Hb) as [Hin|[?|[Hnone|(r' & H1 & H2)]]];
        [now apply elem_of_nil in Hin|contradiction|congruence|congruence].
Qed.

Lemma visitComponents_class fuel (l : list BackboneNode) :
  forall visited components visited' components',
    closedSet visited -> Forall classOf components ->
    fold_left (visitComponent fuel (byIdOf nodes) adjacency) l (Some (visited, components))
      = Some (visited', components') ->
    Forall classOf components'.
Proof.
  induction l as [|node l IH]; intros visited components visited' components' Hc Hall;
    cbn [fold_left].
  - now intros [= <- <-].
  - destruct (visitComponent fuel (byIdOf nodes) adjacency (Some (visited, components)) node)
      as [[visited1 components1]|] eqn:E.
    + destruct (visitComponent_class _ _ _ _ _ _ Hc Hall E) as [Hc1 Hall1].
      now apply IH.
    + rewrite fold_left_None; [discriminate|]. reflexivity.
Qed.

Lemma byIdOf_idOf id r : byIdOf nodes !! id = Some r -> idOf nodes r = id.
Proof.
  intros H. destruct (byIdOf_spec nodes) as (Hspec & _).
  destruct (Hspec id r H) as (node & Hn & <-). unfold idOf, deref.
  now rewrite (list_lookup_total_correct _ _ _ Hn).
Qed.

Lemma classOf_spec component :
  classOf component ->
  (forall r r', r ∈ component -> r' ∈ component ->
     connected adjacency (idOf nodes r) (idOf nodes r'))
  /\ (forall r n r', r ∈ component -> connected adjacency (idOf nodes r) n ->
        byIdOf nodes !! n = Some r' -> r' ∈ component).
Proof.
  intros (ids & start & G1 & G2 & G3 & G4). split.
  - intros r r' Hr Hr'.
    destruct (G1 r Hr) as (id & H1 & H2 & H3). destruct (G1 r' Hr') as (id' & H1' & H2' & H3').
    rewrite (byIdOf_idOf id r H1), (byIdOf_idOf id' r' H1').
    eapply connected_trans; [apply connected_sym; [assumption|]|]; apply G2; assumption.
  - intros r n r' Hr Hpath Hn.
    destruct (G1 r Hr) as (id & H1 & H2 & H3). rewrite (byIdOf_idOf id r H1) in Hpath.
    assert (Hin : n ∈ ids /\ n <> EmptyString).
    { clear Hn H1. induction Hpath as [a|a b c Hab _ IH]; [now split|].
      apply IH; [apply Hab|apply (G3 a b H3 Hab)]. }
    destruct Hin as [Hin Hne]. now apply (G4 n).
Qed.

End Classes.

(** ** The graph of a model *)

Lemma neighbors_adjAdd k v (adjacency : gmap string (list string)) k' n :
  n ∈ neighbors (adjAdd k v adjacency) k'
  <-> n ∈ neighbors adjacency k' \/ (k' = k /\ n = v /\ is_Some (adjacency !! k)).
Proof.
  unfold adjAdd, neighbors. destruct (adjacency !! k) as [s|] eqn:E.
  - destruct (decide (k' = k)) as [->|Hne].
    + rewrite lookup_insert_eq, E. cbn [default from_option]. unfold id, setAdd.
      case_bool_decide as Hv.
      * split; [now left|]. intros [?|(_ & -> & _)]; assumption.
      * rewrite elem_of_app, list_elem_of_singleton. split.
        -- intros [?| ->]; [now left|right; eauto].
        -- intros [?|(_ & -> & _)]; [now left|now right].
    + rewrite lookup_insert_ne by congruence. split; [now left|].
      intros [?|(? & _)]; [assumption|contradiction].
  - split; [now left|]. intros [?|(_ & _ & [? [=]])]. assumption.
Qed.

Lemma adjAdd_keys k v (adjacency : gmap string (list string)) id :
  is_Some (adjAdd k v adjacency !! id) <-> is_Some (adjacency !! id).
Proof.
  unfold adjAdd. destruct (adjacency !! k) as [s|] eqn:E; [|reflexivity].
  destruct (decide (id = k)) as [->|Hne].
  - rewrite lookup_insert_eq, E. split; eauto.
  - now rewrite lookup_insert_ne by congruence.
Qed.

Lemma adjAdd_both_symmetric a b (adjacency : gmap string (list string)) :
  symmetricAdjacency adjacency ->
  is_Some (adjacency !! a) -> is_Some (adjacency !! b) ->
  symmetricAdjacency (adjAdd b a (adjAdd a b adjacency)).
Proof.
  intros Hsym Ha Hb x y. rewrite !neighbors_adjAdd, !adjAdd_keys.
  intros [[H|(-> & -> & _)]|(-> & -> & _)].
  - left. left. now apply Hsym.
  - right. auto.
  - left. right. auto.
Qed.

(** The keys of the id map and of the adjacency after the first two loops. *)
Lemma buildNodes_keys model style nodeOverrides :
  let g := buildNodes model style nodeOverrides in
  (forall id, is_Some (g.1.2 !! id) -> is_Some (g.2 !! id))
  /\ g.1.2 = byIdOf g.1.1.
Proof.
  cbv zeta. rewrite buildNodes_pushes.
  assert (H : forall (l : list BackboneNode)
                (g : list BackboneNode * gmap string nat * gmap string (list string)),
             (forall id, is_Some (g.1.2 !! id) -> is_Some (g.2 !! id)) ->
             g.1.2 = byIdOf g.1.1 ->
             (forall id, is_Some ((fold_left pushNode l g).1.2 !! id) ->
                         is_Some ((fold_left pushNode l g).2 !! id))
             /\ (fold_left pushNode l g).1.2 = byIdOf (fold_left pushNode l g).1.1).
  { induction l as [|node l IH]; intros [[store nodeById] adjacency] Hk Hb; cbn [fold_left];
      [now split|].
    apply IH; cbn [pushNode fst snd] in *.
    - intros id. destruct (decide (id = bn_id node)) as [->|Hne].
      + rewrite !lookup_insert_eq. eauto.
      + rewrite !lookup_insert_ne by congruence. apply Hk.
    - now rewrite byIdOf_snoc, Hb. }
  apply H; [intros id [? Hid]; cbn [fst snd] in Hid; now rewrite lookup_empty in Hid|
            reflexivity].
Qed.

Lemma getById_key store (nodeById : gmap string nat) id node :
  getById store nodeById id = Some node -> is_Some (nodeById !! id).
Proof. unfold getById. destruct (nodeById !! id); [eauto|discriminate]. Qed.

Lemma buildEdges_symmetric model style nodeOverrides :
  symmetricAdjacency (buildEdges model (buildNodes model style nodeOverrides)).1.
Proof.
  destruct (buildNodes_keys model style nodeOverrides) as [Hkeys _].
  destruct (buildNodes_indexed model style nodeOverrides) as [Hindexed _].
  destruct (buildNodes_spec model style nodeOverrides) as [_ Hempty].
  destruct (buildNodes model style nodeOverrides) as [[store nodeById] adjacency].
  cbn [fst snd] in *. unfold buildEdges.
  assert (H0 : symmetricAdjacency (adjacency, @nil EntityRelationshipEdge).1
               /\ forall id, is_Some (nodeById !! id) ->
                    is_Some ((adjacency, @nil EntityRelationshipEdge).1 !! id)).
  { split; [|exact Hkeys]. intros a b Hb. unfold neighbors in Hb. cbn [fst] in Hb.
    destruct (adjacency !! a) as [ns|] eqn:E; cbn [default] in Hb;
      [rewrite (Hempty a ns E) in Hb|]; now apply elem_of_nil in Hb. }
  revert H0. generalize (adjacency, @nil EntityRelationshipEdge).
  induction (relationships model) as [|r rs IH]; intros acc Hacc; cbn [fold_left];
    [apply Hacc|].
  apply IH. unfold linkRelationship.
  destruct (getById store nodeById (rel_id r)) as [relNode|] eqn:Hrel; [|assumption].
  pose proof (getById_Some _ _ _ _ Hindexed Hrel) as Hrid.
  pose proof (getById_key _ _ _ _ Hrel) as Hrkey.
  revert acc Hacc.
  induction (rel_endpoints r) as [|endpoint es IHe]; intros acc Hacc; cbn [fold_left];
    [assumption|].
  apply IHe. unfold linkEndpoint. destruct acc as [adj edges].
  destruct (getById store nodeById (entityId endpoint)) as [entityNode|] eqn:Hent;
    [|assumption].
  pose proof (getById_Some _ _ _ _ Hindexed Hent) as Heid.
  pose proof (getById_key _ _ _ _ Hent) as Hekey.
  destruct Hacc as [Hsym Hk]. cbn [fst] in *. split.
  - apply adjAdd_both_symmetric; [assumption|apply Hk..]; congruence.
  - intros id Hid. rewrite !adjAdd_keys. now apply Hk.
Qed.

Lemma components_class_all fuel (nodes : list BackboneNode) adjacency components :
  symmetricAdjacency adjacency ->
  connectedComponents fuel nodes adjacency = Some components ->
  Forall (connectedClass nodes adjacency) components.
Proof.
  intros Hsym. unfold connectedComponents. intros H.
  destruct (fold_left _ nodes _) as [[visited components']|] eqn:E; [|discriminate].
  cbn [mbind option_bind] in H. injection H as ->.
  eapply Forall_impl.
  - apply (visitComponents_class nodes adjacency Hsym fuel nodes ∅ [] visited components);
      [|constructor|exact E].
    intros id Hid. now apply elem_of_empty in Hid.
  - intros component Hc. now apply classOf_spec.
Qed.

(** X23. Over an adjacency whose edges run both ways, each component is a
    connected class of the graph: any two of its nodes are joined by a path
    of edges between ids that are not empty, and a node that such a path joins
    to a node of the component is in the component. *)
Theorem components_are_connected_classes fuel (nodes : list BackboneNode) adjacency
    components :
  symmetricAdjacency adjacency ->
  connectedComponents fuel nodes adjacency = Some components ->
  Forall (connectedClass nodes adjacency) components.
Proof. exact (components_class_all fuel nodes adjacency components). Qed.

(** The graph of the cyclic model. *)
Lemma components_are_connected_classes_witness :
  exists components,
    connectedComponents 6 cyclicNodes cyclicAdjacency = Some components
    /\ Forall (connectedClass cyclicNodes cyclicAdjacency) components.
Proof.
  eexists. split; [vm_compute; reflexivity|].
  apply (components_are_connected_classes 6 cyclicNodes cyclicAdjacency).
  - apply buildEdges_symmetric.
  - vm_compute. reflexivity.
Defined.

Lemma findRoot_in (store : list BackboneNode) component root :
  findRoot store component = Some root -> root ∈ component.
Proof.
  unfold findRoot.
  destruct (find _ component) as [r|] eqn:E.
  - intros [= <-]. apply find_some in E as [E _]. now apply list_elem_of_In.
  - destruct component as [|r component]; [discriminate|]. intros [= <-]. now left.
Qed.

Lemma findRoot_None (store : list BackboneNode) component :
  findRoot store component = None -> component = [].
Proof.
  unfold findRoot. destruct (find _ component); [discriminate|].
  destruct component; [reflexivity|discriminate].
Qed.

Lemma depths_cover_paths fuel adjacency rootId depth :
  assignDepths fuel adjacency rootId = Some depth ->
  forall id, connected adjacency rootId id -> is_Some (depth !! id).
Proof.
  unfold assignDepths. intros H.
  destruct (depthWalk_invariant adjacency rootId fuel [rootId] {[rootId := 0]} depth)
    as (I1 & _ & _ & _ & I5); [|assumption|].
  { repeat split.
    + apply lookup_singleton_eq.
    + intros id Hid. apply lookup_singleton_Some in Hid as [<- _]. reflexivity.
    + intros id d Hid. apply lookup_singleton_Some in Hid as [_ [=]].
    + intros q0 Hq. apply list_elem_of_singleton in Hq as ->.
      rewrite lookup_singleton_eq. eauto.
    + intros id [v Hid]. apply lookup_singleton_Some in Hid as [<- _]. left. now left. }
  intros id Hpath. assert (Hroot : is_Some (depth !! rootId)) by eauto.
  clear I1 H. induction Hpath as [a|a b c (Ha & Hb & Hn) _ IH]; [assumption|].
  apply IH. destruct (I5 a Hroot) as [Hin|[?|Hclosed]];
    [now apply elem_of_nil in Hin|contradiction|exact (Hclosed b Hn)].
Qed.

(** X24. In the graph of a model, whatever its ids, every component is a
    connected class, and the walk from the root of a component gives a depth
    to each of its nodes: no node is laid out at the depth 0 that a missing
    depth falls back to. *)
Theorem every_node_gets_a_depth fuel model style nodeOverrides componentsWithDepths :
  backboneDepths fuel model style nodeOverrides = Some componentsWithDepths ->
  let nodes := modelNodes model style nodeOverrides in
  let adjacency := (buildEdges model (buildNodes model style nodeOverrides)).1 in
  Forall (fun '(component, depth) =>
            connectedClass nodes adjacency component
            /\ forall r, r ∈ component ->
                 exists d : nat, depth !! idOf nodes r = Some d)
         componentsWithDepths.
Proof.
  unfold backboneDepths. cbv zeta.
  pose proof (buildEdges_symmetric model style nodeOverrides) as Hsym.
  rewrite <- (buildNodes_nodes model style nodeOverrides).
  destruct (buildNodes model style nodeOverrides) as [[store nodeById] adjacency0].
  destruct (buildEdges model (store, nodeById, adjacency0)) as [adjacency edges].
  cbn [fst snd] in *.
  destruct (connectedComponents fuel store adjacency) as [components|] eqn:E; [|discriminate].
  cbn [mbind option_bind]. intros H. apply mapM_Some in H.
  pose proof (components_class_all fuel store adjacency components Hsym E) as Hclass.
  clear E. revert Hclass. induction H as [|component [c depth] components cds Hd _ IH];
    intros Hclass; [constructor|].
  apply Forall_cons in Hclass as [Hc Hclass]. constructor; [|now apply IH].
  destruct (componentDepths fuel adjacency store component) as [depth'|] eqn:Ed;
    [|discriminate]. cbn [mbind option_bind] in Hd. injection Hd as <- <-.
  split; [assumption|]. intros r Hr. unfold componentDepths in Ed.
  destruct (findRoot store component) as [root|] eqn:Eroot.
  - apply (depths_cover_paths _ _ _ _ Ed). apply Hc; [|assumption].
    eapply findRoot_in; eassumption.
  - apply findRoot_None in Eroot. subst component. now apply elem_of_nil in Hr.
Qed.

(** The cyclic model: a self-referencing relationship inside a cycle. *)
Lemma every_node_gets_a_depth_witness :
  exists componentsWithDepths,
    backboneDepths 6 cyclicModel DEFAULT_CHEN_STYLE ∅ = Some componentsWithDepths
    /\ let nodes := modelNodes cyclicModel DEFAULT_CHEN_STYLE ∅ in
       let adjacency :=
         (buildEdges cyclicModel (buildNodes cyclicModel DEFAULT_CHEN_STYLE ∅)).1 in
       Forall (fun '(component, depth) =>
                 connectedClass nodes adjacency component
                 /\ forall r, r ∈ component ->
                      exists d : nat, depth !! idOf nodes r = Some d)
              componentsWithDepths.
Proof.
  eexists. split; [vm_compute; reflexivity|].
  apply (every_node_gets_a_depth 6 cyclicModel DEFAULT_CHEN_STYLE ∅).
  vm_compute. reflexivity.
Defined.

(** ** Edges join neighbouring levels *)

Lemma assignNeighborDepths_added ns currentDepth :
  forall (depth : gmap string nat) (queue : list string),
    let depth' := (assignNeighborDepths ns currentDepth depth queue).1 in
    let queue' := (assignNeighborDepths ns currentDepth depth queue).2 in
    exists added,
      queue' = queue ++ added
      /\ (forall k, k ∈ added -> depth !! k = None /\ depth' !! k = Some (S currentDepth))
      /\ (forall k v, depth !! k = Some v -> depth' !! k = Some v)
      /\ (forall k v, depth' !! k = Some v ->
            depth !! k = Some v \/ (v = S currentDepth /\ k ∈ added))
      /\ (forall n, n ∈ ns -> is_Some (depth' !! n)).
Proof.
  unfold assignNeighborDepths.
  induction ns as [|n ns IH]; intros depth queue; cbn [fold_left fst snd].
  - exists []. rewrite app_nil_r. repeat split; auto.
    + now apply elem_of_nil in H.
    + now apply elem_of_nil in H.
    + intros n Hn. now apply elem_of_nil in Hn.
  - destruct (depth !! n) as [dn|] eqn:E.
    + destruct (IH depth queue) as (added & Hq & Hnew & Hkeep & Hold & Hall).
      cbv zeta in *. exists added. repeat split; auto; try (now apply Hnew).
      intros m Hm. apply elem_of_cons in Hm as [->|Hm]; [eauto|auto].
    + destruct (IH (<[n := S currentDepth]> depth) (queue ++ [n]))
        as (added & Hq & Hnew & Hkeep & Hold & Hall).
      cbv zeta in *. exists (n :: added).
      assert (Hn : (fold_left
                      (fun '(depth, queue) neighbor =>
                         match depth !! neighbor with
                         | Some _ => (depth, queue)
                         | None => (<[neighbor := S currentDepth]> depth, queue ++ [neighbor])
                         end) ns (<[n := S currentDepth]> depth, queue ++ [n])).1 !! n
                   = Some (S currentDepth)) by apply Hkeep, lookup_insert_eq.
      split; [now rewrite Hq, <- app_assoc|]. repeat split.
      * apply elem_of_cons in H as [->|H]; [assumption|].
        destruct (Hnew k H) as [Hk _]. apply lookup_insert_None in Hk. apply Hk.
      * apply elem_of_cons in H as [->|H]; [assumption|]. now apply Hnew.
      * intros k v Hk. apply Hkeep. rewrite lookup_insert_ne; [assumption|congruence].
      * intros k v Hk. destruct (Hold k v Hk) as [Hk'|[-> Hin]].
        -- destruct (decide (k = n)) as [->|Hne].
           ++ rewrite lookup_insert_eq in Hk'. injection Hk' as <-. right. split; [|now left].
              reflexivity.
           ++ rewrite lookup_insert_ne in Hk' by congruence. now left.
        -- right. split; [reflexivity|now right].
      * intros m Hm. apply elem_of_cons in Hm as [->|Hm]; [eauto|auto].
Qed.

(** The depths along a queue never go down. *)
Fixpoint nondecreasing (depth : gmap string nat) (queue : list string) : Prop :=
  match queue with
  | [] => True
  | q :: rest =>
      (forall q' dq dq', q' ∈ rest -> depth !! q = Some dq -> depth !! q' = Some dq' ->
         dq <= dq')
      /\ nondecreasing depth rest
  end.

Lemma nondecreasing_app depth l1 l2 :
  nondecreasing depth l1 -> nondecreasing depth l2 ->
  (forall a b da db, a ∈ l1 -> b ∈ l2 -> depth !! a = Some da -> depth !! b = Some db ->
     da <= db) ->
  nondecreasing depth (l1 ++ l2).
Proof.
  intros H1 H2 H. induction l1 as [|a l1 IH]; [assumption|]. cbn [app nondecreasing].
  destruct H1 as [Ha H1]. split.
  - intros q' dq dq' Hq'. apply elem_of_app in Hq' as [Hq'|Hq'].
    + now apply Ha.
    + apply (H a q'); [now left|assumption].
  - apply IH; [assumption|]. intros x y dx dy Hx. apply H. now right.
Qed.

Lemma nondecreasing_same depth depth' l :
  (forall k v, depth !! k = Some v -> depth' !! k = Some v) ->
  (forall q, q ∈ l -> is_Some (depth !! q)) ->
  nondecreasing depth l -> nondecreasing depth' l.
Proof.
  intros Hkeep. induction l as [|a l IH]; [reflexivity|]. cbn [nondecreasing].
  intros Hl [Ha H]. split.
  - intros q' dq dq' Hq' Hdq Hdq'.
    destruct (Hl a ltac:(left)) as [v Hv]. destruct (Hl q' ltac:(now right)) as [v' Hv'].
    pose proof (Hkeep _ _ Hv) as E. pose proof (Hkeep _ _ Hv') as E'.
    assert (v = dq) by congruence. assert (v' = dq') by congruence. subst.
    now apply (Ha q').
  - apply IH; [|assumption]. intros q0 Hq. apply Hl. now right.
Qed.

Lemma nondecreasing_const depth l d :
  (forall q, q ∈ l -> depth !! q = Some d) -> nondecreasing depth l.
Proof.
  induction l as [|a l IH]; [reflexivity|]. cbn [nondecreasing]. intros H. split.
  - intros q' dq dq' Hq' Hdq Hdq'.
    rewrite (H a ltac:(left)) in Hdq. rewrite (H q' ltac:(now right)) in Hdq'.
    injection Hdq as <-. injection Hdq' as <-. lia.
  - apply IH. intros q0 Hq. apply H. now right.
Qed.

(** What the loop over the queue keeps true of the levels. *)
Definition levelInvariant (adjacency : gmap string (list string))
    (queue : list string) (depth : gmap string nat) : Prop :=
  (forall q, q ∈ queue -> is_Some (depth !! q))
  /\ nondecreasing depth queue
  /\ (forall id v q dq, depth !! id = Some v -> q ∈ queue -> depth !! q = Some dq ->
        v <= S dq)
  /\ (forall a da, depth !! a = Some da ->
        a ∈ queue \/ a = EmptyString
        \/ forall n, n ∈ neighbors adjacency a ->
             exists dn, depth !! n = Some dn /\ dn <= S da).

Lemma depthWalk_levels adjacency fuel :
  forall queue depth depth',
    levelInvariant adjacency queue depth ->
    depthWalk fuel adjacency queue depth = Some depth' ->
    levelInvariant adjacency [] depth'.
Proof.
  induction fuel as [|fuel IH]; intros queue depth depth' Hinv Hwalk.
  - destruct queue; [|discriminate]. injection Hwalk as <-. assumption.
  - destruct queue as [|currentId queue]; [injection Hwalk as <-; assumption|].
    cbn [depthWalk] in Hwalk.
    destruct Hinv as (L1 & L2 & L3 & L4).
    case_bool_decide as Hempty.
    + apply (IH queue depth depth'); [|assumption].
      split; [intros q0 Hq; apply L1; now right|]. split; [apply L2|]. split.
      * intros id v q0 dq Hid Hq. apply (L3 id v q0 dq Hid). now right.
      * intros a da Ha. destruct (L4 a da Ha) as [Hin|[?|?]]; auto.
        apply elem_of_cons in Hin as [->|?]; auto.
    + destruct (L1 currentId ltac:(left)) as [cd Hcd].
      rewrite Hcd in Hwalk. change (default 0 (Some cd)) with cd in Hwalk.
      destruct (assignNeighborDepths_added (neighbors adjacency currentId) cd depth queue)
        as (added & Hq & Hnew & Hkeep & Hold & Hall).
      destruct (assignNeighborDepths _ cd depth queue) as [depth1 queue1].
      cbn [fst snd] in *. subst queue1.
      assert (Hbound : forall id v, depth1 !! id = Some v -> v <= S cd).
      { intros id v Hid. destruct (Hold id v Hid) as [Hid'|[-> _]]; [|lia].
        apply (L3 id v currentId cd Hid'); [now left|assumption]. }
      assert (Htail : forall q dq, q ∈ queue -> depth1 !! q = Some dq -> cd <= dq).
      { intros q0 dq Hq0 Hdq. destruct (L1 q0 ltac:(now right)) as [v Hv].
        pose proof (Hkeep _ _ Hv) as E. assert (v = dq) by congruence. subst.
        destruct L2 as [L2 _]. now apply (L2 q0 cd dq). }
      apply (IH (queue ++ added) depth1 depth'); [|assumption].
      split; [|split; [|split]].
      * intros q0 Hq0. apply elem_of_app in Hq0 as [Hq0|Hq0].
        -- destruct (L1 q0 ltac:(now right)) as [v Hv]. exists v. auto.
        -- exists (S cd). now apply Hnew.
      * apply nondecreasing_app.
        -- apply (nondecreasing_same depth); [assumption| |apply L2].
           intros q0 Hq0. apply L1. now right.
        -- apply (nondecreasing_const _ _ (S cd)). intros q0 Hq0. now apply Hnew.
        -- intros a b da db Ha Hb Hda Hdb. destruct (Hnew b Hb) as [_ E].
           assert (db = S cd) by congruence. subst. now apply (Hbound a).
      * intros id v q0 dq Hid Hq0 Hdq. pose proof (Hbound id v Hid).
        apply elem_of_app in Hq0 as [Hq0|Hq0].
        -- pose proof (Htail q0 dq Hq0 Hdq). lia.
        -- destruct (Hnew q0 Hq0) as [_ E]. assert (dq = S cd) by congruence. lia.
      * intros a da Ha. destruct (Hold a da Ha) as [Ha'|[-> Hin]].
        2:{ left. apply elem_of_app. now right. }
        destruct (L4 a da Ha') as [Hin|[?|Hdone]]; [|now right; left|].
        -- apply elem_of_cons in Hin as [->|Hin]; [|left; apply elem_of_app; now left].
           right. right. intros n Hn. destruct (Hall n Hn) as [dn Hdn].
           exists dn. split; [assumption|]. assert (da = cd) by congruence. subst.
           now apply (Hbound n).
        -- right. right. intros n Hn. destruct (Hdone n Hn) as (dn & Hdn & Hle).
           exists dn. split; [now apply Hkeep|assumption].
Qed.

(** X25. The depths assigned from a root go up by at most one along an edge:
    a neighbour of an id of depth d, neither id empty, has a depth of at most
    d + 1; when the edges run both ways, the two depths differ by at most
    one, so that an edge joins nodes of one level or of neighbouring levels. *)
Theorem edges_join_neighbouring_levels fuel adjacency rootId depth a b da :
  assignDepths fuel adjacency rootId = Some depth ->
  joined adjacency a b -> depth !! a = Some da ->
  exists db,
    depth !! b = Some db /\ db <= S da
    /\ (symmetricAdjacency adjacency -> da <= S db).
Proof.
  unfold assignDepths. intros H (Ha & Hb & Hn) Hda.
  destruct (depthWalk_levels adjacency fuel [rootId] {[rootId := 0]} depth)
    as (_ & _ & _ & L4); [|assumption|].
  { split; [|split; [|split]].
    - intros q0 Hq. apply list_elem_of_singleton in Hq as ->.
      rewrite lookup_singleton_eq. eauto.
    - split; [|exact I]. intros q' dq dq' Hq'. now apply elem_of_nil in Hq'.
    - intros id v q0 dq Hid _ _. apply lookup_singleton_Some in Hid as [_ <-]. lia.
    - intros id v Hid. apply lookup_singleton_Some in Hid as [<- _]. left. now left. }
  destruct (L4 a da Hda) as [Hin|[?|Hdone]]; [now apply elem_of_nil in Hin|contradiction|].
  destruct (Hdone b Hn) as (db & Hdb & Hle). exists db. split; [assumption|].
  split; [assumption|]. intros Hsym.
  destruct (L4 b db Hdb) as [Hin|[?|Hdone']]; [now apply elem_of_nil in Hin|contradiction|].
  destruct (Hdone' a (Hsym a b Hn)) as (da' & Hda' & Hle'). congruence.
Qed.

(** The graph of the cyclic model, walked from the relationship r1, and the
    edge from r1 to the entity a. *)
Lemma edges_join_neighbouring_levels_witness :
  exists depth,
    assignDepths 6 cyclicAdjacency "r1" = Some depth
    /\ exists db,
         depth !! "a" = Some db /\ db <= 1
         /\ (symmetricAdjacency cyclicAdjacency -> 0 <= S db).
Proof.
  eexists. split; [vm_compute; reflexivity|].
  apply (edges_join_neighbouring_levels 6 cyclicAdjacency "r1" _ "r1" "a" 0).
  - vm_compute. reflexivity.
  - repeat split; [discriminate|discriminate|]. vm_compute.
    apply list_elem_of_In. vm_compute. tauto.
  - vm_compute. reflexivity.
Defined.

(** ** The levels of a component *)

Lemma levelsGet_push d d' r levels :
  levelsGet d (levelsPush d' r levels)
  = if (d =? d')%nat then Some (default [] (levelsGet d levels) ++ [r])
    else levelsGet d levels.
Proof.
  induction levels as [|[k rs] levels IH]; cbn [levelsPush levelsGet].
  - destruct (d =? d')%nat; reflexivity.
  - destruct (Nat.eqb_spec d' k) as [->|Hne]; cbn [levelsGet].
    + destruct (Nat.eqb_spec d k) as [->|Hne']; reflexivity.
    + rewrite IH. destruct (Nat.eqb_spec d k) as [->|Hne']; [|reflexivity].
      destruct (Nat.eqb_spec k d') as [->|_]; [congruence|reflexivity].
Qed.

(** The level of a depth holds the nodes of that depth, in component order. *)
Lemma buildLevels_filter (store : list BackboneNode) depth component d :
  default [] (levelsGet d (buildLevels store depth component))
  = filter (fun r => depthOf store depth r = d) component.
Proof.
  unfold buildLevels.
  assert (H : forall levels,
             default [] (levelsGet d
                           (fold_left (fun levels r => levelsPush (depthOf store depth r) r levels)
                              component levels))
             = default [] (levelsGet d levels)
               ++ filter (fun r => depthOf store depth r = d) component).
  { induction component as [|r component IH]; intros levels; cbn [fold_left].
    - now rewrite app_nil_r.
    - rewrite IH, levelsGet_push, filter_cons.
      destruct (Nat.eqb_spec d (depthOf store depth r)) as [->|Hne].
      + rewrite decide_True by reflexivity. cbn [default from_option]. unfold id.
        now rewrite <- app_assoc.
      + rewrite decide_False by congruence. reflexivity. }
  rewrite H. reflexivity.
Qed.

Lemma buildLevels_keys (store : list BackboneNode) depth component r :
  r ∈ component -> depthOf store depth r ∈ orderedDepthsOf (buildLevels store depth component).
Proof.
  intros Hr. unfold orderedDepthsOf. rewrite jsSort_perm.
  change (depthOf store depth r ∈ (buildLevels store depth component).*1).
  unfold buildLevels.
  assert (H : forall levels : list (nat * list nat),
             depthOf store depth r ∈
               (fold_left (fun levels r => levelsPush (depthOf store depth r) r levels)
                  component levels).*1
             <-> depthOf store depth r ∈ levels.*1
                 \/ exists r', r' ∈ component
                               /\ depthOf store depth r' = depthOf store depth r).
  { clear Hr. induction component as [|r' component IH]; intros levels; cbn [fold_left].
    - split; [now left|]. intros [?|(? & Hnil & _)]; [assumption|].
      now apply elem_of_nil in Hnil.
    - rewrite IH, levelsPush_keys. split.
      + intros [[->|?]|(x & Hx & E)]; [right; exists r'; split; [now left|reflexivity]
                                      |now left|right; exists x; split; [now right|assumption]].
      + intros [?|(x & Hx & E)]; [left; now right|].
        apply elem_of_cons in Hx as [->|Hx]; [left; left; congruence|right; eauto]. }
  apply H. right. eauto.
Qed.

Lemma stackY_frame vMargin first rest (store : list BackboneNode) r :
  r ∉ rest -> deref (stackY vMargin first rest store) r = deref store r.
Proof.
  unfold stackY. generalize 0%num first. revert store.
  induction rest as [|c rest IH]; intros store yCursor prevRef Hr; cbn [fold_left fst];
    [reflexivity|].
  apply not_elem_of_cons in Hr as [Hc Hr]. rewrite IH by assumption.
  now apply deref_update_ne.
Qed.

Lemma update_all_frame (f : BackboneNode -> BackboneNode) (l : list nat) :
  forall (store : list BackboneNode) r,
    r ∉ l -> deref (fold_left (fun store r => update r f store) l store) r = deref store r.
Proof.
  induction l as [|c l IH]; intros store r Hr; cbn [fold_left]; [reflexivity|].
  apply not_elem_of_cons in Hr as [Hc Hr]. rewrite IH by assumption.
  now apply deref_update_ne.
Qed.

Lemma update_all_length (f : BackboneNode -> BackboneNode) (l : list nat) :
  forall store : list BackboneNode,
    length (fold_left (fun store r => update r f store) l store) = length store.
Proof.
  induction l as [|c l IH]; intros store; cbn [fold_left]; [reflexivity|].
  rewrite IH. apply update_length.
Qed.

Section Columns.

Variable localeCompare : string -> string -> num.

Lemma placeLevel_frame vMargin offsetX xByDepth levels (store : list BackboneNode) d r :
  r ∉ default [] (levelsGet d levels) ->
  deref (placeLevel localeCompare vMargin offsetX xByDepth levels store d) r = deref store r.
Proof.
  intros Hr. unfold placeLevel.
  assert (Hperm : sortLevel localeCompare store (default [] (levelsGet d levels))
                  ≡ₚ default [] (levelsGet d levels)) by apply jsSort_perm.
  rewrite <- Hperm in Hr.
  destruct (sortLevel localeCompare store _) as [|first rest]; [reflexivity|].
  cbv zeta. apply not_elem_of_cons in Hr as [Hfirst Hrest].
  rewrite update_all_frame by (apply not_elem_of_cons; now split).
  rewrite stackY_frame by assumption. now apply deref_update_ne.
Qed.

Lemma placeLevel_length vMargin offsetX xByDepth levels (store : list BackboneNode) d :
  length (placeLevel localeCompare vMargin offsetX xByDepth levels store d) = length store.
Proof.
  unfold placeLevel. destruct (sortLevel localeCompare store _) as [|first rest]; [reflexivity|].
  cbv zeta. now rewrite update_all_length, stackY_length, update_length.
Qed.

Lemma placeLevels_frame vMargin offsetX xByDepth levels depths r :
  forall store : list BackboneNode,
    (forall d, d ∈ depths -> r ∉ default [] (levelsGet d levels)) ->
    deref (fold_left (placeLevel localeCompare vMargin offsetX xByDepth levels) depths store) r
    = deref store r.
Proof.
  induction depths as [|d depths IH]; intros store Hr; cbn [fold_left]; [reflexivity|].
  rewrite IH by (intros d' Hd'; apply Hr; now right).
  apply placeLevel_frame, Hr. now left.
Qed.

Lemma placeLevels_length vMargin offsetX xByDepth levels depths :
  forall store : list BackboneNode,
    length (fold_left (placeLevel localeCompare vMargin offsetX xByDepth levels) depths store)
    = length store.
Proof.
  induction depths as [|d depths IH]; intros store; cbn [fold_left]; [reflexivity|].
  rewrite IH. apply placeLevel_length.
Qed.

Lemma placeLevels_x vMargin offsetX xByDepth levels depths d r :
  forall store : list BackboneNode,
    NoDup depths -> d ∈ depths ->
    r ∈ default [] (levelsGet d levels) ->
    (forall d', d' <> d -> r ∉ default [] (levelsGet d' levels)) ->
    r < length store ->
    bn_x (deref (fold_left (placeLevel localeCompare vMargin offsetX xByDepth levels)
                   depths store) r)
    = (offsetX + getOr0 xByDepth d)%num.
Proof.
  induction depths as [|d0 depths IH]; intros store Hnd Hd Hr Hother Hlt; cbn [fold_left].
  - now apply elem_of_nil in Hd.
  - apply NoDup_cons in Hnd as [Hd0 Hnd].
    destruct (decide (d0 = d)) as [->|Hne].
    + rewrite placeLevels_frame.
      * now apply placeLevel_x.
      * intros d' Hd'. apply Hother. intros ->. contradiction.
    + apply elem_of_cons in Hd as [->|Hd]; [congruence|].
      apply IH; auto. now rewrite placeLevel_length.
Qed.

End Columns.

Lemma components_distinct fuel (nodes : list BackboneNode) adjacency components :
  connectedComponents fuel nodes adjacency = Some components ->
  NoDup (concat components) /\ Forall (fun r => r < length nodes) (concat components).
Proof.
  unfold connectedComponents. intros H.
  destruct (fold_left _ nodes _) as [[visited components']|] eqn:E; [|discriminate].
  cbn [mbind option_bind] in H. injection H as ->.
  destruct (visitComponents_invariant nodes adjacency fuel nodes ∅ [] visited components)
    as ((_ & _ & D1 & D2 & _) & _); [|assumption|].
  { split; [constructor|]. split; [intros q0 Hq; now apply elem_of_nil in Hq|].
    split; [constructor|]. split; [intros r Hr; now apply elem_of_nil in Hr|].
    intros i Hi. now apply elem_of_empty in Hi. }
  split; [assumption|]. apply Forall_forall. intros r Hr.
  destruct (D2 r Hr) as (i & H1 & _). destruct (byIdOf_spec nodes) as (S1 & _).
  destruct (S1 i r H1) as (node & Hn & _). now apply lookup_lt_Some in Hn.
Qed.

Lemma unplaced_fields (s s' : list BackboneNode) r :
  unplaced <$> s = unplaced <$> s' ->
  bn_id (deref s r) = bn_id (deref s' r)
  /\ bn_type (deref s r) = bn_type (deref s' r)
  /\ bn_envelopeX (deref s r) = bn_envelopeX (deref s' r)
  /\ bn_nodeStyle (deref s r) = bn_nodeStyle (deref s' r).
Proof.
  intros H. unfold deref.
  pose proof (f_equal (fun l => l !! r) H) as Hr. cbn beta in Hr.
  rewrite !list_lookup_fmap in Hr. rewrite !list_lookup_total_alt.
  destruct (s !! r) as [n|], (s' !! r) as [n'|]; cbn in Hr |- *; try discriminate;
    [|repeat split; reflexivity].
  apply (inj Some) in Hr.
  repeat split; [exact (f_equal bn_id Hr)|exact (f_equal bn_type Hr)
                |exact (f_equal bn_envelopeX Hr)|exact (f_equal bn_nodeStyle Hr)].
Qed.

Lemma findRoot_unplaced (s s' : list BackboneNode) component :
  unplaced <$> s = unplaced <$> s' -> findRoot s component = findRoot s' component.
Proof.
  intros H. unfold findRoot.
  replace (find (fun r => NodeType_eqb (bn_type (deref s r)) TRelationship) component)
    with (find (fun r => NodeType_eqb (bn_type (deref s' r)) TRelationship) component);
    [reflexivity|].
  induction component as [|r component IH]; [reflexivity|]. cbn [find].
  destruct (unplaced_fields s s' r H) as (_ & -> & _). now rewrite IH.
Qed.

Lemma componentDepths_unplaced fuel adjacency (s s' : list BackboneNode) component :
  unplaced <$> s = unplaced <$> s' ->
  componentDepths fuel adjacency s component = componentDepths fuel adjacency s' component.
Proof.
  intros H. unfold componentDepths. rewrite (findRoot_unplaced s s' component H).
  destruct (findRoot s' component) as [root|]; [|reflexivity].
  now destruct (unplaced_fields s s' root H) as (-> & _).
Qed.

Lemma depthOf_unplaced (s s' : list BackboneNode) depth r :
  unplaced <$> s = unplaced <$> s' -> depthOf s depth r = depthOf s' depth r.
Proof. intros H. unfold depthOf. now destruct (unplaced_fields s s' r H) as (-> & _). Qed.

Section ColumnsOfLayout.

Variable localeCompare : string -> string -> num.

Lemma layoutComponent_columns fuel adjacency style (store : list BackboneNode) offsetX
    component store' offsetX' :
  Forall (fun r => r < length store) component ->
  layoutComponent localeCompare fuel adjacency style (Some (store, offsetX)) component
    = Some (store', offsetX') ->
  exists depth,
    componentDepths fuel adjacency store component = Some depth
    /\ (forall r r', r ∈ component -> r' ∈ component ->
          depthOf store depth r = depthOf store depth r' ->
          bn_x (deref store' r) = bn_x (deref store' r'))
    /\ (forall r, r ∉ component -> deref store' r = deref store r)
    /\ length store' = length store.
Proof.
  intros Hvalid. unfold layoutComponent, componentDepths. cbn [mbind option_bind].
  destruct (findRoot store component) as [root|] eqn:Eroot.
  2:{ intros [= <- <-]. exists ∅. split; [reflexivity|].
      apply findRoot_None in Eroot. subst component.
      split; [intros r r' Hr; now apply elem_of_nil in Hr|]. split; reflexivity. }
  destruct (assignDepths fuel adjacency (bn_id (deref store root))) as [depth|];
    [|discriminate].
  cbn [mbind option_bind]. intros [= <- _]. exists depth. split; [reflexivity|].
  set (levels := buildLevels store depth component).
  set (xByDepth := assignLevelX (H_MARGIN style) store levels (orderedDepthsOf levels)).
  assert (Hx : forall r, r ∈ component ->
             bn_x (deref (fold_left (placeLevel localeCompare (V_MARGIN style) offsetX
                                       xByDepth levels) (orderedDepthsOf levels) store) r)
             = (offsetX + getOr0 xByDepth (depthOf store depth r))%num).
  { intros r Hr. apply placeLevels_x.
    - apply orderedDepths_NoDup.
    - now apply buildLevels_keys.
    - unfold levels. rewrite buildLevels_filter. apply list_elem_of_filter. now split.
    - intros d' Hne. unfold levels. rewrite buildLevels_filter, list_elem_of_filter.
      intros [E _]. congruence.
    - rewrite Forall_forall in Hvalid. now apply Hvalid. }
  split; [|split].
  - intros r r' Hr Hr' E. now rewrite (Hx r Hr), (Hx r' Hr'), E.
  - intros r Hr. apply placeLevels_frame. intros d _. unfold levels.
    rewrite buildLevels_filter, list_elem_of_filter. intros [_ Hin]. contradiction.
  - apply placeLevels_length.
Qed.

Lemma layoutComponents_columns fuel adjacency style components :
  forall (store : list BackboneNode) offsetX store' offsetX',
    NoDup (concat components) ->
    Forall (fun r => r < length store) (concat components) ->
    fold_left (layoutComponent localeCompare fuel adjacency style) components
      (Some (store, offsetX)) = Some (store', offsetX') ->
    (forall r, r ∉ concat components -> deref store' r = deref store r)
    /\ length store' = length store
    /\ Forall (fun component =>
                 exists depth,
                   componentDepths fuel adjacency store component = Some depth
                   /\ forall r r', r ∈ component -> r' ∈ component ->
                        depthOf store depth r = depthOf store depth r' ->
                        bn_x (deref store' r) = bn_x (deref store' r'))
              components.
Proof.
  induction components as [|c components IH]; intros store offsetX store' offsetX' Hnd Hvalid;
    cbn [fold_left].
  - intros [= <- <-]. split; [reflexivity|]. split; [reflexivity|constructor].
  - cbn [concat] in Hnd, Hvalid. apply NoDup_app in Hnd as (Hc & Hdisj & Hnd).
    apply Forall_app in Hvalid as [Hvc Hvalid].
    destruct (layoutComponent localeCompare fuel adjacency style (Some (store, offsetX)) c)
      as [[store1 offsetX1]|] eqn:E.
    2:{ rewrite fold_left_None; [discriminate|]. reflexivity. }
    intros H.
    destruct (layoutComponent_columns _ _ _ _ _ _ _ _ Hvc E) as (depth & Hd & Hcol & Hframe & Hlen).
    pose proof (layoutComponent_unplaced _ _ _ _ _ _ _ _ _ E) as Hun.
    destruct (IH store1 offsetX1 store' offsetX' Hnd) as (Hframe' & Hlen' & Hall);
      [now rewrite Hlen|assumption|].
    split; [|split; [congruence|]].
    + intros r Hr. cbn [concat] in Hr. apply not_elem_of_app in Hr as [Hrc Hr].
      rewrite Hframe' by assumption. now apply Hframe.
    + constructor.
      * exists depth. split; [assumption|]. intros r r' Hr Hr' Heq.
        rewrite (Hframe' r (Hdisj r Hr)), (Hframe' r' (Hdisj r' Hr')). now apply Hcol.
      * eapply Forall_impl; [exact Hall|]. intros c' (depth' & Hd' & Hcol').
        exists depth'. split; [now rewrite <- (componentDepths_unplaced _ _ _ _ _ Hun)|].
        intros r r' Hr Hr' Heq. apply Hcol'; [assumption..|].
        now rewrite !(depthOf_unplaced _ _ _ _ Hun).
Qed.

End ColumnsOfLayout.

Lemma deref_applyOffsets (store : list BackboneNode) r :
  r < length store ->
  bn_x (deref (applyOffsets store) r)
  = (bn_x (deref store r) + offsetX (bn_nodeStyle (deref store r)))%num
  /\ bn_nodeStyle (deref (applyOffsets store) r) = bn_nodeStyle (deref store r).
Proof.
  intros Hr. destruct (lookup_lt_is_Some_2 store r Hr) as [node Hn].
  unfold deref, applyOffsets. change (map ?f ?l) with (f <$> l).
  rewrite (list_lookup_total_correct _ _ _ Hn).
  erewrite list_lookup_total_correct; [|rewrite list_lookup_fmap, Hn; reflexivity].
  split; reflexivity.
Qed.
(** ** The place of every node of a layout *)

Lemma unplaced_envY (s s' : list BackboneNode) r :
  unplaced <$> s = unplaced <$> s' -> envY s r = envY s' r.
Proof.
  intros H. unfold envY, deref.
  pose proof (f_equal (fun l => l !! r) H) as Hr. cbn beta in Hr.
  rewrite !list_lookup_fmap in Hr. rewrite !list_lookup_total_alt.
  destruct (s !! r) as [n|], (s' !! r) as [n'|]; cbn in Hr |- *; try discriminate;
    [|reflexivity].
  apply (inj Some) in Hr. exact (f_equal bn_envelopeY Hr).
Qed.

Lemma buildLevels_unplaced (s s' : list BackboneNode) depth component :
  unplaced <$> s = unplaced <$> s' ->
  buildLevels s depth component = buildLevels s' depth component.
Proof.
  intros H. unfold buildLevels. generalize (@nil (nat * list nat)).
  induction component as [|r component IH]; intros levels; [reflexivity|]. cbn [fold_left].
  rewrite (depthOf_unplaced s s' depth r H). apply IH.
Qed.

Lemma assignLevelX_unplaced hMargin (s s' : list BackboneNode) levels depths :
  unplaced <$> s = unplaced <$> s' ->
  assignLevelX hMargin s levels depths = assignLevelX hMargin s' levels depths.
Proof.
  intros H. unfold assignLevelX. f_equal.
  generalize (∅ : gmap nat num, @None nat).
  induction depths as [|d depths IH]; intros acc; [reflexivity|]. cbn [fold_left].
  rewrite <- IH. f_equal. destruct acc as [xByDepth [prev|]]; [|reflexivity].
  unfold maxEnvelopeX.
  rewrite (map_deref_sim bn_envelopeX s s' (default [] (levelsGet prev levels))),
          (map_deref_sim bn_envelopeX s s' (default [] (levelsGet d levels)));
    [reflexivity| |]; intros r; now destruct (unplaced_fields s s' r H) as (_ & _ & -> & _).
Qed.

Lemma stacked_values (f : num -> num -> num) (s : list BackboneNode) (l : list nat)
    (ys : list num) :
  Forall2 (fun r y => bn_y (deref s r) = y) l ys ->
  map (fun r => f (bn_y (deref s r)) (bn_envelopeY (deref s r))) l
  = zip_with f ys (envY s <$> l).
Proof.
  induction 1 as [|r y l ys Hy _ IH]; [reflexivity|].
  cbn [map zip_with fmap list_fmap]. rewrite IH. unfold envY at 1. now rewrite Hy.
Qed.

Section Placement.

Variable localeCompare : string -> string -> num.

Lemma sortLevel_unplaced (s s' : list BackboneNode) rs :
  unplaced <$> s = unplaced <$> s' ->
  sortLevel localeCompare s rs = sortLevel localeCompare s' rs.
Proof.
  intros H. unfold sortLevel. apply jsSort_ext. intros a b.
  destruct (unplaced_fields s s' a H) as (-> & _).
  destruct (unplaced_fields s s' b H) as (-> & _). reflexivity.
Qed.

(** A level is stacked in the order of its sorted nodes and centred. *)
Lemma placeLevel_y vMargin offsetX xByDepth levels (store : list BackboneNode) d :
  NoDup (default [] (levelsGet d levels)) ->
  Forall (fun r => r < length store) (default [] (levelsGet d levels)) ->
  Forall2 (fun r y =>
             bn_y (deref (placeLevel localeCompare vMargin offsetX xByDepth levels store d) r)
             = y)
    (sortLevel localeCompare store (default [] (levelsGet d levels)))
    (stackedY vMargin
       (envY store <$> sortLevel localeCompare store (default [] (levelsGet d levels)))).
Proof.
  intros Hnd Hvalid.
  set (level := default [] (levelsGet d levels)) in *.
  assert (Hperm : sortLevel localeCompare store level ≡ₚ level) by apply jsSort_perm.
  unfold placeLevel. fold level.
  destruct (sortLevel localeCompare store level) as [|first rest] eqn:Esorted.
  { constructor. }
  set (sorted := first :: rest) in *.
  assert (Hnd' : NoDup sorted) by now rewrite Hperm.
  assert (Hvalid' : Forall (fun r => r < length store) sorted) by now rewrite Hperm.
  pose proof Hnd' as Hnds. pose proof Hvalid' as Hvalids.
  apply NoDup_cons in Hnd' as [Hfirst Hndrest].
  apply Forall_cons in Hvalid' as [Hfv Hrv].
  cbv zeta.
  set (s1 := update first (setY 0%num) store).
  pose proof (sameShape_update first (setY 0%num) store (setY_moves _)) as Hshape1.
  fold s1 in Hshape1.
  destruct (stackY_spec vMargin first rest s1 Hndrest) as (Hshape2 & Hys & Hframe).
  { unfold s1. rewrite update_length. assumption. }
  set (s2 := stackY vMargin first rest s1) in *.
  assert (Henv1 : forall r, envY s1 r = envY store r) by (intros r; apply Hshape1).
  assert (Henv2 : forall r, envY s2 r = envY store r).
  { intros r. destruct Hshape2 as [_ H2]. destruct (H2 r) as [_ E].
    unfold envY. rewrite E. apply Henv1. }
  rewrite Henv1 in Hys.
  erewrite list_fmap_ext in Hys; [|intros ? ? _; apply Henv1].
  assert (Hys' : Forall2 (fun r y => bn_y (deref s2 r) = y) sorted
                   (stackPositions vMargin (envY store <$> sorted))).
  { unfold sorted. cbn [fmap list_fmap stackPositions].
    constructor; [|exact Hys]. rewrite Hframe by assumption.
    unfold s1. rewrite deref_update_eq by assumption. reflexivity. }
  set (ys := stackPositions vMargin (envY store <$> sorted)) in *.
  assert (Henvs : envY s2 <$> sorted = envY store <$> sorted)
    by (apply list_fmap_ext; intros ? ? _; apply Henv2).
  rewrite (stacked_values nsub s2 sorted ys Hys'), (stacked_values nadd s2 sorted ys Hys').
  rewrite Henvs. fold (levelCentre ys (envY store <$> sorted)).
  set (c := levelCentre ys (envY store <$> sorted)).
  set (g := fun node : BackboneNode => _).
  destruct (update_all_fold g sorted s2) as (_ & Hin & _); [assumption| |].
  { destruct Hshape2 as [-> _]. unfold s1. rewrite update_length. assumption. }
  unfold stackedY. fold ys. fold c.
  apply Forall2_same_length_lookup. split.
  { rewrite length_fmap. eapply Forall2_length; eassumption. }
  intros i r y Hi Hy. rewrite list_lookup_fmap in Hy.
  destruct (ys !! i) as [p|] eqn:Ep; [|discriminate]. cbn in Hy. injection Hy as <-.
  rewrite (Hin r) by (eapply list_elem_of_lookup_2; eassumption).
  unfold g. cbn [setY setX bn_y].
  now rewrite (Forall2_lookup_lr _ _ _ _ _ _ Hys' Hi Ep).
Qed.


Lemma placeLevels_y vMargin offsetX xByDepth levels depths d :
  forall store : list BackboneNode,
    NoDup depths -> d ∈ depths ->
    NoDup (default [] (levelsGet d levels)) ->
    Forall (fun r => r < length store) (default [] (levelsGet d levels)) ->
    (forall d' r, d' <> d -> r ∈ default [] (levelsGet d levels) ->
                  r ∉ default [] (levelsGet d' levels)) ->
    Forall2 (fun r y =>
               bn_y (deref (fold_left (placeLevel localeCompare vMargin offsetX xByDepth levels)
                              depths store) r) = y)
      (sortLevel localeCompare store (default [] (levelsGet d levels)))
      (stackedY vMargin
         (envY store <$> sortLevel localeCompare store (default [] (levelsGet d levels)))).
Proof.
  induction depths as [|d0 depths IH]; intros store Hnd Hd Hndl Hvalid Hother; cbn [fold_left].
  - now apply elem_of_nil in Hd.
  - apply NoDup_cons in Hnd as [Hd0 Hnd].
    destruct (decide (d0 = d)) as [->|Hne].
    + pose proof (placeLevel_y vMargin offsetX xByDepth levels store d Hndl Hvalid) as H.
      apply Forall2_same_length_lookup in H as [Hlen H].
      apply Forall2_same_length_lookup. split; [assumption|]. intros i r y Hi Hy.
      rewrite placeLevels_frame; [now apply (H i r y)|].
      intros d' Hd'. apply Hother; [intros ->; contradiction|].
      apply list_elem_of_lookup_2 in Hi. unfold sortLevel in Hi.
      now rewrite jsSort_perm in Hi.
    + apply elem_of_cons in Hd as [->|Hd]; [congruence|].
      pose proof (placeLevel_unplaced localeCompare vMargin offsetX xByDepth levels store d0)
        as Hun.
      rewrite <- (sortLevel_unplaced _ _ _ Hun).
      erewrite (list_fmap_ext (envY store)); [|intros ? r _; symmetry; apply (unplaced_envY _ _ r Hun)].
      apply IH; try assumption. now rewrite placeLevel_length.
Qed.

Lemma level_unplaced (s s' : list BackboneNode) depth (d : nat) (component : list nat) :
  unplaced <$> s = unplaced <$> s' ->
  filter (fun r => depthOf s depth r = d) component
  = filter (fun r => depthOf s' depth r = d) component.
Proof.
  intros H. induction component as [|r component IH]; [reflexivity|].
  rewrite !filter_cons, IH, (depthOf_unplaced s s' depth r H). reflexivity.
Qed.

(** The layout of one component, read on the nodes [nodes] that the store had
    before any component was laid out. *)
Lemma layoutComponent_placed fuel adjacency style (nodes store : list BackboneNode) offsetX
    component store' offsetX' :
  unplaced <$> store = unplaced <$> nodes ->
  NoDup component ->
  Forall (fun r => r < length store) component ->
  layoutComponent localeCompare fuel adjacency style (Some (store, offsetX)) component
    = Some (store', offsetX') ->
  exists depth,
    componentDepths fuel adjacency nodes component = Some depth
    /\ (forall r, r ∈ component ->
          bn_x (deref store' r)
          = (offsetX
             + getOr0 (assignLevelX (H_MARGIN style) nodes
                         (buildLevels nodes depth component)
                         (orderedDepthsOf (buildLevels nodes depth component)))
                      (depthOf nodes depth r))%num)
    /\ (forall d,
          Forall2 (fun r y => bn_y (deref store' r) = y)
            (sortLevel localeCompare nodes
               (filter (fun r => depthOf nodes depth r = d) component))
            (stackedY (V_MARGIN style)
               (envY nodes <$> sortLevel localeCompare nodes
                                 (filter (fun r => depthOf nodes depth r = d) component))))
    /\ (forall r, r ∉ component -> deref store' r = deref store r)
    /\ length store' = length store.
Proof.
  intros Hun Hndc Hvalid. unfold layoutComponent. cbn [mbind option_bind].
  rewrite <- (componentDepths_unplaced fuel adjacency store nodes component Hun).
  unfold componentDepths.
  destruct (findRoot store component) as [root|] eqn:Eroot.
  2:{ intros [= <- <-]. exists ∅. split; [reflexivity|].
      apply findRoot_None in Eroot. subst component.
      split; [intros r Hr; now apply elem_of_nil in Hr|].
      split; [intros d; constructor|]. split; reflexivity. }
  destruct (assignDepths fuel adjacency (bn_id (deref store root))) as [depth|];
    [|discriminate].
  cbn [mbind option_bind]. intros [= <- _]. exists depth. split; [reflexivity|].
  rewrite <- (buildLevels_unplaced store nodes depth component Hun).
  rewrite <- (assignLevelX_unplaced _ store nodes _ _ Hun).
  set (levels := buildLevels store depth component).
  set (xByDepth := assignLevelX (H_MARGIN style) store levels (orderedDepthsOf levels)).
  assert (Hlevel : forall d, default [] (levelsGet d levels)
                             = filter (fun r => depthOf store depth r = d) component)
    by (intros d; apply buildLevels_filter).
  split; [|split; [|split]].
  - intros r Hr. rewrite <- (depthOf_unplaced store nodes depth r Hun).
    apply placeLevels_x.
    + apply orderedDepths_NoDup.
    + now apply buildLevels_keys.
    + rewrite Hlevel. apply list_elem_of_filter. now split.
    + intros d' Hne. rewrite Hlevel, list_elem_of_filter. intros [E _]. congruence.
    + rewrite Forall_forall in Hvalid. now apply Hvalid.
  - intros d. rewrite <- (level_unplaced store nodes depth d component Hun).
    rewrite <- (sortLevel_unplaced store nodes _ Hun).
    erewrite (list_fmap_ext (envY nodes));
      [|intros ? r _; symmetry; apply (unplaced_envY _ _ r Hun)].
    rewrite <- Hlevel.
    destruct (decide (d ∈ orderedDepthsOf levels)) as [Hd|Hd].
    + apply placeLevels_y.
      * apply orderedDepths_NoDup.
      * assumption.
      * rewrite Hlevel. now apply NoDup_filter.
      * rewrite Hlevel. apply Forall_forall. intros r Hr.
        apply list_elem_of_filter in Hr as [_ Hr]. rewrite Forall_forall in Hvalid.
        now apply Hvalid.
      * intros d' r Hne. rewrite !Hlevel, !list_elem_of_filter. intros [E _] [E' _].
        congruence.
    + assert (Hnil : default [] (levelsGet d levels) = []).
      { rewrite Hlevel. destruct (filter _ component) as [|r l] eqn:Ef; [reflexivity|].
        exfalso. apply Hd.
        assert (Hr : r ∈ filter (fun r => depthOf store depth r = d) component)
          by (rewrite Ef; now left).
        apply list_elem_of_filter in Hr as [<- Hr]. now apply buildLevels_keys. }
      rewrite Hnil. constructor.
  - intros r Hr. apply placeLevels_frame. intros d _.
    rewrite Hlevel, list_elem_of_filter. intros [_ Hin]. contradiction.
  - apply placeLevels_length.
Qed.

Lemma layoutComponents_placed fuel adjacency style (nodes : list BackboneNode) components :
  forall (store : list BackboneNode) offsetX store' offsetX',
    unplaced <$> store = unplaced <$> nodes ->
    NoDup (concat components) ->
    Forall (fun r => r < length store) (concat components) ->
    fold_left (layoutComponent localeCompare fuel adjacency style) components
      (Some (store, offsetX)) = Some (store', offsetX') ->
    (forall r, r ∉ concat components -> deref store' r = deref store r)
    /\ length store' = length store
    /\ Forall (fun component =>
                 exists depth,
                   componentDepths fuel adjacency nodes component = Some depth
                   /\ (exists base, forall r, r ∈ component ->
                         bn_x (deref store' r)
                         = (base
                            + getOr0 (assignLevelX (H_MARGIN style) nodes
                                        (buildLevels nodes depth component)
                                        (orderedDepthsOf (buildLevels nodes depth component)))
                                     (depthOf nodes depth r))%num)
                   /\ forall d,
                        Forall2 (fun r y => bn_y (deref store' r) = y)
                          (sortLevel localeCompare nodes
                             (filter (fun r => depthOf nodes depth r = d) component))
                          (stackedY (V_MARGIN style)
                             (envY nodes <$> sortLevel localeCompare nodes
                                (filter (fun r => depthOf nodes depth r = d) component))))
              components.
Proof.
  induction components as [|c components IH];
    intros store offsetX store' offsetX' Hun Hnd Hvalid; cbn [fold_left].
  - intros [= <- <-]. split; [reflexivity|]. split; [reflexivity|constructor].
  - cbn [concat] in Hnd, Hvalid. apply NoDup_app in Hnd as (Hc & Hdisj & Hnd).
    apply Forall_app in Hvalid as [Hvc Hvalid].
    destruct (layoutComponent localeCompare fuel adjacency style (Some (store, offsetX)) c)
      as [[store1 offsetX1]|] eqn:E.
    2:{ rewrite fold_left_None; [discriminate|]. reflexivity. }
    intros H.
    destruct (layoutComponent_placed _ _ _ nodes _ _ _ _ _ Hun Hc Hvc E)
      as (depth & Hd & Hx & Hy & Hframe & Hlen).
    pose proof (layoutComponent_unplaced _ _ _ _ _ _ _ _ _ E) as Hun1.
    destruct (IH store1 offsetX1 store' offsetX') as (Hframe' & Hlen' & Hall);
      [congruence|assumption|now rewrite Hlen|assumption|].
    split; [|split; [congruence|]].
    + intros r Hr. cbn [concat] in Hr. apply not_elem_of_app in Hr as [Hrc Hr].
      rewrite Hframe' by assumption. now apply Hframe.
    + constructor; [|exact Hall].
      exists depth. split; [assumption|]. split.
      * exists offsetX. intros r Hr. rewrite (Hframe' r (Hdisj r Hr)). now apply Hx.
      * intros d. specialize (Hy d).
        apply Forall2_same_length_lookup in Hy as [Hl Hy].
        apply Forall2_same_length_lookup. split; [assumption|]. intros i r y Hi Hyi.
        rewrite Hframe'; [now apply (Hy i r y)|]. apply Hdisj.
        apply list_elem_of_lookup_2 in Hi. unfold sortLevel in Hi.
        rewrite jsSort_perm in Hi. now apply list_elem_of_filter in Hi as [_ Hi].
Qed.

Lemma deref_applyOffsets_y (store : list BackboneNode) r :
  r < length store ->
  bn_y (deref (applyOffsets store) r)
  = (bn_y (deref store r) + offsetY (bn_nodeStyle (deref store r)))%num.
Proof.
  intros Hr. destruct (lookup_lt_is_Some_2 store r Hr) as [node Hn].
  unfold deref, applyOffsets. change (map ?f ?l) with (f <$> l).
  rewrite (list_lookup_total_correct _ _ _ Hn).
  erewrite list_lookup_total_correct; [|rewrite list_lookup_fmap, Hn; reflexivity].
  reflexivity.
Qed.

(** Every component of a model is placed as [componentPlaced] says. *)
Lemma layout_placed fuel model style nodeOverrides layout componentsWithDepths :
  buildBackboneLayout localeCompare fuel model style nodeOverrides = Some layout ->
  backboneDepths fuel model style nodeOverrides = Some componentsWithDepths ->
  Forall (fun '(component, depth) =>
            componentPlaced localeCompare style (modelNodes model style nodeOverrides)
              (l_nodes layout) component depth)
         componentsWithDepths.
Proof.
  unfold buildBackboneLayout, backboneDepths. cbv zeta.
  rewrite <- (buildNodes_nodes model style nodeOverrides).
  destruct (buildNodes model style nodeOverrides) as [[store nodeById] adjacency0].
  destruct (buildEdges model (store, nodeById, adjacency0)) as [adjacency edges].
  cbn [fst snd].
  destruct (connectedComponents fuel store adjacency) as [components|] eqn:E; [|discriminate].
  cbn [mbind option_bind].
  destruct (fold_left _ components (Some (store, 0%num))) as [[store' offsetX']|] eqn:El;
    [|discriminate].
  cbn [mbind option_bind]. intros [= <-] H. cbn [l_nodes]. apply mapM_Some in H.
  destruct (components_distinct fuel store adjacency components E) as [Hnd Hvalid].
  destruct (layoutComponents_placed fuel adjacency style store components
              store 0%num store' offsetX' eq_refl Hnd Hvalid El) as (_ & Hlen & Hall).
  assert (Hin : Forall (fun component => Forall (fun r => r < length store) component)
                  components).
  { clear -Hvalid. induction components as [|c components IH]; [constructor|].
    cbn [concat] in Hvalid. apply Forall_app in Hvalid as [Hc Hvalid].
    constructor; [assumption|now apply IH]. }
  clear E El Hnd Hvalid. revert Hall Hin.
  induction H as [|component [c depth] components cds Hd _ IH]; intros Hall Hin;
    [constructor|].
  apply Forall_cons in Hall as [(depth' & Hd' & [base Hx] & Hy) Hall].
  apply Forall_cons in Hin as [Hc Hin].
  constructor; [|now apply IH].
  rewrite Hd' in Hd. cbn [mbind option_bind] in Hd. injection Hd as <- <-.
  rewrite Forall_forall in Hc.
  split.
  - exists base. intros r Hr.
    destruct (deref_applyOffsets store' r) as [Ex Es]; [rewrite Hlen; now apply Hc|].
    rewrite Ex, Es, (Hx r Hr). reflexivity.
  - intros d sorted. specialize (Hy d). fold sorted in Hy.
    apply Forall2_same_length_lookup in Hy as [Hl Hy].
    apply Forall2_same_length_lookup. split; [assumption|]. intros i r y Hi Hyi.
    assert (Hr : r ∈ component).
    { apply list_elem_of_lookup_2 in Hi. unfold sorted, sortLevel in Hi.
      rewrite jsSort_perm in Hi. now apply list_elem_of_filter in Hi as [_ Hi]. }
    destruct (deref_applyOffsets store' r) as [_ Es]; [rewrite Hlen; now apply Hc|].
    rewrite deref_applyOffsets_y by (rewrite Hlen; now apply Hc).
    rewrite Es, (Hy i r y Hi Hyi). reflexivity.
Qed.

End Placement.

(** ** The order of a level and the margins, in the layout of a model *)

Lemma nleb_add_nonneg a b :
  (0 <=? a)%num = true -> (0 <=? b)%num = true ->
  (0 <=? a + b)%num = true /\ (a <=? a + b)%num = true.
Proof.
  destruct a as [| |x|], b as [| |y|]; try discriminate; try (split; reflexivity).
  unfold nleb, nadd, fin. rewrite !Qle_bool_iff, !Qred_correct. lra.
Qed.

Lemma nltb_sub_mono a b c : (a <=? b)%num = true -> (b - c <? a - c)%num = false.
Proof.
  destruct a as [| |x|], b as [| |y|], c as [| |z|]; try discriminate; try reflexivity.
  unfold nleb, nltb, nsub, nadd, nneg, fin. intros H.
  apply negb_false_iff, Qle_bool_iff. apply Qle_bool_iff in H.
  rewrite !Qred_correct. lra.
Qed.

(** The cursor never moves back when the half-heights and the margin are not
    negative. *)
Lemma positionsFrom_nondecreasing vMargin y pe envelopes :
  (0 <=? y)%num = true -> (0 <=? pe)%num = true ->
  Forall (fun e => (0 <=? e)%num = true) envelopes -> (0 <=? vMargin)%num = true ->
  StronglySorted (fun a b => (a <=? b)%num = true) (y :: positionsFrom vMargin y pe envelopes).
Proof.
  intros Hy Hpe Hes Hvm. revert y pe Hy Hpe.
  induction Hes as [|e envelopes He Hes IH]; intros y pe Hy Hpe; cbn [positionsFrom].
  - repeat constructor.
  - destruct (nleb_add_nonneg pe e Hpe He) as [H1 _].
    destruct (nleb_add_nonneg _ vMargin H1 Hvm) as [H2 _].
    destruct (nleb_add_nonneg y _ Hy H2) as [H3 Hstep].
    specialize (IH _ e H3 He).
    constructor; [assumption|].
    constructor; [assumption|].
    inversion IH as [|? ? _ Hall]; subst.
    eapply Forall_impl; [exact Hall|]. intros z Hz. cbn beta in Hz |- *.
    eapply nleb_below; eassumption.
Qed.

Lemma stackedY_nondecreasing vMargin envelopes i j ya yb :
  (0 <=? vMargin)%num = true ->
  Forall (fun e => (0 <=? e)%num = true) envelopes ->
  i < j ->
  stackedY vMargin envelopes !! i = Some ya ->
  stackedY vMargin envelopes !! j = Some yb ->
  (yb <? ya)%num = false.
Proof.
  intros Hvm Henv Hij. unfold stackedY. cbv zeta.
  set (c := levelCentre _ _). rewrite !list_lookup_fmap.
  destruct (stackPositions vMargin envelopes !! i) as [pa|] eqn:Ea; [|discriminate].
  destruct (stackPositions vMargin envelopes !! j) as [pb|] eqn:Eb; [|discriminate].
  cbn. intros [= <-] [= <-]. apply nltb_sub_mono.
  destruct envelopes as [|e rest]; [cbn [stackPositions] in Ea; now rewrite lookup_nil in Ea|].
  apply Forall_cons in Henv as [He Hrest]. cbn [stackPositions] in Ea, Eb.
  eapply (StronglySorted_lookup (fun a b => (a <=? b)%num = true)); [|exact Hij|exact Ea|exact Eb].
  apply positionsFrom_nondecreasing; [reflexivity|assumption..].
Qed.

(** The first level of a component stands at the offset of the component. *)
Lemma assignLevelX_first hMargin (store : list BackboneNode) levels orderedDepths d :
  NoDup orderedDepths -> orderedDepths !! 0%nat = Some d ->
  getOr0 (assignLevelX hMargin store levels orderedDepths) d = 0%num.
Proof.
  destruct orderedDepths as [|d0 l]; [discriminate|]. intros Hnd [= ->].
  apply NoDup_cons in Hnd as [Hd _].
  unfold assignLevelX. cbn [fold_left].
  set (F := fun '(xByDepth, prevDepth) d => _).
  assert (H : forall (m : gmap nat num) p,
             (fold_left F l (m, Some p)).1 !! d = m !! d).
  { clear -Hd. induction l as [|x l IH]; intros m p; [reflexivity|].
    apply not_elem_of_cons in Hd as [Hx Hd]. cbn [fold_left]. unfold F at 2.
    rewrite (IH Hd). apply lookup_insert_ne. congruence. }
  unfold getOr0. fold F. rewrite H, lookup_insert_eq. reflexivity.
Qed.

Section LevelsOfLayout.

Variable localeCompare : string -> string -> num.

Hypothesis before_after : forall a b,
  (localeCompare a b <? 0)%num = true -> (0 <? localeCompare b a)%num = true.
Hypothesis after_asym : forall a b,
  (0 <? localeCompare a b)%num = true -> (0 <? localeCompare b a)%num = false.
Hypothesis notAfter_trans : forall a b c,
  (0 <? localeCompare a b)%num = false -> (0 <? localeCompare b c)%num = false ->
  (0 <? localeCompare a c)%num = false.

(** C2, as the code has it.  In the layout of any model the nodes of a level,
    that is the nodes of one component that have the same depth, are sorted by
    their id, not by their display name, with the locale-aware comparison, and
    stacked in that order.  For a consistent comparison: the sorted level holds
    the nodes of the level; of two nodes of the level, the one whose id compares
    first comes first in it; the y of each node in the finished layout is its
    stacked position in that order (the cursor position, starting at 0 and
    advanced by the two envelope half-heights and the vertical margin, moved so
    that the level is centred on 0) plus the node's own offset; and when the
    vertical margin and the half-heights of the level are not negative, a
    stacked position is never smaller than one that comes before it. *)
Theorem levels_stacked_by_id fuel model style nodeOverrides layout componentsWithDepths :
  buildBackboneLayout localeCompare fuel model style nodeOverrides = Some layout ->
  backboneDepths fuel model style nodeOverrides = Some componentsWithDepths ->
  let nodes := modelNodes model style nodeOverrides in
  let placed := l_nodes layout in
  Forall (fun '(component, depth) =>
            forall d,
              let level := filter (fun r => depthOf nodes depth r = d) component in
              let sorted := sortLevel localeCompare nodes level in
              let ys := stackedY (V_MARGIN style) (envY nodes <$> sorted) in
              sorted ≡ₚ level
              /\ (forall a b, a ∈ level -> b ∈ level ->
                    (localeCompare (idOf nodes a) (idOf nodes b) <? 0)%num = true ->
                    exists i j, i < j /\ sorted !! i = Some a /\ sorted !! j = Some b)
              /\ Forall2 (fun r y =>
                            bn_y (deref placed r)
                            = (y + offsetY (bn_nodeStyle (deref placed r)))%num)
                   sorted ys
              /\ ((0 <=? V_MARGIN style)%num = true ->
                  Forall (fun r => (0 <=? envY nodes r)%num = true) level ->
                  forall i j ya yb,
                    i < j -> ys !! i = Some ya -> ys !! j = Some yb ->
                    (yb <? ya)%num = false))
         componentsWithDepths.
Proof.
  intros Hl Hd nodes placed.
  pose proof (layout_placed localeCompare fuel model style nodeOverrides layout
                componentsWithDepths Hl Hd) as H.
  eapply Forall_impl; [exact H|]. intros [component depth] [_ Hy] d level sorted ys.
  assert (Hperm : sorted ≡ₚ level) by apply jsSort_perm.
  split; [assumption|]. split; [|split].
  - intros a b Ha Hb Hab.
    set (cmp := fun x y => localeCompare (bn_id (deref nodes x)) (bn_id (deref nodes y))).
    assert (Hsorted : StronglySorted (notAfter cmp) sorted).
    { apply jsSort_sorted; unfold notAfter; intros; eauto. }
    rewrite <- Hperm in Ha, Hb.
    apply list_elem_of_lookup in Ha as [i Hi]. apply list_elem_of_lookup in Hb as [j Hj].
    exists i, j. split; [|split; assumption].
    unfold idOf in Hab.
    destruct (lt_eq_lt_dec i j) as [[Hlt|Heq]|Hgt]; [assumption| |].
    + subst j. assert (a = b) by congruence. subst b.
      pose proof (before_after _ _ Hab) as H1.
      pose proof (after_asym _ _ H1). congruence.
    + pose proof (StronglySorted_lookup _ _ _ _ _ _ Hsorted Hgt Hj Hi) as Hna.
      unfold notAfter, cmp in Hna.
      pose proof (before_after _ _ Hab). congruence.
  - exact (Hy d).
  - intros Hvm Henv i j ya yb Hij Hi Hj.
    apply (stackedY_nondecreasing (V_MARGIN style) (envY nodes <$> sorted) i j);
      try assumption.
    apply Forall_fmap. rewrite Hperm. exact Henv.
Qed.

End LevelsOfLayout.

(** The model whose names sort against its ids, under the comparison by code
    points: the hypotheses of [levels_stacked_by_id] hold. *)
Lemma levels_stacked_by_id_witness :
  (forall a b, (asciiCompare a b <? 0)%num = true -> (0 <? asciiCompare b a)%num = true)
  /\ (forall a b, (0 <? asciiCompare a b)%num = true -> (0 <? asciiCompare b a)%num = false)
  /\ (forall a b c, (0 <? asciiCompare a b)%num = false ->
                    (0 <? asciiCompare b c)%num = false ->
                    (0 <? asciiCompare a c)%num = false)
  /\ exists layout componentsWithDepths,
       buildBackboneLayout asciiCompare (modelFuel swappedNames) swappedNames
         DEFAULT_CHEN_STYLE ∅ = Some layout
       /\ backboneDepths (modelFuel swappedNames) swappedNames DEFAULT_CHEN_STYLE ∅
          = Some componentsWithDepths
       /\ let nodes := modelNodes swappedNames DEFAULT_CHEN_STYLE ∅ in
          let placed := l_nodes layout in
          Forall (fun '(component, depth) =>
                    forall d,
                      let level := filter (fun r => depthOf nodes depth r = d) component in
                      let sorted := sortLevel asciiCompare nodes level in
                      let ys := stackedY (V_MARGIN DEFAULT_CHEN_STYLE) (envY nodes <$> sorted) in
                      sorted ≡ₚ level
                      /\ (forall a b, a ∈ level -> b ∈ level ->
                            (asciiCompare (idOf nodes a) (idOf nodes b) <? 0)%num = true ->
                            exists i j, i < j /\ sorted !! i = Some a /\ sorted !! j = Some b)
                      /\ Forall2 (fun r y =>
                                    bn_y (deref placed r)
                                    = (y + offsetY (bn_nodeStyle (deref placed r)))%num)
                           sorted ys
                      /\ ((0 <=? V_MARGIN DEFAULT_CHEN_STYLE)%num = true ->
                          Forall (fun r => (0 <=? envY nodes r)%num = true) level ->
                          forall i j ya yb,
                            i < j -> ys !! i = Some ya -> ys !! j = Some yb ->
                            (yb <? ya)%num = false))
                 componentsWithDepths.
Proof.
  split; [exact asciiCompare_before_after|].
  split; [exact asciiCompare_asym|].
  split; [exact asciiCompare_trans|].
  eexists. eexists. split; [vm_compute; reflexivity|]. split; [vm_compute; reflexivity|].
  apply (levels_stacked_by_id asciiCompare asciiCompare_before_after asciiCompare_asym
           asciiCompare_trans (modelFuel swappedNames) swappedNames DEFAULT_CHEN_STYLE ∅);
    vm_compute; reflexivity.
Defined.

Section GapFallback.

Variable localeCompare : string -> string -> num.

(** C10.  When the horizontal gap of the style is 0 or NaN the layout takes 260
    as its horizontal margin, which is not the default gap 200, and the finished
    layout of any model is spaced with it: in every component each node stands
    at the offset of the component plus the x of its level plus its own offset,
    where the first level has x 0 and every later level lies beyond the level
    before it by the widest envelopes of the two levels plus 260.  Likewise,
    when the vertical gap is 0 or NaN the vertical margin is 170, not the
    default 125, and the nodes of every level are stacked with it. *)
Theorem gap_fallback_in_layout fuel model style nodeOverrides layout componentsWithDepths :
  buildBackboneLayout localeCompare fuel model style nodeOverrides = Some layout ->
  backboneDepths fuel model style nodeOverrides = Some componentsWithDepths ->
  let nodes := modelNodes model style nodeOverrides in
  let placed := l_nodes layout in
  (hGap style = 0%num \/ hGap style = NaN ->
   H_MARGIN style = 260%num
   /\ H_MARGIN style <> hGap DEFAULT_CHEN_STYLE
   /\ Forall (fun '(component, depth) =>
                let level := fun d => filter (fun r => depthOf nodes depth r = d) component in
                let levels := buildLevels nodes depth component in
                let orderedDepths := orderedDepthsOf levels in
                let xByDepth := assignLevelX 260%num nodes levels orderedDepths in
                (exists base : num, forall r, r ∈ component ->
                   bn_x (deref placed r)
                   = (base + getOr0 xByDepth (depthOf nodes depth r)
                      + offsetX (bn_nodeStyle (deref placed r)))%num)
                /\ (forall d, orderedDepths !! 0%nat = Some d -> getOr0 xByDepth d = 0%num)
                /\ forall i prev d,
                     orderedDepths !! i = Some prev -> orderedDepths !! S i = Some d ->
                     xByDepth !! d
                     = Some (getOr0 xByDepth prev
                             + maxEnvelopeX nodes (level prev)
                             + maxEnvelopeX nodes (level d)
                             + 260)%num)
             componentsWithDepths)
  /\ (vGap style = 0%num \/ vGap style = NaN ->
      V_MARGIN style = 170%num
      /\ V_MARGIN style <> vGap DEFAULT_CHEN_STYLE
      /\ Forall (fun '(component, depth) =>
                   forall d,
                     let sorted :=
                       sortLevel localeCompare nodes
                         (filter (fun r => depthOf nodes depth r = d) component) in
                     Forall2 (fun r y =>
                                bn_y (deref placed r)
                                = (y + offsetY (bn_nodeStyle (deref placed r)))%num)
                       sorted (stackedY 170%num (envY nodes <$> sorted)))
                componentsWithDepths).
Proof.
  intros Hl Hd nodes placed.
  pose proof (layout_placed localeCompare fuel model style nodeOverrides layout
                componentsWithDepths Hl Hd) as H.
  split.
  - intros Hgap.
    assert (Hm : H_MARGIN style = 260%num)
      by (unfold H_MARGIN, Number; destruct Hgap as [-> | ->]; reflexivity).
    split; [assumption|]. split; [rewrite Hm; discriminate|].
    eapply Forall_impl; [exact H|]. intros [component depth] [Hx _].
    cbv zeta in Hx |- *. rewrite Hm in Hx. split; [exact Hx|]. split.
    + intros d Hd0. apply assignLevelX_first; [apply orderedDepths_NoDup|assumption].
    + intros i prev d Hi Hj.
      rewrite (assignLevelX_spec _ _ _ _ (orderedDepths_NoDup _ _ _) i prev d Hi Hj).
      now rewrite !buildLevels_filter.
  - intros Hgap.
    assert (Hm : V_MARGIN style = 170%num)
      by (unfold V_MARGIN, Number; destruct Hgap as [-> | ->]; reflexivity).
    split; [assumption|]. split; [rewrite Hm; discriminate|].
    eapply Forall_impl; [exact H|]. intros [component depth] [_ Hy] d.
    specialize (Hy d). cbv zeta in Hy |- *. now rewrite Hm in Hy.
Qed.

End GapFallback.

(** The users and orders example with both gaps 0, under the comparison by code
    points: the hypotheses of [gap_fallback_in_layout] hold. *)
Lemma gap_fallback_in_layout_witness :
  (hGap zeroGap = 0%num /\ vGap zeroGap = 0%num)
  /\ exists layout componentsWithDepths,
       buildBackboneLayout asciiCompare (modelFuel usersOrders) usersOrders zeroGap ∅
       = Some layout
       /\ backboneDepths (modelFuel usersOrders) usersOrders zeroGap ∅
          = Some componentsWithDepths
       /\ let nodes := modelNodes usersOrders zeroGap ∅ in
          let placed := l_nodes layout in
          (hGap zeroGap = 0%num \/ hGap zeroGap = NaN ->
           H_MARGIN zeroGap = 260%num
           /\ H_MARGIN zeroGap <> hGap DEFAULT_CHEN_STYLE
           /\ Forall (fun '(component, depth) =>
                        let level :=
                          fun d => filter (fun r => depthOf nodes depth r = d) component in
                        let levels := buildLevels nodes depth component in
                        let orderedDepths := orderedDepthsOf levels in
                        let xByDepth := assignLevelX 260%num nodes levels orderedDepths in
                        (exists base : num, forall r, r ∈ component ->
                           bn_x (deref placed r)
                           = (base + getOr0 xByDepth (depthOf nodes depth r)
                              + offsetX (bn_nodeStyle (deref placed r)))%num)
                        /\ (forall d, orderedDepths !! 0%nat = Some d ->
                                      getOr0 xByDepth d = 0%num)
                        /\ forall i prev d,
                             orderedDepths !! i = Some prev ->
                             orderedDepths !! S i = Some d ->
                             xByDepth !! d
                             = Some (getOr0 xByDepth prev
                                     + maxEnvelopeX nodes (level prev)
                                     + maxEnvelopeX nodes (level d)
                                     + 260)%num)
                     componentsWithDepths)
          /\ (vGap zeroGap = 0%num \/ vGap zeroGap = NaN ->
              V_MARGIN zeroGap = 170%num
              /\ V_MARGIN zeroGap <> vGap DEFAULT_CHEN_STYLE
              /\ Forall (fun '(component, depth) =>
                           forall d,
                             let sorted :=
                               sortLevel asciiCompare nodes
                                 (filter (fun r => depthOf nodes depth r = d) component) in
                             Forall2 (fun r y =>
                                        bn_y (deref placed r)
                                        = (y + offsetY (bn_nodeStyle (deref placed r)))%num)
                               sorted (stackedY 170%num (envY nodes <$> sorted)))
                        componentsWithDepths).
Proof.
  split; [split; reflexivity|].
  eexists. eexists. split; [vm_compute; reflexivity|]. split; [vm_compute; reflexivity|].
  apply (gap_fallback_in_layout asciiCompare (modelFuel usersOrders) usersOrders zeroGap ∅);
    vm_compute; reflexivity.
Defined.

(** ** The texts of the document *)



Lemma delimiters_app s t : delimiters (s +:+ t) = delimiters s ++ delimiters t.
Proof. unfold delimiters. now rewrite chars_app, List.filter_app. Qed.




Lemma delimiters_uint d : delimiters (NilEmpty.string_of_uint d) = [].
Proof. induction d; cbn [NilEmpty.string_of_uint]; [reflexivity|exact IHd..]. Qed.

Lemma delimiters_nilzero d : delimiters (NilZero.string_of_uint d) = [].
Proof.
  unfold NilZero.string_of_uint. destruct d; try reflexivity; apply (delimiters_uint (_ _)).
Qed.

Lemma delimiters_Z z : delimiters (Z_to_string z) = [].
Proof.
  unfold Z_to_string, NilZero.string_of_int.
  destruct (Z.to_int z) as [d|d]; [apply delimiters_nilzero|].
  change (String "-" (NilZero.string_of_uint d))
    with ("-" +:+ NilZero.string_of_uint d).
  now rewrite delimiters_app, delimiters_nilzero.
Qed.


Lemma delimiters_pad3 s : delimiters s = [] -> delimiters (pad3 s) = [].
Proof.
  intros H. unfold pad3.
  destruct (String.length s) as [|[|[|n]]]; rewrite ?delimiters_app, ?H; reflexivity.
Qed.

Section Numbers.

Variable fracToString : Q -> string.
Hypothesis plain : plainNumbers fracToString.




End Numbers.


Section Relabel.

Variable fracToString : Q -> string.
Hypothesis plain : plainNumbers fracToString.





End Relabel.

Lemma sampleFraction_plain : plainNumbers sampleFraction.
Proof.
  intros x. unfold sampleFraction. cbv zeta.
  rewrite !delimiters_app, delimiters_pad3, !delimiters_Z by apply delimiters_Z.
  destruct (negb (Qle_bool 0 x)); reflexivity.
Qed.

Section DocumentTexts.

Variables Math_cos Math_sin : num -> num.
Variable Math_atan2 : num -> num -> num.
Variable localeCompare : string -> string -> num.
Variable fracToString : Q -> string.


End DocumentTexts.
